(** * BVV tournament scraper: a shallow embedding of [main.py]

    The development follows the layout of the program: Python values and
    dictionaries, the text codecs and the JSON layer behind
    [__dump_to_json] / [__load_from_json], the SHA-256 digest behind
    [__generate_uid_from_tournament], the console dialogue, the scraper,
    the mail notifier and the orchestrator [__parse_intro].  Effects
    (console, files, network) are threaded through an explicit world
    with an event trace. *)

From Stdlib Require Import String Ascii.
From Stdlib Require Import ZArith NArith List Bool Lia Arith Sorted Permutation.
Import ListNotations.

Set Warnings "-register-all".
Local Open Scope list_scope.

(** ** Python text

    A Python [str] is a sequence of code points.  ASCII literals are
    written with [u]; other characters are given by their code point. *)

Definition str := list N.

Definition u (s : string) : str :=
  map N_of_ascii (list_ascii_of_string s).

Fixpoint str_eqb (a b : str) : bool :=
  match a, b with
  | [], [] => true
  | x :: a', y :: b' => N.eqb x y && str_eqb a' b'
  | _, _ => false
  end.

(** Lexicographic order on code points, the order of [sorted] on [str]. *)
Fixpoint str_ltb (a b : str) : bool :=
  match a, b with
  | [], [] => false
  | [], _ :: _ => true
  | _ :: _, [] => false
  | x :: a', y :: b' =>
      if N.ltb x y then true
      else if N.ltb y x then false
      else str_ltb a' b'
  end.

Definition str_in (s : str) (l : list str) : bool := existsb (str_eqb s) l.

(** [''.join(l)] *)
Definition join (l : list str) : str := List.concat l.

(** [sep.join(l)] *)
Fixpoint join_with (sep : str) (l : list str) : str :=
  match l with
  | [] => []
  | [x] => x
  | x :: l' => x ++ sep ++ join_with sep l'
  end.

(** [str(n)] for a non-negative integer. *)
Fixpoint digits_fuel (fuel : nat) (n : N) (acc : str) : str :=
  match fuel with
  | O => acc
  | S f =>
      let acc' := (48 + n mod 10)%N :: acc in
      if (n <? 10)%N then acc' else digits_fuel f (n / 10)%N acc'
  end.

Definition str_of_N (n : N) : str := digits_fuel (S (N.to_nat (N.log2 n))) n [].

Definition str_of_Z (z : Z) : str :=
  if (z <? 0)%Z then 45%N :: str_of_N (Z.to_N (- z)) else str_of_N (Z.to_N z).

(** [s.lower()], on the ASCII letters; the program only compares the
    result with ASCII words ("yes", "y", "no", "n", "x"). *)
Definition lower_char (c : N) : N :=
  if ((65 <=? c) && (c <=? 90))%N then (c + 32)%N else c.

Definition lower (s : str) : str := map lower_char s.

(** The characters [str.strip()] removes: Unicode white space. *)
Definition is_space (c : N) : bool :=
  (((9 <=? c) && (c <=? 13)) || ((28 <=? c) && (c <=? 32))
   || (c =? 133) || (c =? 160) || (c =? 5760)
   || ((8192 <=? c) && (c <=? 8202))
   || (c =? 8232) || (c =? 8233) || (c =? 8239) || (c =? 8287)
   || (c =? 12288))%N.

Fixpoint lstrip (s : str) : str :=
  match s with
  | c :: s' => if is_space c then lstrip s' else s
  | [] => []
  end.

Definition strip (s : str) : str := rev (lstrip (rev (lstrip s))).

(** The ASCII decimal digits, and the number a string of them
    denotes. *)
Definition is_digit (c : N) : bool := ((48 <=? c) && (c <=? 57))%N.

Definition int_of_digits (s : str) : N :=
  fold_left (fun acc c => (10 * acc + (c - 48))%N) s 0%N.

(** ** Exceptions and results

    Only subclasses of [Exception] occur. *)

Inductive transport_failure :=
| ConnectionFailure (msg : str)
| AuthenticationFailure (msg : str)
| ProtocolFailure (msg : str).

Inductive exn :=
| KeyError (k : str)
| IndexError
| AttributeError
| TypeError
| ValueError
| EOFError
| NotImplementedError (msg : str)
| UnicodeEncodeError
| UnicodeDecodeError
| JSONDecodeError
| FileNotFoundError
| HTTPError
| SMTPError (f : transport_failure).

Inductive result (A : Type) :=
| Ok (a : A)
| Raise (e : exn).
Arguments Ok {A} a.
Arguments Raise {A} e.

Definition rbind {A B} (r : result A) (k : A -> result B) : result B :=
  match r with Ok a => k a | Raise e => Raise e end.

Definition is_ok {A} (r : result A) : bool :=
  match r with Ok _ => true | Raise _ => false end.

(** [str(e)], as printed by [f"An error occurred: {e}"]. *)
Definition transport_failure_msg (f : transport_failure) : str :=
  match f with
  | ConnectionFailure m | AuthenticationFailure m | ProtocolFailure m => m
  end.

Definition str_of_exn (e : exn) : str :=
  match e with
  | KeyError k => u "'" ++ k ++ u "'"
  | IndexError => u "list index out of range"
  | AttributeError => u "'NoneType' object has no attribute 'text'"
  | TypeError => u "unsupported operand"
  | ValueError => u "invalid literal for int() with base 10"
  | EOFError => u "EOF when reading a line"
  | NotImplementedError m => m
  | UnicodeEncodeError => u "'utf-8' codec can't encode character"
  | UnicodeDecodeError => u "codec can't decode byte"
  | JSONDecodeError => u "Expecting value"
  | FileNotFoundError => u "No such file or directory"
  | HTTPError => u "HTTP error"
  | SMTPError f => transport_failure_msg f
  end.

(** ** Python values and dictionaries

    A [dict] keeps its items in insertion order, with unique keys.  The
    flag of [PDict] tells a [defaultdict(dict)] from a plain [dict]. *)

Inductive pykey :=
| KInt (z : Z)
| KStr (s : str).

Definition pykey_eqb (a b : pykey) : bool :=
  match a, b with
  | KInt x, KInt y => Z.eqb x y
  | KStr x, KStr y => str_eqb x y
  | _, _ => false
  end.

Definition dict (V : Type) := list (pykey * V).

Section Dict.
Context {V : Type}.

Fixpoint dict_get (k : pykey) (d : dict V) : option V :=
  match d with
  | [] => None
  | (k', v) :: d' => if pykey_eqb k k' then Some v else dict_get k d'
  end.

(** [d[k] = v]: an existing key keeps its position. *)
Fixpoint dict_set (k : pykey) (v : V) (d : dict V) : dict V :=
  match d with
  | [] => [(k, v)]
  | (k', v') :: d' =>
      if pykey_eqb k k' then (k', v) :: d' else (k', v') :: dict_set k v d'
  end.

Definition dict_keys (d : dict V) : list pykey := map fst d.
Definition dict_values (d : dict V) : list V := map snd d.

Definition dict_mem (k : pykey) (d : dict V) : bool :=
  existsb (pykey_eqb k) (dict_keys d).

(** The invariant of a Python dictionary. *)
Definition wf_dict (d : dict V) : Prop := NoDup (dict_keys d).
End Dict.

Inductive pyval :=
| PNone
| PBool (b : bool)
| PInt (z : Z)
| PFloat (repr : str)
| PStr (s : str)
| PList (l : list pyval)
| PDict (dflt : bool) (items : list (pykey * pyval)).

(** [v[k]] *)
Definition py_getitem (v : pyval) (k : str) : result pyval :=
  match v with
  | PDict dflt items =>
      match dict_get (KStr k) items with
      | Some x => Ok x
      | None => if dflt then Ok (PDict false []) else Raise (KeyError k)
      end
  | _ => Raise TypeError
  end.

(** [v.values()] and [v.keys()] *)
Definition py_values (v : pyval) : result (list pyval) :=
  match v with
  | PDict _ items => Ok (dict_values items)
  | _ => Raise AttributeError
  end.

Definition py_keys (v : pyval) : result (list pykey) :=
  match v with
  | PDict _ items => Ok (dict_keys items)
  | _ => Raise AttributeError
  end.

(** [s in values] for a [str] [s]: a string equals only a string. *)
Definition str_in_values (s : str) (vs : list pyval) : bool :=
  existsb (fun v => match v with PStr s' => str_eqb s s' | _ => false end) vs.

(** ** Text codecs

    Files hold bytes.  [__dump_to_json] opens its file with
    [encoding='utf-8']; [__load_from_json] opens it with the platform's
    preferred encoding, which is UTF-8 on most systems and a legacy code
    page such as cp1252 on others. *)

Definition bytes := list N.

Inductive encoding :=
| UTF_8
| CP1252.

Definition is_surrogate (c : N) : bool := ((0xD800 <=? c) && (c <=? 0xDFFF))%N.

(** A code point UTF-8 can encode. *)
Definition is_scalar (c : N) : bool := (c <? 0x110000)%N && negb (is_surrogate c).

Definition utf8_encode_char (c : N) : result bytes :=
  (if c <? 0x80 then Ok [c]
   else if c <? 0x800 then Ok [0xC0 + c / 64; 0x80 + c mod 64]
   else if c <? 0x10000 then
     if is_surrogate c then Raise UnicodeEncodeError
     else Ok [0xE0 + c / 4096; 0x80 + (c / 64) mod 64; 0x80 + c mod 64]
   else if c <? 0x110000 then
     Ok [0xF0 + c / 262144; 0x80 + (c / 4096) mod 64;
         0x80 + (c / 64) mod 64; 0x80 + c mod 64]
   else Raise UnicodeEncodeError)%N.

(** [s.encode()] and [s.encode('utf-8')] *)
Fixpoint utf8_encode (s : str) : result bytes :=
  match s with
  | [] => Ok []
  | c :: s' =>
      rbind (utf8_encode_char c) (fun b =>
      rbind (utf8_encode s') (fun bs => Ok (b ++ bs)))
  end.

Definition is_cont (b : N) : bool := ((0x80 <=? b) && (b <=? 0xBF))%N.
Definition in_range (lo hi b : N) : bool := ((lo <=? b) && (b <=? hi))%N.

(** [b.decode('utf-8')], strict: no overlong forms, no surrogates,
    nothing above U+10FFFF. *)
Fixpoint utf8_decode (b : bytes) : result str :=
  match b with
  | [] => Ok []
  | b1 :: r1 =>
      if (b1 <? 0x80)%N then rbind (utf8_decode r1) (fun s => Ok (b1 :: s))
      else if in_range 0xC2 0xDF b1 then
        match r1 with
        | b2 :: r2 =>
            if is_cont b2 then
              rbind (utf8_decode r2) (fun s =>
                Ok (((b1 - 0xC0) * 64 + (b2 - 0x80))%N :: s))
            else Raise UnicodeDecodeError
        | _ => Raise UnicodeDecodeError
        end
      else if in_range 0xE0 0xEF b1 then
        match r1 with
        | b2 :: b3 :: r3 =>
            if in_range (if (b1 =? 0xE0)%N then 0xA0 else 0x80)
                        (if (b1 =? 0xED)%N then 0x9F else 0xBF) b2
               && is_cont b3 then
              rbind (utf8_decode r3) (fun s =>
                Ok (((b1 - 0xE0) * 4096 + (b2 - 0x80) * 64 + (b3 - 0x80))%N :: s))
            else Raise UnicodeDecodeError
        | _ => Raise UnicodeDecodeError
        end
      else if in_range 0xF0 0xF4 b1 then
        match r1 with
        | b2 :: b3 :: b4 :: r4 =>
            if in_range (if (b1 =? 0xF0)%N then 0x90 else 0x80)
                        (if (b1 =? 0xF4)%N then 0x8F else 0xBF) b2
               && is_cont b3 && is_cont b4 then
              rbind (utf8_decode r4) (fun s =>
                Ok (((b1 - 0xF0) * 262144 + (b2 - 0x80) * 4096
                     + (b3 - 0x80) * 64 + (b4 - 0x80))%N :: s))
            else Raise UnicodeDecodeError
        | _ => Raise UnicodeDecodeError
        end
      else Raise UnicodeDecodeError
  end.

(** The upper half of code page 1252, bytes 0x80 to 0x9F; five bytes
    are unassigned. *)
Definition cp1252_high : list (option N) :=
  [Some 0x20AC; None; Some 0x201A; Some 0x0192; Some 0x201E; Some 0x2026;
   Some 0x2020; Some 0x2021; Some 0x02C6; Some 0x2030; Some 0x0160;
   Some 0x2039; Some 0x0152; None; Some 0x017D; None;
   None; Some 0x2018; Some 0x2019; Some 0x201C; Some 0x201D; Some 0x2022;
   Some 0x2013; Some 0x2014; Some 0x02DC; Some 0x2122; Some 0x0161;
   Some 0x203A; Some 0x0153; None; Some 0x017E; Some 0x0178]%N.

Definition cp1252_decode_char (b : N) : result N :=
  if in_range 0x80 0x9F b then
    match nth (N.to_nat (b - 0x80)) cp1252_high None with
    | Some c => Ok c
    | None => Raise UnicodeDecodeError
    end
  else if (b <? 0x100)%N then Ok b
  else Raise UnicodeDecodeError.

Fixpoint cp1252_decode (b : bytes) : result str :=
  match b with
  | [] => Ok []
  | x :: b' =>
      rbind (cp1252_decode_char x) (fun c =>
      rbind (cp1252_decode b') (fun s => Ok (c :: s)))
  end.

Definition decode (enc : encoding) (b : bytes) : result str :=
  match enc with
  | UTF_8 => utf8_decode b
  | CP1252 => cp1252_decode b
  end.

(** ** SHA-256 ([hashlib.sha256], FIPS 180-4) on 32-bit words *)

Module SHA256.
Local Open Scope N_scope.

Definition w32 (x : N) : N := x mod 0x100000000.
Definition add32 (a b : N) : N := w32 (a + b).
Definition rotr (n x : N) : N := w32 (N.lor (N.shiftr x n) (N.shiftl x (32 - n))).
Definition not32 (x : N) : N := N.lxor x 0xFFFFFFFF.

Definition Ch (x y z : N) : N := N.lxor (N.land x y) (N.land (not32 x) z).
Definition Maj (x y z : N) : N :=
  N.lxor (N.lxor (N.land x y) (N.land x z)) (N.land y z).
Definition Sigma0 (x : N) : N := N.lxor (N.lxor (rotr 2 x) (rotr 13 x)) (rotr 22 x).
Definition Sigma1 (x : N) : N := N.lxor (N.lxor (rotr 6 x) (rotr 11 x)) (rotr 25 x).
Definition sigma0 (x : N) : N := N.lxor (N.lxor (rotr 7 x) (rotr 18 x)) (N.shiftr x 3).
Definition sigma1 (x : N) : N := N.lxor (N.lxor (rotr 17 x) (rotr 19 x)) (N.shiftr x 10).

(** The round constants are the first 32 bits of the fractional parts
    of the cube roots of the first 64 primes, and the initial hash
    value comes in the same way from the square roots of the first 8. *)
Definition primes : list N :=
  [2; 3; 5; 7; 11; 13; 17; 19; 23; 29; 31; 37; 41; 43; 47; 53; 59; 61; 67; 71;
   73; 79; 83; 89; 97; 101; 103; 107; 109; 113; 127; 131; 137; 139; 149; 151;
   157; 163; 167; 173; 179; 181; 191; 193; 197; 199; 211; 223; 227; 229; 233;
   239; 241; 251; 257; 263; 269; 271; 277; 281; 283; 293; 307; 311].

(** The integer cube root, built bit by bit from bit [bits - 1] down. *)
Fixpoint cube_root (bits : nat) (n r : N) : N :=
  match bits with
  | O => r
  | S b =>
      let r' := r + N.shiftl 1 (N.of_nat b) in
      cube_root b n (if r' * r' * r' <=? n then r' else r)
  end.

Definition frac_cube_root (q : N) : N := w32 (cube_root 40 (q * N.shiftl 1 96) 0).
Definition frac_square_root (q : N) : N := w32 (N.sqrt (q * N.shiftl 1 64)).

Definition K : list N := Eval vm_compute in map frac_cube_root primes.

(** The eight working variables, also the chaining value. *)
Record state := mk_state { sa : N; sb : N; sc : N; sd : N;
                           se : N; sf : N; sg : N; sh : N }.

Definition H0 : state :=
  Eval vm_compute in
    mk_state (frac_square_root 2) (frac_square_root 3) (frac_square_root 5)
             (frac_square_root 7) (frac_square_root 11) (frac_square_root 13)
             (frac_square_root 17) (frac_square_root 19).

(** Padding: a 1 bit, zeros, and the bit length on 64 bits. *)
Definition be_bytes (n : nat) (x : N) : bytes :=
  map (fun i => (N.shiftr x (8 * N.of_nat i)) mod 256) (rev (seq 0 n)).

Definition pad (m : bytes) : bytes :=
  let l := N.of_nat (List.length m) in
  m ++ [0x80] ++ repeat 0 (N.to_nat ((119 - l mod 64) mod 64))
    ++ be_bytes 8 (8 * l).

Fixpoint words_of (fuel : nat) (b : bytes) : list N :=
  match fuel, b with
  | S f, b0 :: b1 :: b2 :: b3 :: r =>
      (b0 * 0x1000000 + b1 * 0x10000 + b2 * 0x100 + b3) :: words_of f r
  | _, _ => []
  end.

(** The message schedule, most recent word first. *)
Fixpoint extend (n : nat) (w : list N) : list N :=
  match n with
  | O => w
  | S n' =>
      let x := add32 (add32 (sigma1 (nth 1 w 0)) (nth 6 w 0))
                     (add32 (sigma0 (nth 14 w 0)) (nth 15 w 0)) in
      extend n' (x :: w)
  end.

Definition schedule (block : list N) : list N := rev (extend 48 (rev block)).

Definition round (s : state) (kw : N * N) : state :=
  let '(k, w) := kw in
  let t1 := add32 (add32 (add32 (sh s) (Sigma1 (se s)))
                         (add32 (Ch (se s) (sf s) (sg s)) k)) w in
  let t2 := add32 (Sigma0 (sa s)) (Maj (sa s) (sb s) (sc s)) in
  mk_state (add32 t1 t2) (sa s) (sb s) (sc s)
           (add32 (sd s) t1) (se s) (sf s) (sg s).

Definition compress (h : state) (block : list N) : state :=
  let s := fold_left round (combine K (schedule block)) h in
  mk_state (add32 (sa h) (sa s)) (add32 (sb h) (sb s))
           (add32 (sc h) (sc s)) (add32 (sd h) (sd s))
           (add32 (se h) (se s)) (add32 (sf h) (sf s))
           (add32 (sg h) (sg s)) (add32 (sh h) (sh s)).

Fixpoint blocks (fuel : nat) (w : list N) : list (list N) :=
  match fuel, w with
  | S f, _ :: _ => firstn 16 w :: blocks f (skipn 16 w)
  | _, _ => []
  end.

Definition digest (m : bytes) : state :=
  let p := pad m in
  let w := words_of (List.length p) p in
  fold_left compress (blocks (List.length w) w) H0.

Definition hex_digit (d : N) : N := if d <? 10 then 48 + d else 87 + d.

Definition hex_word (x : N) : str :=
  map (fun i => hex_digit ((N.shiftr x (4 * N.of_nat i)) mod 16)) (rev (seq 0 8)).

(** [.hexdigest()]: 64 lower-case hexadecimal digits. *)
Definition hexdigest (s : state) : str :=
  hex_word (sa s) ++ hex_word (sb s) ++ hex_word (sc s) ++ hex_word (sd s)
  ++ hex_word (se s) ++ hex_word (sf s) ++ hex_word (sg s) ++ hex_word (sh s).
End SHA256.

(** [hashlib.sha256(b).hexdigest()] *)
Definition sha256_hex (b : bytes) : str := SHA256.hexdigest (SHA256.digest b).

(** ** JSON text

    [json.dump(data, sort_keys=True, ensure_ascii=False, indent=4)] and
    [json.load], for the values the program stores and any document a
    file may hold. *)

Module Json.
Local Open Scope N_scope.

Definition hex_digit (d : N) : N := if d <? 10 then 48 + d else 87 + d.

(** [py_encode_basestring]: only the quote, the backslash and the
    control characters are escaped. *)
Definition escape_char (c : N) : str :=
  if c =? 34 then [92; 34]
  else if c =? 92 then [92; 92]
  else if c =? 10 then [92; 110]
  else if c =? 13 then [92; 114]
  else if c =? 9 then [92; 116]
  else if c =? 8 then [92; 98]
  else if c =? 12 then [92; 102]
  else if c <? 32 then [92; 117; 48; 48; hex_digit (c / 16); hex_digit (c mod 16)]
  else [c].

Definition quote (s : str) : str := [34] ++ flat_map escape_char s ++ [34].

(** A key as the encoder writes it. *)
Definition key_str (k : pykey) : str :=
  match k with
  | KStr s => s
  | KInt z => str_of_Z z
  end.

(** [sorted(dct.items())]: keys of one type only. *)
Definition key_lt (a b : pykey) : result bool :=
  match a, b with
  | KStr x, KStr y => Ok (str_ltb x y)
  | KInt x, KInt y => Ok (Z.ltb x y)
  | _, _ => Raise TypeError
  end.

Fixpoint insert_item {V} (x : pykey * V) (l : list (pykey * V))
  : result (list (pykey * V)) :=
  match l with
  | [] => Ok [x]
  | y :: l' =>
      rbind (key_lt (fst x) (fst y)) (fun lt =>
        if lt then Ok (x :: l)
        else rbind (insert_item x l') (fun r => Ok (y :: r)))
  end.

Fixpoint sort_items {V} (l : list (pykey * V)) : result (list (pykey * V)) :=
  match l with
  | [] => Ok []
  | x :: l' => rbind (sort_items l') (insert_item x)
  end.

Definition newline_indent (level : nat) : str := 10 :: repeat 32 (4 * level)%nat.

Definition bracket (op cl : N) (level : nat) (parts : list str) : str :=
  match parts with
  | [] => [op; cl]
  | _ => [op] ++ newline_indent (S level)
         ++ join_with (44 :: newline_indent (S level)) parts
         ++ newline_indent level ++ [cl]
  end.

Definition member (kv : pykey * str) : str :=
  quote (key_str (fst kv)) ++ [58; 32] ++ snd kv.

Fixpoint dumps_at (level : nat) (v : pyval) {struct v} : result str :=
  match v with
  | PNone => Ok (u "null")
  | PBool true => Ok (u "true")
  | PBool false => Ok (u "false")
  | PInt z => Ok (str_of_Z z)
  | PFloat r => Ok r
  | PStr s => Ok (quote s)
  | PList l =>
      rbind ((fix go (l : list pyval) : result (list str) :=
                match l with
                | [] => Ok []
                | x :: l' =>
                    rbind (dumps_at (S level) x) (fun t =>
                    rbind (go l') (fun r => Ok (t :: r)))
                end) l)
            (fun parts => Ok (bracket 91 93 level parts))
  | PDict _ items =>
      rbind ((fix go (l : list (pykey * pyval)) : result (list (pykey * str)) :=
                match l with
                | [] => Ok []
                | (k, x) :: l' =>
                    rbind (dumps_at (S level) x) (fun t =>
                    rbind (go l') (fun r => Ok ((k, t) :: r)))
                end) items)
            (fun enc =>
             rbind (sort_items enc) (fun sorted =>
             Ok (bracket 123 125 level (map member sorted))))
  end.

Definition dumps (v : pyval) : result str := dumps_at 0 v.

(** *** The chunks of [iterencode]

    [json.dump] writes the text chunk by chunk, as the generator of
    [_make_iterencode] yields it.  A generator gives the chunks it
    yielded and the exception that ended it, if any. *)

(** [yield from b] after [a] *)
Definition then_yield (a b : list str * option exn) : list str * option exn :=
  match snd a with
  | Some _ => a
  | None => (fst a ++ fst b, snd b)
  end.

(** The text of a value that is written in one piece. *)
Definition scalar_text (v : pyval) : option str :=
  match v with
  | PNone => Some (u "null")
  | PBool true => Some (u "true")
  | PBool false => Some (u "false")
  | PInt z => Some (str_of_Z z)
  | PFloat r => Some r
  | PStr s => Some (quote s)
  | PList _ | PDict _ _ => None
  end.

(** The loop of [_iterencode_list]: the opening bracket or the
    separator goes with a scalar in one chunk. *)
Fixpoint list_chunks (enc : pyval -> list str * option exn) (opening sep : str)
    (first : bool) (l : list pyval) : list str * option exn :=
  match l with
  | [] => ([], None)
  | x :: l' =>
      let buf := if first then opening else sep in
      then_yield
        match scalar_text x with
        | Some t => ([buf ++ t], None)
        | None => then_yield ([buf], None) (enc x)
        end
        (list_chunks enc opening sep false l')
  end.

(** The loop of [_iterencode_dict] over the sorted items. *)
Fixpoint dict_chunks (sep : str) (first : bool)
    (l : list (pykey * (list str * option exn))) : list str * option exn :=
  match l with
  | [] => ([], None)
  | (k, v) :: l' =>
      then_yield
        ((if first then [] else [sep]) ++ [quote (key_str k); [58; 32]], None)
        (then_yield v (dict_chunks sep false l'))
  end.

(** [_iterencode] at nesting depth [level].  A dictionary yields the
    brace and the indentation, sorts its items, which fails for keys
    of different types, and goes through them.  What the values of the
    items yield is laid out here before the items are sorted; of that
    only the part up to the first failure is kept, as in the
    generator, which stops there. *)
Fixpoint iterencode_at (level : nat) (v : pyval) {struct v}
  : list str * option exn :=
  match v with
  | PList [] => ([[91; 93]], None)
  | PList l =>
      then_yield
        (list_chunks (iterencode_at (S level)) (91 :: newline_indent (S level))
           (44 :: newline_indent (S level)) true l)
        ([newline_indent level; [93]], None)
  | PDict _ [] => ([[123; 125]], None)
  | PDict _ items =>
      then_yield ([[123]; newline_indent (S level)], None)
        match sort_items
                (map (fun kv => (fst kv, iterencode_at (S level) (snd kv)))
                     items) with
        | Raise e => ([], Some e)
        | Ok sorted =>
            then_yield (dict_chunks (44 :: newline_indent (S level)) true sorted)
                       ([newline_indent level; [125]], None)
        end
  | _ =>
      match scalar_text v with
      | Some t => ([t], None)
      | None => ([], None)
      end
  end.

Definition iterencode (v : pyval) : list str * option exn := iterencode_at 0 v.

(** *** Decoding *)

Definition is_ws (c : N) : bool := (c =? 32) || (c =? 9) || (c =? 10) || (c =? 13).

Fixpoint skip_ws (s : str) : str :=
  match s with
  | c :: s' => if is_ws c then skip_ws s' else s
  | [] => []
  end.

Definition hex_val (c : N) : option N :=
  if (48 <=? c) && (c <=? 57) then Some (c - 48)
  else if (97 <=? c) && (c <=? 102) then Some (c - 87)
  else if (65 <=? c) && (c <=? 70) then Some (c - 55)
  else None.

Definition hex4 (a b c d : N) : option N :=
  match hex_val a, hex_val b, hex_val c, hex_val d with
  | Some x, Some y, Some z, Some w => Some (x * 4096 + y * 256 + z * 16 + w)
  | _, _, _, _ => None
  end.

Definition simple_escape (c : N) : option N :=
  if c =? 34 then Some 34
  else if c =? 92 then Some 92
  else if c =? 47 then Some 47
  else if c =? 98 then Some 8
  else if c =? 102 then Some 12
  else if c =? 110 then Some 10
  else if c =? 114 then Some 13
  else if c =? 116 then Some 9
  else None.

Definition cons_char (c : N) (r : result (str * str)) : result (str * str) :=
  rbind r (fun p => Ok (c :: fst p, snd p)).

(** [scanstring], strict, after the opening quote: the content and
    the text after the closing quote. *)
Fixpoint scanstring (s : str) : result (str * str) :=
  match s with
  | [] => Raise JSONDecodeError
  | c :: r =>
      if c =? 34 then Ok ([], r)
      else if c =? 92 then
        match r with
        | [] => Raise JSONDecodeError
        | e :: r1 =>
            if e =? 117 then
              match r1 with
              | h1 :: h2 :: h3 :: h4 :: r2 =>
                  match hex4 h1 h2 h3 h4 with
                  | None => Raise JSONDecodeError
                  | Some uni =>
                      if (0xD800 <=? uni) && (uni <=? 0xDBFF) then
                        match r2 with
                        | 92 :: 117 :: r3 =>
                            match r3 with
                            | k1 :: k2 :: k3 :: k4 :: r4 =>
                                match hex4 k1 k2 k3 k4 with
                                | None => Raise JSONDecodeError
                                | Some uni2 =>
                                    if (0xDC00 <=? uni2) && (uni2 <=? 0xDFFF) then
                                      cons_char (0x10000 + (uni - 0xD800) * 1024
                                                 + (uni2 - 0xDC00))
                                                (scanstring r4)
                                    else cons_char uni (scanstring r2)
                                end
                            | _ => Raise JSONDecodeError
                            end
                        | _ => cons_char uni (scanstring r2)
                        end
                      else cons_char uni (scanstring r2)
                  end
              | _ => Raise JSONDecodeError
              end
            else
              match simple_escape e with
              | Some x => cons_char x (scanstring r1)
              | None => Raise JSONDecodeError
              end
        end
      else if c <? 32 then Raise JSONDecodeError
      else cons_char c (scanstring r)
  end.

(** Numbers: an optional minus sign, an integer part without a leading
    zero, an optional fraction and an optional exponent. *)
Fixpoint span_digits (s : str) : str * str :=
  match s with
  | c :: s' =>
      if is_digit c then let (d, r) := span_digits s' in (c :: d, r)
      else ([], s)
  | [] => ([], [])
  end.

Definition scan_int (s : str) : option (str * str) :=
  match s with
  | 48 :: r => Some ([48], r)
  | c :: _ => if is_digit c then Some (span_digits s) else None
  | [] => None
  end.

Definition scan_frac (s : str) : str * str :=
  match s with
  | 46 :: r =>
      match span_digits r with
      | ([], _) => ([], s)
      | (d, r') => (46 :: d, r')
      end
  | _ => ([], s)
  end.

Definition scan_exp (s : str) : str * str :=
  match s with
  | e :: r =>
      if (e =? 101) || (e =? 69) then
        let (sign, r1) :=
          match r with
          | c :: r' => if (c =? 43) || (c =? 45) then ([c], r') else ([], r)
          | [] => ([], r)
          end in
        match span_digits r1 with
        | ([], _) => ([], s)
        | (d, r2) => (e :: sign ++ d, r2)
        end
      else ([], s)
  | [] => ([], s)
  end.

Definition scan_number (s : str) : option (pyval * str) :=
  let (neg, s1) := match s with 45 :: r => (true, r) | _ => (false, s) end in
  match scan_int s1 with
  | None => None
  | Some (i, r) =>
      let (fr, r1) := scan_frac r in
      let (ex, r2) := scan_exp r1 in
      match fr, ex with
      | [], [] =>
          let n := Z.of_N (int_of_digits i) in
          Some (PInt (if neg then (- n)%Z else n), r2)
      | _, _ => Some (PFloat ((if neg then [45] else []) ++ i ++ fr ++ ex), r2)
      end
  end.

Fixpoint strip_prefix (p s : str) : option str :=
  match p, s with
  | [], _ => Some s
  | x :: p', y :: s' => if x =? y then strip_prefix p' s' else None
  | _ :: _, [] => None
  end.

Definition scan_literal (s : str) : option (pyval * str) :=
  match strip_prefix (u "null") s with
  | Some r => Some (PNone, r)
  | None =>
  match strip_prefix (u "true") s with
  | Some r => Some (PBool true, r)
  | None =>
  match strip_prefix (u "false") s with
  | Some r => Some (PBool false, r)
  | None =>
  match scan_number s with
  | Some x => Some x
  | None =>
  match strip_prefix (u "NaN") s with
  | Some r => Some (PFloat (u "NaN"), r)
  | None =>
  match strip_prefix (u "Infinity") s with
  | Some r => Some (PFloat (u "Infinity"), r)
  | None =>
  match strip_prefix (u "-Infinity") s with
  | Some r => Some (PFloat (u "-Infinity"), r)
  | None => None
  end end end end end end end.

(** [dict(pairs)]: a repeated key keeps its first position and its
    last value. *)
Definition dict_of_pairs (pairs : list (pykey * pyval)) : list (pykey * pyval) :=
  fold_left (fun d kv => dict_set (fst kv) (snd kv) d) pairs [].

(** [scan_once], [JSONObject] and [JSONArray].  Every call consumes
    a character before it recurses, so fuel beyond the length of the
    text is never used. *)
Fixpoint scan_once (fuel : nat) (s : str) : result (pyval * str) :=
  match fuel with
  | O => Raise JSONDecodeError
  | S f =>
      match s with
      | [] => Raise JSONDecodeError
      | c :: r =>
          if c =? 34 then
            rbind (scanstring r) (fun p => Ok (PStr (fst p), snd p))
          else if c =? 123 then
            match skip_ws r with
            | 125 :: r' => Ok (PDict false [], r')
            | 34 :: r' =>
                rbind (object_members f [] r') (fun p =>
                  Ok (PDict false (dict_of_pairs (fst p)), snd p))
            | _ => Raise JSONDecodeError
            end
          else if c =? 91 then
            match skip_ws r with
            | 93 :: r' => Ok (PList [], r')
            | r' => rbind (array_items f [] r') (fun p => Ok (PList (fst p), snd p))
            end
          else
            match scan_literal s with
            | Some x => Ok x
            | None => Raise JSONDecodeError
            end
      end
  end

(** after the opening quote of a key *)
with object_members (fuel : nat) (acc : list (pykey * pyval)) (s : str)
  : result (list (pykey * pyval) * str) :=
  match fuel with
  | O => Raise JSONDecodeError
  | S f =>
      rbind (scanstring s) (fun ks =>
      match skip_ws (snd ks) with
      | 58 :: r =>
          rbind (scan_once f (skip_ws r)) (fun vr =>
          let acc' := acc ++ [(KStr (fst ks), fst vr)] in
          match skip_ws (snd vr) with
          | 125 :: r' => Ok (acc', r')
          | 44 :: r' =>
              match skip_ws r' with
              | 34 :: r'' => object_members f acc' r''
              | _ => Raise JSONDecodeError
              end
          | _ => Raise JSONDecodeError
          end)
      | _ => Raise JSONDecodeError
      end)
  end

with array_items (fuel : nat) (acc : list pyval) (s : str)
  : result (list pyval * str) :=
  match fuel with
  | O => Raise JSONDecodeError
  | S f =>
      rbind (scan_once f s) (fun vr =>
      let acc' := acc ++ [fst vr] in
      match skip_ws (snd vr) with
      | 93 :: r' => Ok (acc', r')
      | 44 :: r' => array_items f acc' (skip_ws r')
      | _ => Raise JSONDecodeError
      end)
  end.

(** [json.loads]: no byte order mark, one value, nothing after it. *)
Definition loads (s : str) : result pyval :=
  match s with
  | 0xFEFF :: _ => Raise JSONDecodeError
  | _ =>
      rbind (scan_once (S (List.length s)) (skip_ws s)) (fun p =>
        match skip_ws (snd p) with
        | [] => Ok (fst p)
        | _ => Raise JSONDecodeError
        end)
  end.
End Json.

(** ** Tournaments and snapshots

    [type TournamentType = dict[str, str]]; a snapshot maps the id of a
    tournament to the tournament. *)

Definition TournamentType := dict str.
Definition snapshot := dict TournamentType.

Definition pyval_of_tournament (t : TournamentType) : pyval :=
  PDict false (map (fun kv => (fst kv, PStr (snd kv))) t).

Definition pyval_of_snapshot (s : snapshot) : pyval :=
  PDict false (map (fun kv => (fst kv, pyval_of_tournament (snd kv))) s).

(** [a == b] on values: dictionaries compare as mappings, whatever the
    order of their items and whatever their class. *)
Fixpoint py_eqb (a b : pyval) {struct a} : bool :=
  match a, b with
  | PNone, PNone => true
  | PBool x, PBool y => Bool.eqb x y
  | PInt x, PInt y => Z.eqb x y
  | PFloat x, PFloat y => str_eqb x y
  | PStr x, PStr y => str_eqb x y
  | PList x, PList y =>
      (fix go (x y : list pyval) {struct x} : bool :=
         match x, y with
         | [], [] => true
         | v :: x', w :: y' => py_eqb v w && go x' y'
         | _, _ => false
         end) x y
  | PDict _ x, PDict _ y =>
      Nat.eqb (List.length x) (List.length y)
      && (fix go (x : list (pykey * pyval)) : bool :=
            match x with
            | [] => true
            | (k, v) :: x' =>
                match dict_get k y with
                | Some w => py_eqb v w && go x'
                | None => false
                end
            end) x
  | _, _ => false
  end.

(** ** The world: console, files, network *)

Definition USER_CONFIG_JSON_NAME : str := u "user-config.json".
Definition TOURNAMENT_JSON_NAME : str := u "tournament-data.json".

(** One [div] of the tournament page: its [h3] heading and the rows of
    its [tbody], each row the texts of its [td] cells. *)
Record class_tag := mk_tag {
  tag_h3 : option str;
  tag_tbody : option (list (list str))
}.

(** ** The mail libraries

    [__send_email] calls into [email], [ssl] and [smtplib].  What such a
    call does is not in the program: the environment answers it, by
    letting it return or by raising an exception in it. *)

(** The message object of line 278 with the headers of lines 282-284;
    a header holds whatever the configuration holds. *)
Record mime_message := mk_message {
  msg_text : str;
  msg_subject : str;
  msg_from : pyval;
  msg_to : pyval
}.

(** The calls of lines 278-296 with their arguments.  [CallSMTP host]
    is the constructor with port 587 and a timeout of ten seconds;
    [CallEhlo n] is the [n]-th of the three [ehlo()]; the message given
    to [sendmail] is the text [msg.as_string()] returned; [CallExit] is
    [SMTP.__exit__] when the block of the [with] is left by an
    exception: it sends QUIT if the connection is still open. *)
Inductive mail_call :=
| CallMIMEText (text : str)
| CallCreateDefaultContext
| CallSMTP (host : pyval)
| CallEhlo (n : nat)
| CallStarttls
| CallLogin (user password : pyval)
| CallAsString (msg : mime_message)
| CallSendmail (from to : pyval) (msg : mime_message)
| CallQuit
| CallExit.

(** The calls of [smtplib], which may reach the network; the others
    build objects of the program. *)
Definition on_wire (c : mail_call) : bool :=
  match c with
  | CallMIMEText _ | CallCreateDefaultContext | CallAsString _ => false
  | _ => true
  end.

(** The mail libraries and the server behind them: the answer to each
    call, [None] when the call returns. *)
Record smtp_server := mk_smtp {
  smtp_answer : mail_call -> option transport_failure
}.

Inductive event :=
| EvPrint (s : str)
| EvInput (prompt : str)
| EvLoad (filename : str)
| EvDump (filename : str) (data : pyval)
| EvScrape (config : pyval)
| EvHttpGet
| EvKeysDiff (keys : list pykey)
| EvSendEmail (config : pyval) (data : list TournamentType)
| EvMail (c : mail_call).

Record world := mk_world {
  w_locale : encoding;
  w_stdin : list str;
  w_files : dict bytes;
  w_web : result (list class_tag);
  w_smtp : smtp_server;
  w_trace : list event
}.

(** The events of a run, oldest first. *)
Definition events (w : world) : list event := rev (w_trace w).

Definition set_stdin (i : list str) (w : world) : world :=
  mk_world (w_locale w) i (w_files w) (w_web w) (w_smtp w) (w_trace w).
Definition set_files (f : dict bytes) (w : world) : world :=
  mk_world (w_locale w) (w_stdin w) f (w_web w) (w_smtp w) (w_trace w).
Definition set_trace (t : list event) (w : world) : world :=
  mk_world (w_locale w) (w_stdin w) (w_files w) (w_web w) (w_smtp w) t.

(** Computations: a result or an exception, and the world after. *)
Definition M (A : Type) := world -> result A * world.

Definition ret {A} (a : A) : M A := fun w => (Ok a, w).
Definition raise {A} (e : exn) : M A := fun w => (Raise e, w).
Definition bind {A B} (c : M A) (k : A -> M B) : M B :=
  fun w => match c w with
           | (Ok a, w') => k a w'
           | (Raise e, w') => (Raise e, w')
           end.
Definition lift {A} (r : result A) : M A := fun w => (r, w).

(** [try: body except Exception as e: handler e] *)
Definition try_except {A} (body : M A) (handler : exn -> M A) : M A :=
  fun w => match body w with
           | (Ok a, w') => (Ok a, w')
           | (Raise e, w') => handler e w'
           end.

Notation "'do' x <- c ; k" := (bind c (fun x => k))
  (at level 10, x name, c at level 100, k at level 200).
Notation "c ;; k" := (bind c (fun _ => k))
  (at level 100, k at level 200, right associativity).
Notation "'let?' x := c 'in' k" := (rbind c (fun x => k))
  (at level 10, x name, c at level 100, k at level 200).

Definition emit (e : event) : M unit :=
  fun w => (Ok tt, set_trace (e :: w_trace w) w).

Definition print (s : str) : M unit := emit (EvPrint s).

(** [input(prompt)] *)
Definition input (prompt : str) : M str :=
  fun w =>
    let w1 := set_trace (EvInput prompt :: w_trace w) w in
    match w_stdin w with
    | [] => (Raise EOFError, w1)
    | l :: rest => (Ok l, set_stdin rest w1)
    end.

Definition isfile (name : str) : M bool :=
  fun w => (Ok (dict_mem (KStr name) (w_files w)), w).

(** [fp.write(chunk)] for each chunk: the bytes written, and the
    exception of the first chunk that cannot be encoded. *)
Fixpoint write_chunks (chunks : list str) : bytes * option exn :=
  match chunks with
  | [] => ([], None)
  | c :: r =>
      match utf8_encode c with
      | Raise e => ([], Some e)
      | Ok b => let (bs, e) := write_chunks r in (b ++ bs, e)
      end
  end.

(** [json.dump(data, fp=f, sort_keys=True, ensure_ascii=False,
    indent=4)]: how it ends, and what the file holds then. *)
Definition json_dump (data : pyval) : result unit * bytes :=
  let (chunks, stopped) := Json.iterencode data in
  let (written, refused) := write_chunks chunks in
  (match refused, stopped with
   | Some e, _ => Raise e
   | None, Some e => Raise e
   | None, None => Ok tt
   end, written).

(** [__dump_to_json]: the file is opened for writing, which empties
    it, and receives the UTF-8 encoding of the chunks of the JSON
    text; it is closed, with what was written, also when the dump
    fails. *)
Definition __dump_to_json (data : pyval) (filename : str) : M unit :=
  emit (EvDump filename data) ;;
  fun w =>
    let (r, written) := json_dump data in
    (r, set_files (dict_set (KStr filename) written (w_files w)) w).

(** [__load_from_json]: the file is opened with the platform's
    preferred encoding. *)
Definition __load_from_json (filename : str) : M pyval :=
  emit (EvLoad filename) ;;
  fun w =>
    match dict_get (KStr filename) (w_files w) with
    | None => (Raise FileNotFoundError, w)
    | Some b => (let? text := decode (w_locale w) b in Json.loads text, w)
    end.

(** ** The menus: [PlayingStyle] and [TournamentClass]

    An enumeration is the list of its members, name and value, in the
    order of their definition. *)

Definition VolleyballEnumType := list (str * str).

Definition PlayingStyle : VolleyballEnumType :=
  [(u "MEN", u "M" ++ [228%N] ++ u "nner");
   (u "WOMEN", u "Frauen");
   (u "MIXED", u "Mixed")].

Definition TournamentClass : VolleyballEnumType :=
  [(u "KAT_1_PLUS", u "BVV Beach Masters (Kat.1+)");
   (u "KAT_1", u "BVV Beach Masters (Kat.1)");
   (u "KAT_2", u "BVV Beach Masters (Kat.2)");
   (u "KAT_3_CUP_PLUS", u "BVV Beach K3 (Cup+)");
   (u "SONSTIGE_MIXED", u "sonstige Mixed");
   (u "EXPERT_MIXED", u "Expert - Mixed");
   (u "FREESTYLE", u "Freestyle");
   (u "BASIC", u "basic");
   (u "EXPERT", u "expert");
   (u "CUSTOM", u "custom")].

(** ** The console dialogue

    Each loop reads a line before it goes round again, so the loops
    are recursions on the lines still to be read; they return their
    result, the lines left and the trace. *)

Definition console (A : Type) : Type := result A * list str * list event.

Definition run_console {A} (f : list str -> list event -> console A) : M A :=
  fun w =>
    let '(r, inp, tr) := f (w_stdin w) (w_trace w) in
    (r, set_stdin inp (set_trace tr w)).

Definition is_yes (s : str) : bool :=
  str_in s [u "yes"; u "y"] || match s with [] => true | _ => false end.
Definition is_no (s : str) : bool := str_in s [u "no"; u "n"].

Definition yes_no_prompt : str := u "(Y)es/no" ++ [10%N].
Definition not_recognized : str := u "Given input not recognized. Please try again.".

Fixpoint yes_no_loop (inp : list str) (tr : list event) : console bool :=
  match inp with
  | [] => (Raise EOFError, [], EvInput yes_no_prompt :: tr)
  | l :: rest =>
      let tr1 := EvInput yes_no_prompt :: tr in
      let yes_no_str := strip (lower l) in
      if is_yes yes_no_str then (Ok true, rest, tr1)
      else if is_no yes_no_str then (Ok false, rest, tr1)
      else yes_no_loop rest (EvPrint not_recognized :: tr1)
  end.

Definition __yes_no_parser : M bool := run_console yes_no_loop.

(** [enumerate(enum, start)] printed one member a line. *)
Fixpoint enum_lines (enum : VolleyballEnumType) (idx : N) : list str :=
  match enum with
  | [] => []
  | (_, value) :: e' =>
      (u "(" ++ str_of_N idx ++ u ") " ++ value) :: enum_lines e' (idx + 1)%N
  end.

Definition __print_enum_selection (enum : VolleyballEnumType) (idx_count_start : N)
  : M unit :=
  print (join_with [10%N] (enum_lines enum idx_count_start)).

(** ** Digits

    [str.isdigit] and [int] follow the Unicode character database
    (version 15, the one of Python 3.12 and 3.13).  The decimal digits
    (general category Nd) come in runs of ten, from a zero to a nine;
    [decimal_zeros] lists the zeros.  The other characters with a digit
    value, superscripts and circled digits among them, are digits for
    [str.isdigit], and [int] refuses them. *)

Definition decimal_zeros : list N :=
  [48; 1632; 1776; 1984; 2406; 2534; 2662; 2790; 2918; 3046; 3174; 3302;
   3430; 3558; 3664; 3792; 3872; 4160; 4240; 6112; 6160; 6470; 6608; 6784;
   6800; 6992; 7088; 7232; 7248; 42528; 43216; 43264; 43472; 43504; 43600;
   44016; 65296; 66720; 68912; 69734; 69872; 69942; 70096; 70384; 70736;
   70864; 71248; 71360; 71472; 71904; 72016; 72784; 73040; 73120; 73552;
   92768; 92864; 93008; 120782; 120792; 120802; 120812; 120822; 123200;
   123632; 124144; 125264; 130032]%N.

Definition other_digits : list (N * N) :=
  [(178, 179); (185, 185); (4969, 4977); (6618, 6618); (8304, 8304);
   (8308, 8313); (8320, 8329); (9312, 9320); (9332, 9340); (9352, 9360);
   (9450, 9450); (9461, 9469); (9471, 9471); (10102, 10110);
   (10112, 10120); (10122, 10130); (68160, 68163); (69216, 69224);
   (69714, 69722); (127232, 127242)]%N.

Definition decimal_value (c : N) : option N :=
  match find (fun z => (z <=? c) && (c <? z + 10))%N decimal_zeros with
  | Some z => Some (c - z)%N
  | None => None
  end.

Definition is_unicode_digit (c : N) : bool :=
  match decimal_value c with
  | Some _ => true
  | None => existsb (fun r => (fst r <=? c) && (c <=? snd r))%N other_digits
  end.

(** [s.isdigit()] *)
Definition isdigit (s : str) : bool :=
  match s with [] => false | _ => forallb is_unicode_digit s end.

(** [sys.get_int_max_str_digits()], as the interpreter starts. *)
Definition int_max_str_digits : nat := 4300.

Fixpoint int_of_decimals (s : str) (acc : N) : result N :=
  match s with
  | [] => Ok acc
  | c :: s' =>
      match decimal_value c with
      | Some d => int_of_decimals s' (10 * acc + d)%N
      | None => Raise ValueError
      end
  end.

(** [int(s)] for a string [s] with [s.isdigit()]: a [ValueError] for a
    digit that is not decimal and for more digits than the limit. *)
Definition int_of_str (s : str) : result N :=
  if Nat.ltb int_max_str_digits (List.length s) then Raise ValueError
  else int_of_decimals s 0.

(** ** A [set] of non-negative integers

    [list(final_selection)] lists the set in the order of its hash
    table (CPython, [Objects/setobject.c]).  An integer below 2^61 - 1
    is its own hash.  The table has 8 slots at first; a new element
    goes to the first free slot on its probe sequence: the slot
    [hash & mask], the nine slots after it if they are all in the
    table, then the slot [(5 i + 1 + perturb) & mask] with [perturb]
    shifted right by five bits, and so on.  When five times the number
    of elements is no longer below three times the mask, the elements
    are moved, in table order, to a table whose size is the least
    power of two above four times their number (twice beyond 50000).
    The program removes no element. *)

Definition pyset := list (option N).

Definition empty_set : pyset := repeat None 8.

(** [list(s)] and [len(s)] *)
Definition set_list (s : pyset) : list N :=
  flat_map (fun x => match x with Some n => [n] | None => [] end) s.

Definition set_len (s : pyset) : nat := List.length (set_list s).

Definition set_mem (n : N) (s : pyset) : bool := existsb (N.eqb n) (set_list s).

Definition py_hash (n : N) : N := (n mod (2 ^ 61 - 1))%N.

Definition is_free (table : pyset) (j : nat) : bool :=
  match nth_error table j with
  | Some None => true
  | _ => false
  end.

(** The first free slot among [i], ..., [i + linear]. *)
Fixpoint first_free (table : pyset) (i linear : nat) : option nat :=
  if is_free table i then Some i
  else
    match linear with
    | O => None
    | S l => first_free table (S i) l
    end.

(** The search for a free slot.  In the code it is a loop without a
    bound; it ends because the table has free slots and the sequence
    comes to every slot.  [rounds] bounds the number of rounds. *)
Fixpoint probe (rounds : nat) (table : pyset) (mask perturb i : N) : option nat :=
  match rounds with
  | O => None
  | S r =>
      match first_free table (N.to_nat i) (if (i + 9 <=? mask)%N then 9 else 0) with
      | Some j => Some j
      | None =>
          let perturb' := (perturb / 32)%N in
          probe r table mask perturb' ((i * 5 + 1 + perturb') mod (mask + 1))%N
      end
  end.

(** [table[j] = n] *)
Fixpoint put (j : nat) (n : N) (table : pyset) : pyset :=
  match table, j with
  | [], _ => []
  | _ :: t, O => Some n :: t
  | x :: t, S j' => x :: put j' n t
  end.

Definition free_slot (table : pyset) (n : N) : option nat :=
  let mask := (N.of_nat (List.length table) - 1)%N in
  probe (List.length table + 14) table mask (py_hash n)
        (py_hash n mod (mask + 1))%N.

(** [set_insert_clean]: an element that is not in the table goes to
    its free slot.  (The last case is not reached: [free_slot_found]
    and [set_add_ok] below.) *)
Definition set_insert_clean (table : pyset) (n : N) : pyset :=
  match free_slot table n with
  | Some j => put j n table
  | None => table ++ [Some n]
  end.

Definition set_table_resize (table : pyset) (minused : N) : pyset :=
  let newsize := N.max 8 (2 ^ (N.log2 minused + 1)) in
  fold_left set_insert_clean (set_list table) (repeat None (N.to_nat newsize)).

(** [s.add(n)] *)
Definition set_add (n : N) (s : pyset) : pyset :=
  if set_mem n s then s
  else
    let t := set_insert_clean s n in
    let fill := N.of_nat (set_len t) in
    let mask := (N.of_nat (List.length t) - 1)%N in
    if (fill * 5 <? mask * 3)%N then t
    else set_table_resize t (if (50000 <? fill)%N then fill * 2 else fill * 4)%N.

Definition select_at_least_one : str := u "You have to select at least one item.".
Definition choose_a_number (num_entries : nat) : str :=
  u "You have to choose a number from the selection between 0 and "
  ++ str_of_Z (Z.of_nat num_entries - 1) ++ u ".".

Fixpoint parse_enum_selection_loop (num_entries : nat) (final_selection : pyset)
    (inp : list str) (tr : list event) {struct inp} : console (list N) :=
  if Nat.eqb (set_len final_selection) num_entries
  then (Ok (set_list final_selection), inp, tr)
  else
    match inp with
    | [] => (Raise EOFError, [], EvInput [] :: tr)
    | l :: rest =>
        let tr1 := EvInput [] :: tr in
        let selection := strip l in
        if str_eqb (lower (strip selection)) (u "x") then
          if Nat.eqb (set_len final_selection) 0
          then parse_enum_selection_loop num_entries final_selection rest
                 (EvPrint select_at_least_one :: tr1)
          else (Ok (set_list final_selection), rest, tr1)
        else if negb (isdigit selection)
        then parse_enum_selection_loop num_entries final_selection rest
               (EvPrint (choose_a_number num_entries) :: tr1)
        else
          match int_of_str selection with
          | Raise e => (Raise e, rest, tr1)
          | Ok n =>
              if (N.of_nat num_entries <=? n)%N
              then parse_enum_selection_loop num_entries final_selection rest
                     (EvPrint (choose_a_number num_entries) :: tr1)
              else parse_enum_selection_loop num_entries
                     (set_add n final_selection) rest tr1
          end
    end.

Definition select_prompt : str :=
  [10%N] ++ u "Select by typing the number and press ENTER after each selection or select X and press ENTER to finish your selection:".

Definition __parse_enum_selection (enum : VolleyballEnumType) : M (list N) :=
  print select_prompt ;;
  run_console (parse_enum_selection_loop (List.length enum) empty_set).

(** [list(enum)[idx]] *)
Definition enum_member (enum : VolleyballEnumType) (idx : N) : result (str * str) :=
  match nth_error enum (N.to_nat idx) with
  | Some m => Ok m
  | None => Raise IndexError
  end.

Fixpoint __get_entries_by_numbers (enum : VolleyballEnumType) (class_numbers : list N)
  : result (list (str * str)) :=
  match class_numbers with
  | [] => Ok []
  | idx :: l =>
      let? m := enum_member enum idx in
      let? r := __get_entries_by_numbers enum l in
      Ok (m :: r)
  end.

Fixpoint map_numbers_loop (enum : VolleyballEnumType) (entry_numbers : list N)
    (mapping : dict pyval) : result (dict pyval) :=
  match entry_numbers with
  | [] => Ok mapping
  | idx :: l =>
      let? m := enum_member enum idx in
      map_numbers_loop enum l (dict_set (KInt (Z.of_N idx)) (PStr (snd m)) mapping)
  end.

Definition __map_numbers_to_entry_values (enum : VolleyballEnumType)
    (entry_numbers : list N) : result pyval :=
  let? mapping := map_numbers_loop enum entry_numbers [] in
  Ok (PDict false mapping).

(** [config[k] = v] *)
Definition py_setitem (config : pyval) (k : str) (v : pyval) : result pyval :=
  match config with
  | PDict dflt items => Ok (PDict dflt (dict_set (KStr k) v items))
  | _ => Raise TypeError
  end.

(** [config[k1][k2] = v]: on a [defaultdict(dict)] a missing [k1] is
    created first. *)
Definition py_setitem2 (config : pyval) (k1 k2 : str) (v : pyval) : result pyval :=
  let? sub := py_getitem config k1 in
  let? sub' := py_setitem sub k2 v in
  py_setitem config k1 sub'.

Definition __parse_playing_style (config : pyval) : M pyval :=
  print (u "Choose one or multiple playing styles from the list:") ;;
  __print_enum_selection PlayingStyle 0 ;;
  do playing_style_numbers <- __parse_enum_selection PlayingStyle ;
  do mapping <- lift (__map_numbers_to_entry_values PlayingStyle playing_style_numbers) ;
  lift (py_setitem config (u "playingStyle") mapping).

(** [EMAIL_REGEX.fullmatch]: one [@], something before it, and after it
    a dot with something on either side. *)
Fixpoint dot_then_more (s : str) : bool :=
  match s with
  | 46%N :: _ :: _ => true
  | _ :: s' => dot_then_more s'
  | [] => false
  end.

Fixpoint email_fullmatch_from (seen : bool) (s : str) : bool :=
  match s with
  | [] => false
  | c :: s' =>
      if (c =? 64)%N then
        seen && negb (existsb (N.eqb 64) s')
        && match s' with _ :: d => dot_then_more d | [] => false end
      else email_fullmatch_from true s'
  end.

Definition email_fullmatch (s : str) : bool := email_fullmatch_from false s.

Definition email_prompt : str := u "Please enter your email address: ".
Definition invalid_email : str :=
  u "Invalid email address. Do you still want to continue with this email?".

(** The local function [parse_email_address]; its call of
    [__yes_no_parser] is the inner loop. *)
Fixpoint parse_email_address (inp : list str) (tr : list event) {struct inp}
  : console str :=
  match inp with
  | [] => (Raise EOFError, [], EvInput email_prompt :: tr)
  | from_email :: rest =>
      let tr1 := EvInput email_prompt :: tr in
      if email_fullmatch from_email then (Ok from_email, rest, tr1)
      else
        (fix yes_no (r : list str) (t : list event) {struct r} : console str :=
           match r with
           | [] => (Raise EOFError, [], EvInput yes_no_prompt :: t)
           | a :: r' =>
               let t1 := EvInput yes_no_prompt :: t in
               let yes_no_str := strip (lower a) in
               if is_yes yes_no_str then (Ok from_email, r', t1)
               else if is_no yes_no_str then parse_email_address r' t1
               else yes_no r' (EvPrint not_recognized :: t1)
           end) rest (EvPrint invalid_email :: tr1)
  end.

Definition __parse_email_details (config : pyval) : M pyval :=
  print ([10%N] ++ u "Do you want to receive email notifications about new tournaments?"
         ++ [10%N]) ;;
  do is_email_notification <- __yes_no_parser ;
  if negb is_email_notification then ret config
  else
    do from <- run_console parse_email_address ;
    do config <- lift (py_setitem2 config (u "email") (u "from") (PStr from)) ;
    do config <- lift (py_setitem2 config (u "email") (u "to") (PStr from)) ;
    print ([10%N] ++ u "This application uses your own email address to notify you. Hence, it needs your password, which will be stored in a config.json file with the rest of your input data.") ;;
    do password <- input (u "Please enter your email password: ") ;
    do config <- lift (py_setitem2 config (u "email") (u "password") (PStr password)) ;
    do email_host <- input (u "Type in the host name of your remote email provider, such as 'smtp.gmail.com' for Gmail." ++ [10%N]) ;
    do config <- lift (py_setitem2 config (u "email") (u "host") (PStr email_host)) ;
    print (u "Do you want to receive your tournament alert at another email address than your sender address?" ++ [10%N]) ;;
    do other <- __yes_no_parser ;
    if other then
      do to <- run_console parse_email_address ;
      lift (py_setitem2 config (u "email") (u "to") (PStr to))
    else ret config.

Definition __parse_tournament_classes (config : pyval) : M pyval :=
  print ([10%N] ++ u "Choose one or multiple tournament classes from the list or use the 'custom' option to define your own.") ;;
  __print_enum_selection TournamentClass 0 ;;
  do class_numbers <- __parse_enum_selection TournamentClass ;
  do tournament_classes <- lift (__get_entries_by_numbers TournamentClass class_numbers) ;
  if existsb (fun m => str_eqb (fst m) (u "CUSTOM")) tournament_classes then
    raise (NotImplementedError
             (u "The support for custom classes is currently not supported."))
  else
    do mapping <- lift (__map_numbers_to_entry_values TournamentClass class_numbers) ;
    lift (py_setitem config (u "classes") mapping).

Definition parse_user_config : M pyval :=
  let config := PDict true [] in
  do config <- __parse_playing_style config ;
  do config <- __parse_email_details config ;
  do config <- __parse_tournament_classes config ;
  ret config.

(** ** Identity and rendering of a tournament *)

Definition __generate_uid_from_tournament (tournament : TournamentType) : result str :=
  let combined_string := join (dict_values tournament) in
  let? b := utf8_encode combined_string in
  Ok (sha256_hex b).

(** [tournament[k]] *)
Definition field (tournament : TournamentType) (k : str) : result str :=
  match dict_get (KStr k) tournament with
  | Some v => Ok v
  | None => Raise (KeyError k)
  end.

Definition __tournament_to_str (tournament : TournamentType) : result str :=
  let? c := field tournament (u "class") in
  let? d := field tournament (u "date") in
  let? l := field tournament (u "location") in
  let? p := field tournament (u "playingStyle") in
  let? n := field tournament (u "numberTeams") in
  Ok (u "Class: " ++ c ++ [10%N]
      ++ u "Date: " ++ d ++ [10%N]
      ++ u "Location: " ++ l ++ [10%N]
      ++ u "Playing style: " ++ p ++ [10%N]
      ++ u "Number of teams: " ++ n ++ [10%N; 10%N]).

Fixpoint map_result {A B} (f : A -> result B) (l : list A) : result (list B) :=
  match l with
  | [] => Ok []
  | x :: l' =>
      let? y := f x in
      let? r := map_result f l' in
      Ok (y :: r)
  end.

Definition __tournaments_to_str (tournaments : list TournamentType) : result str :=
  let? parts := map_result __tournament_to_str tournaments in
  Ok (u "Tournament details:" ++ [10%N] ++ repeat 45%N 36 ++ [10%N] ++ join parts).

(** ** The scraper *)

(** The five assignments that fill a tournament. *)
Definition make_tournament (class_name date location playing_style number : str)
  : TournamentType :=
  dict_set (KStr (u "numberTeams")) number
    (dict_set (KStr (u "playingStyle")) playing_style
       (dict_set (KStr (u "location")) location
          (dict_set (KStr (u "date")) date
             (dict_set (KStr (u "class")) class_name [])))).

(** [class_name in config[key].values()] *)
Definition selected (config : pyval) (key : str) (name : str) : result bool :=
  let? sel := py_getitem config key in
  let? vals := py_values sel in
  Ok (str_in_values name vals).

(** The first loop: the tags of the classes the user chose, by name. *)
Fixpoint relevant_class_tags (config : pyval) (all_classes_tags : list class_tag)
    (relevant_class_tags_by_name : dict class_tag) : result (dict class_tag) :=
  match all_classes_tags with
  | [] => Ok relevant_class_tags_by_name
  | t :: tags =>
      match tag_h3 t with
      | None => Raise AttributeError
      | Some class_name =>
          let? keep := selected config (u "classes") class_name in
          relevant_class_tags config tags
            (if keep then dict_set (KStr class_name) t relevant_class_tags_by_name
             else relevant_class_tags_by_name)
      end
  end.

Definition cell (row_data : list str) (i : nat) : result str :=
  match nth_error row_data i with
  | Some x => Ok x
  | None => Raise IndexError
  end.

(** The body of the loop over the rows of a class. *)
Definition scrape_row (config : pyval) (class_name : str) (row_data : list str)
    (scraped_tournaments : snapshot) : result snapshot :=
  let? playing_style := cell row_data 3 in
  let? keep := selected config (u "playingStyle") playing_style in
  if negb keep then Ok scraped_tournaments
  else
    let? date := cell row_data 0 in
    let? location := cell row_data 2 in
    let? number := cell row_data 4 in
    let tournament := make_tournament class_name date location playing_style number in
    let? tournament_uid := __generate_uid_from_tournament tournament in
    Ok (dict_set (KStr tournament_uid) tournament scraped_tournaments).

Fixpoint scrape_rows (config : pyval) (class_name : str) (rows : list (list str))
    (scraped_tournaments : snapshot) : result snapshot :=
  match rows with
  | [] => Ok scraped_tournaments
  | row_data :: rows' =>
      let? s := scrape_row config class_name row_data scraped_tournaments in
      scrape_rows config class_name rows' s
  end.

(** The second loop, over the chosen classes; the keys are the class
    names. *)
Fixpoint scrape_classes (config : pyval) (relevant : dict class_tag)
    (scraped_tournaments : snapshot) : result snapshot :=
  match relevant with
  | [] => Ok scraped_tournaments
  | (k, tag) :: relevant' =>
      match tag_tbody tag with
      | None => Raise AttributeError
      | Some rows =>
          let? s := scrape_rows config (Json.key_str k) rows scraped_tournaments in
          scrape_classes config relevant' s
      end
  end.

(** What the scraper makes of the tags of a page. *)
Definition scrape_tags (config : pyval) (all_classes_tags : list class_tag)
  : result snapshot :=
  let? relevant_class_tags_by_name := relevant_class_tags config all_classes_tags [] in
  scrape_classes config relevant_class_tags_by_name [].

(** [requests.get(...)], [raise_for_status()] and the parse of the page. *)
Definition http_get : M (list class_tag) :=
  emit EvHttpGet ;;
  fun w => (w_web w, w).

Definition scrape_relevant_tournaments (config : pyval) : M snapshot :=
  emit (EvScrape config) ;;
  do all_classes_tags <- http_get ;
  lift (scrape_tags config all_classes_tags).

(** ** The notifier *)

Definition py_as_str (v : pyval) : result str :=
  match v with
  | PStr s => Ok s
  | _ => Raise TypeError
  end.

(** The string [user_config["email"][k]], where there is one. *)
Definition email_field (user_config : pyval) (k : str) : result str :=
  let? email := py_getitem user_config (u "email") in
  let? v := py_getitem email k in
  py_as_str v.

(** [user_config["email"][k]], whatever it holds. *)
Definition email_setting (user_config : pyval) (k : str) : result pyval :=
  let? email := py_getitem user_config (u "email") in
  py_getitem email k.

Definition smtp (w : world) : smtp_server := w_smtp w.

(** A call into the mail libraries; a call of [smtplib] is an event. *)
Definition mail (c : mail_call) : M unit :=
  (if on_wire c then emit (EvMail c) else ret tt) ;;
  fun w =>
    match smtp_answer (smtp w) c with
    | None => (Ok tt, w)
    | Some f => (Raise (SMTPError f), w)
    end.

(** [with smtplib.SMTP(...) as server: body], once the constructor has
    returned.  After [server.quit()] has returned the connection is
    closed and [SMTP.__exit__] does nothing.  When an exception leaves
    the block, [__exit__] sends QUIT; if the answer is not 221, the
    exception it raises takes the place of the one that left the
    block. *)
Definition server_exit (e : exn) : M unit := mail CallExit ;; raise e.

Definition with_server (body : M unit) : M unit := try_except body server_exit.

(** The text of the alert [__send_email] builds for a list of
    tournaments rendered as [details]. *)
Definition alert_text (tournament_data : list TournamentType) (details : str) : str :=
  u "There are " ++ str_of_N (N.of_nat (List.length tournament_data))
  ++ u " new tournaments to apply!" ++ [10%N; 10%N] ++ details.

Definition alert_subject : str := u "BVV Tournament Alert!".

(** The body of the [try] of [__send_email]. *)
Definition send_email_body (user_config : pyval)
    (tournament_data : list TournamentType) : M unit :=
  do details <- lift (__tournaments_to_str tournament_data) ;
  let text := alert_text tournament_data details in
  mail (CallMIMEText text) ;;
  do from <- lift (email_setting user_config (u "from")) ;
  do to <- lift (email_setting user_config (u "to")) ;
  let msg := mk_message text alert_subject from to in
  mail CallCreateDefaultContext ;;
  do host <- lift (email_setting user_config (u "host")) ;
  mail (CallSMTP host) ;;
  with_server
    (mail (CallEhlo 1) ;;
     mail CallStarttls ;;
     mail (CallEhlo 2) ;;
     do user <- lift (email_setting user_config (u "from")) ;
     do password <- lift (email_setting user_config (u "password")) ;
     mail (CallLogin user password) ;;
     mail (CallEhlo 3) ;;
     do from' <- lift (email_setting user_config (u "from")) ;
     do to' <- lift (email_setting user_config (u "to")) ;
     mail (CallAsString msg) ;;
     mail (CallSendmail from' to' msg) ;;
     mail CallQuit).

Definition error_occurred (e : exn) : str := u "An error occurred: " ++ str_of_exn e.

Definition __send_email (user_config : pyval) (tournament_data : list TournamentType)
  : M unit :=
  emit (EvSendEmail user_config tournament_data) ;;
  try_except (send_email_body user_config tournament_data)
             (fun e => print (error_occurred e)).

(** ** The orchestrator *)

(** [set(current.keys()) - set(previous.keys())] *)
Definition keys_difference (current previous : list pykey) : list pykey :=
  filter (fun k => negb (existsb (pykey_eqb k) previous)) current.

(** [[scraped[k] for k in scraped.keys() if k in keys_diff]]: the new
    tournaments with their ids, and as the list the program builds. *)
Definition new_items (scraped_tournament_data : snapshot) (keys_diff : list pykey)
  : list (pykey * TournamentType) :=
  filter (fun kv => existsb (pykey_eqb (fst kv)) keys_diff) scraped_tournament_data.

Definition new_tournaments_of (scraped_tournament_data : snapshot)
    (keys_diff : list pykey) : list TournamentType :=
  map snd (new_items scraped_tournament_data keys_diff).

Definition welcome : str :=
  [10%N] ++ u "Welcome to the BVV tournament scraper! Never miss out on any tournament registrations again :)" ++ [10%N].
Definition first_time : str :=
  u "It seems that this is your first time gathering your tournament data. Do you want to view all available tournaments you are interested in?".
Definition next_time : str :=
  u "The next time you run this application, you will only get notified about new tournaments you have not yet seen.".
Definition there_are (n : nat) : str :=
  u "There are " ++ str_of_N (N.of_nat n) ++ u " new tournaments!".
Definition up_to_date : str := u "You are up to date!".

(** The first run: the branch taken when there is no snapshot file. *)
Definition first_run (scraped_tournament_data : snapshot) : M unit :=
  print first_time ;;
  do show_all_tournaments <- __yes_no_parser ;
  (if show_all_tournaments then
     print (u "You're welcome:" ++ [10%N]) ;;
     do text <- lift (__tournaments_to_str (dict_values scraped_tournament_data)) ;
     print text
   else ret tt) ;;
  __dump_to_json (pyval_of_snapshot scraped_tournament_data) TOURNAMENT_JSON_NAME ;;
  print next_time.

(** The end of a later run, from the message that counts the new
    tournaments on. *)
Definition report (user_config : pyval) (scraped_tournament_data : snapshot)
    (keys_diff : list pykey) : M unit :=
  let num_new_tournaments := List.length keys_diff in
  print (there_are num_new_tournaments) ;;
  if Nat.ltb 0 num_new_tournaments then
    print (u "Do you want to show them?") ;;
    let new_tournaments := new_tournaments_of scraped_tournament_data keys_diff in
    do show <- __yes_no_parser ;
    (if show then
       do text <- lift (__tournaments_to_str new_tournaments) ;
       print text
     else ret tt) ;;
    __send_email user_config new_tournaments
  else print up_to_date.

(** A later run: the branch taken when the snapshot file exists. *)
Definition later_run (user_config : pyval) (scraped_tournament_data : snapshot)
  : M unit :=
  do loaded_tournament_data <- __load_from_json TOURNAMENT_JSON_NAME ;
  __dump_to_json (pyval_of_snapshot scraped_tournament_data) TOURNAMENT_JSON_NAME ;;
  do loaded_keys <- lift (py_keys loaded_tournament_data) ;
  let keys_diff := keys_difference (dict_keys scraped_tournament_data) loaded_keys in
  emit (EvKeysDiff keys_diff) ;;
  report user_config scraped_tournament_data keys_diff.

(** The configuration: asked of the user or loaded from its file. *)
Definition get_user_config : M pyval :=
  print welcome ;;
  print (u "Do you want create/update your user config?") ;;
  do update_user_config <- __yes_no_parser ;
  do user_config_exists <- isfile USER_CONFIG_JSON_NAME ;
  if update_user_config || negb user_config_exists then
    (if negb user_config_exists then
       print (u "It seems that you have no user config created yet. This will only take a few seconds." ++ [10%N])
     else ret tt) ;;
    do user_config <- parse_user_config ;
    __dump_to_json user_config USER_CONFIG_JSON_NAME ;;
    ret user_config
  else __load_from_json USER_CONFIG_JSON_NAME.

Definition __parse_intro : M unit :=
  do user_config <- get_user_config ;
  print (u "Processing..." ++ [10%N]) ;;
  do scraped_tournament_data <- scrape_relevant_tournaments user_config ;
  do tournament_data_exists <- isfile TOURNAMENT_JSON_NAME ;
  if negb tournament_data_exists then first_run scraped_tournament_data
  else later_run user_config scraped_tournament_data.

(** A run of the program from a world, and its trace. *)
Definition run (w : world) : result unit * world :=
  __parse_intro (set_trace [] w).

(** ** Example data

    Concrete configurations, pages and worlds on which statements
    below are evaluated. *)

Definition is_lower_hex (c : N) : bool := in_range 48 57 c || in_range 97 102 c.

(** A record made of text UTF-8 can encode. *)
Definition encodable (s : str) : Prop := forallb is_scalar s = true.

Definition config_mixed_basic : pyval :=
  PDict false
    [(KStr (u "classes"), PDict false [(KStr (u "7"), PStr (u "basic"))]);
     (KStr (u "playingStyle"), PDict false [(KStr (u "2"), PStr (u "Mixed"))])].

Definition row_a : list str := [u "01.05."; []; u "2024 Erding"; u "Mixed"; u "16"].
Definition row_b : list str := [u "01.05.2024"; []; u " Erding"; u "Mixed"; u "16"].
Definition row_women : list str := [u "02.05."; []; u "Passau"; u "Frauen"; u "8"].

Definition tournament_a : TournamentType :=
  make_tournament (u "basic") (u "01.05.") (u "2024 Erding") (u "Mixed") (u "16").
Definition tournament_b : TournamentType :=
  make_tournament (u "basic") (u "01.05.2024") (u " Erding") (u "Mixed") (u "16").

Definition page_collision : list class_tag :=
  [mk_tag (Some (u "basic")) (Some [row_a; row_b]);
   mk_tag (Some (u "expert")) (Some [row_women])].

(** A mail server that accepts everything, and one that refuses the
    login. *)
Definition mail_ok : smtp_server := mk_smtp (fun _ => None).

Definition mail_refuses_login : smtp_server :=
  mk_smtp (fun c =>
             match c with
             | CallLogin _ _ =>
                 Some (AuthenticationFailure (u "(535, b'5.7.8 Bad credentials')"))
             | _ => None
             end).

(** A quoted word of a JSON text. *)
Definition jq (s : string) : str := [34%N] ++ u s ++ [34%N].

(** A configuration file without an email target, and one whose
    selections are empty. *)
Definition config_file_mixed_basic : bytes :=
  u "{" ++ jq "classes" ++ u ": {" ++ jq "7" ++ u ": " ++ jq "basic" ++ u "}, "
  ++ jq "playingStyle" ++ u ": {" ++ jq "2" ++ u ": " ++ jq "Mixed" ++ u "}}".

Definition config_file_empty_selection : bytes :=
  u "{" ++ jq "classes" ++ u ": {}, " ++ jq "playingStyle" ++ u ": {}}".

(** The bytes [__dump_to_json] writes for a snapshot. *)
Definition snapshot_file (s : snapshot) : bytes :=
  match (let? text := Json.dumps (pyval_of_snapshot s) in utf8_encode text) with
  | Ok b => b
  | Raise _ => []
  end.

Definition row_1 : list str := [u "01.05."; []; u "Erding"; u "Mixed"; u "16"].
Definition row_2 : list str := [u "09.05."; []; u "Passau"; u "Mixed"; u "4"].

Definition tournament_1 : TournamentType :=
  make_tournament (u "basic") (u "01.05.") (u "Erding") (u "Mixed") (u "16").
Definition tournament_2 : TournamentType :=
  make_tournament (u "basic") (u "09.05.") (u "Passau") (u "Mixed") (u "4").

Definition uid_of (t : TournamentType) : str :=
  match __generate_uid_from_tournament t with Ok x => x | Raise _ => [] end.

Definition snapshot_1 : snapshot := [(KStr (uid_of tournament_1), tournament_1)].
Definition snapshot_12 : snapshot :=
  [(KStr (uid_of tournament_1), tournament_1);
   (KStr (uid_of tournament_2), tournament_2)].

Definition page_1 : list class_tag := [mk_tag (Some (u "basic")) (Some [row_1])].
Definition page_12 : list class_tag :=
  [mk_tag (Some (u "basic")) (Some [row_1; row_2])].

(** A first run: a configuration without email, no snapshot yet. *)
Definition world_first_run : world :=
  mk_world UTF_8 [u "n"; u "n"]
    [(KStr USER_CONFIG_JSON_NAME, config_file_mixed_basic)]
    (Ok page_12) mail_ok [].

(** A later run that finds one new tournament; the configuration has
    no email target. *)
Definition world_one_new : world :=
  mk_world UTF_8 [u "n"; u "n"]
    [(KStr USER_CONFIG_JSON_NAME, config_file_mixed_basic);
     (KStr TOURNAMENT_JSON_NAME, snapshot_file snapshot_1)]
    (Ok page_12) mail_ok [].

(** A later run that finds nothing new. *)
Definition world_up_to_date : world :=
  mk_world UTF_8 [u "n"]
    [(KStr USER_CONFIG_JSON_NAME, config_file_mixed_basic);
     (KStr TOURNAMENT_JSON_NAME, snapshot_file snapshot_1)]
    (Ok page_1) mail_ok [].

(** A run with a stored configuration whose selections are empty. *)
Definition world_empty_selection : world :=
  mk_world UTF_8 [u "n"; u "n"]
    [(KStr USER_CONFIG_JSON_NAME, config_file_empty_selection)]
    (Ok page_12) mail_ok [].

(** A run in which the user enters the configuration: playing style
    2, no email, class 7; then declines to see the tournaments. *)
Definition world_interactive : world :=
  mk_world UTF_8 [u "y"; u "2"; u "x"; u "n"; u "7"; u "x"; u "n"]
    [] (Ok page_12) mail_ok [].

Definition processing : event := EvPrint (u "Processing..." ++ [10%N]).

(** Up to the scrape, a run only gets the configuration and scrapes. *)

(** ** Classes of events *)

Fixpoint starts_with (p s : str) : bool :=
  match p, s with
  | [], _ => true
  | x :: p', y :: s' => N.eqb x y && starts_with p' s'
  | _ :: _, [] => false
  end.

(** The two messages that report a diff: how many new tournaments
    there are, and that there are none. *)
Definition is_diff_report (s : str) : bool :=
  starts_with (u "There are ") s || str_eqb s up_to_date.

(** The dialogue at the console, apart from the reports of a diff. *)
Definition dialogue (e : event) : bool :=
  match e with
  | EvInput _ => true
  | EvPrint s => negb (is_diff_report s)
  | _ => false
  end.

Definition is_snapshot_dump (e : event) : bool :=
  match e with
  | EvDump f _ => str_eqb f TOURNAMENT_JSON_NAME
  | _ => false
  end.

Definition is_snapshot_load (e : event) : bool :=
  match e with
  | EvLoad f => str_eqb f TOURNAMENT_JSON_NAME
  | _ => false
  end.

Definition is_keys_diff (e : event) : bool :=
  match e with EvKeysDiff _ => true | _ => false end.

Definition is_send_email (e : event) : bool :=
  match e with EvSendEmail _ _ => true | _ => false end.

Definition is_scrape (e : event) : bool :=
  match e with EvScrape _ => true | _ => false end.

Definition is_http_get (e : event) : bool :=
  match e with EvHttpGet => true | _ => false end.

Definition is_config_load (e : event) : bool :=
  match e with
  | EvLoad f => str_eqb f USER_CONFIG_JSON_NAME
  | _ => false
  end.

(** What getting the user's configuration may do: the dialogue, and a
    load or a dump of the configuration file. *)
Definition config_event (e : event) : bool :=
  match e with
  | EvLoad f | EvDump f _ => str_eqb f USER_CONFIG_JSON_NAME
  | _ => dialogue e
  end.

(** What the scraper may do. *)
Definition scrape_event (e : event) : bool := is_scrape e || is_http_get e.

(** Up to the end of the scrape, a run gets the configuration, says
    that it is processing, and scrapes. *)
Definition before_event (e : event) : bool := config_event e || scrape_event e.

(** What the first run may do after the page is scraped. *)
Definition first_run_event (e : event) : bool := dialogue e || is_snapshot_dump e.

(** What a later run may do once the diff is computed: anything but a
    dump, a load or a scrape. *)
Definition report_event (e : event) : bool :=
  match e with
  | EvDump _ _ | EvLoad _ | EvScrape _ | EvHttpGet | EvKeysDiff _ => false
  | _ => true
  end.

(** [occurs_before p q l]: some event satisfying [p] occurs in [l]
    before some event satisfying [q]. *)
Fixpoint occurs_before (p q : event -> bool) (l : list event) : bool :=
  match l with
  | [] => false
  | e :: l' => (p e && existsb q l') || occurs_before p q l'
  end.

Definition count (p : event -> bool) (l : list event) : nat :=
  List.length (filter p l).

(** ** The claims of the specification that the program does not meet,
    as predicates of a world *)

(** In a run that is not a first run the snapshot is saved exactly
    once, after the diff has been computed. *)
Definition saves_once_after_diff (w : world) : Prop :=
  dict_mem (KStr TOURNAMENT_JSON_NAME) (w_files w) = true ->
  count is_snapshot_dump (events (snd (run w))) = 1%nat
  /\ occurs_before is_keys_diff is_snapshot_dump (events (snd (run w))) = true.

(** A configuration selects something under [key]: [config[key]] is a
    mapping with at least one value. *)
Definition nonempty_selection (config : pyval) (key : str) : Prop :=
  exists sel vals,
    py_getitem config key = Ok sel /\ py_values sel = Ok vals /\ vals <> [].

(** Every configuration with which a run reaches the fetch selects at
    least one playing style and at least one class. *)
Definition fetches_only_with_selections (w : world) : Prop :=
  forall config,
    In (EvScrape config) (events (snd (run w))) ->
    nonempty_selection config (u "playingStyle")
    /\ nonempty_selection config (u "classes").

(** The configuration read from [config_file_empty_selection]. *)
Definition config_empty_selection : pyval :=
  PDict false [(KStr (u "classes"), PDict false []);
               (KStr (u "playingStyle"), PDict false [])].

(** What a later run may do. *)
Definition later_event (e : event) : bool :=
  is_snapshot_load e || is_snapshot_dump e || is_keys_diff e || report_event e.

(** Two small snapshots with literal ids. *)
Definition snapshot_ab : snapshot :=
  [(KStr (u "a"), tournament_1); (KStr (u "b"), tournament_2)].
Definition loaded_a : dict pyval := [(KStr (u "a"), pyval_of_tournament tournament_1)].

(** A configuration that holds a non-empty selection of playing
    styles. *)
Definition has_styles (config : pyval) : Prop :=
  exists items m,
    config = PDict true items
    /\ dict_get (KStr (u "playingStyle")) items = Some (PDict false m)
    /\ m <> [].

(** ** Saving and loading a snapshot *)

(** A world with nothing in it but the platform's encoding. *)
Definition blank_world (locale : encoding) : world :=
  mk_world locale [] [] (Ok []) mail_ok [].

(** [__dump_to_json(snapshot, name)] followed by
    [__load_from_json(name)]. *)
Definition save_then_load (locale : encoding) (s : snapshot) : result pyval :=
  match __dump_to_json (pyval_of_snapshot s) TOURNAMENT_JSON_NAME
          (blank_world locale) with
  | (Ok _, w) => fst (__load_from_json TOURNAMENT_JSON_NAME w)
  | (Raise e, _) => Raise e
  end.

(** A tournament in Munich; the u-umlaut is U+00FC. *)
Definition muenchen : str := [77; 252; 110; 99; 104; 101; 110]%N.

Definition tournament_muenchen : TournamentType :=
  make_tournament (u "basic") (u "01.05.") muenchen (u "Mixed") (u "16").

Definition snapshot_muenchen : snapshot :=
  [(KStr (uid_of tournament_muenchen), tournament_muenchen)].

(** The location of the tournament stored under [uid] in a loaded
    snapshot. *)
Definition loaded_location (loaded : result pyval) (uid : str) : result pyval :=
  let? v := loaded in
  let? t := py_getitem v uid in
  py_getitem t (u "location").

(** A key and a record as the scraper stores them: the record built
    from five cells, under its own id. *)
Definition stored_pair (k : pykey) (t : TournamentType) : Prop :=
  exists class_name date location playing_style number uid,
    t = make_tournament class_name date location playing_style number
    /\ __generate_uid_from_tournament t = Ok uid /\ k = KStr uid.

(** What the scraper owes to a row: if its playing style is chosen,
    the record of its cells is in the snapshot under its id. *)
Definition row_scraped (config : pyval) (class_name : str) (row_data : list str)
    (s : snapshot) : Prop :=
  forall playing_style,
    cell row_data 3 = Ok playing_style ->
    selected config (u "playingStyle") playing_style = Ok true ->
    exists date location number uid,
      cell row_data 0 = Ok date /\ cell row_data 2 = Ok location
      /\ cell row_data 4 = Ok number
      /\ __generate_uid_from_tournament
           (make_tournament class_name date location playing_style number) = Ok uid
      /\ dict_mem (KStr uid) s = true.

(** A line [__yes_no_parser] does not recognise. *)
Definition unrecognized (l : str) : Prop :=
  is_yes (strip (lower l)) = false /\ is_no (strip (lower l)) = false.

(** What the console shows while [__yes_no_parser] reads [junk] lines it
    does not recognise and then one more line (newest first). *)
Definition yes_no_trace (junk : list str) : list event :=
  EvInput yes_no_prompt
  :: flat_map (fun _ => [EvPrint not_recognized; EvInput yes_no_prompt]) junk.

(** [list(enum)[idx].value], where the enumeration has a member
    number [idx]. *)
Definition value_at (enum : VolleyballEnumType) (idx : N) : option str :=
  option_map snd (nth_error enum (N.to_nat idx)).

(** A non-empty selection from [enum], as the configuration stores it:
    a dictionary from the numbers of some members to their values. *)
Definition selection_of (enum : VolleyballEnumType) (v : pyval) : Prop :=
  exists mapping,
    v = PDict false mapping /\ mapping <> [] /\ wf_dict mapping
    /\ forall k x, dict_get k mapping = Some x ->
         exists i s, k = KInt (Z.of_N i) /\ value_at enum i = Some s /\ x = PStr s.

(** The email details of a configuration: the four fields, each a
    string. *)
Definition email_target (v : pyval) : Prop :=
  exists from to password host,
    v = PDict false [(KStr (u "from"), PStr from); (KStr (u "to"), PStr to);
                     (KStr (u "password"), PStr password);
                     (KStr (u "host"), PStr host)].

(** No value of the mapping is the class "custom". *)
Definition without_custom (v : pyval) : Prop :=
  forall vals, py_values v = Ok vals -> str_in_values (u "custom") vals = false.

(** The configurations [parse_user_config] builds. *)
Definition entered_config (config : pyval) : Prop :=
  exists styles classes,
    selection_of PlayingStyle styles
    /\ selection_of TournamentClass classes
    /\ without_custom classes
    /\ (config = PDict true [(KStr (u "playingStyle"), styles);
                             (KStr (u "classes"), classes)]
        \/ exists email,
             email_target email
             /\ config = PDict true [(KStr (u "playingStyle"), styles);
                                     (KStr (u "email"), email);
                                     (KStr (u "classes"), classes)]).

(** The configuration lacks one of the entries the notifier reads
    before it contacts the mail server: reading it raises. *)
Definition lacks_email_target (user_config : pyval) : Prop :=
  exists k, In k [u "from"; u "to"; u "host"]
            /\ is_ok (email_setting user_config k) = false.

(** A stored configuration with email details, and the rendering of
    the one tournament of [snapshot_1]. *)
Definition config_with_email : pyval :=
  PDict false
    [(KStr (u "classes"), PDict false [(KStr (u "7"), PStr (u "basic"))]);
     (KStr (u "email"),
      PDict false [(KStr (u "from"), PStr (u "me@example.org"));
                   (KStr (u "host"), PStr (u "smtp.example.org"));
                   (KStr (u "password"), PStr (u "secret"));
                   (KStr (u "to"), PStr (u "you@example.org"))]);
     (KStr (u "playingStyle"), PDict false [(KStr (u "2"), PStr (u "Mixed"))])].

Definition details_1 : str :=
  Eval vm_compute in
    match __tournaments_to_str [tournament_1] with Ok s => s | Raise _ => [] end.

(** ** What a run leaves as it was

    [same_env w w']: the platform's encoding, the web page and the mail
    server of [w'] are those of [w]; [keeps_env c]: the computation [c]
    leaves them as they are. *)
Definition same_env (w w' : world) : Prop :=
  w_locale w' = w_locale w /\ w_web w' = w_web w /\ w_smtp w' = w_smtp w.

Definition keeps_env {A} (c : M A) : Prop :=
  forall w r w', c w = (r, w') -> same_env w w'.

(** The snapshot file of a world. *)
Definition snapshot_of (w : world) : option bytes :=
  dict_get (KStr TOURNAMENT_JSON_NAME) (w_files w).

(** The run neither saved a snapshot nor computed a diff nor invoked
    the notifier. *)
Definition stopped_before_snapshot (w' : world) : Prop :=
  existsb is_snapshot_dump (events w') = false
  /\ existsb is_keys_diff (events w') = false
  /\ existsb is_send_email (events w') = false.

(** A first run whose fetch fails. *)
Definition world_offline : world :=
  mk_world UTF_8 [u "n"]
    [(KStr USER_CONFIG_JSON_NAME, config_file_mixed_basic);
     (KStr TOURNAMENT_JSON_NAME, snapshot_file snapshot_1)]
    (Raise HTTPError) mail_ok [].

(** What [__load_from_json] makes of the bytes of a file on a platform
    whose preferred encoding is [locale]. *)
Definition parse_file (locale : encoding) (b : bytes) : result pyval :=
  let? text := decode locale b in Json.loads text.

(** A later run whose stored snapshot is cut off in the middle. *)
Definition world_corrupt : world :=
  mk_world UTF_8 [u "n"]
    [(KStr USER_CONFIG_JSON_NAME, config_file_mixed_basic);
     (KStr TOURNAMENT_JSON_NAME, u "{" ++ jq "a" ++ u ": ")]
    (Ok page_12) mail_ok [].

(** ** The layout of a stored snapshot

    [on_snd f] applies [f] to the value of an item; [sorted_dict d] is
    [d] with its items in the order of [sorted(d.items())], as
    [sort_keys=True] writes them. *)
Definition on_snd {A B} (f : A -> B) (kv : pykey * A) : pykey * B :=
  (fst kv, f (snd kv)).

Definition sorted_dict {V} (d : dict V) : dict V :=
  match Json.sort_items d with
  | Ok r => r
  | Raise _ => d
  end.

(** A snapshot with its ids, and the fields of each tournament, in
    sorted order: what [json.load] makes of the file. *)
Definition sorted_snapshot (s : snapshot) : snapshot :=
  map (on_snd sorted_dict) (sorted_dict s).

(** Every key of the dictionary is a string. *)
Definition str_keys {V} (d : dict V) : Prop :=
  forall k v, In (k, v) d -> exists s, k = KStr s.

(** A snapshot as the program builds them: ids and field names are
    strings, and no id and no field name occurs twice. *)
Definition well_keyed (s : snapshot) : Prop :=
  str_keys s /\ wf_dict s
  /\ forall k t, In (k, t) s -> str_keys t /\ wf_dict t.

(** Every id, field name and field of the snapshot can be encoded. *)
Definition encodable_snapshot (s : snapshot) : Prop :=
  forall k t, In (k, t) s ->
    encodable (Json.key_str k)
    /\ forall k' v, In (k', v) t -> encodable (Json.key_str k') /\ encodable v.

(** The text [json.dump] writes for a tournament and for a snapshot at
    nesting depth [lvl]. *)
Definition fields_text (lvl : nat) (t : TournamentType) : str :=
  Json.bracket 123 125 lvl
    (map Json.member (map (on_snd Json.quote) (sorted_dict t))).

Definition snapshot_text (lvl : nat) (s : snapshot) : str :=
  Json.bracket 123 125 lvl
    (map Json.member (map (on_snd (fields_text (S lvl))) (sorted_dict s))).

(** A member of an object as the encoder writes it, after its opening
    quote and with it: the key, the text of the value and the value the
    text denotes. *)
Definition member_tail (m : str * str * pyval) : str :=
  flat_map Json.escape_char (fst (fst m)) ++ [34%N; 58%N; 32%N] ++ snd (fst m).

Definition member_text (m : str * str * pyval) : str := 34%N :: member_tail m.

(** The members of an object after the opening quote of the first,
    and the items the decoder collects from them. *)
Fixpoint members_tail (sep : str) (ms : list (str * str * pyval)) : str :=
  match ms with
  | [] => []
  | [m] => member_tail m
  | m :: ms' => member_tail m ++ sep ++ 34%N :: members_tail sep ms'
  end.

Definition parsed (ms : list (str * str * pyval)) : list (pykey * pyval) :=
  map (fun m => (KStr (fst (fst m)), snd m)) ms.

(** The text [t] is read back as [v], whatever follows it, with fuel
    no less than the length of [t]. *)
Definition parses_as (t : str) (v : pyval) : Prop :=
  (forall rest, Json.skip_ws (t ++ rest) = t ++ rest)
  /\ forall fuel rest, (List.length t <= fuel)%nat ->
       Json.scan_once fuel (t ++ rest) = Ok (v, rest).

(** A page with a tournament in Munich. *)
Definition page_muenchen : list class_tag :=
  [mk_tag (Some (u "basic"))
     (Some [[u "01.05."; []; muenchen; u "Mixed"; u "16"]])].

(** The lines an accepted address is taken from: it was typed after
    [before], and either matches the pattern, or does not and was
    confirmed with a yes, the lines up to which are consumed. *)
Definition address_accepted (inp : list str) (a : str) (inp' : list str) : Prop :=
  exists before after,
    inp = before ++ a :: after
    /\ ((email_fullmatch a = true /\ inp' = after)
        \/ (email_fullmatch a = false
            /\ exists junk answer,
                 after = junk ++ answer :: inp'
                 /\ Forall unrecognized junk
                 /\ is_yes (strip (lower answer)) = true)).

(** The configuration after the email dialogue: the playing styles and
    the four email details. *)
Definition with_email (styles : pyval) (from to password host : str) : pyval :=
  PDict true
    [(KStr (u "playingStyle"), styles);
     (KStr (u "email"),
      PDict false [(KStr (u "from"), PStr from); (KStr (u "to"), PStr to);
                   (KStr (u "password"), PStr password);
                   (KStr (u "host"), PStr host)])].

(** ** The layout of a stored configuration

    Every two keys of the dictionary can be compared: they are all
    strings or all numbers. *)
Definition comparable {V} (d : dict V) : Prop :=
  forall k v k' v', In (k, v) d -> In (k', v') d ->
    exists b, Json.key_lt k k' = Ok b.

(** The keys are the numbers of a menu. *)
Definition int_keys {V} (d : dict V) : Prop :=
  forall k v, In (k, v) d -> exists i, k = KInt (Z.of_N i).

(** The key of an item as JSON has it: a string. *)
Definition json_key {V} (kv : pykey * V) : str := Json.key_str (fst kv).

(** A dictionary as [json.load] returns it: its keys are strings. *)
Definition keyed_by_str {A B} (f : A -> B) (d : dict A) : dict B :=
  map (fun kv => (KStr (json_key kv), f (snd kv))) d.

(** No two keys are written alike. *)
Definition distinct_keys {V} (d : dict V) : Prop := NoDup (map json_key d).

(** A dictionary of strings, the text written for it and the value
    read from that text. *)
Definition all_str (d : dict pyval) : Prop :=
  forall k v, In (k, v) d -> exists s, v = PStr s.

Definition str_text (v : pyval) : str :=
  match v with
  | PStr s => Json.quote s
  | _ => []
  end.

Definition flat_text (lvl : nat) (d : dict pyval) : str :=
  Json.bracket 123 125 lvl
    (map Json.member (map (on_snd str_text) (sorted_dict d))).

Definition flat_loaded (d : dict pyval) : pyval :=
  PDict false (keyed_by_str (fun v => v) (sorted_dict d)).

Definition storable_flat (m : dict pyval) : Prop :=
  comparable m /\ all_str m /\ distinct_keys m.

Definition encodable_flat (m : dict pyval) : Prop :=
  forall k s, In (k, PStr s) m -> encodable (Json.key_str k) /\ encodable s.

(** A configuration: a dictionary of dictionaries of strings; the
    text written for it and the value read from that text. *)
Definition inner_text (lvl : nat) (v : pyval) : str :=
  match v with
  | PDict _ m => flat_text lvl m
  | _ => []
  end.

Definition inner_loaded (v : pyval) : pyval :=
  match v with
  | PDict _ m => flat_loaded m
  | _ => v
  end.

Definition config_text (items : dict pyval) : str :=
  Json.bracket 123 125 0
    (map Json.member (map (on_snd (inner_text 1)) (sorted_dict items))).

Definition loaded_config (items : dict pyval) : pyval :=
  PDict false (map (on_snd inner_loaded) (sorted_dict items)).

Definition storable_config (items : dict pyval) : Prop :=
  str_keys items /\ wf_dict items
  /\ forall k v, In (k, v) items ->
       exists dflt m, v = PDict dflt m /\ storable_flat m.

(** [__dump_to_json(data, filename)] followed by
    [__load_from_json(filename)]. *)
Definition dump_then_load (locale : encoding) (data : pyval) (filename : str)
  : result pyval :=
  match __dump_to_json data filename (blank_world locale) with
  | (Ok _, w) => fst (__load_from_json filename w)
  | (Raise e, _) => Raise e
  end.

(** The email details of the configuration can be encoded. *)
Definition encodable_email (user_config : pyval) : Prop :=
  forall k s, email_field user_config k = Ok s -> encodable s.

(** The bytes [__dump_to_json] writes for a value, and the
    configuration file of a world. *)
Definition json_file (data : pyval) : bytes :=
  match (let? text := Json.dumps data in utf8_encode text) with
  | Ok b => b
  | Raise _ => []
  end.

Definition config_of (w : world) : option bytes :=
  dict_get (KStr USER_CONFIG_JSON_NAME) (w_files w).

(** The configuration entered in [world_interactive]. *)
Definition config_entered : pyval :=
  PDict true
    [(KStr (u "playingStyle"), PDict false [(KInt 2, PStr (u "Mixed"))]);
     (KStr (u "classes"), PDict false [(KInt 7, PStr (u "basic"))])].

(** ** ASCII text

    The characters below 128 are written alike by UTF-8 and by
    Windows-1252. *)

Definition is_ascii (c : N) : bool := (c <? 128)%N.

(** Every character of the text is an ASCII character. *)
Definition ascii_text (s : str) : Prop := forallb is_ascii s = true.

(** The ids, the field names and the field values of the snapshot are
    ASCII text. *)
Definition ascii_snapshot (s : snapshot) : Prop :=
  forall k t, In (k, t) s ->
    ascii_text (Json.key_str k)
    /\ forall k' v, In (k', v) t -> ascii_text (Json.key_str k') /\ ascii_text v.

(** Two dictionaries with the same keys in the same order and the same
    values, but for the value under [k]. *)
Inductive differ_at {V} (k : pykey) : dict V -> dict V -> Prop :=
| differ_here v1 v2 d : differ_at k ((k, v1) :: d) ((k, v2) :: d)
| differ_later x d1 d2 :
    pykey_eqb k (fst x) = false -> differ_at k d1 d2 ->
    differ_at k (x :: d1) (x :: d2).

(** The calls of [smtplib] among the events [new] (newest first), in
    the order in which they were made. *)
Definition wire_calls (new : list event) : list mail_call :=
  flat_map (fun e => match e with EvMail c => [c] | _ => [] end) (rev new).

(** The SMTP dialogue of lines 289-296. *)
Definition smtp_dialogue (host from to password : pyval) (msg : mime_message)
  : list mail_call :=
  [CallSMTP host; CallEhlo 1; CallStarttls; CallEhlo 2; CallLogin from password;
   CallEhlo 3; CallSendmail from to msg; CallQuit].

(** The calls that build the message and the TLS context. *)
Definition local_calls (msg : mime_message) : list mail_call :=
  [CallMIMEText (msg_text msg); CallCreateDefaultContext; CallAsString msg].

(** ** The hash table of a set: what the proofs speak of *)

Definition pow2 (k : nat) : N := (2 ^ N.of_nat k)%N.

(** [a] and [b] are congruent modulo [m]. *)
Definition cong (m a b : N) : Prop := exists c d, (a + c * m = b + d * m)%N.

(** The slots the probe sequence comes to once [perturb] is 0. *)
Fixpoint orbit (modulus : N) (m : nat) (i : N) : N :=
  match m with
  | O => i
  | S m' => orbit modulus m' ((i * 5 + 1) mod modulus)%N
  end.

(** A table as [set_add] leaves it: 2^k slots, fewer than three
    fifths of them taken. *)
Definition table_ok (s : pyset) : Prop :=
  (exists k, N.of_nat (List.length s) = pow2 k)
  /\ (N.of_nat (set_len s) * 5 < (N.of_nat (List.length s) - 1) * 3)%N.

(** ** The chunks of a dump: what the proofs speak of *)

(** The text of a generator that ended well. *)
Definition yielded_text (y : (list str * option exn)) : result str :=
  match snd y with
  | None => Ok (join (fst y))
  | Some _ => Raise TypeError
  end.

Definition ended_well (y : pykey * (list str * option exn)) : bool :=
  match snd (snd y) with None => true | Some _ => false end.

Definition member_of_chunks (ky : pykey * (list str * option exn)) : result (pykey * str) :=
  let? t := yielded_text (snd ky) in Ok (fst ky, t).

(** * Properties *)

(** ** Strings, keys and dictionaries *)

Lemma str_eqb_eq (a b : str) : str_eqb a b = true <-> a = b.
Proof.
  revert b; induction a as [|x a IH]; intros [|y b]; simpl; split;
    try congruence; try reflexivity.
  - intros H. apply andb_true_iff in H as [Hx Hab].
    apply N.eqb_eq in Hx. apply IH in Hab. congruence.
  - intros H. injection H as -> ->.
    rewrite N.eqb_refl. simpl. now apply IH.
Qed.

Lemma str_eqb_refl (a : str) : str_eqb a a = true.
Proof. now apply str_eqb_eq. Qed.

Lemma pykey_eqb_eq (a b : pykey) : pykey_eqb a b = true <-> a = b.
Proof.
  destruct a as [x|x], b as [y|y]; simpl; split; try congruence.
  - intros H. apply Z.eqb_eq in H. congruence.
  - intros H. injection H as ->. apply Z.eqb_refl.
  - intros H. apply str_eqb_eq in H. congruence.
  - intros H. injection H as ->. apply str_eqb_refl.
Qed.

Lemma pykey_eqb_refl (a : pykey) : pykey_eqb a a = true.
Proof. now apply pykey_eqb_eq. Qed.

Lemma pykey_eqb_neq (a b : pykey) : pykey_eqb a b = false <-> a <> b.
Proof.
  split.
  - intros H E. apply pykey_eqb_eq in E. congruence.
  - intros H. destruct (pykey_eqb a b) eqn:E; [|reflexivity].
    apply pykey_eqb_eq in E. contradiction.
Qed.

Lemma existsb_pykey_In (k : pykey) (l : list pykey) :
  existsb (pykey_eqb k) l = true <-> In k l.
Proof.
  rewrite existsb_exists. split.
  - intros [x [Hin Heq]]. apply pykey_eqb_eq in Heq. now subst.
  - intros Hin. exists k. split; [assumption | apply pykey_eqb_refl].
Qed.

Section DictFacts.
Context {V : Type}.
Implicit Types (d : dict V) (k : pykey) (v : V).

Lemma dict_get_In d k v : dict_get k d = Some v -> In (k, v) d.
Proof.
  induction d as [|[k' v'] d IH]; simpl; [discriminate|].
  destruct (pykey_eqb k k') eqn:E.
  - intros H. injection H as ->. apply pykey_eqb_eq in E. subst. now left.
  - intros H. right. now apply IH.
Qed.

Lemma In_dict_get d k v : wf_dict d -> In (k, v) d -> dict_get k d = Some v.
Proof.
  unfold wf_dict, dict_keys.
  induction d as [|[k' v'] d IH]; simpl; [intros _ []|].
  intros Hnd. inversion Hnd as [|? ? Hnotin Hnd']; subst.
  intros [Heq | Hin].
  - injection Heq as -> ->. now rewrite pykey_eqb_refl.
  - destruct (pykey_eqb k k') eqn:E.
    + apply pykey_eqb_eq in E. subst. exfalso. apply Hnotin.
      change k' with (fst (k', v)). now apply in_map.
    + now apply IH.
Qed.

Lemma dict_get_None d k : dict_get k d = None <-> ~ In k (dict_keys d).
Proof.
  unfold dict_keys.
  induction d as [|[k' v'] d IH]; simpl.
  - split; [intros _ [] | reflexivity].
  - destruct (pykey_eqb k k') eqn:E.
    + apply pykey_eqb_eq in E. subst. split; [discriminate|].
      intros H. exfalso. apply H. now left.
    + apply pykey_eqb_neq in E. rewrite IH. split.
      * intros H [Heq | Hin]; [congruence | contradiction].
      * intros H Hin. apply H. now right.
Qed.

Lemma dict_mem_In d k : dict_mem k d = true <-> In k (dict_keys d).
Proof. apply existsb_pykey_In. Qed.

Lemma dict_set_keys d k v :
  dict_keys (dict_set k v d)
  = if dict_mem k d then dict_keys d else dict_keys d ++ [k].
Proof.
  unfold dict_mem, dict_keys.
  induction d as [|[k' v'] d IH]; simpl; [reflexivity|].
  destruct (pykey_eqb k k') eqn:E; simpl; [reflexivity|].
  rewrite IH. now destruct (existsb (pykey_eqb k) (map fst d)).
Qed.

Lemma dict_set_wf d k v : wf_dict d -> wf_dict (dict_set k v d).
Proof.
  unfold wf_dict. rewrite dict_set_keys.
  destruct (dict_mem k d) eqn:E; [trivial|].
  intros Hnd. apply NoDup_app; [assumption | repeat constructor; intros [] | ].
  intros x Hx [<- | []].
  apply dict_mem_In in Hx. congruence.
Qed.

Lemma dict_get_set_same d k v : dict_get k (dict_set k v d) = Some v.
Proof.
  induction d as [|[k' v'] d IH]; simpl.
  - now rewrite pykey_eqb_refl.
  - destruct (pykey_eqb k k') eqn:E; simpl; now rewrite E.
Qed.

Lemma dict_get_set_other d k k' v :
  pykey_eqb k k' = false -> dict_get k (dict_set k' v d) = dict_get k d.
Proof.
  intros Hne. induction d as [|[k0 v0] d IH]; simpl.
  - now rewrite Hne.
  - destruct (pykey_eqb k' k0) eqn:E; simpl.
    + apply pykey_eqb_eq in E. subst k0. now rewrite Hne.
    + now rewrite IH.
Qed.

Lemma dict_mem_set_other d k k' v :
  pykey_eqb k k' = false -> dict_mem k (dict_set k' v d) = dict_mem k d.
Proof.
  intros Hne. unfold dict_mem. rewrite dict_set_keys.
  fold (dict_mem k' d). destruct (dict_mem k' d); [reflexivity|].
  rewrite existsb_app. simpl. rewrite Hne. now rewrite !orb_false_r.
Qed.

Lemma dict_set_In d k v k0 v0 :
  In (k0, v0) (dict_set k v d) -> (k0 = k /\ v0 = v) \/ In (k0, v0) d.
Proof.
  induction d as [|[k' v'] d IH]; simpl.
  - intros [H | []]. injection H as <- <-. now left.
  - destruct (pykey_eqb k k') eqn:E; simpl.
    + apply pykey_eqb_eq in E. subst k'.
      intros [H | H]; [injection H as <- <-; now left | right; now right].
    + intros [H | H]; [right; now left|].
      destruct (IH H) as [? | ?]; [now left | right; now right].
Qed.

Lemma dict_set_not_nil d k v : dict_set k v d <> [].
Proof. destruct d as [|[k' v'] d]; simpl; [|destruct (pykey_eqb k k')]; discriminate. Qed.
End DictFacts.

(** ** C1: the diff *)

Lemma keys_difference_In (current previous : list pykey) (k : pykey) :
  In k (keys_difference current previous) <-> In k current /\ ~ In k previous.
Proof.
  unfold keys_difference. rewrite filter_In, negb_true_iff.
  split; intros [H1 H2]; split; try assumption.
  - intros Hin. apply existsb_pykey_In in Hin. congruence.
  - destruct (existsb (pykey_eqb k) previous) eqn:E; [|reflexivity].
    apply existsb_pykey_In in E. contradiction.
Qed.

Lemma filter_wf {V} (keep : pykey * V -> bool) (d : dict V) :
  wf_dict d -> wf_dict (filter keep d).
Proof.
  unfold wf_dict, dict_keys. induction d as [|[k v] d IH]; simpl; [trivial|].
  intros Hnd. inversion Hnd as [|? ? Hnotin Hnd']; subst.
  destruct (keep (k, v)); simpl; [|now apply IH].
  constructor; [|now apply IH].
  intros Hin. apply Hnotin. apply in_map_iff in Hin as [y [Hy Hin]].
  apply filter_In in Hin as [Hin _]. rewrite <- Hy. now apply in_map.
Qed.

(** C1.  For a previous and a current snapshot, the records the diff
    returns are exactly the records of the current snapshot whose id is
    a key of the current snapshot and not a key of the previous one;
    each is the record the current snapshot holds under that id, and no
    id occurs twice. *)
Theorem diff_new_exact (previous : dict pyval) (current : snapshot) :
  wf_dict current ->
  let keys_diff := keys_difference (dict_keys current) (dict_keys previous) in
  (forall k t, In (k, t) (new_items current keys_diff)
               <-> dict_get k current = Some t
                   /\ In k (dict_keys current) /\ ~ In k (dict_keys previous))
  /\ NoDup (map fst (new_items current keys_diff))
  /\ new_tournaments_of current keys_diff
     = map snd (new_items current keys_diff).
Proof.
  intros Hwf keys_diff. repeat split.
  - unfold new_items in H. apply filter_In in H as [Hin _].
    now apply In_dict_get.
  - unfold new_items in H. apply filter_In in H as [_ Hk]. simpl in Hk.
    apply existsb_pykey_In in Hk. now apply keys_difference_In in Hk.
  - unfold new_items in H. apply filter_In in H as [_ Hk]. simpl in Hk.
    apply existsb_pykey_In in Hk. now apply keys_difference_In in Hk.
  - intros [Hget [Hcur Hprev]]. unfold new_items. apply filter_In. split.
    + now apply dict_get_In.
    + simpl. apply existsb_pykey_In. now apply keys_difference_In.
  - unfold new_items. apply (filter_wf _ current Hwf).
Qed.

(** ** C2: the identity of a tournament *)

Lemma make_tournament_items (c d l p n : str) :
  make_tournament c d l p n
  = [(KStr (u "class"), c); (KStr (u "date"), d); (KStr (u "location"), l);
     (KStr (u "playingStyle"), p); (KStr (u "numberTeams"), n)].
Proof. reflexivity. Qed.

Lemma combined_string_eq (c d l p n : str) :
  join (dict_values (make_tournament c d l p n)) = c ++ d ++ l ++ p ++ n.
Proof. rewrite make_tournament_items. simpl. now rewrite app_nil_r. Qed.

Lemma utf8_encode_char_ok (c : N) :
  is_scalar c = true -> exists b, utf8_encode_char c = Ok b.
Proof.
  unfold is_scalar, utf8_encode_char. intros H.
  apply andb_true_iff in H as [Hlt Hs]. apply negb_true_iff in Hs.
  rewrite Hs, Hlt.
  destruct (c <? 128)%N; [eauto|].
  destruct (c <? 2048)%N; [eauto|].
  destruct (c <? 65536)%N; eauto.
Qed.

Lemma utf8_encode_ok (s : str) : encodable s -> exists b, utf8_encode s = Ok b.
Proof.
  unfold encodable. induction s as [|c s IH]; simpl; [eauto|].
  intros H. apply andb_true_iff in H as [Hc Hs].
  destruct (utf8_encode_char_ok c Hc) as [b ->].
  destruct (IH Hs) as [bs ->]. simpl. eauto.
Qed.

Lemma hex_digit_lower (d : N) : (d < 16)%N -> is_lower_hex (SHA256.hex_digit d) = true.
Proof.
  intros H. unfold SHA256.hex_digit, is_lower_hex, in_range.
  destruct (d <? 10)%N eqn:E.
  - apply N.ltb_lt in E. apply orb_true_iff. left.
    apply andb_true_iff. split; apply N.leb_le; lia.
  - apply N.ltb_ge in E. apply orb_true_iff. right.
    apply andb_true_iff. split; apply N.leb_le; lia.
Qed.

Lemma hex_word_shape (x : N) :
  List.length (SHA256.hex_word x) = 8%nat
  /\ forallb is_lower_hex (SHA256.hex_word x) = true.
Proof.
  split; [reflexivity|].
  unfold SHA256.hex_word. rewrite forallb_forall. intros c Hc.
  apply in_map_iff in Hc as [i [<- _]].
  apply hex_digit_lower. apply N.mod_lt. discriminate.
Qed.

Lemma hexdigest_shape (s : SHA256.state) :
  List.length (SHA256.hexdigest s) = 64%nat
  /\ forallb is_lower_hex (SHA256.hexdigest s) = true.
Proof.
  unfold SHA256.hexdigest. split.
  - rewrite !length_app.
    repeat rewrite (proj1 (hex_word_shape _)). reflexivity.
  - rewrite !forallb_app.
    repeat rewrite (proj2 (hex_word_shape _)). reflexivity.
Qed.



(** The digest agrees with the published test vectors. *)
Example round_constants :
  nth 0 SHA256.K 0%N = 0x428a2f98%N /\ nth 63 SHA256.K 0%N = 0xc67178f2%N
  /\ SHA256.sa SHA256.H0 = 0x6a09e667%N /\ SHA256.sh SHA256.H0 = 0x5be0cd19%N.
Proof. repeat split. Qed.

Example sha256_empty :
  sha256_hex []
  = u "e3b0c44298fc1c149afbf4c8996fb92427ae41e4649b934ca495991b7852b855".
Proof. vm_compute. reflexivity. Qed.

Example sha256_abc :
  sha256_hex (u "abc")
  = u "ba7816bf8f01cfea414140de5dae2223b00361a396177a9cb410ff61f20015ad".
Proof. vm_compute. reflexivity. Qed.

Example sha256_two_blocks :
  sha256_hex (u "abcdbcdecdefdefgefghfghighijhijkijkljklmklmnlmnomnopnopq")
  = u "248d6a61d20638b8e5c026930c3e6039a33ce45964ff2167f6ecedd419db06c1".
Proof. vm_compute. reflexivity. Qed.

(** ** C10: ids collide across field boundaries *)

Lemma generate_uid_concat (t1 t2 : TournamentType) :
  join (dict_values t1) = join (dict_values t2) ->
  __generate_uid_from_tournament t1 = __generate_uid_from_tournament t2.
Proof. unfold __generate_uid_from_tournament. now intros ->. Qed.

(** C10.  Moving the last character of one field to the front of the
    next leaves the id unchanged, so records that differ in their field
    values get the same id; and when the scraper meets two such rows,
    the snapshot keeps one entry under that id, the later record. *)
Theorem uid_collision_overwrites :
  (forall c d l p n x,
      make_tournament c (d ++ [x]) l p n <> make_tournament c d (x :: l) p n
      /\ __generate_uid_from_tournament (make_tournament c (d ++ [x]) l p n)
         = __generate_uid_from_tournament (make_tournament c d (x :: l) p n))
  /\ tournament_a <> tournament_b
  /\ dict_values tournament_a <> dict_values tournament_b
  /\ __generate_uid_from_tournament tournament_a
     = __generate_uid_from_tournament tournament_b
  /\ exists uid,
       __generate_uid_from_tournament tournament_b = Ok uid
       /\ scrape_tags config_mixed_basic page_collision
          = Ok [(KStr uid, tournament_b)].
Proof.
  split; [|split; [|split; [|split]]].
  - intros c d l p n x. split.
    + rewrite !make_tournament_items. intros H.
      injection H as Hd _. 
      apply (f_equal (@List.length N)) in Hd.
      rewrite length_app in Hd. simpl in Hd. lia.
    + apply generate_uid_concat. rewrite !combined_string_eq.
      rewrite <- app_assoc. reflexivity.
  - discriminate.
  - discriminate.
  - vm_compute. reflexivity.
  - eexists. split; vm_compute; reflexivity.
Qed.

(** ** C8: the scraper filters rows and fills records *)

(** What holds of a record of the scraped snapshot: it has the five
    fields, taken from a row of a tag of the page; the heading of the
    tag is a chosen class and the playing style of the row a chosen
    playing style; the key is the id of the record. *)
Definition scraped_from (config : pyval) (tags : list class_tag)
    (k : pykey) (t : TournamentType) : Prop :=
  exists class_name date location playing_style number uid tag rows row_data,
    t = make_tournament class_name date location playing_style number
    /\ selected config (u "classes") class_name = Ok true
    /\ selected config (u "playingStyle") playing_style = Ok true
    /\ __generate_uid_from_tournament t = Ok uid /\ k = KStr uid
    /\ In tag tags /\ tag_h3 tag = Some class_name
    /\ tag_tbody tag = Some rows /\ In row_data rows
    /\ cell row_data 0 = Ok date /\ cell row_data 2 = Ok location
    /\ cell row_data 3 = Ok playing_style /\ cell row_data 4 = Ok number.

(** What the scraper owes to a row of a chosen class: if its playing
    style is chosen, the row has its five cells, and the snapshot
    holds, under the id of the record made of them, a record scraped
    from the page that has this id.  That is the record of the row
    itself, unless another relevant row of the page has the same id. *)
Definition row_recorded (config : pyval) (tags : list class_tag)
    (class_name : str) (row_data : list str) (s : snapshot) : Prop :=
  forall playing_style,
    cell row_data 3 = Ok playing_style ->
    selected config (u "playingStyle") playing_style = Ok true ->
    exists date location number uid t,
      cell row_data 0 = Ok date /\ cell row_data 2 = Ok location
      /\ cell row_data 4 = Ok number
      /\ __generate_uid_from_tournament
           (make_tournament class_name date location playing_style number) = Ok uid
      /\ dict_get (KStr uid) s = Some t
      /\ scraped_from config tags (KStr uid) t.

Definition relevant_ok (config : pyval) (tags : list class_tag)
    (relevant : dict class_tag) : Prop :=
  forall k tag, In (k, tag) relevant ->
    In tag tags
    /\ exists class_name, k = KStr class_name /\ tag_h3 tag = Some class_name
                          /\ selected config (u "classes") class_name = Ok true.

Ltac inv_rbind H :=
  match type of H with
  | rbind ?r _ = Ok _ =>
      let x := fresh "x" in
      let E := fresh "E" in
      destruct r as [x|] eqn:E; simpl in H; [|discriminate H]
  end.

Lemma relevant_class_tags_ok config tags :
  forall all acc rel,
    (forall t, In t all -> In t tags) ->
    relevant_ok config tags acc ->
    relevant_class_tags config all acc = Ok rel ->
    relevant_ok config tags rel.
Proof.
  induction all as [|t all IH]; simpl; intros acc rel Hsub Hacc H.
  - now injection H as <-.
  - destruct (tag_h3 t) as [class_name|] eqn:Hh3; [|discriminate].
    inv_rbind H.
    apply IH in H; [exact H | intros; apply Hsub; now right |].
    destruct x; [|exact Hacc].
    intros k tag Hin. apply dict_set_In in Hin as [[-> ->] | Hin].
    + split; [apply Hsub; now left | eauto].
    + now apply Hacc.
Qed.

Lemma scrape_row_ok config tags class_name tag rows row_data acc s :
  In tag tags -> tag_h3 tag = Some class_name -> tag_tbody tag = Some rows ->
  In row_data rows ->
  selected config (u "classes") class_name = Ok true ->
  (forall k t, In (k, t) acc -> scraped_from config tags k t) ->
  scrape_row config class_name row_data acc = Ok s ->
  forall k t, In (k, t) s -> scraped_from config tags k t.
Proof.
  intros Htag Hh3 Hbody Hrow Hclass Hacc H. unfold scrape_row in H.
  inv_rbind H. rename x into playing_style.
  inv_rbind H. destruct x; simpl in H; [|injection H as <-; exact Hacc].
  inv_rbind H. rename x into date.
  inv_rbind H. rename x into location.
  inv_rbind H. rename x into number.
  inv_rbind H. rename x into uid.
  injection H as <-. intros k t Hin.
  apply dict_set_In in Hin as [[-> ->] | Hin]; [|now apply Hacc].
  exists class_name, date, location, playing_style, number, uid, tag, rows, row_data.
  repeat split; assumption.
Qed.

Lemma scrape_rows_ok config tags class_name tag rows :
  In tag tags -> tag_h3 tag = Some class_name -> tag_tbody tag = Some rows ->
  selected config (u "classes") class_name = Ok true ->
  forall some_rows acc s,
    (forall r, In r some_rows -> In r rows) ->
    (forall k t, In (k, t) acc -> scraped_from config tags k t) ->
    scrape_rows config class_name some_rows acc = Ok s ->
    forall k t, In (k, t) s -> scraped_from config tags k t.
Proof.
  intros Htag Hh3 Hbody Hclass.
  induction some_rows as [|r some_rows IH]; simpl; intros acc s Hsub Hacc H.
  - now injection H as <-.
  - inv_rbind H. apply (IH x s); [intros; apply Hsub; now right | | exact H].
    intros k t Hin.
    eapply (scrape_row_ok config tags class_name tag rows r acc x); eauto.
Qed.

Lemma scrape_classes_ok config tags :
  forall relevant acc s,
    relevant_ok config tags relevant ->
    (forall k t, In (k, t) acc -> scraped_from config tags k t) ->
    scrape_classes config relevant acc = Ok s ->
    forall k t, In (k, t) s -> scraped_from config tags k t.
Proof.
  induction relevant as [|[k0 tag] relevant IH]; simpl; intros acc s Hrel Hacc H.
  - now injection H as <-.
  - destruct (tag_tbody tag) as [rows|] eqn:Hbody; [|discriminate].
    inv_rbind H.
    destruct (Hrel k0 tag (or_introl eq_refl)) as [Htag [cn [-> [Hh3 Hsel]]]].
    apply (IH x s); [intros k t Hin; apply Hrel; now right | | exact H].
    simpl in E. intros k t Hin.
    eapply (scrape_rows_ok config tags cn tag rows Htag Hh3 Hbody Hsel rows acc x);
      eauto.
Qed.

(** C8.  Every record of the snapshot the scraper returns comes from a
    row whose playing style is one of the chosen playing styles, in a
    class that is one of the chosen classes, and has all five fields:
    rows of other playing styles or classes are skipped, and no record
    is partly filled. *)
Theorem scraper_filters_and_fills (config : pyval) (tags : list class_tag)
    (s : snapshot) :
  scrape_tags config tags = Ok s ->
  forall k t, In (k, t) s -> scraped_from config tags k t.
Proof.
  unfold scrape_tags. intros H. inv_rbind H.
  apply (scrape_classes_ok config tags x [] s); [| |exact H].
  - apply (relevant_class_tags_ok config tags tags [] x); [auto| |exact E].
    intros k tag [].
  - intros k t [].
Qed.

Lemma scraper_filters_and_fills_witness :
  exists s, scrape_tags config_mixed_basic page_collision = Ok s
    /\ forall k t, In (k, t) s -> scraped_from config_mixed_basic page_collision k t.
Proof.
  eexists. split; [vm_compute; reflexivity|].
  apply (scraper_filters_and_fills config_mixed_basic page_collision).
  vm_compute. reflexivity.
Defined.

(** ** The events of a computation *)

(** [grows p w w']: from [w] to [w'] the trace grew by events
    satisfying [p], and a file changed only if it was dumped. *)
Definition grows (p : event -> bool) (w w' : world) : Prop :=
  exists new,
    w_trace w' = new ++ w_trace w
    /\ forallb p new = true
    /\ forall k, (forall f d, In (EvDump f d) new -> k <> KStr f) ->
         dict_get k (w_files w') = dict_get k (w_files w).

(** [emits p c]: whatever the world, [c] adds to the trace only events
    satisfying [p], and writes a file only through a dump. *)
Definition emits (p : event -> bool) {A} (c : M A) : Prop :=
  forall w r w', c w = (r, w') -> grows p w w'.

Section Frame.
Variable p : event -> bool.

Lemma grows_refl w : grows p w w.
Proof. exists []. auto. Qed.

Lemma grows_trans w w1 w2 : grows p w w1 -> grows p w1 w2 -> grows p w w2.
Proof.
  intros [n1 [T1 [F1 K1]]] [n2 [T2 [F2 K2]]]. exists (n2 ++ n1).
  rewrite T2, T1, app_assoc, forallb_app, F1, F2. repeat split; auto.
  intros k Hk. rewrite K2, K1; auto; intros f d Hin; apply (Hk f d);
    apply in_or_app; auto.
Qed.

Lemma grows_event e w :
  p e = true -> grows p w (set_trace (e :: w_trace w) w).
Proof. intros He. exists [e]. simpl. rewrite He. auto. Qed.

Lemma grows_console w inp new :
  forallb p new = true ->
  grows p w (set_stdin inp (set_trace (new ++ w_trace w) w)).
Proof. intros F. exists new. auto. Qed.

Lemma emits_ret {A} (a : A) : emits p (ret a).
Proof. intros w r w' H. injection H as <- <-. apply grows_refl. Qed.

Lemma emits_raise {A} (e : exn) : emits p (@raise A e).
Proof. intros w r w' H. injection H as <- <-. apply grows_refl. Qed.

Lemma emits_lift {A} (x : result A) : emits p (lift x).
Proof. intros w r w' H. injection H as <- <-. apply grows_refl. Qed.

Lemma emits_emit (e : event) : p e = true -> emits p (emit e).
Proof. intros He w r w' H. injection H as <- <-. now apply grows_event. Qed.

Lemma emits_bind {A B} (c : M A) (k : A -> M B) :
  emits p c -> (forall a, emits p (k a)) -> emits p (bind c k).
Proof.
  intros Hc Hk w r w' H. unfold bind in H.
  destruct (c w) as [[a|e] w1] eqn:E.
  - eapply grows_trans; [exact (Hc _ _ _ E) | exact (Hk a _ _ _ H)].
  - injection H as <- <-. exact (Hc _ _ _ E).
Qed.

Lemma emits_try_except {A} (c : M A) (h : exn -> M A) :
  emits p c -> (forall e, emits p (h e)) -> emits p (try_except c h).
Proof.
  intros Hc Hh w r w' H. unfold try_except in H.
  destruct (c w) as [[a|e] w1] eqn:E.
  - injection H as <- <-. exact (Hc _ _ _ E).
  - eapply grows_trans; [exact (Hc _ _ _ E) | exact (Hh e _ _ _ H)].
Qed.

Lemma emits_input (prompt : str) : p (EvInput prompt) = true -> emits p (input prompt).
Proof.
  intros He w r w' H. unfold input in H.
  destruct (w_stdin w); injection H as <- <-.
  - now apply grows_event.
  - exists [EvInput prompt]. simpl. rewrite He. auto.
Qed.

Lemma emits_isfile (name : str) : emits p (isfile name).
Proof. intros w r w' H. injection H as <- <-. apply grows_refl. Qed.

Lemma emits_http_get : p EvHttpGet = true -> emits p http_get.
Proof.
  intros He. apply emits_bind; [now apply emits_emit|].
  intros _ w r w' H. injection H as <- <-. apply grows_refl.
Qed.

Lemma emits_run_console {A} (f : list str -> list event -> console A) :
  (forall inp tr r inp' tr', f inp tr = (r, inp', tr') ->
     exists new, tr' = new ++ tr /\ forallb p new = true) ->
  emits p (run_console f).
Proof.
  intros Hf w r w' H. unfold run_console in H.
  destruct (f (w_stdin w) (w_trace w)) as [[r0 inp'] tr'] eqn:E.
  injection H as <- <-. destruct (Hf _ _ _ _ _ E) as [new [-> F]].
  now apply grows_console.
Qed.

Lemma emits_dump (data : pyval) (filename : str) :
  p (EvDump filename data) = true -> emits p (__dump_to_json data filename).
Proof.
  intros He w r w' H. unfold __dump_to_json, bind, emit in H.
  exists [EvDump filename data]. simpl. rewrite He.
  assert (Hk : forall k : pykey,
             (forall f d, EvDump filename data = EvDump f d \/ False -> k <> KStr f) ->
             pykey_eqb k (KStr filename) = false).
  { intros k Hk. apply pykey_eqb_neq. apply (Hk filename data). now left. }
  destruct (json_dump data) as [r0 written].
  injection H as <- <-; simpl; repeat split; auto;
    intros k Hd; apply dict_get_set_other; auto.
Qed.

Lemma emits_load (filename : str) :
  p (EvLoad filename) = true -> emits p (__load_from_json filename).
Proof.
  intros He. apply emits_bind; [now apply emits_emit|].
  intros _ w r w' H.
  destruct (dict_get (KStr filename) (w_files w));
    injection H as <- <-; apply grows_refl.
Qed.

Lemma emits_mail (c : mail_call) :
  p (EvMail c) = true -> emits p (mail c).
Proof.
  intros He. unfold mail. apply emits_bind.
  - destruct (on_wire c); [now apply emits_emit | apply emits_ret].
  - intros _ w r w' H. destruct (smtp_answer (smtp w) c);
      injection H as <- <-; apply grows_refl.
Qed.

(** The loops of the dialogue. *)
Hypothesis p_dialogue : forall e, dialogue e = true -> p e = true.

Lemma yes_no_loop_emits inp :
  forall tr r inp' tr', yes_no_loop inp tr = (r, inp', tr') ->
    exists new, tr' = new ++ tr /\ forallb p new = true.
Proof.
  induction inp as [|l rest IH]; simpl; intros tr r inp' tr' H.
  - injection H as <- <- <-. exists [EvInput yes_no_prompt]. simpl.
    rewrite p_dialogue; auto.
  - destruct (is_yes _); [|destruct (is_no _)].
    + injection H as <- <- <-. exists [EvInput yes_no_prompt]. simpl.
      rewrite p_dialogue; auto.
    + injection H as <- <- <-. exists [EvInput yes_no_prompt]. simpl.
      rewrite p_dialogue; auto.
    + apply IH in H as [new [-> F]].
      exists (new ++ [EvPrint not_recognized; EvInput yes_no_prompt]).
      rewrite <- app_assoc, forallb_app, F. simpl.
      rewrite !p_dialogue; auto.
Qed.

Lemma parse_enum_selection_loop_emits num_entries inp :
  forall sel tr r inp' tr',
    parse_enum_selection_loop num_entries sel inp tr = (r, inp', tr') ->
    exists new, tr' = new ++ tr /\ forallb p new = true.
Proof.
  induction inp as [|l rest IH]; simpl; intros sel tr r inp' tr' H.
  - destruct (Nat.eqb _ _); injection H as <- <- <-.
    + now exists [].
    + exists [EvInput []]. simpl. rewrite p_dialogue; auto.
  - destruct (Nat.eqb _ num_entries); [injection H as <- <- <-; now exists []|].
    destruct (str_eqb _ _).
    + destruct (Nat.eqb _ 0).
      * apply IH in H as [new [-> F]].
        exists (new ++ [EvPrint select_at_least_one; EvInput []]).
        rewrite <- app_assoc, forallb_app, F. simpl.
        rewrite !p_dialogue; auto.
      * injection H as <- <- <-. exists [EvInput []]. simpl.
        rewrite p_dialogue; auto.
    + destruct (negb _); [|destruct (int_of_str _) as [n|e]; [destruct (N.leb _ _)|]].
      * apply IH in H as [new [-> F]].
        exists (new ++ [EvPrint (choose_a_number num_entries); EvInput []]).
        rewrite <- app_assoc, forallb_app, F. simpl.
        rewrite !p_dialogue; auto.
      * apply IH in H as [new [-> F]].
        exists (new ++ [EvPrint (choose_a_number num_entries); EvInput []]).
        rewrite <- app_assoc, forallb_app, F. simpl.
        rewrite !p_dialogue; auto.
      * apply IH in H as [new [-> F]].
        exists (new ++ [EvInput []]).
        rewrite <- app_assoc, forallb_app, F. simpl.
        rewrite !p_dialogue; auto.
      * injection H as <- <- <-. exists [EvInput []]. simpl.
        rewrite p_dialogue; auto.
Qed.
End Frame.

(** The email dialogue is the composition the program writes: an
    address that does not match is kept or asked again according to
    [__yes_no_parser]. *)
Lemma parse_email_address_unfold (from_email : str) (rest : list str)
    (tr : list event) :
  parse_email_address (from_email :: rest) tr
  = let tr1 := EvInput email_prompt :: tr in
    if email_fullmatch from_email then (Ok from_email, rest, tr1)
    else
      match yes_no_loop rest (EvPrint invalid_email :: tr1) with
      | (Ok true, r', t') => (Ok from_email, r', t')
      | (Ok false, r', t') => parse_email_address r' t'
      | (Raise e, r', t') => (Raise e, r', t')
      end.
Proof.
  simpl. destruct (email_fullmatch from_email); [reflexivity|].
  generalize (EvPrint invalid_email :: EvInput email_prompt :: tr).
  induction rest as [|a rest IH]; intros t; simpl; [reflexivity|].
  destruct (is_yes _); [reflexivity|].
  destruct (is_no _); [reflexivity|].
  apply IH.
Qed.

Lemma yes_no_loop_shorter inp :
  forall tr r inp' tr', yes_no_loop inp tr = (r, inp', tr') ->
    (List.length inp' <= List.length inp)%nat
    /\ (is_ok r = true -> List.length inp' < List.length inp)%nat.
Proof.
  induction inp as [|l rest IH]; simpl; intros tr r inp' tr' H.
  - injection H as <- <- <-. split; [auto | discriminate].
  - destruct (is_yes _); [|destruct (is_no _)];
      try (injection H as <- <- <-; split; auto).
    apply IH in H as [H1 H2]. split; [lia | intros Hr; apply H2 in Hr; lia].
Qed.

Section FrameEmail.
Variable p : event -> bool.
Hypothesis p_dialogue : forall e, dialogue e = true -> p e = true.

Lemma parse_email_address_emits_le (n : nat) :
  forall inp, (List.length inp <= n)%nat ->
  forall tr r inp' tr', parse_email_address inp tr = (r, inp', tr') ->
    exists new, tr' = new ++ tr /\ forallb p new = true.
Proof.
  induction n as [|n IHn]; intros [|a rest] Hlen tr r inp' tr' H;
    try (simpl in Hlen; lia);
    try (simpl in H; injection H as <- <- <-;
         exists [EvInput email_prompt]; simpl; rewrite p_dialogue; auto).
  rewrite parse_email_address_unfold in H. simpl in H.
  destruct (email_fullmatch a).
  - injection H as <- <- <-. exists [EvInput email_prompt]. simpl.
    rewrite p_dialogue; auto.
  - destruct (yes_no_loop rest _) as [[r0 r1] t1] eqn:E.
    destruct (yes_no_loop_emits p p_dialogue _ _ _ _ _ E) as [n1 [-> F1]].
    destruct (yes_no_loop_shorter _ _ _ _ _ E) as [L1 _].
    assert (Hpre : forallb p [EvPrint invalid_email; EvInput email_prompt] = true).
    { simpl. rewrite !p_dialogue; auto. }
    destruct r0 as [[|]|e].
    + injection H as <- <- <-.
      exists (n1 ++ [EvPrint invalid_email; EvInput email_prompt]).
      now rewrite <- app_assoc, forallb_app, F1, Hpre.
    + apply IHn in H as [n2 [-> F2]]; [|simpl in Hlen; lia].
      exists (n2 ++ n1 ++ [EvPrint invalid_email; EvInput email_prompt]).
      now rewrite <- !app_assoc, !forallb_app, F1, F2, Hpre.
    + injection H as <- <- <-.
      exists (n1 ++ [EvPrint invalid_email; EvInput email_prompt]).
      now rewrite <- app_assoc, forallb_app, F1, Hpre.
Qed.

Lemma parse_email_address_emits inp :
  forall tr r inp' tr', parse_email_address inp tr = (r, inp', tr') ->
    exists new, tr' = new ++ tr /\ forallb p new = true.
Proof. apply (parse_email_address_emits_le (List.length inp)). auto. Qed.

Lemma emits_print (s : str) : is_diff_report s = false -> emits p (print s).
Proof.
  intros H. apply emits_emit. apply p_dialogue. simpl. now rewrite H.
Qed.

Lemma emits_yes_no : emits p __yes_no_parser.
Proof. apply emits_run_console. intros. eapply yes_no_loop_emits; eauto. Qed.

Lemma emits_print_enum_selection enum start :
  match enum with [] => False | _ => True end ->
  emits p (__print_enum_selection enum start).
Proof.
  intros Hne. apply emits_print.
  destruct enum as [|[name value] enum]; [contradiction|].
  simpl. destruct (enum_lines enum (start + 1)); reflexivity.
Qed.

Lemma emits_parse_enum_selection enum : emits p (__parse_enum_selection enum).
Proof.
  apply emits_bind; [now apply emits_print|]. intros _.
  apply emits_run_console. intros.
  eapply parse_enum_selection_loop_emits; eauto.
Qed.

Lemma emits_parse_playing_style config : emits p (__parse_playing_style config).
Proof.
  unfold __parse_playing_style.
  apply emits_bind; [now apply emits_print|]. intros _.
  apply emits_bind; [now apply emits_print_enum_selection|]. intros _.
  apply emits_bind; [apply emits_parse_enum_selection|]. intros sel.
  apply emits_bind; [apply emits_lift|]. intros m. apply emits_lift.
Qed.

Lemma emits_parse_email_address : emits p (run_console parse_email_address).
Proof. apply emits_run_console. intros. eapply parse_email_address_emits; eauto. Qed.

Lemma emits_parse_email_details config : emits p (__parse_email_details config).
Proof.
  unfold __parse_email_details.
  apply emits_bind; [now apply emits_print|]. intros _.
  apply emits_bind; [apply emits_yes_no|]. intros b.
  destruct b; simpl; [|apply emits_ret].
  apply emits_bind; [apply emits_parse_email_address|]. intros from.
  apply emits_bind; [apply emits_lift|]. intros c1.
  apply emits_bind; [apply emits_lift|]. intros c2.
  apply emits_bind; [now apply emits_print|]. intros _.
  apply emits_bind; [now apply emits_input, p_dialogue|]. intros pw.
  apply emits_bind; [apply emits_lift|]. intros c3.
  apply emits_bind; [now apply emits_input, p_dialogue|]. intros host.
  apply emits_bind; [apply emits_lift|]. intros c4.
  apply emits_bind; [now apply emits_print|]. intros _.
  apply emits_bind; [apply emits_yes_no|]. intros other.
  destruct other; [|apply emits_ret].
  apply emits_bind; [apply emits_parse_email_address|]. intros to.
  apply emits_lift.
Qed.

Lemma emits_parse_tournament_classes config :
  emits p (__parse_tournament_classes config).
Proof.
  unfold __parse_tournament_classes.
  apply emits_bind; [now apply emits_print|]. intros _.
  apply emits_bind; [now apply emits_print_enum_selection|]. intros _.
  apply emits_bind; [apply emits_parse_enum_selection|]. intros sel.
  apply emits_bind; [apply emits_lift|]. intros cls.
  destruct (existsb _ cls); [apply emits_raise|].
  apply emits_bind; [apply emits_lift|]. intros m. apply emits_lift.
Qed.

Lemma emits_parse_user_config : emits p parse_user_config.
Proof.
  unfold parse_user_config.
  apply emits_bind; [apply emits_parse_playing_style|]. intros c1.
  apply emits_bind; [apply emits_parse_email_details|]. intros c2.
  apply emits_bind; [apply emits_parse_tournament_classes|]. intros c3.
  apply emits_ret.
Qed.
End FrameEmail.

Lemma emits_weaken (p q : event -> bool) {A} (c : M A) :
  (forall e, p e = true -> q e = true) -> emits p c -> emits q c.
Proof.
  intros Hpq Hc w r w' H. destruct (Hc _ _ _ H) as [new [T [F K]]].
  exists new. repeat split; auto.
  rewrite forallb_forall in *. auto.
Qed.

Lemma dict_mem_get {V} (k : pykey) (d : dict V) :
  dict_mem k d = match dict_get k d with Some _ => true | None => false end.
Proof.
  unfold dict_mem, dict_keys. induction d as [|[k' v] d IH]; simpl; [reflexivity|].
  destruct (pykey_eqb k k'); simpl; auto.
Qed.

(** A piece of program that never dumps the snapshot leaves the
    snapshot file as it was. *)
Lemma grows_keeps_snapshot (p : event -> bool) (w w' : world) :
  (forall e, p e = true -> is_snapshot_dump e = false) ->
  grows p w w' ->
  dict_mem (KStr TOURNAMENT_JSON_NAME) (w_files w')
  = dict_mem (KStr TOURNAMENT_JSON_NAME) (w_files w).
Proof.
  intros Hp [new [T [F K]]]. rewrite !dict_mem_get, K; [reflexivity|].
  intros f d Hin Heq. rewrite forallb_forall in F.
  specialize (Hp _ (F _ Hin)). simpl in Hp.
  injection Heq as <-. now rewrite str_eqb_refl in Hp.
Qed.

Lemma tournaments_to_str_no_report (l : list TournamentType) (text : str) :
  __tournaments_to_str l = Ok text -> is_diff_report text = false.
Proof.
  unfold __tournaments_to_str. intros H.
  destruct (map_result __tournament_to_str l); simpl in H; [|discriminate].
  injection H as <-. reflexivity.
Qed.

Lemma emits_get_user_config : emits config_event get_user_config.
Proof.
  assert (Hd : forall e, dialogue e = true -> config_event e = true).
  { intros [] H; try discriminate; exact H. }
  unfold get_user_config.
  apply emits_bind; [now apply emits_print|]. intros _.
  apply emits_bind; [now apply emits_print|]. intros _.
  apply emits_bind; [now apply emits_yes_no|]. intros upd.
  apply emits_bind; [apply emits_isfile|]. intros ex.
  destruct (upd || negb ex).
  - apply emits_bind.
    { destruct (negb ex); [now apply emits_print | apply emits_ret]. }
    intros _. apply emits_bind; [now apply emits_parse_user_config|].
    intros cfg. apply emits_bind; [|intros _; apply emits_ret].
    apply emits_dump. reflexivity.
  - apply emits_load. reflexivity.
Qed.

Lemma emits_scrape (config : pyval) :
  emits scrape_event (scrape_relevant_tournaments config).
Proof.
  unfold scrape_relevant_tournaments.
  apply emits_bind; [now apply emits_emit|]. intros _.
  apply emits_bind; [now apply emits_http_get|]. intros tags.
  apply emits_lift.
Qed.

Lemma emits_first_run (s : snapshot) : emits first_run_event (first_run s).
Proof.
  assert (Hd : forall e, dialogue e = true -> first_run_event e = true).
  { intros e H. unfold first_run_event. now rewrite H. }
  unfold first_run.
  apply emits_bind; [now apply emits_print|]. intros _.
  apply emits_bind; [now apply emits_yes_no|]. intros show.
  apply emits_bind.
  { destruct show; [|apply emits_ret].
    apply emits_bind; [now apply emits_print|]. intros _.
    intros w r w' H. unfold bind, lift in H.
    destruct (__tournaments_to_str (dict_values s)) as [text|e] eqn:E.
    - apply tournaments_to_str_no_report in E.
      exact (emits_print _ Hd _ E _ _ _ H).
    - injection H as <- <-. apply grows_refl. }
  intros _. apply emits_bind; [now apply emits_dump|]. intros _.
  now apply emits_print.
Qed.

Lemma emits_send_email (config : pyval) (data : list TournamentType) :
  emits report_event (__send_email config data).
Proof.
  assert (Hm : forall c, emits report_event (mail c))
    by (intros c; now apply emits_mail).
  unfold __send_email, send_email_body, with_server, server_exit.
  apply emits_bind; [now apply emits_emit|]. intros _.
  apply emits_try_except; [|intros e; now apply emits_emit].
  repeat first
    [ apply Hm
    | apply emits_lift
    | apply emits_raise
    | apply emits_bind; [|intros ?]
    | apply emits_try_except; [|intros ?] ].
Qed.

Lemma emits_report config s keys_diff : emits report_event (report config s keys_diff).
Proof.
  assert (Hd : forall e, dialogue e = true -> report_event e = true).
  { intros [] H; try discriminate; reflexivity. }
  unfold report.
  apply emits_bind; [now apply emits_emit|]. intros _.
  destruct (Nat.ltb 0 _); [|now apply emits_emit].
  apply emits_bind; [now apply emits_emit|]. intros _.
  apply emits_bind; [now apply emits_yes_no|]. intros show.
  apply emits_bind; [|intros _; apply emits_send_email].
  destruct show; [|apply emits_ret].
  apply emits_bind; [apply emits_lift|]. intros text. now apply emits_emit.
Qed.

(** ** The shape of a run *)

Lemma bind_inv {A B} (c : M A) (k : A -> M B) w r w' :
  bind c k w = (r, w') ->
  (exists e, c w = (Raise e, w') /\ r = Raise e)
  \/ (exists a w1, c w = (Ok a, w1) /\ k a w1 = (r, w')).
Proof.
  unfold bind. destruct (c w) as [[a|e] w1]; intros H.
  - right. eauto.
  - left. injection H as <- <-. eauto.
Qed.

Lemma bind_ok_inv {A B} (c : M A) (k : A -> M B) w b w' :
  bind c k w = (Ok b, w') ->
  exists a w1, c w = (Ok a, w1) /\ k a w1 = (Ok b, w').
Proof.
  intros H. apply bind_inv in H as [[e [_ He]] | H]; [discriminate | exact H].
Qed.

(** A later run that ends well loaded the snapshot, then dumped the new
    one, then computed the diff, and after that neither dumped nor
    loaded anything. *)
Lemma later_run_shape config s w w' :
  later_run config s w = (Ok tt, w') ->
  exists loaded_keys post,
    let keys_diff := keys_difference (dict_keys s) loaded_keys in
    w_trace w'
    = post ++ [EvKeysDiff keys_diff;
               EvDump TOURNAMENT_JSON_NAME (pyval_of_snapshot s);
               EvLoad TOURNAMENT_JSON_NAME] ++ w_trace w
    /\ forallb report_event post = true
    /\ (keys_diff = [] -> existsb is_send_email post = false).
Proof.
  unfold later_run. intros H.
  apply bind_ok_inv in H as [loaded [w1 [Hload H]]].
  apply bind_ok_inv in H as [[] [w2 [Hdump H]]].
  apply bind_ok_inv in H as [loaded_keys [w3 [Hkeys H]]].
  apply bind_ok_inv in H as [[] [w4 [Hemit H]]].
  exists loaded_keys.
  (* the trace up to the diff *)
  assert (T1 : w_trace w1 = EvLoad TOURNAMENT_JSON_NAME :: w_trace w).
  { unfold __load_from_json, bind, emit in Hload. simpl in Hload.
    destruct (dict_get _ _); injection Hload as _ <-; reflexivity. }
  assert (T2 : w_trace w2
               = EvDump TOURNAMENT_JSON_NAME (pyval_of_snapshot s) :: w_trace w1).
  { unfold __dump_to_json, bind, emit in Hdump. simpl in Hdump.
    destruct (json_dump (pyval_of_snapshot s)) as [r0 written].
    injection Hdump as _ <-. reflexivity. }
  injection Hkeys as _ <-. injection Hemit as <-.
  simpl. destruct (keys_difference (dict_keys s) loaded_keys) as [|k ks] eqn:Hd.
  - unfold report in H. simpl in H. unfold bind, print, emit in H. simpl in H.
    injection H as <-. exists [EvPrint up_to_date; EvPrint (there_are 0)].
    simpl. rewrite T2, T1. auto.
  - destruct (emits_report _ _ _ _ _ _ H) as [post [T [F _]]].
    exists post. simpl in T. rewrite T, T2, T1. repeat split; auto.
    discriminate.
Qed.

(** The stages of [__parse_intro]. *)
Lemma parse_intro_cases w r w' :
  __parse_intro w = (r, w') ->
  (exists e, get_user_config w = (Raise e, w') /\ r = Raise e)
  \/ exists config w1,
       get_user_config w = (Ok config, w1)
       /\ let w2 := set_trace (processing :: w_trace w1) w1 in
          ((exists e, scrape_relevant_tournaments config w2 = (Raise e, w')
                      /\ r = Raise e)
           \/ exists s w3,
                scrape_relevant_tournaments config w2 = (Ok s, w3)
                /\ if dict_mem (KStr TOURNAMENT_JSON_NAME) (w_files w3)
                   then later_run config s w3 = (r, w')
                   else first_run s w3 = (r, w')).
Proof.
  unfold __parse_intro. intros H.
  apply bind_inv in H as [H | [config [w1 [Hc H]]]]; [now left|].
  right. exists config, w1. split; [exact Hc|].
  apply bind_inv in H as [[e [He _]] | [[] [w2 [Hp H]]]]; [discriminate|].
  injection Hp as <-. simpl.
  apply bind_inv in H as [H | [s [w3 [Hs H]]]]; [now left|].
  right. exists s, w3. split; [exact Hs|].
  apply bind_inv in H as [[e [He _]] | [ex [w4 [Hf H]]]]; [discriminate|].
  injection Hf as <- <-.
  destruct (dict_mem _ _); exact H.
Qed.

Lemma before_event_no_dump e : before_event e = true -> is_snapshot_dump e = false.
Proof.
  destruct e; try reflexivity. unfold before_event. simpl.
  rewrite orb_false_r. intros H. apply str_eqb_eq in H. subst. reflexivity.
Qed.

Lemma grows_processing w :
  grows before_event w (set_trace (processing :: w_trace w) w).
Proof. now apply grows_event. Qed.

Lemma grows_before config w w1 (r : result snapshot) w3 :
  get_user_config w = (Ok config, w1) ->
  scrape_relevant_tournaments config
    (set_trace (processing :: w_trace w1) w1) = (r, w3) ->
  grows before_event w w3.
Proof.
  intros Hc Hs.
  eapply grows_trans; [|eapply grows_trans; [apply grows_processing|]].
  - eapply (emits_weaken config_event); [|apply emits_get_user_config|exact Hc].
    intros e He. unfold before_event. now rewrite He.
  - eapply (emits_weaken scrape_event); [|apply emits_scrape|exact Hs].
    intros e He. unfold before_event. rewrite He. apply orb_true_r.
Qed.

(** ** C7: the first run *)

Definition first_run_all (e : event) : bool := before_event e || first_run_event e.

Lemma first_run_all_facts e :
  first_run_all e = true ->
  is_send_email e = false /\ is_keys_diff e = false
  /\ forall s, e = EvPrint s -> is_diff_report s = false.
Proof.
  intros H. repeat split; try (destruct e; try reflexivity; discriminate H).
  intros s ->. unfold first_run_all, before_event, first_run_event in H.
  simpl in H. rewrite !orb_false_r, orb_diag in H.
  now apply negb_true_iff in H.
Qed.

Lemma first_run_shape s w w' :
  first_run s w = (Ok tt, w') ->
  exists mid,
    w_trace w'
    = EvPrint next_time :: EvDump TOURNAMENT_JSON_NAME (pyval_of_snapshot s)
      :: mid ++ EvPrint first_time :: w_trace w.
Proof.
  unfold first_run. intros H.
  apply bind_ok_inv in H as [[] [w1 [H1 H]]]. injection H1 as <-.
  apply bind_ok_inv in H as [show [w2 [H2 H]]].
  apply bind_ok_inv in H as [[] [w3 [H3 H]]].
  apply bind_ok_inv in H as [[] [w4 [H4 H]]].
  injection H as <-.
  assert (Hd : forall e, dialogue e = true -> first_run_event e = true).
  { intros e He. unfold first_run_event. now rewrite He. }
  destruct (emits_yes_no first_run_event Hd _ _ _ H2) as [n2 [T2 _]].
  assert (G3 : grows first_run_event w2 w3).
  { destruct show; [|injection H3 as <-; apply grows_refl].
    apply bind_ok_inv in H3 as [[] [wa [Ha H3]]].
    apply bind_ok_inv in H3 as [text [wb [Hb H3]]].
    injection Hb as Ht <-.
    eapply grows_trans.
    - exact (emits_print first_run_event Hd (u "You're welcome:" ++ [10%N])
               eq_refl _ _ _ Ha).
    - exact (emits_print first_run_event Hd _
               (tournaments_to_str_no_report _ _ Ht) _ _ _ H3). }
  destruct G3 as [n3 [T3 _]].
  assert (T4 : w_trace w4
               = EvDump TOURNAMENT_JSON_NAME (pyval_of_snapshot s) :: w_trace w3).
  { unfold __dump_to_json, bind, emit in H4. simpl in H4.
    destruct (json_dump (pyval_of_snapshot s)) as [r0 written].
    injection H4 as _ <-. reflexivity. }
  exists (n3 ++ n2). simpl. rewrite T4, T3, T2. simpl.
  now rewrite <- app_assoc.
Qed.

(** C7.  When there is no previous snapshot, a run computes no diff,
    sends no email and prints neither of the two messages that report
    a diff ("There are N new tournaments!", "You are up to date!");
    a run that ends well has printed the first-run messages, which
    differ from those two, and has saved the scraped snapshot. *)
Theorem first_run_reports_no_diff (w : world) (r : result unit) (w' : world) :
  dict_mem (KStr TOURNAMENT_JSON_NAME) (w_files w) = false ->
  run w = (r, w') ->
  existsb is_keys_diff (events w') = false
  /\ existsb is_send_email (events w') = false
  /\ (forall s, In (EvPrint s) (events w') -> is_diff_report s = false)
  /\ (r = Ok tt ->
      In (EvPrint first_time) (events w') /\ In (EvPrint next_time) (events w')
      /\ exists s, In (EvDump TOURNAMENT_JSON_NAME (pyval_of_snapshot s)) (events w'))
  /\ is_diff_report first_time = false /\ is_diff_report next_time = false
  /\ is_diff_report up_to_date = true
  /\ forall n, is_diff_report (there_are n) = true.
Proof.
  intros Habsent Hrun. unfold run in Hrun.
  set (w0 := set_trace [] w) in *.
  assert (Habs0 : dict_mem (KStr TOURNAMENT_JSON_NAME) (w_files w0) = false)
    by exact Habsent.
  assert (Hb : forall e, before_event e = true -> first_run_all e = true).
  { intros e He. unfold first_run_all. now rewrite He. }
  assert (Hf : forall e, first_run_event e = true -> first_run_all e = true).
  { intros e He. unfold first_run_all. rewrite He. apply orb_true_r. }
  assert (Hc : forall e, config_event e = true -> first_run_all e = true).
  { intros e He. apply Hb. unfold before_event. now rewrite He. }
  assert (G : grows first_run_all w0 w'
              /\ (r = Ok tt -> exists s w3, first_run s w3 = (Ok tt, w')
                                            /\ grows first_run_all w0 w3)).
  { apply parse_intro_cases in Hrun
      as [[e [He ->]] | [config [w1 [Hcfg [[e [Hs ->]] | [s [w3 [Hs H]]]]]]]].
    - split; [|discriminate].
      exact (emits_weaken _ _ _ Hc emits_get_user_config _ _ _ He).
    - split; [|discriminate].
      destruct (grows_before _ _ _ _ _ Hcfg Hs) as [new [T [F K]]].
      exists new. repeat split; auto. rewrite forallb_forall in *. auto.
    - pose proof (grows_before _ _ _ _ _ Hcfg Hs) as Gb.
      rewrite (grows_keeps_snapshot _ _ _ before_event_no_dump Gb), Habs0 in H.
      assert (Gb' : grows first_run_all w0 w3).
      { destruct Gb as [new [T [F K]]]. exists new. repeat split; auto.
        rewrite forallb_forall in *. auto. }
      split.
      + eapply grows_trans; [exact Gb'|].
        exact (emits_weaken _ _ _ Hf (emits_first_run s) _ _ _ H).
      + intros ->. eauto. }
  destruct G as [[new [T [F _]]] Gok]. simpl in T. rewrite app_nil_r in T.
  assert (Hev : forall e, In e (events w') -> first_run_all e = true).
  { intros e He. unfold events in He. apply in_rev in He. rewrite T in He.
    rewrite forallb_forall in F. auto. }
  split; [|split; [|split; [|split]]].
  - destruct (existsb is_keys_diff (events w')) eqn:E; [|reflexivity].
    apply existsb_exists in E as [e [Hin He]].
    destruct (first_run_all_facts e (Hev e Hin)) as [_ [H2 _]]. congruence.
  - destruct (existsb is_send_email (events w')) eqn:E; [|reflexivity].
    apply existsb_exists in E as [e [Hin He]].
    destruct (first_run_all_facts e (Hev e Hin)) as [H1 _]. congruence.
  - intros s Hin.
    destruct (first_run_all_facts _ (Hev _ Hin)) as [_ [_ H3]]. now apply H3.
  - intros Hr. destruct (Gok Hr) as [s [w3 [Hfirst _]]].
    apply first_run_shape in Hfirst as [mid Tr].
    unfold events. rewrite Tr. repeat split.
    + apply -> in_rev. right. right. apply in_or_app. right. now left.
    + apply -> in_rev. now left.
    + exists s. apply -> in_rev. right. now left.
  - repeat split; try reflexivity.
Qed.

Lemma first_run_reports_no_diff_witness :
  existsb is_keys_diff (events (snd (run world_first_run))) = false
  /\ existsb is_send_email (events (snd (run world_first_run))) = false
  /\ In (EvPrint first_time) (events (snd (run world_first_run))).
Proof.
  assert (H0 : dict_mem (KStr TOURNAMENT_JSON_NAME) (w_files world_first_run) = false)
    by (vm_compute; reflexivity).
  assert (Hok : fst (run world_first_run) = Ok tt) by (vm_compute; reflexivity).
  pose proof (first_run_reports_no_diff world_first_run
                (fst (run world_first_run)) (snd (run world_first_run))
                H0 (surjective_pairing _)) as [Ha [Hb [_ [H4 _]]]].
  destruct (H4 Hok) as [Hc _].
  exact (conj Ha (conj Hb Hc)).
Defined.


(** ** C3: the save of a later run *)

Lemma existsb_none (p q : event -> bool) (l : list event) :
  forallb p l = true -> (forall e, p e = true -> q e = false) ->
  existsb q (rev l) = false.
Proof.
  intros F H. destruct (existsb q (rev l)) eqn:E; [|reflexivity].
  apply existsb_exists in E as [e [Hin He]]. apply in_rev in Hin.
  rewrite forallb_forall in F. rewrite (H e (F e Hin)) in He. discriminate.
Qed.

Lemma count_app (p : event -> bool) (a b : list event) :
  count p (a ++ b) = (count p a + count p b)%nat.
Proof. unfold count. now rewrite filter_app, length_app. Qed.

Lemma count_none (p : event -> bool) (l : list event) :
  existsb p l = false -> count p l = 0%nat.
Proof.
  unfold count. induction l as [|e l IH]; simpl; [reflexivity|].
  destruct (p e); simpl; [discriminate | exact IH].
Qed.

Lemma occurs_before_app (p q : event -> bool) (a b : list event) :
  occurs_before p q (a ++ b)
  = occurs_before p q a || (existsb p a && existsb q b) || occurs_before p q b.
Proof.
  induction a as [|e a IH]; simpl; [reflexivity|].
  rewrite IH, existsb_app.
  destruct (p e), (existsb q a), (existsb q b), (occurs_before p q a),
    (existsb p a), (occurs_before p q b); reflexivity.
Qed.

Lemma occurs_before_none_l (p q : event -> bool) (l : list event) :
  existsb p l = false -> occurs_before p q l = false.
Proof.
  induction l as [|e l IH]; simpl; [reflexivity|].
  destruct (p e); simpl; [discriminate | exact IH].
Qed.

Lemma occurs_before_none_r (p q : event -> bool) (l : list event) :
  existsb q l = false -> occurs_before p q l = false.
Proof.
  induction l as [|e l IH]; simpl; [reflexivity|].
  intros H. apply orb_false_iff in H as [_ H].
  rewrite H, IH by exact H. now rewrite andb_false_r.
Qed.

Lemma before_event_facts e :
  before_event e = true ->
  is_snapshot_dump e = false /\ is_snapshot_load e = false /\ is_keys_diff e = false.
Proof.
  intros H. split; [now apply before_event_no_dump|].
  split; [|destruct e; try reflexivity; discriminate H].
  destruct e; try reflexivity. unfold before_event in H. simpl in H.
  rewrite orb_false_r in H. apply str_eqb_eq in H. subst. reflexivity.
Qed.

Lemma report_event_facts e :
  report_event e = true ->
  is_snapshot_dump e = false /\ is_snapshot_load e = false /\ is_keys_diff e = false.
Proof. destruct e; try discriminate; auto. Qed.

(** The shape of a later run that ends well. *)
Lemma later_run_events w w' :
  dict_mem (KStr TOURNAMENT_JSON_NAME) (w_files w) = true ->
  run w = (Ok tt, w') ->
  exists before data keys_diff after,
    events w'
    = before ++ [EvLoad TOURNAMENT_JSON_NAME; EvDump TOURNAMENT_JSON_NAME data;
                 EvKeysDiff keys_diff] ++ after
    /\ forallb before_event before = true
    /\ forallb report_event after = true
    /\ (keys_diff = [] -> existsb is_send_email after = false).
Proof.
  intros Hex Hrun. unfold run in Hrun. set (w0 := set_trace [] w) in *.
  apply parse_intro_cases in Hrun
    as [[e [_ He]] | [config [w1 [Hcfg [[e [_ He]] | [s [w3 [Hs H]]]]]]]];
    try discriminate.
  pose proof (grows_before _ _ _ _ _ Hcfg Hs) as Gb.
  rewrite (grows_keeps_snapshot _ _ _ before_event_no_dump Gb) in H.
  change (w_files w0) with (w_files w) in H. rewrite Hex in H.
  apply later_run_shape in H as [loaded_keys [post [T [F Hnil]]]].
  destruct Gb as [new [Tb [Fb _]]]. simpl in Tb. rewrite app_nil_r in Tb.
  exists (rev new), (pyval_of_snapshot s),
    (keys_difference (dict_keys s) loaded_keys), (rev post).
  split; [|split; [|split]].
  - unfold events. rewrite T, Tb. rewrite !rev_app_distr. simpl.
    now rewrite <- !app_assoc.
  - rewrite forallb_forall in *. intros e He. apply in_rev in He. auto.
  - rewrite forallb_forall in *. intros e He. apply in_rev in He. auto.
  - intros Hk. specialize (Hnil Hk).
    destruct (existsb is_send_email (rev post)) eqn:E; [|reflexivity].
    apply existsb_exists in E as [e [Hin He]]. apply in_rev in Hin.
    assert (existsb is_send_email post = true)
      by (apply existsb_exists; eauto).
    congruence.
Qed.

(** C3 (as the program has it).  In every run that is not a first run
    and ends well, the snapshot is saved exactly once; the save comes
    right after the previous snapshot is loaded and right before the
    diff is computed, so the diff is never computed before the save. *)
Theorem later_run_saves_once_before_diff (w w' : world) :
  dict_mem (KStr TOURNAMENT_JSON_NAME) (w_files w) = true ->
  run w = (Ok tt, w') ->
  count is_snapshot_dump (events w') = 1%nat
  /\ occurs_before is_snapshot_load is_snapshot_dump (events w') = true
  /\ occurs_before is_snapshot_dump is_keys_diff (events w') = true
  /\ occurs_before is_keys_diff is_snapshot_dump (events w') = false
  /\ exists before data keys_diff after,
       events w'
       = before ++ [EvLoad TOURNAMENT_JSON_NAME;
                    EvDump TOURNAMENT_JSON_NAME data;
                    EvKeysDiff keys_diff] ++ after.
Proof.
  intros Hex Hrun.
  destruct (later_run_events w w' Hex Hrun)
    as [before [data [keys_diff [after [E [Fb [Fa _]]]]]]].
  assert (Hb : forall q, (forall e, before_event e = true -> q e = false) ->
                         existsb q before = false).
  { intros q Hq. rewrite <- (rev_involutive before).
    apply (existsb_none before_event); [|exact Hq].
    rewrite forallb_forall in *. intros e He. apply in_rev in He. auto. }
  assert (Ha : forall q, (forall e, report_event e = true -> q e = false) ->
                         existsb q after = false).
  { intros q Hq. rewrite <- (rev_involutive after).
    apply (existsb_none report_event); [|exact Hq].
    rewrite forallb_forall in *. intros e He. apply in_rev in He. auto. }
  pose proof (Hb is_snapshot_dump (fun e H => proj1 (before_event_facts e H))) as B1.
  pose proof (Hb is_snapshot_load
                (fun e H => proj1 (proj2 (before_event_facts e H)))) as B2.
  pose proof (Hb is_keys_diff
                (fun e H => proj2 (proj2 (before_event_facts e H)))) as B3.
  pose proof (Ha is_snapshot_dump (fun e H => proj1 (report_event_facts e H))) as A1.
  pose proof (Ha is_snapshot_load
                (fun e H => proj1 (proj2 (report_event_facts e H)))) as A2.
  pose proof (Ha is_keys_diff
                (fun e H => proj2 (proj2 (report_event_facts e H)))) as A3.
  rewrite E. split; [|split; [|split; [|split]]].
  - rewrite !count_app, (count_none _ _ B1), (count_none _ _ A1). reflexivity.
  - rewrite !occurs_before_app, B2, A1.
    rewrite (occurs_before_none_l _ _ before B2), (occurs_before_none_r _ _ after A1).
    reflexivity.
  - rewrite !occurs_before_app, B1, A3.
    rewrite (occurs_before_none_l _ _ before B1), (occurs_before_none_r _ _ after A3).
    reflexivity.
  - rewrite !occurs_before_app, B3, A1.
    rewrite (occurs_before_none_l _ _ before B3), (occurs_before_none_r _ _ after A1).
    reflexivity.
  - eauto.
Qed.

Lemma later_run_saves_once_before_diff_witness :
  count is_snapshot_dump (events (snd (run world_one_new))) = 1%nat
  /\ occurs_before is_keys_diff is_snapshot_dump (events (snd (run world_one_new)))
     = false.
Proof.
  assert (H0 : dict_mem (KStr TOURNAMENT_JSON_NAME) (w_files world_one_new) = true)
    by (vm_compute; reflexivity).
  assert (H1 : fst (run world_one_new) = Ok tt) by (vm_compute; reflexivity).
  assert (H2 : run world_one_new = (Ok tt, snd (run world_one_new))).
  { rewrite <- H1. apply surjective_pairing. }
  pose proof (later_run_saves_once_before_diff world_one_new
                (snd (run world_one_new)) H0 H2) as [Ha [_ [_ [Hd _]]]].
  exact (conj Ha Hd).
Defined.

(** In the run of [world_one_new], which is not a first run, the
    snapshot is saved before the diff is computed, not after. *)
Lemma save_precedes_diff : ~ saves_once_after_diff world_one_new.
Proof.
  intros H.
  assert (H0 : dict_mem (KStr TOURNAMENT_JSON_NAME) (w_files world_one_new) = true)
    by (vm_compute; reflexivity).
  destruct (H H0) as [_ Hb].
  assert (Hc : occurs_before is_keys_diff is_snapshot_dump
                 (events (snd (run world_one_new))) = false)
    by (vm_compute; reflexivity).
  pose proof (eq_trans (eq_sym Hb) Hc) as Habs. discriminate Habs.
Qed.

(** ** C9: failures of the mail transport *)

Definition quiet (e : event) : bool := negb (is_send_email e).

Lemma dialogue_quiet e : dialogue e = true -> quiet e = true.
Proof. destruct e; try discriminate; reflexivity. Qed.

Lemma send_email_returns config data w :
  let w0 := set_trace (EvSendEmail config data :: w_trace w) w in
  exists w',
    __send_email config data w = (Ok tt, w')
    /\ match send_email_body config data w0 with
       | (Ok _, w1) => w' = w1
       | (Raise e, w1) =>
           w' = set_trace (EvPrint (error_occurred e) :: w_trace w1) w1
       end.
Proof.
  intros w0. unfold __send_email, bind, emit, try_except, print. simpl.
  fold w0. destruct (send_email_body config data w0) as [[[]|e] w1]; simpl;
    eexists; split; reflexivity.
Qed.

Lemma grows_quiet_unique (p : event -> bool) w w' :
  (forall e, p e = true -> quiet e = true) ->
  grows p w w' -> grows quiet w w'.
Proof.
  intros Hp [new [T [F K]]]. exists new. repeat split; auto.
  rewrite forallb_forall in *. auto.
Qed.

Lemma quiet_print (s : str) : emits quiet (print s).
Proof. now apply emits_emit. Qed.

Lemma quiet_load (f : str) : emits quiet (__load_from_json f).
Proof. now apply emits_load. Qed.

Lemma quiet_dump (d : pyval) (f : str) : emits quiet (__dump_to_json d f).
Proof. now apply emits_dump. Qed.

Lemma quiet_keys_diff (ks : list pykey) : emits quiet (emit (EvKeysDiff ks)).
Proof. now apply emits_emit. Qed.

Lemma report_ok_or_quiet config s keys_diff w r w' :
  report config s keys_diff w = (r, w') -> r = Ok tt \/ grows quiet w w'.
Proof.
  unfold report. intros H.
  apply bind_inv in H as [[e [He _]] | [[] [w1 [H1 H]]]]; [discriminate|].
  assert (G1 : grows quiet w w1) by exact (quiet_print _ _ _ _ H1).
  destruct (Nat.ltb 0 _).
  - apply bind_inv in H as [[e [He _]] | [[] [w2 [H2 H]]]]; [discriminate|].
    assert (G2 : grows quiet w1 w2) by exact (quiet_print _ _ _ _ H2).
    apply bind_inv in H as [[e [He _]] | [show [w3 [H3 H]]]].
    { right. eapply grows_trans; [exact G1|]. eapply grows_trans; [exact G2|].
      exact (emits_yes_no quiet dialogue_quiet _ _ _ He). }
    assert (G3 : grows quiet w2 w3)
      by exact (emits_yes_no quiet dialogue_quiet _ _ _ H3).
    assert (Hshow : emits quiet
              (if show
               then do text <- lift (__tournaments_to_str
                                       (new_tournaments_of s keys_diff)) ;
                    print text
               else ret tt)).
    { destruct show; [|apply emits_ret].
      apply emits_bind; [apply emits_lift|]. intros text. now apply emits_emit. }
    apply bind_inv in H as [[e [He _]] | [[] [w4 [H4 H]]]].
    { right. eapply grows_trans; [exact G1|]. eapply grows_trans; [exact G2|].
      eapply grows_trans; [exact G3|]. exact (Hshow _ _ _ He). }
    left. destruct (send_email_returns config (new_tournaments_of s keys_diff) w4)
      as [w5 [Hs _]].
    rewrite Hs in H. now injection H as <- _.
  - left. unfold print, emit in H. now injection H as <- _.
Qed.

Lemma later_run_ok_or_quiet config s w r w' :
  later_run config s w = (r, w') -> r = Ok tt \/ grows quiet w w'.
Proof.
  unfold later_run. intros H.
  apply bind_inv in H as [[e [He _]] | [loaded [w1 [H1 H]]]].
  { right. exact (quiet_load _ _ _ _ He). }
  pose proof (quiet_load _ _ _ _ H1) as G1.
  apply bind_inv in H as [[e [He _]] | [[] [w2 [H2 H]]]].
  { right. eapply grows_trans; [exact G1|].
    exact (quiet_dump _ _ _ _ _ He). }
  pose proof (quiet_dump _ _ _ _ _ H2) as G2.
  apply bind_inv in H as [[e [He _]] | [keys [w3 [H3 H]]]].
  { right. injection He as _ <-. eapply grows_trans; eassumption. }
  injection H3 as _ <-.
  apply bind_inv in H as [[e [He _]] | [[] [w4 [H4 H]]]]; [discriminate|].
  pose proof (quiet_keys_diff _ _ _ _ H4) as G4.
  apply report_ok_or_quiet in H as [H | H]; [now left | right].
  eapply grows_trans; [exact G1|]. eapply grows_trans; [exact G2|].
  eapply grows_trans; [exact G4 | exact H].
Qed.

Lemma parse_intro_ok_or_quiet w r w' :
  __parse_intro w = (r, w') -> r = Ok tt \/ grows quiet w w'.
Proof.
  intros H.
  assert (Hc : forall e, config_event e = true -> quiet e = true)
    by (intros []; try discriminate; reflexivity).
  assert (Hb : forall e, before_event e = true -> quiet e = true)
    by (intros []; try discriminate; reflexivity).
  assert (Hf : forall e, first_run_event e = true -> quiet e = true)
    by (intros []; try discriminate; reflexivity).
  apply parse_intro_cases in H
    as [[e [He ->]] | [config [w1 [Hcfg [[e [Hs ->]] | [s [w3 [Hs H]]]]]]]].
  - right. exact (emits_weaken _ _ _ Hc emits_get_user_config _ _ _ He).
  - right. exact (grows_quiet_unique _ _ _ Hb (grows_before _ _ _ _ _ Hcfg Hs)).
  - pose proof (grows_quiet_unique _ _ _ Hb (grows_before _ _ _ _ _ Hcfg Hs)) as Gb.
    destruct (dict_mem _ _).
    + apply later_run_ok_or_quiet in H as [H | H]; [now left | right].
      eapply grows_trans; eassumption.
    + right. eapply grows_trans; [exact Gb|].
      exact (emits_weaken _ _ _ Hf (emits_first_run s) _ _ _ H).
Qed.

(** C9.  Whatever the configuration, the records and the mail server,
    [__send_email] returns normally: an exception raised in its body
    (a missing field, a refused connection, a failed login, a rejected
    message) is caught and reported with the line "An error occurred:
    ..."; no file is touched.  A run in which the notifier was invoked
    therefore ends well. *)
Theorem notifier_failures_are_not_fatal :
  (forall config data w,
      let w0 := set_trace (EvSendEmail config data :: w_trace w) w in
      exists w',
        __send_email config data w = (Ok tt, w')
        /\ (forall k, dict_get k (w_files w') = dict_get k (w_files w))
        /\ match send_email_body config data w0 with
           | (Ok _, w1) => w' = w1
           | (Raise e, w1) =>
               w' = set_trace (EvPrint (error_occurred e) :: w_trace w1) w1
           end)
  /\ (forall w r w',
        run w = (r, w') -> existsb is_send_email (events w') = true -> r = Ok tt).
Proof.
  split.
  - intros config data w w0.
    destruct (send_email_returns config data w) as [w' [Hs Hm]].
    exists w'. split; [exact Hs|]. split; [|exact Hm].
    destruct (emits_send_email _ _ _ _ _ Hs) as [new [_ [F K]]].
    intros k. apply K. intros f d Hin.
    rewrite forallb_forall in F. specialize (F _ Hin). discriminate.
  - intros w r w' Hrun Hsent. unfold run in Hrun.
    apply parse_intro_ok_or_quiet in Hrun as [H | [new [T [F _]]]]; [exact H|].
    simpl in T. rewrite app_nil_r in T. unfold events in Hsent. rewrite T in Hsent.
    apply existsb_exists in Hsent as [e [Hin He]]. apply in_rev in Hin.
    rewrite forallb_forall in F. specialize (F _ Hin).
    unfold quiet in F. rewrite He in F. discriminate.
Qed.

(** ** C5: the selections of a configuration *)

Lemma parse_enum_selection_loop_nonempty num_entries inp :
  num_entries <> 0%nat ->
  forall sel tr res inp' tr',
    parse_enum_selection_loop num_entries sel inp tr = (Ok res, inp', tr') ->
    res <> [].
Proof.
  intros Hn. induction inp as [|l rest IH]; simpl; intros sel tr res inp' tr' H.
  - destruct (Nat.eqb _ _) eqn:E; [|discriminate].
    injection H as <- _ _. apply Nat.eqb_eq in E. intros Hnil.
    unfold set_len in E. rewrite Hnil in E. simpl in E. congruence.
  - destruct (Nat.eqb _ num_entries) eqn:E.
    { injection H as <- _ _. apply Nat.eqb_eq in E. intros Hnil.
      unfold set_len in E. rewrite Hnil in E. simpl in E. congruence. }
    destruct (str_eqb _ _).
    + destruct (Nat.eqb _ 0) eqn:E0; [now apply IH in H|].
      injection H as <- _ _. intros Hnil. unfold set_len in E0.
      rewrite Hnil in E0. discriminate.
    + destruct (negb _); [now apply IH in H|].
      destruct (int_of_str _) as [n|e]; [|discriminate].
      destruct (N.leb _ _); now apply IH in H.
Qed.

Lemma map_numbers_loop_nonempty enum l :
  forall acc m, map_numbers_loop enum l acc = Ok m -> l <> [] \/ acc <> [] -> m <> [].
Proof.
  induction l as [|idx l IH]; simpl; intros acc m H Hne.
  - injection H as <-. destruct Hne as [Hne | Hne]; [congruence | exact Hne].
  - inv_rbind H. apply IH in H; [exact H|]. right. apply dict_set_not_nil.
Qed.

Lemma map_numbers_nonempty enum l v :
  l <> [] -> __map_numbers_to_entry_values enum l = Ok v ->
  exists m, v = PDict false m /\ m <> [].
Proof.
  unfold __map_numbers_to_entry_values. intros Hl H. inv_rbind H.
  injection H as <-. exists x. split; [reflexivity|].
  eapply map_numbers_loop_nonempty; eauto.
Qed.

Lemma lift_ok_inv {A} (x : result A) w a w' :
  lift x w = (Ok a, w') -> x = Ok a /\ w' = w.
Proof. unfold lift. intros H. now injection H as -> ->. Qed.

Lemma parse_enum_selection_nonempty enum w sel w' :
  enum <> [] -> __parse_enum_selection enum w = (Ok sel, w') -> sel <> [].
Proof.
  intros Hne H. unfold __parse_enum_selection in H.
  apply bind_ok_inv in H as [[] [w1 [_ H]]]. unfold run_console in H.
  destruct (parse_enum_selection_loop _ _ _ _) as [[r0 inp'] tr'] eqn:E.
  injection H as -> _.
  eapply parse_enum_selection_loop_nonempty; [|exact E].
  destruct enum; [congruence | discriminate].
Qed.

Lemma setitem_email_keeps_styles config k v config' :
  has_styles config ->
  py_setitem2 config (u "email") k v = Ok config' -> has_styles config'.
Proof.
  intros [items [m [-> [Hg Hm]]]] H. unfold py_setitem2 in H.
  inv_rbind H. inv_rbind H. simpl in H. injection H as <-.
  exists (dict_set (KStr (u "email")) x0 items), m. split; [reflexivity|].
  split; [|exact Hm]. rewrite dict_get_set_other; [exact Hg | reflexivity].
Qed.

Lemma parse_playing_style_has_styles w config w' :
  __parse_playing_style (PDict true []) w = (Ok config, w') -> has_styles config.
Proof.
  unfold __parse_playing_style. intros H.
  apply bind_ok_inv in H as [[] [w1 [_ H]]].
  apply bind_ok_inv in H as [[] [w2 [_ H]]].
  apply bind_ok_inv in H as [sel [w3 [Hsel H]]].
  apply bind_ok_inv in H as [mapping [w4 [Hmap H]]].
  apply lift_ok_inv in Hmap as [Hmap _]. apply lift_ok_inv in H as [H _].
  apply parse_enum_selection_nonempty in Hsel; [|discriminate].
  destruct (map_numbers_nonempty _ _ _ Hsel Hmap) as [m [-> Hm]].
  simpl in H. injection H as <-.
  exists [(KStr (u "playingStyle"), PDict false m)], m. auto.
Qed.

Lemma parse_email_details_keeps_styles config w config' w' :
  has_styles config ->
  __parse_email_details config w = (Ok config', w') -> has_styles config'.
Proof.
  intros Hs H. unfold __parse_email_details in H.
  apply bind_ok_inv in H as [[] [w1 [_ H]]].
  apply bind_ok_inv in H as [b [w2 [_ H]]].
  destruct b; simpl in H; [|injection H as <- _; exact Hs].
  apply bind_ok_inv in H as [from [w3 [_ H]]].
  apply bind_ok_inv in H as [c1 [w4 [H1 H]]]. apply lift_ok_inv in H1 as [H1 _].
  apply bind_ok_inv in H as [c2 [w5 [H2 H]]]. apply lift_ok_inv in H2 as [H2 _].
  apply bind_ok_inv in H as [[] [w6 [_ H]]].
  apply bind_ok_inv in H as [pw [w7 [_ H]]].
  apply bind_ok_inv in H as [c3 [w8 [H3 H]]]. apply lift_ok_inv in H3 as [H3 _].
  apply bind_ok_inv in H as [host [w9 [_ H]]].
  apply bind_ok_inv in H as [c4 [w10 [H4 H]]]. apply lift_ok_inv in H4 as [H4 _].
  apply bind_ok_inv in H as [[] [w11 [_ H]]].
  apply bind_ok_inv in H as [other [w12 [_ H]]].
  pose proof (setitem_email_keeps_styles _ _ _ _ Hs H1) as S1.
  pose proof (setitem_email_keeps_styles _ _ _ _ S1 H2) as S2.
  pose proof (setitem_email_keeps_styles _ _ _ _ S2 H3) as S3.
  pose proof (setitem_email_keeps_styles _ _ _ _ S3 H4) as S4.
  destruct other; [|injection H as <- _; exact S4].
  apply bind_ok_inv in H as [to [w13 [_ H]]]. apply lift_ok_inv in H as [H _].
  exact (setitem_email_keeps_styles _ _ _ _ S4 H).
Qed.

Lemma parse_user_config_selects w config w' :
  parse_user_config w = (Ok config, w') ->
  nonempty_selection config (u "playingStyle")
  /\ nonempty_selection config (u "classes").
Proof.
  unfold parse_user_config. intros H.
  apply bind_ok_inv in H as [c1 [w1 [H1 H]]].
  apply bind_ok_inv in H as [c2 [w2 [H2 H]]].
  apply bind_ok_inv in H as [c3 [w3 [H3 H]]].
  injection H as <- _.
  apply parse_playing_style_has_styles in H1.
  pose proof (parse_email_details_keeps_styles _ _ _ _ H1 H2)
    as [items [m [-> [Hg Hm]]]].
  unfold __parse_tournament_classes in H3.
  apply bind_ok_inv in H3 as [[] [wa [_ H3]]].
  apply bind_ok_inv in H3 as [[] [wb [_ H3]]].
  apply bind_ok_inv in H3 as [sel [wc [Hsel H3]]].
  apply bind_ok_inv in H3 as [cls [wd [_ H3]]].
  destruct (existsb _ cls); [discriminate|].
  apply bind_ok_inv in H3 as [mapping [we [Hmap H3]]].
  apply lift_ok_inv in Hmap as [Hmap _]. apply lift_ok_inv in H3 as [H3 _].
  apply parse_enum_selection_nonempty in Hsel; [|discriminate].
  destruct (map_numbers_nonempty _ _ _ Hsel Hmap) as [m' [-> Hm']].
  simpl in H3. injection H3 as <-. split.
  - exists (PDict false m), (dict_values m). simpl.
    rewrite dict_get_set_other by reflexivity. rewrite Hg.
    repeat split. destruct m; [congruence | discriminate].
  - exists (PDict false m'), (dict_values m'). simpl.
    rewrite dict_get_set_same.
    repeat split. destruct m'; [congruence | discriminate].
Qed.

Lemma emits_later_run config s : emits later_event (later_run config s).
Proof.
  unfold later_run.
  apply emits_bind; [now apply emits_load|]. intros loaded.
  apply emits_bind; [now apply emits_dump|]. intros _.
  apply emits_bind; [apply emits_lift|]. intros keys.
  apply emits_bind; [now apply emits_emit|]. intros _.
  apply (emits_weaken report_event); [|apply emits_report].
  intros e He. unfold later_event. rewrite He. apply orb_true_r.
Qed.

Lemma scrape_trace config w r w' :
  scrape_relevant_tournaments config w = (r, w') ->
  w_trace w' = EvHttpGet :: EvScrape config :: w_trace w.
Proof.
  unfold scrape_relevant_tournaments, http_get, bind, emit, lift. simpl.
  destruct (w_web w); intros H; injection H as _ <-; reflexivity.
Qed.

(** A configuration that was not loaded was entered by the user. *)
Lemma get_user_config_entered w config w' :
  get_user_config w = (Ok config, w') ->
  existsb is_config_load (w_trace w') = false ->
  exists wa wb, parse_user_config wa = (Ok config, wb).
Proof.
  unfold get_user_config. intros H Hno.
  apply bind_ok_inv in H as [[] [w1 [_ H]]].
  apply bind_ok_inv in H as [[] [w2 [_ H]]].
  apply bind_ok_inv in H as [upd [w3 [_ H]]].
  apply bind_ok_inv in H as [ex [w4 [_ H]]].
  destruct (upd || negb ex).
  - apply bind_ok_inv in H as [[] [w5 [_ H]]].
    apply bind_ok_inv in H as [cfg [w6 [Hp H]]].
    apply bind_ok_inv in H as [[] [w7 [_ H]]].
    injection H as <- _. eauto.
  - exfalso. unfold __load_from_json, bind, emit in H. simpl in H.
    destruct (dict_get _ _); injection H as _ <-; simpl in Hno;
      discriminate Hno.
Qed.

(** C5 (as the program has it).  A configuration entered by the user
    in this run, with which the run reaches the fetch, selects at least
    one playing style and at least one tournament class: the selection
    menu does not finish on an empty selection.  (A configuration
    loaded from its file is used as it is.) *)
Theorem entered_config_has_selections (w : world) (r : result unit) (w' : world)
    (config : pyval) :
  run w = (r, w') ->
  existsb is_config_load (events w') = false ->
  In (EvScrape config) (events w') ->
  nonempty_selection config (u "playingStyle")
  /\ nonempty_selection config (u "classes").
Proof.
  intros Hrun Hno Hin. unfold run in Hrun. set (w0 := set_trace [] w) in *.
  unfold events in Hin, Hno. apply in_rev in Hin.
  assert (Hno' : forall e, In e (w_trace w') -> is_config_load e = false).
  { intros e He. destruct (is_config_load e) eqn:E; [|reflexivity].
    assert (existsb is_config_load (rev (w_trace w')) = true); [|congruence].
    apply existsb_exists. exists e. split; [now apply -> in_rev | exact E]. }
  clear Hno.
  assert (Hcs : forall e, config_event e = true -> is_scrape e = false)
    by (intros []; try discriminate; reflexivity).
  apply parse_intro_cases in Hrun
    as [[e [He ->]] | [cfg [w1 [Hcfg [[e [Hs ->]] | [s [w3 [Hs H]]]]]]]].
  - exfalso. destruct (emits_get_user_config _ _ _ He) as [new [T [F _]]].
    simpl in T. rewrite app_nil_r in T. rewrite T in Hin.
    rewrite forallb_forall in F. specialize (Hcs _ (F _ Hin)). discriminate.
  - assert (Hw1 : forall e, In e (w_trace w1) -> In e (w_trace w')).
    { intros e0 He0. rewrite (scrape_trace _ _ _ _ Hs). simpl. auto. }
    assert (config = cfg).
    { rewrite (scrape_trace _ _ _ _ Hs) in Hin. simpl in Hin.
      destruct Hin as [Hin | [Hin | [Hin | Hin]]]; try discriminate.
      - now injection Hin.
      - exfalso. destruct (emits_get_user_config _ _ _ Hcfg) as [new [T [F _]]].
        simpl in T. rewrite app_nil_r in T. rewrite T in Hin.
        rewrite forallb_forall in F. specialize (Hcs _ (F _ Hin)). discriminate. }
    subst cfg.
    destruct (get_user_config_entered _ _ _ Hcfg) as [wa [wb Hp]].
    + destruct (existsb is_config_load (w_trace w1)) eqn:E; [|reflexivity].
      apply existsb_exists in E as [e0 [Hin0 He0]].
      rewrite (Hno' e0 (Hw1 e0 Hin0)) in He0. discriminate.
    + exact (parse_user_config_selects _ _ _ Hp).
  - assert (G : grows (fun e => first_run_event e || later_event e) w3 w').
    { destruct (dict_mem _ _).
      - eapply (emits_weaken later_event); [|apply emits_later_run|exact H].
        intros e He. rewrite He. apply orb_true_r.
      - eapply (emits_weaken first_run_event); [|apply emits_first_run|exact H].
        intros e He. now rewrite He. }
    destruct G as [new [T [F _]]].
    assert (Hw1 : forall e, In e (w_trace w1) -> In e (w_trace w')).
    { intros e0 He0. rewrite T, (scrape_trace _ _ _ _ Hs). apply in_or_app.
      right. simpl. auto. }
    assert (config = cfg).
    { rewrite T, (scrape_trace _ _ _ _ Hs) in Hin. apply in_app_or in Hin.
      destruct Hin as [Hin | Hin].
      - exfalso. rewrite forallb_forall in F. specialize (F _ Hin).
        discriminate F.
      - simpl in Hin. destruct Hin as [Hin | [Hin | [Hin | Hin]]];
          try discriminate.
        + now injection Hin.
        + exfalso. destruct (emits_get_user_config _ _ _ Hcfg) as [n1 [T1 [F1 _]]].
          simpl in T1. rewrite app_nil_r in T1. rewrite T1 in Hin.
          rewrite forallb_forall in F1. specialize (Hcs _ (F1 _ Hin)).
          discriminate. }
    subst cfg.
    destruct (get_user_config_entered _ _ _ Hcfg) as [wa [wb Hp]].
    + destruct (existsb is_config_load (w_trace w1)) eqn:E; [|reflexivity].
      apply existsb_exists in E as [e0 [Hin0 He0]].
      rewrite (Hno' e0 (Hw1 e0 Hin0)) in He0. discriminate.
    + exact (parse_user_config_selects _ _ _ Hp).
Qed.

Lemma entered_config_has_selections_witness :
  nonempty_selection
    (PDict true
       [(KStr (u "playingStyle"), PDict false [(KInt 2, PStr (u "Mixed"))]);
        (KStr (u "classes"), PDict false [(KInt 7, PStr (u "basic"))])])
    (u "playingStyle").
Proof.
  assert (H1 : existsb is_config_load (events (snd (run world_interactive))) = false)
    by (vm_compute; reflexivity).
  assert (H2 : nth_error (events (snd (run world_interactive))) 18
               = Some (EvScrape
                   (PDict true
                      [(KStr (u "playingStyle"),
                        PDict false [(KInt 2, PStr (u "Mixed"))]);
                       (KStr (u "classes"),
                        PDict false [(KInt 7, PStr (u "basic"))])])))
    by (vm_compute; reflexivity).
  exact (proj1 (entered_config_has_selections world_interactive
                  (fst (run world_interactive)) (snd (run world_interactive)) _
                  (surjective_pairing _) H1 (nth_error_In _ _ H2))).
Defined.

(** With the stored configuration of [world_empty_selection], whose
    selections are both empty, the run goes on to the fetch. *)
Lemma empty_selection_reaches_fetch :
  ~ fetches_only_with_selections world_empty_selection.
Proof.
  intros H.
  assert (H2 : nth_error (events (snd (run world_empty_selection))) 5
               = Some (EvScrape config_empty_selection))
    by (vm_compute; reflexivity).
  destruct (H _ (nth_error_In _ _ H2)) as [[sel [vals [Hg [Hv Hne]]]] _].
  vm_compute in Hg. injection Hg as <-.
  vm_compute in Hv. injection Hv as <-. now apply Hne.
Qed.

(** ** C4: when the notifier is invoked *)

(** In a later run that ends well and finds nothing new, the notifier
    is not invoked. *)
Lemma notifier_not_invoked_when_nothing_new (w w' : world) :
  dict_mem (KStr TOURNAMENT_JSON_NAME) (w_files w) = true ->
  run w = (Ok tt, w') ->
  In (EvKeysDiff []) (events w') ->
  existsb is_send_email (events w') = false.
Proof.
  intros Hex Hrun Hin.
  destruct (later_run_events w w' Hex Hrun)
    as [before [data [keys_diff [after [E [Fb [Fa Hnil]]]]]]].
  rewrite E in Hin |- *. rewrite forallb_forall in Fb, Fa.
  assert (keys_diff = []).
  { apply in_app_or in Hin as [Hin | Hin].
    - specialize (Fb _ Hin). discriminate.
    - simpl in Hin. destruct Hin as [Hin | [Hin | [Hin | Hin]]]; try discriminate.
      + now injection Hin.
      + specialize (Fa _ Hin). discriminate. }
  rewrite !existsb_app, (Hnil H). simpl. rewrite orb_false_r.
  destruct (existsb is_send_email before) eqn:Eb; [|reflexivity].
  apply existsb_exists in Eb as [e [Hine He]].
  specialize (Fb _ Hine). destruct e; discriminate.
Qed.

(** C4, at [world_one_new].  The stored configuration has no email
    target; the run finds one new tournament, and the notifier is
    invoked with it all the same: its body fails on the missing
    ["email"] entry and the run ends with "An error occurred:
    'email'". *)
Theorem notifier_invoked_without_email_target :
  py_getitem config_mixed_basic (u "email") = Raise (KeyError (u "email"))
  /\ fst (run world_one_new) = Ok tt
  /\ exists before,
       events (snd (run world_one_new))
       = before ++ [EvSendEmail config_mixed_basic [tournament_2];
                    EvPrint (u "An error occurred: 'email'")].
Proof.
  split; [reflexivity|]. split; [vm_compute; reflexivity|].
  exists (firstn 13 (events (snd (run world_one_new)))).
  vm_compute. reflexivity.
Qed.

(** ** C1: a diff on concrete snapshots *)

Lemma diff_new_exact_witness :
  wf_dict snapshot_ab
  /\ NoDup (map fst (new_items snapshot_ab
                       (keys_difference (dict_keys snapshot_ab) (dict_keys loaded_a))))
  /\ new_tournaments_of snapshot_ab
       (keys_difference (dict_keys snapshot_ab) (dict_keys loaded_a))
     = [tournament_2].
Proof.
  assert (H : wf_dict snapshot_ab).
  { unfold wf_dict. simpl. repeat constructor; simpl; intuition discriminate. }
  destruct (diff_new_exact loaded_a snapshot_ab H) as [_ [Hn _]].
  split; [exact H|]. split; [exact Hn | reflexivity].
Defined.

(** ** C6: saving a snapshot and loading it back *)

(** C6, at [snapshot_muenchen].  The file is written in UTF-8 and read
    back in the platform's encoding.  Where that is UTF-8 the snapshot
    comes back equal; where it is cp1252 the two bytes of the u-umlaut
    are read as two characters, and the loaded snapshot differs from
    the saved one. *)
Theorem load_misreads_snapshot_under_cp1252 :
  (exists v, save_then_load UTF_8 snapshot_muenchen = Ok v
             /\ py_eqb v (pyval_of_snapshot snapshot_muenchen) = true)
  /\ (exists v, save_then_load CP1252 snapshot_muenchen = Ok v
                /\ py_eqb v (pyval_of_snapshot snapshot_muenchen) = false)
  /\ loaded_location (save_then_load CP1252 snapshot_muenchen)
       (uid_of tournament_muenchen)
     = Ok (PStr [77; 195; 188; 110; 99; 104; 101; 110]%N)
  /\ (exists v, save_then_load CP1252 [] = Ok v
                /\ py_eqb v (pyval_of_snapshot []) = true).
Proof.
  split; [|split; [|split]].
  - eexists. split; vm_compute; reflexivity.
  - eexists. split; vm_compute; reflexivity.
  - vm_compute. reflexivity.
  - eexists. split; vm_compute; reflexivity.
Qed.

(** * Further properties of the program *)

(** ** The diff (lines 340-349) *)

Lemma map_fst_filter_key {V} (q : pykey -> bool) (d : dict V) :
  map fst (filter (fun kv => q (fst kv)) d) = filter q (map fst d).
Proof.
  induction d as [|[k v] d IH]; simpl; [reflexivity|].
  destruct (q k); simpl; now rewrite IH.
Qed.

Lemma new_items_keys (current : snapshot) (previous : list pykey) :
  map fst (new_items current (keys_difference (dict_keys current) previous))
  = keys_difference (dict_keys current) previous.
Proof.
  unfold new_items.
  rewrite (map_fst_filter_key
             (fun k => existsb (pykey_eqb k)
                         (keys_difference (dict_keys current) previous))).
  unfold keys_difference at 2. fold (dict_keys current).
  apply filter_ext_in. intros k Hk.
  destruct (existsb (pykey_eqb k) previous) eqn:E; simpl.
  - destruct (existsb _ (keys_difference _ _)) eqn:E'; [|reflexivity].
    apply existsb_pykey_In, keys_difference_In in E' as [_ Hn].
    exfalso. apply Hn. now apply existsb_pykey_In.
  - apply existsb_pykey_In, keys_difference_In. split; [exact Hk|].
    intros Hin. apply existsb_pykey_In in Hin. congruence.
Qed.

(** X1.  The ids of the new tournaments are the computed key
    difference, in the order of the scraped snapshot; so the number
    announced by "There are N new tournaments!" ([len(keys_diff)]) is
    the number of records shown and handed to the notifier. *)
Theorem announced_count_is_number_of_records (current : snapshot)
    (previous : list pykey) :
  let keys_diff := keys_difference (dict_keys current) previous in
  map fst (new_items current keys_diff) = keys_diff
  /\ List.length (new_tournaments_of current keys_diff) = List.length keys_diff.
Proof.
  intros keys_diff. subst keys_diff. split; [apply new_items_keys|].
  unfold new_tournaments_of. rewrite length_map.
  rewrite <- (length_map fst). now rewrite new_items_keys.
Qed.

Lemma filter_none {A} (q : A -> bool) (l : list A) :
  (forall x, In x l -> q x = false) -> filter q l = [].
Proof.
  induction l as [|x l IH]; simpl; intros H; [reflexivity|].
  rewrite (H x (or_introl eq_refl)). apply IH. intros y Hy. apply H. now right.
Qed.

(** X2.  When every id of the current snapshot is already an id of the
    previous one (in particular when nothing changed), the diff is
    empty and no record is new. *)
Theorem nothing_new_when_ids_known (current : snapshot) (previous : list pykey) :
  (forall k, In k (dict_keys current) -> In k previous) ->
  keys_difference (dict_keys current) previous = []
  /\ new_tournaments_of current (keys_difference (dict_keys current) previous) = [].
Proof.
  intros Hsub.
  assert (H : keys_difference (dict_keys current) previous = []).
  { destruct (keys_difference (dict_keys current) previous) as [|k l] eqn:E;
      [reflexivity|].
    assert (Hin : In k (keys_difference (dict_keys current) previous))
      by (rewrite E; now left).
    apply keys_difference_In in Hin as [Hc Hp]. exfalso. auto. }
  split; [exact H|]. rewrite H. unfold new_tournaments_of, new_items.
  rewrite filter_none; [reflexivity|]. intros x _. reflexivity.
Qed.

Lemma nothing_new_when_ids_known_witness :
  keys_difference (dict_keys snapshot_ab) (dict_keys snapshot_ab) = []
  /\ new_tournaments_of snapshot_ab
       (keys_difference (dict_keys snapshot_ab) (dict_keys snapshot_ab)) = [].
Proof.
  apply (nothing_new_when_ids_known snapshot_ab (dict_keys snapshot_ab)).
  intros k Hk. exact Hk.
Defined.

(** X3.  When the current snapshot is the previous one with one record
    stored under an id the previous one does not have, the diff is
    exactly that record. *)
Theorem one_new_record_is_the_diff (previous : snapshot) (k : pykey)
    (t : TournamentType) :
  dict_mem k previous = false ->
  let current := dict_set k t previous in
  keys_difference (dict_keys current) (dict_keys previous) = [k]
  /\ new_tournaments_of current
       (keys_difference (dict_keys current) (dict_keys previous)) = [t].
Proof.
  intros Hk current.
  assert (Hcur : current = previous ++ [(k, t)]).
  { unfold current. clear current. unfold dict_mem, dict_keys in Hk.
    induction previous as [|[k' v'] d IH]; simpl in *; [reflexivity|].
    apply orb_false_iff in Hk as [Hk1 Hk2]. rewrite Hk1. now rewrite IH. }
  assert (Hkeys : keys_difference (dict_keys current) (dict_keys previous) = [k]).
  { rewrite Hcur. unfold keys_difference, dict_keys. rewrite map_app, filter_app.
    simpl. fold (dict_keys previous). fold (dict_mem k previous). rewrite Hk. simpl.
    rewrite filter_none; [reflexivity|].
    intros x Hx. apply negb_false_iff. now apply existsb_pykey_In. }
  split; [exact Hkeys|]. rewrite Hkeys, Hcur.
  unfold new_tournaments_of, new_items. rewrite filter_app. simpl.
  rewrite pykey_eqb_refl. simpl. rewrite filter_none; [reflexivity|].
  intros [k' v'] Hx. simpl. rewrite orb_false_r. apply pykey_eqb_neq. intros ->.
  assert (dict_mem k previous = true); [|congruence].
  apply dict_mem_In. change k with (fst (k, v')). now apply in_map.
Qed.

Lemma one_new_record_is_the_diff_witness :
  keys_difference (dict_keys (dict_set (KStr (u "b")) tournament_2
                                [(KStr (u "a"), tournament_1)]))
    (dict_keys [(KStr (u "a"), tournament_1)]) = [KStr (u "b")]
  /\ new_tournaments_of (dict_set (KStr (u "b")) tournament_2
                           [(KStr (u "a"), tournament_1)])
       (keys_difference
          (dict_keys (dict_set (KStr (u "b")) tournament_2
                        [(KStr (u "a"), tournament_1)]))
          (dict_keys [(KStr (u "a"), tournament_1)])) = [tournament_2].
Proof.
  apply (one_new_record_is_the_diff [(KStr (u "a"), tournament_1)]
           (KStr (u "b")) tournament_2).
  reflexivity.
Defined.

(** ** The id of a tournament (lines 211-213) *)

Lemma utf8_encode_char_cases (c : N) :
  (is_scalar c = true /\ exists b, utf8_encode_char c = Ok b)
  \/ (is_scalar c = false /\ utf8_encode_char c = Raise UnicodeEncodeError).
Proof.
  destruct (is_scalar c) eqn:E.
  - left. split; [reflexivity | now apply utf8_encode_char_ok].
  - right. split; [reflexivity|]. unfold is_scalar in E. unfold utf8_encode_char.
    destruct (c <? 1114112)%N eqn:E1; simpl in E.
    + apply negb_false_iff in E. rewrite E.
      unfold is_surrogate in E. apply andb_true_iff in E as [Ea Eb].
      apply N.leb_le in Ea, Eb.
      destruct (c <? 128)%N eqn:E2; [apply N.ltb_lt in E2; lia|].
      destruct (c <? 2048)%N eqn:E3; [apply N.ltb_lt in E3; lia|].
      destruct (c <? 65536)%N eqn:E4; [reflexivity|].
      apply N.ltb_ge in E4. lia.
    + apply N.ltb_ge in E1.
      destruct (c <? 128)%N eqn:E2; [apply N.ltb_lt in E2; lia|].
      destruct (c <? 2048)%N eqn:E3; [apply N.ltb_lt in E3; lia|].
      destruct (c <? 65536)%N eqn:E4; [apply N.ltb_lt in E4; lia|].
      reflexivity.
Qed.

Lemma utf8_encode_cases (s : str) :
  (encodable s /\ exists b, utf8_encode s = Ok b)
  \/ (~ encodable s /\ utf8_encode s = Raise UnicodeEncodeError).
Proof.
  unfold encodable. induction s as [|c s IH]; simpl.
  - left. eauto.
  - destruct (utf8_encode_char_cases c) as [[Hc [b ->]] | [Hc ->]]; rewrite Hc; simpl.
    + destruct IH as [[Hs [bs ->]] | [Hs ->]]; simpl.
      * left. eauto.
      * right. split; [exact Hs | reflexivity].
    + right. split; [discriminate | reflexivity].
Qed.

(** X4.  The id of a tournament is defined exactly when the text of its
    fields can be encoded in UTF-8: then it is a string of 64
    characters; a field with a lone surrogate (or a code point beyond
    U+10FFFF) makes [__generate_uid_from_tournament] raise
    UnicodeEncodeError. *)
Theorem generate_uid_raises_only_on_unencodable_text (t : TournamentType) :
  (encodable (join (dict_values t)) ->
   exists uid, __generate_uid_from_tournament t = Ok uid
               /\ List.length uid = 64%nat)
  /\ (~ encodable (join (dict_values t)) ->
      __generate_uid_from_tournament t = Raise UnicodeEncodeError).
Proof.
  unfold __generate_uid_from_tournament.
  destruct (utf8_encode_cases (join (dict_values t)))
    as [[He [b Hb]] | [He Hr]]; split; intros H; try contradiction.
  - rewrite Hb. simpl. eexists. split; [reflexivity|].
    apply (proj1 (hexdigest_shape _)).
  - rewrite Hr. reflexivity.
Qed.

(** ** The scraper (lines 232-273) *)

Section ScraperInvariant.
Variable P : snapshot -> Prop.
Hypothesis P_step :
  forall acc k t, P acc -> stored_pair k t -> P (dict_set k t acc).

Lemma scrape_row_invariant config class_name row_data acc s :
  P acc -> scrape_row config class_name row_data acc = Ok s -> P s.
Proof.
  intros Hacc H. unfold scrape_row in H.
  inv_rbind H. inv_rbind H. destruct x0; simpl in H; [|now injection H as <-].
  inv_rbind H. inv_rbind H. inv_rbind H. inv_rbind H. injection H as <-.
  apply P_step; [exact Hacc|]. unfold stored_pair. eauto 10.
Qed.

Lemma scrape_rows_invariant config class_name rows :
  forall acc s, P acc -> scrape_rows config class_name rows acc = Ok s -> P s.
Proof.
  induction rows as [|r rows IH]; simpl; intros acc s Hacc H.
  - now injection H as <-.
  - inv_rbind H. eapply IH; [|exact H]. eapply scrape_row_invariant; eauto.
Qed.

Lemma scrape_classes_invariant config relevant :
  forall acc s, P acc -> scrape_classes config relevant acc = Ok s -> P s.
Proof.
  induction relevant as [|[k tag] relevant IH]; simpl; intros acc s Hacc H.
  - now injection H as <-.
  - destruct (tag_tbody tag); [|discriminate]. inv_rbind H.
    eapply IH; [|exact H]. eapply scrape_rows_invariant; eauto.
Qed.

Lemma scrape_tags_invariant config tags s :
  P [] -> scrape_tags config tags = Ok s -> P s.
Proof.
  unfold scrape_tags. intros H0 H. inv_rbind H.
  eapply scrape_classes_invariant; eauto.
Qed.
End ScraperInvariant.

Lemma tournament_to_str_made (c d l p n : str) :
  exists text, __tournament_to_str (make_tournament c d l p n) = Ok text.
Proof. rewrite make_tournament_items. eexists. reflexivity. Qed.

Lemma map_result_all_ok {A B} (f : A -> result B) (l : list A) :
  (forall x, In x l -> exists y, f x = Ok y) -> exists r, map_result f l = Ok r.
Proof.
  induction l as [|x l IH]; simpl; intros H; [eauto|].
  destruct (H x (or_introl eq_refl)) as [y ->].
  destruct IH as [r ->]; [intros z Hz; apply H; now right|]. simpl. eauto.
Qed.

(** X5.  Whatever the scraper returns can be rendered: for the scraped
    snapshot, and for any selection of new tournaments from it,
    [__tournaments_to_str] succeeds, so neither the display nor the
    body of the email fails on a missing field. *)
Theorem scraped_tournaments_render (config : pyval) (tags : list class_tag)
    (s : snapshot) :
  scrape_tags config tags = Ok s ->
  (exists text, __tournaments_to_str (dict_values s) = Ok text)
  /\ forall keys_diff,
       exists text, __tournaments_to_str (new_tournaments_of s keys_diff) = Ok text.
Proof.
  intros H.
  assert (Hall : forall k t, In (k, t) s -> stored_pair k t).
  { apply (scrape_tags_invariant
             (fun s => forall k t, In (k, t) s -> stored_pair k t)
             ) with (config := config) (tags := tags); [| intros k t [] | exact H].
    intros acc k t Hacc Hp k0 t0 Hin.
    apply dict_set_In in Hin as [[-> ->] | Hin]; auto. }
  assert (Hr : forall l : list TournamentType,
             (forall t, In t l -> exists k, In (k, t) s) ->
             exists text, __tournaments_to_str l = Ok text).
  { intros l Hl. unfold __tournaments_to_str.
    destruct (map_result_all_ok __tournament_to_str l) as [r ->]; [|simpl; eauto].
    intros t Ht. destruct (Hl t Ht) as [k Hk].
    destruct (Hall k t Hk) as [c [d [loc [p [n [uid [-> _]]]]]]].
    apply tournament_to_str_made. }
  split.
  - apply Hr. intros t Ht. unfold dict_values in Ht.
    apply in_map_iff in Ht as [[k t'] [<- Hin]]. eauto.
  - intros keys_diff. apply Hr. intros t Ht. unfold new_tournaments_of in Ht.
    apply in_map_iff in Ht as [[k t'] [<- Hin]]. unfold new_items in Hin.
    apply filter_In in Hin as [Hin _]. eauto.
Qed.

Lemma scraped_tournaments_render_witness :
  exists text,
    __tournaments_to_str (dict_values snapshot_12) = Ok text.
Proof.
  assert (H : scrape_tags config_mixed_basic page_12 = Ok snapshot_12)
    by (vm_compute; reflexivity).
  exact (proj1 (scraped_tournaments_render config_mixed_basic page_12 snapshot_12 H)).
Defined.

(** X6.  The snapshot the scraper returns is a well-formed dictionary:
    no id occurs twice, and every id is a string of 64 lower-case
    hexadecimal digits, the id of the record stored under it. *)
Theorem scraped_snapshot_is_keyed_by_digest (config : pyval)
    (tags : list class_tag) (s : snapshot) :
  scrape_tags config tags = Ok s ->
  wf_dict s
  /\ forall k t, In (k, t) s ->
       exists uid, k = KStr uid
                   /\ __generate_uid_from_tournament t = Ok uid
                   /\ List.length uid = 64%nat
                   /\ forallb is_lower_hex uid = true.
Proof.
  intros H. split.
  - apply (scrape_tags_invariant wf_dict) with (config := config) (tags := tags);
      [| constructor | exact H].
    intros acc k t Hacc _. now apply dict_set_wf.
  - apply (scrape_tags_invariant
             (fun s => forall k t, In (k, t) s ->
                exists uid, k = KStr uid
                            /\ __generate_uid_from_tournament t = Ok uid
                            /\ List.length uid = 64%nat
                            /\ forallb is_lower_hex uid = true))
      with (config := config) (tags := tags); [| intros k t [] | exact H].
    intros acc k t Hacc [c [d [l [p [n [uid [Ht [Hu ->]]]]]]]] k0 t0 Hin.
    apply dict_set_In in Hin as [[-> ->] | Hin]; [|now apply Hacc].
    exists uid. repeat split; try assumption.
    + unfold __generate_uid_from_tournament in Hu. inv_rbind Hu.
      injection Hu as <-. apply (proj1 (hexdigest_shape _)).
    + unfold __generate_uid_from_tournament in Hu. inv_rbind Hu.
      injection Hu as <-. apply (proj2 (hexdigest_shape _)).
Qed.

Lemma scraped_snapshot_is_keyed_by_digest_witness :
  wf_dict snapshot_12.
Proof.
  assert (H : scrape_tags config_mixed_basic page_12 = Ok snapshot_12)
    by (vm_compute; reflexivity).
  exact (proj1 (scraped_snapshot_is_keyed_by_digest
                  config_mixed_basic page_12 snapshot_12 H)).
Defined.

Lemma dict_set_fresh {V} (k : pykey) (v : V) (d : dict V) :
  dict_mem k d = false -> dict_set k v d = d ++ [(k, v)].
Proof.
  unfold dict_mem, dict_keys. induction d as [|[k' v'] d IH]; simpl; [reflexivity|].
  intros H. apply orb_false_iff in H as [H1 H2]. rewrite H1. now rewrite IH.
Qed.

Lemma dict_mem_set_mono {V} (k k' : pykey) (v : V) (d : dict V) :
  dict_mem k d = true -> dict_mem k (dict_set k' v d) = true.
Proof.
  intros H. unfold dict_mem in *. rewrite dict_set_keys.
  destruct (dict_mem k' d); [exact H|]. rewrite existsb_app, H. reflexivity.
Qed.

Lemma dict_mem_set_same {V} (k : pykey) (v : V) (d : dict V) :
  dict_mem k (dict_set k v d) = true.
Proof. rewrite dict_mem_get, dict_get_set_same. reflexivity. Qed.

Lemma scrape_row_grows config class_name row_data acc s :
  scrape_row config class_name row_data acc = Ok s ->
  (forall k, dict_mem k acc = true -> dict_mem k s = true)
  /\ row_scraped config class_name row_data s.
Proof.
  intros H. unfold scrape_row in H.
  inv_rbind H. rename x into style. inv_rbind H. rename x into keep.
  destruct keep; simpl in H.
  - inv_rbind H. inv_rbind H. inv_rbind H. inv_rbind H. injection H as <-. split.
    + intros k Hk. now apply dict_mem_set_mono.
    + intros style' Hs' _. assert (style' = style) by congruence. subst style'.
      exists x, x0, x1, x2. repeat split; try assumption.
      apply dict_mem_set_same.
  - injection H as <-. split; [auto|].
    intros style' Hs' Hsel. assert (style' = style) by congruence. subst style'.
    congruence.
Qed.

Lemma row_scraped_mono config class_name row_data (s s' : snapshot) :
  (forall k, dict_mem k s = true -> dict_mem k s' = true) ->
  row_scraped config class_name row_data s ->
  row_scraped config class_name row_data s'.
Proof.
  intros Hm Hr style Hc Hs.
  destruct (Hr style Hc Hs) as [d [l [n [uid [H0 [H2 [H4 [Hu Hin]]]]]]]].
  exists d, l, n, uid. auto 10.
Qed.

Lemma scrape_rows_grows config class_name rows :
  forall acc s,
    scrape_rows config class_name rows acc = Ok s ->
    (forall k, dict_mem k acc = true -> dict_mem k s = true)
    /\ forall row_data, In row_data rows ->
         row_scraped config class_name row_data s.
Proof.
  induction rows as [|r rows IH]; simpl; intros acc s H.
  - injection H as <-. split; [auto | intros ? []].
  - inv_rbind H. destruct (scrape_row_grows _ _ _ _ _ E) as [M1 R1].
    destruct (IH _ _ H) as [M2 R2]. split; [auto|].
    intros row [<- | Hin]; [|now apply R2].
    eapply row_scraped_mono; [exact M2 | exact R1].
Qed.

Lemma scrape_classes_grows config relevant :
  forall acc s,
    scrape_classes config relevant acc = Ok s ->
    (forall k, dict_mem k acc = true -> dict_mem k s = true)
    /\ forall k tag, In (k, tag) relevant ->
         exists rows, tag_tbody tag = Some rows
           /\ forall row_data, In row_data rows ->
                row_scraped config (Json.key_str k) row_data s.
Proof.
  induction relevant as [|[k0 tag0] relevant IH]; simpl; intros acc s H.
  - injection H as <-. split; [auto | intros ? ? []].
  - destruct (tag_tbody tag0) as [rows|] eqn:Hb; [|discriminate]. inv_rbind H.
    destruct (scrape_rows_grows _ _ _ _ _ E) as [M1 R1].
    destruct (IH _ _ H) as [M2 R2]. split; [auto|].
    intros k tag [Heq | Hin]; [|now apply R2].
    injection Heq as <- <-. exists rows. split; [exact Hb|].
    intros row Hrow. eapply row_scraped_mono; [exact M2 | now apply R1].
Qed.

Lemma relevant_class_tags_keeps config :
  forall all acc rel,
    NoDup (map tag_h3 all) ->
    (forall t h, In t all -> tag_h3 t = Some h -> dict_mem (KStr h) acc = false) ->
    relevant_class_tags config all acc = Ok rel ->
    (forall x, In x acc -> In x rel)
    /\ forall t h, In t all -> tag_h3 t = Some h ->
         selected config (u "classes") h = Ok true -> In (KStr h, t) rel.
Proof.
  induction all as [|t all IH]; simpl; intros acc rel Hnd Hfresh H.
  - injection H as <-. split; [auto | intros ? ? []].
  - destruct (tag_h3 t) as [h|] eqn:Hh; [|discriminate]. inv_rbind H.
    inversion Hnd as [|? ? Hnotin Hnd']; subst.
    assert (Hacc : dict_mem (KStr h) acc = false)
      by (apply (Hfresh t h); auto).
    set (acc' := if x then dict_set (KStr h) t acc else acc) in *.
    assert (Hsub : forall y, In y acc -> In y acc').
    { unfold acc'. destruct x; [|auto]. rewrite dict_set_fresh by exact Hacc.
      intros y Hy. apply in_or_app. now left. }
    assert (Hfresh' : forall t' h', In t' all -> tag_h3 t' = Some h' ->
                                   dict_mem (KStr h') acc' = false).
    { intros t' h' Hin' Hh'. unfold acc'.
      assert (Hne : h' <> h).
      { intros ->. apply Hnotin. rewrite <- Hh'. now apply in_map. }
      destruct x; [|apply (Hfresh t' h'); auto].
      rewrite dict_mem_set_other; [apply (Hfresh t' h'); auto|].
      apply pykey_eqb_neq. congruence. }
    destruct (IH _ _ Hnd' Hfresh' H) as [K1 K2]. split; [auto|].
    intros t' h' [<- | Hin'] Hh' Hsel; [|now apply (K2 t' h')].
    assert (h' = h) by congruence. subst h'.
    assert (x = true) by congruence. subst x.
    apply K1. unfold acc'. rewrite dict_set_fresh by exact Hacc.
    apply in_or_app. right. now left.
Qed.

Lemma scrape_tags_scraped_from (config : pyval) (tags : list class_tag)
    (s : snapshot) :
  scrape_tags config tags = Ok s ->
  forall k t, In (k, t) s -> scraped_from config tags k t.
Proof.
  unfold scrape_tags. intros H. inv_rbind H.
  apply (scrape_classes_ok config tags x [] s); [| |exact H].
  - apply (relevant_class_tags_ok config tags tags [] x); [auto| |exact E].
    intros k tag [].
  - intros k t [].
Qed.

(** X7.  On a page whose headings are all different, a scrape that
    succeeds drops the id of no relevant row: for every tag whose
    heading is a chosen class and every row of it whose playing style
    is chosen, the row has its five cells, and the snapshot holds,
    under the id of the record made of them, a record scraped from a
    relevant row of the page with that id.  (Two rows with the same id
    share one entry, which holds the record that was written last.) *)
Theorem scraper_keeps_every_relevant_row (config : pyval) (tags : list class_tag)
    (s : snapshot) :
  NoDup (map tag_h3 tags) ->
  scrape_tags config tags = Ok s ->
  forall tag class_name, In tag tags -> tag_h3 tag = Some class_name ->
    selected config (u "classes") class_name = Ok true ->
    exists rows, tag_tbody tag = Some rows
      /\ forall row_data, In row_data rows ->
           row_recorded config tags class_name row_data s.
Proof.
  intros Hnd H tag class_name Hin Hh Hsel.
  pose proof (scrape_tags_scraped_from config tags s H) as Hall.
  unfold scrape_tags in H. inv_rbind H.
  destruct (relevant_class_tags_keeps config tags [] x Hnd) as [_ K];
    [reflexivity | exact E |].
  destruct (scrape_classes_grows _ _ _ _ H) as [_ R].
  destruct (R _ _ (K tag class_name Hin Hh Hsel)) as [rows [Hb Hrows]].
  exists rows. split; [exact Hb|].
  intros row_data Hrow playing_style Hc Hs.
  destruct (Hrows row_data Hrow playing_style Hc Hs)
    as [date [location [number [uid [H0 [H2 [H4 [Hu Hm]]]]]]]].
  rewrite dict_mem_get in Hm.
  destruct (dict_get (KStr uid) s) as [t|] eqn:Hg; [|discriminate Hm].
  exists date, location, number, uid, t. repeat split; try assumption.
  apply Hall. now apply dict_get_In.
Qed.

(** At [page_collision] the headings differ, and the two rows of the
    first block have the same id: the entry under it holds the record
    of the second row. *)
Lemma scraper_keeps_every_relevant_row_witness :
  exists rows, tag_tbody (mk_tag (Some (u "basic")) (Some [row_a; row_b])) = Some rows
    /\ forall row_data, In row_data rows ->
         row_recorded config_mixed_basic page_collision (u "basic") row_data
           [(KStr (uid_of tournament_b), tournament_b)].
Proof.
  assert (Hnd : NoDup (map tag_h3 page_collision)).
  { repeat constructor; simpl; intros H;
      repeat (destruct H as [H | H]; [discriminate H|]); exact H. }
  assert (H : scrape_tags config_mixed_basic page_collision
              = Ok [(KStr (uid_of tournament_b), tournament_b)])
    by (vm_compute; reflexivity).
  exact (scraper_keeps_every_relevant_row config_mixed_basic page_collision _
           Hnd H _ (u "basic") (or_introl eq_refl) eq_refl eq_refl).
Defined.

(** ** The console dialogue (lines 58-98) *)

Lemma yes_no_trace_cons (l : str) (junk : list str) (tr : list event) :
  yes_no_trace junk ++ EvPrint not_recognized :: EvInput yes_no_prompt :: tr
  = yes_no_trace (l :: junk) ++ tr.
Proof.
  unfold yes_no_trace. simpl. f_equal.
  induction junk as [|x junk IH]; simpl; [reflexivity|]. now rewrite IH.
Qed.

(** X8.  [__yes_no_parser] skips every line it does not recognise,
    printing "Given input not recognized. Please try again." for each,
    and answers with the first line it recognises: yes for "yes", "y"
    or an empty line, no for "no" or "n", whatever the case of the
    letters and the white space around them.  It consumes exactly the
    lines up to that one.  If the input ends first, it raises
    EOFError. *)
Theorem yes_no_parser_answers (junk : list str) (answer : str) (rest : list str)
    (w : world) :
  Forall unrecognized junk ->
  (is_yes (strip (lower answer)) = true \/ is_no (strip (lower answer)) = true) ->
  (w_stdin w = junk ++ answer :: rest ->
   __yes_no_parser w
   = (Ok (is_yes (strip (lower answer))),
      set_stdin rest (set_trace (yes_no_trace junk ++ w_trace w) w)))
  /\ (w_stdin w = junk ->
      __yes_no_parser w
      = (Raise EOFError, set_stdin [] (set_trace (yes_no_trace junk ++ w_trace w) w))).
Proof.
  intros Hjunk Hans.
  assert (H1 : forall tr,
             yes_no_loop (junk ++ answer :: rest) tr
             = (Ok (is_yes (strip (lower answer))), rest, yes_no_trace junk ++ tr)).
  { induction Hjunk as [|l junk [Hy Hn] _ IH]; intros tr; simpl.
    - destruct (is_yes (strip (lower answer))) eqn:Ey; [reflexivity|].
      destruct Hans as [Hans | Hans]; [discriminate|]. now rewrite Hans.
    - rewrite Hy, Hn, IH. f_equal. apply (yes_no_trace_cons l). }
  assert (H2 : forall tr,
             yes_no_loop junk tr = (Raise EOFError, [], yes_no_trace junk ++ tr)).
  { clear H1. induction Hjunk as [|l junk [Hy Hn] _ IH]; intros tr; simpl.
    - reflexivity.
    - rewrite Hy, Hn, IH. f_equal. apply (yes_no_trace_cons l). }
  split; intros Hin; unfold __yes_no_parser, run_console; rewrite Hin.
  - now rewrite H1.
  - now rewrite H2.
Qed.

Lemma yes_no_parser_answers_witness :
  __yes_no_parser (mk_world UTF_8 [u "maybe"; u "  YES "; u "n"] [] (Ok []) mail_ok [])
  = (Ok true,
     set_stdin [u "n"]
       (set_trace (yes_no_trace [u "maybe"] ++ [])
          (mk_world UTF_8 [u "maybe"; u "  YES "; u "n"] [] (Ok []) mail_ok []))).
Proof.
  assert (Hj : Forall unrecognized [u "maybe"])
    by (repeat constructor).
  assert (Ha : is_yes (strip (lower (u "  YES "))) = true
               \/ is_no (strip (lower (u "  YES "))) = true)
    by (left; reflexivity).
  exact (proj1 (yes_no_parser_answers [u "maybe"] (u "  YES ") [u "n"]
                  (mk_world UTF_8 [u "maybe"; u "  YES "; u "n"] [] (Ok []) mail_ok [])
                  Hj Ha) eq_refl).
Defined.

(** *** The elements of the table *)

Lemma put_list (j : nat) (n : N) (table : pyset) :
  is_free table j = true ->
  Permutation (set_list (put j n table)) (n :: set_list table).
Proof.
  unfold is_free. revert j. induction table as [|x t IH]; intros j H.
  - destruct j; discriminate H.
  - destruct j as [|j]; simpl in H.
    + destruct x; [discriminate H|]. reflexivity.
    + cbn [put]. unfold set_list in *. cbn [flat_map].
      destruct x as [m|]; simpl.
      * rewrite (IH j H). apply perm_swap.
      * exact (IH j H).
Qed.

Lemma first_free_is_free (table : pyset) (linear : nat) :
  forall i j, first_free table i linear = Some j -> is_free table j = true.
Proof.
  induction linear as [|l IH]; intros i j H; simpl in H;
    destruct (is_free table i) eqn:E.
  - now injection H as <-.
  - discriminate H.
  - now injection H as <-.
  - exact (IH _ _ H).
Qed.

Lemma probe_is_free (rounds : nat) (table : pyset) (mask : N) :
  forall perturb i j,
    probe rounds table mask perturb i = Some j -> is_free table j = true.
Proof.
  induction rounds as [|r IH]; intros perturb i j H; simpl in H; [discriminate H|].
  destruct (first_free table _ _) as [j'|] eqn:E.
  - injection H as <-. exact (first_free_is_free _ _ _ _ E).
  - exact (IH _ _ _ H).
Qed.

Lemma set_list_app (a b : pyset) : set_list (a ++ b) = set_list a ++ set_list b.
Proof. unfold set_list. apply flat_map_app. Qed.

Lemma set_insert_clean_list (table : pyset) (n : N) :
  Permutation (set_list (set_insert_clean table n)) (n :: set_list table).
Proof.
  unfold set_insert_clean, free_slot.
  destruct (probe _ _ _ _ _) as [j|] eqn:E.
  - apply put_list. exact (probe_is_free _ _ _ _ _ _ E).
  - rewrite set_list_app. simpl. symmetry. apply Permutation_cons_append.
Qed.

Lemma set_list_repeat (k : nat) : set_list (repeat None k) = [].
Proof. induction k as [|k IH]; [reflexivity | exact IH]. Qed.

Lemma set_table_resize_list (table : pyset) (minused : N) :
  Permutation (set_list (set_table_resize table minused)) (set_list table).
Proof.
  unfold set_table_resize.
  assert (H : forall l t, Permutation (set_list (fold_left set_insert_clean l t))
                                      (l ++ set_list t)).
  { induction l as [|x l IH]; intros t; [reflexivity|]. cbn [fold_left].
    rewrite IH, set_insert_clean_list. simpl. symmetry. apply Permutation_middle. }
  rewrite H, set_list_repeat, app_nil_r. reflexivity.
Qed.

Lemma set_add_list (n : N) (s : pyset) :
  if set_mem n s then set_add n s = s
  else Permutation (set_list (set_add n s)) (n :: set_list s).
Proof.
  unfold set_add. destruct (set_mem n s); [reflexivity|].
  cbv zeta. destruct (N.ltb _ _).
  - apply set_insert_clean_list.
  - rewrite set_table_resize_list. apply set_insert_clean_list.
Qed.

Lemma set_mem_In (n : N) (s : pyset) : set_mem n s = true <-> In n (set_list s).
Proof.
  unfold set_mem. rewrite existsb_exists. split.
  - intros [x [Hx E]]. apply N.eqb_eq in E. now subst.
  - intros H. exists n. split; [exact H | apply N.eqb_refl].
Qed.

Lemma set_add_In (n : N) (s : pyset) (x : N) :
  In x (set_list (set_add n s)) <-> x = n \/ In x (set_list s).
Proof.
  pose proof (set_add_list n s) as H. destruct (set_mem n s) eqn:E.
  - rewrite H. apply set_mem_In in E. split; [auto | intros [-> | Hx]; auto].
  - split; intros Hx.
    + apply (Permutation_in _ H) in Hx. destruct Hx; auto.
    + apply (Permutation_in _ (Permutation_sym H)). destruct Hx; [left | right]; auto.
Qed.

Lemma set_add_NoDup (n : N) (s : pyset) :
  NoDup (set_list s) -> NoDup (set_list (set_add n s)).
Proof.
  intros Hs. pose proof (set_add_list n s) as H. destruct (set_mem n s) eqn:E.
  - now rewrite H.
  - apply (Permutation_NoDup (Permutation_sym H)). constructor; [|exact Hs].
    intros Hin. apply set_mem_In in Hin. congruence.
Qed.

(** *** The probe sequence comes to every slot *)

Local Open Scope N_scope.

Lemma pow2_S (k : nat) : pow2 (S k) = 2 * pow2 k.
Proof. unfold pow2. rewrite Nat2N.inj_succ, N.pow_succ_r'. reflexivity. Qed.

Lemma pow2_pos (k : nat) : 0 < pow2 k.
Proof. unfold pow2. apply N.neq_0_lt_0. apply N.pow_nonzero. discriminate. Qed.

Lemma cong_refl m a : cong m a a.
Proof. exists 0, 0. reflexivity. Qed.

Lemma cong_sym m a b : cong m a b -> cong m b a.
Proof. intros [c [d H]]. exists d, c. now symmetry. Qed.

Lemma cong_trans m a b c : cong m a b -> cong m b c -> cong m a c.
Proof.
  intros [c1 [d1 H1]] [c2 [d2 H2]]. exists (c1 + c2), (d1 + d2). lia.
Qed.

Lemma cong_mul_r m a b x : cong m a b -> cong m (a * x) (b * x).
Proof. intros [c [d H]]. exists (c * x), (d * x). nia. Qed.

Lemma cong_mod m a : m <> 0 -> cong m (a mod m) a.
Proof.
  intros Hm. exists (a / m), 0. rewrite (N.div_mod a m) at 3 by exact Hm. lia.
Qed.

Lemma cong_small m a b : a < m -> b < m -> cong m a b -> a = b.
Proof.
  intros Ha Hb [c [d H]].
  assert (E : (a + c * m) mod m = (b + d * m) mod m) by now rewrite H.
  rewrite !N.Div0.mod_add in E. now rewrite !N.mod_small in E.
Qed.

Lemma pow5_odd (m : N) : exists t, 5 ^ m = 2 * t + 1.
Proof.
  induction m as [|m [t IH]] using N.peano_ind.
  - exists 0. reflexivity.
  - exists (5 * t + 2). rewrite N.pow_succ_r', IH. lia.
Qed.

(** 5^(2^k) = 1 + 2^(k+2) * odd *)
Lemma pow5_pow2 (k : nat) : exists q, 5 ^ pow2 k = 1 + 4 * pow2 k * (2 * q + 1).
Proof.
  induction k as [|k [q IH]].
  - exists 0. reflexivity.
  - exists (q + pow2 k * ((2 * q + 1) * (2 * q + 1))).
    rewrite pow2_S. replace (2 * pow2 k) with (pow2 k + pow2 k) by lia.
    rewrite N.pow_add_r, IH. set (B := pow2 k). clearbody B. nia.
Qed.

(** Every number of the form 4 j + 1 is, modulo 2^(k+2), a number of
    that form times a power of 5 below 2^k. *)
Lemma powers_of_5_reach (k : nat) (y z : N) :
  y mod 4 = 1 -> z mod 4 = 1 ->
  exists m, m < pow2 k /\ cong (4 * pow2 k) (y * 5 ^ m) z.
Proof.
  intros Hy Hz. induction k as [|k [m [Hm [c [d H]]]]].
  - exists 0. split; [reflexivity|].
    exists (z / 4), (y / 4). change (pow2 0) with 1.
    rewrite (N.div_mod y 4) at 1 by discriminate.
    rewrite (N.div_mod z 4) at 2 by discriminate. rewrite Hy, Hz.
    rewrite N.pow_0_r. lia.
  - rewrite pow2_S.
    destruct (pow5_odd m) as [t Ht]. destruct (pow5_pow2 k) as [q Hq].
    assert (HY : exists s, y * 5 ^ m = 2 * s + 1).
    { rewrite Ht. rewrite (N.div_mod y 4) by discriminate. rewrite Hy.
      exists ((4 * (y / 4) + 1) * t + 2 * (y / 4)). nia. }
    destruct HY as [s Hs].
    assert (HY' : y * 5 ^ (m + pow2 k)
                  = y * 5 ^ m + 4 * pow2 k + 8 * pow2 k * (2 * s * q + s + q)).
    { rewrite N.pow_add_r, N.mul_assoc, Hq, Hs. ring. }
    set (B := pow2 k) in *. clearbody B. clear Hy Hz Ht Hq.
    destruct (N.Even_or_Odd c) as [[c' ->] | [c' ->]];
      destruct (N.Even_or_Odd d) as [[d' ->] | [d' ->]].
    + exists m. split; [lia|]. exists c', d'.
      set (Y := y * 5 ^ m) in *. clearbody Y. clear HY'. nia.
    + exists (m + B). split; [lia|]. rewrite HY'.
      exists c', (d' + 1 + (2 * s * q + s + q)).
      set (Y := y * 5 ^ m) in *. clearbody Y. clear HY'. nia.
    + exists (m + B). split; [lia|]. rewrite HY'.
      exists c', (d' + (2 * s * q + s + q)).
      set (Y := y * 5 ^ m) in *. clearbody Y. clear HY'. nia.
    + exists m. split; [lia|]. exists c', d'.
      set (Y := y * 5 ^ m) in *. clearbody Y. clear HY'. nia.
Qed.

Lemma orbit_lt (modulus : N) (m : nat) :
  forall i, i < modulus -> orbit modulus m i < modulus.
Proof.
  induction m as [|m IH]; intros i Hi; [exact Hi|]. simpl. apply IH.
  apply N.mod_lt. lia.
Qed.

Lemma orbit_cong (k : nat) (m : nat) :
  forall i,
    cong (4 * pow2 k) (4 * orbit (pow2 k) m i + 1) ((4 * i + 1) * 5 ^ N.of_nat m).
Proof.
  pose proof (pow2_pos k) as HB. set (B := pow2 k) in *. clearbody B.
  induction m as [|m IH]; intros i.
  - simpl. rewrite N.mul_1_r. apply cong_refl.
  - cbn [orbit]. eapply cong_trans; [apply IH|].
    rewrite Nat2N.inj_succ, N.pow_succ_r'.
    replace ((4 * i + 1) * (5 * 5 ^ N.of_nat m))
      with ((4 * (i * 5 + 1) + 1) * 5 ^ N.of_nat m) by ring.
    apply cong_mul_r.
    exists ((i * 5 + 1) / B), 0.
    rewrite (N.div_mod (i * 5 + 1) B) at 3 by lia.
    set (r := (i * 5 + 1) mod B). set (q := (i * 5 + 1) / B). clearbody r q. lia.
Qed.

Lemma orbit_reaches (k : nat) (i j : N) :
  i < pow2 k -> j < pow2 k ->
  exists m, (m < N.to_nat (pow2 k))%nat /\ orbit (pow2 k) m i = j.
Proof.
  intros Hi Hj.
  assert (Hm4 : forall x, (4 * x + 1) mod 4 = 1).
  { intros x. rewrite N.add_comm, N.mul_comm, N.Div0.mod_add. reflexivity. }
  destruct (powers_of_5_reach k (4 * i + 1) (4 * j + 1) (Hm4 i) (Hm4 j))
    as [m [Hm Hc]].
  exists (N.to_nat m). split; [lia|].
  pose proof (orbit_cong k (N.to_nat m) i) as Ho. rewrite N2Nat.id in Ho.
  pose proof (cong_trans _ _ _ _ Ho Hc) as [c [d H]].
  pose proof (orbit_lt (pow2 k) (N.to_nat m) i Hi) as Hlt.
  set (o := orbit (pow2 k) (N.to_nat m) i) in *. set (B := pow2 k) in *.
  clearbody o B. apply (cong_small B); [exact Hlt | exact Hj |].
  exists c, d. lia.
Qed.

Local Close Scope N_scope.

Lemma first_free_hit (table : pyset) (i linear : nat) :
  is_free table i = true -> first_free table i linear = Some i.
Proof. intros H. destruct linear; simpl; now rewrite H. Qed.

Lemma probe_orbit (table : pyset) (mask : N) (m : nat) :
  forall rounds i,
    m < rounds ->
    is_free table (N.to_nat (orbit (mask + 1) m i)) = true ->
    probe rounds table mask 0 i <> None.
Proof.
  induction m as [|m IH]; intros rounds i Hr Hfree;
    (destruct rounds as [|r]; [lia|]); cbn [probe].
  - cbn [orbit] in Hfree. now rewrite (first_free_hit _ _ _ Hfree).
  - destruct (first_free table _ _); [discriminate|].
    change (0 / 32)%N with 0%N. rewrite N.add_0_r.
    apply IH; [lia | exact Hfree].
Qed.

Lemma probe_perturb (table : pyset) (mask : N) (n : nat) :
  (forall i, (i < mask + 1)%N -> probe n table mask 0 i <> None) ->
  forall r perturb i,
    (perturb < 32 ^ N.of_nat r)%N -> (i < mask + 1)%N ->
    probe (r + n) table mask perturb i <> None.
Proof.
  intros Hn. induction r as [|r IH]; intros perturb i Hp Hi.
  - simpl in Hp. assert (perturb = 0%N) by lia. subst. now apply Hn.
  - cbn [Nat.add probe]. destruct (first_free table _ _); [discriminate|].
    apply IH.
    + rewrite Nat2N.inj_succ, N.pow_succ_r' in Hp.
      apply N.Div0.div_lt_upper_bound. exact Hp.
    + apply N.mod_lt. lia.
Qed.

Lemma is_free_lt (table : pyset) (j : nat) :
  is_free table j = true -> j < List.length table.
Proof.
  unfold is_free. intros H. apply nth_error_Some.
  destruct (nth_error table j); [discriminate | discriminate H].
Qed.

Lemma py_hash_lt (n : N) : (py_hash n < 32 ^ 13)%N.
Proof.
  unfold py_hash. eapply N.lt_trans; [apply N.mod_lt; discriminate|].
  reflexivity.
Qed.

(** In a table of 2^k slots one of which is free, the search for a
    free slot succeeds. *)
Lemma free_slot_found (table : pyset) (n : N) (k : nat) :
  N.of_nat (List.length table) = pow2 k ->
  (exists j, is_free table j = true) ->
  free_slot table n <> None.
Proof.
  intros Hlen [j Hj]. unfold free_slot.
  pose proof (pow2_pos k) as Hpos.
  assert (Hmask : (N.of_nat (List.length table) - 1 + 1)%N = pow2 k) by lia.
  set (mask := (N.of_nat (List.length table) - 1)%N) in *.
  replace (List.length table + 14) with (13 + S (List.length table)) by lia.
  apply probe_perturb.
  - intros i Hi. rewrite Hmask in Hi.
    assert (Hjk : (N.of_nat j < pow2 k)%N).
    { apply is_free_lt in Hj. lia. }
    destruct (orbit_reaches k i (N.of_nat j) Hi Hjk) as [m [Hm Ho]].
    apply (probe_orbit table mask m); [lia|].
    rewrite Hmask, Ho, Nat2N.id. exact Hj.
  - apply py_hash_lt.
  - apply N.mod_lt. lia.
Qed.

(** *** The tables of the program *)

Lemma put_length (j : nat) (n : N) (table : pyset) :
  List.length (put j n table) = List.length table.
Proof.
  revert j. induction table as [|x t IH]; intros j; [now destruct j|].
  destruct j; simpl; [reflexivity | now rewrite IH].
Qed.

Lemma free_exists (table : pyset) :
  set_len table < List.length table -> exists j, is_free table j = true.
Proof.
  unfold set_len, set_list, is_free.
  induction table as [|x t IH]; simpl; intros H; [lia|].
  destruct x as [m|].
  - simpl in H. destruct IH as [j Hj]; [lia|]. now exists (S j).
  - now exists 0.
Qed.

Lemma set_insert_clean_fits (table : pyset) (n : N) (k : nat) :
  N.of_nat (List.length table) = pow2 k ->
  set_len table < List.length table ->
  List.length (set_insert_clean table n) = List.length table
  /\ set_len (set_insert_clean table n) = S (set_len table).
Proof.
  intros Hk Hfree. split.
  - unfold set_insert_clean.
    destruct (free_slot table n) eqn:E; [apply put_length|].
    exfalso. exact (free_slot_found table n k Hk (free_exists table Hfree) E).
  - unfold set_len.
    now rewrite (Permutation_length (set_insert_clean_list table n)).
Qed.

Lemma fold_insert_clean_length (k : nat) (l : list N) :
  forall table,
    N.of_nat (List.length table) = pow2 k ->
    set_len table + List.length l < List.length table ->
    List.length (fold_left set_insert_clean l table) = List.length table.
Proof.
  induction l as [|x l IH]; intros table Hk Hl; [reflexivity|].
  cbn [fold_left]. simpl in Hl.
  destruct (set_insert_clean_fits table x k Hk) as [H1 H2]; [lia|].
  rewrite IH; [exact H1 | now rewrite H1 | rewrite H1, H2; lia].
Qed.

Lemma table_size_pow2 (e : N) : exists k, N.max 8 (2 ^ e) = pow2 k.
Proof.
  destruct (N.max_spec 8 (2 ^ e)) as [[_ ->] | [_ ->]].
  - exists (N.to_nat e). unfold pow2. now rewrite N2Nat.id.
  - now exists 3.
Qed.

Lemma set_table_resize_ok (table : pyset) (minused : N) :
  (2 * N.of_nat (set_len table) <= minused)%N -> 0 < set_len table ->
  table_ok (set_table_resize table minused).
Proof.
  intros Hmin Hpos.
  assert (Hbig : (minused < N.max 8 (2 ^ (N.log2 minused + 1)))%N).
  { apply N.max_lt_iff. right. rewrite N.add_1_r.
    apply N.log2_spec. lia. }
  destruct (table_size_pow2 (N.log2 minused + 1)) as [k Hk].
  assert (Hperm := set_table_resize_list table minused).
  assert (Hlen : set_len (set_table_resize table minused) = set_len table)
    by (unfold set_len; now rewrite (Permutation_length Hperm)).
  assert (Hsize : List.length (set_table_resize table minused)
                  = N.to_nat (N.max 8 (2 ^ (N.log2 minused + 1)))).
  { unfold set_table_resize.
    rewrite (fold_insert_clean_length k); rewrite ?repeat_length; try reflexivity.
    - now rewrite N2Nat.id.
    - unfold set_len at 1. rewrite set_list_repeat. simpl. fold (set_len table). lia. }
  split.
  - exists k. now rewrite Hsize, N2Nat.id.
  - rewrite Hlen, Hsize, N2Nat.id. lia.
Qed.

Lemma empty_set_ok : table_ok empty_set.
Proof. split; [now exists 3 | reflexivity]. Qed.

(** [set_add] keeps the tables well formed: every element found its
    slot by the probe sequence. *)
Lemma set_add_ok (n : N) (s : pyset) : table_ok s -> table_ok (set_add n s).
Proof.
  intros [[k Hk] Hload]. unfold set_add.
  destruct (set_mem n s); [split; eauto|]. cbv zeta.
  destruct (set_insert_clean_fits s n k Hk) as [H1 H2]; [lia|].
  destruct (N.ltb _ _) eqn:E.
  - apply N.ltb_lt in E. split; [exists k; now rewrite H1 | exact E].
  - apply set_table_resize_ok; [|lia].
    destruct (N.ltb 50000 _); lia.
Qed.

Lemma parse_enum_selection_loop_valid num_entries inp :
  forall sel tr res inp' tr',
    NoDup (set_list sel) ->
    Forall (fun i => (i < N.of_nat num_entries)%N) (set_list sel) ->
    parse_enum_selection_loop num_entries sel inp tr = (Ok res, inp', tr') ->
    NoDup res /\ Forall (fun i => (i < N.of_nat num_entries)%N) res.
Proof.
  induction inp as [|l rest IH]; simpl; intros sel tr res inp' tr' Hs Hb H.
  - destruct (Nat.eqb _ _); [|discriminate]. injection H as <- _ _. auto.
  - destruct (Nat.eqb _ num_entries); [injection H as <- _ _; auto|].
    destruct (str_eqb _ _).
    + destruct (Nat.eqb _ 0); [now apply IH in H|]. injection H as <- _ _. auto.
    + destruct (negb _); [now apply IH in H|].
      destruct (int_of_str _) as [n|e]; [|discriminate].
      destruct (N.leb _ _) eqn:E; [now apply IH in H|].
      apply N.leb_gt in E.
      apply IH in H; [exact H | now apply set_add_NoDup |].
      rewrite Forall_forall in *. intros x Hx.
      apply set_add_In in Hx as [-> | Hx]; auto.
Qed.

(** X9.  When the selection menu returns, the selection is not empty,
    holds no index twice, and every index in it denotes a member of
    the enumeration (it is below [len(enum)]). *)
Theorem parse_enum_selection_is_valid (enum : VolleyballEnumType) (w : world)
    (sel : list N) (w' : world) :
  enum <> [] ->
  __parse_enum_selection enum w = (Ok sel, w') ->
  sel <> [] /\ NoDup sel
  /\ forall i, In i sel ->
       (i < N.of_nat (List.length enum))%N
       /\ exists m, enum_member enum i = Ok m.
Proof.
  intros Hne H. split; [exact (parse_enum_selection_nonempty _ _ _ _ Hne H)|].
  unfold __parse_enum_selection in H.
  apply bind_ok_inv in H as [[] [w1 [_ H]]]. unfold run_console in H.
  destruct (parse_enum_selection_loop _ _ _ _) as [[r0 inp'] tr'] eqn:E.
  injection H as -> _.
  apply parse_enum_selection_loop_valid in E as [Hs Hb];
    [| constructor | constructor].
  split; [exact Hs|].
  intros i Hi. rewrite Forall_forall in Hb. specialize (Hb i Hi).
  split; [exact Hb|]. unfold enum_member.
  destruct (nth_error enum (N.to_nat i)) eqn:En; [eauto|].
  apply nth_error_None in En. lia.
Qed.

(** The classes 1 and 8, picked in this order, are listed as 8, 1: in
    a table of eight slots 8 sits in slot 0. *)
Lemma parse_enum_selection_is_valid_witness :
  [8%N; 1%N] <> [] /\ NoDup [8%N; 1%N].
Proof.
  assert (Hne : TournamentClass <> []) by discriminate.
  assert (H : __parse_enum_selection TournamentClass
                (mk_world UTF_8 [u "10"; u "x"; u " 1"; u "8"; u "1"; u "X"] []
                          (Ok []) mail_ok [])
              = (Ok [8%N; 1%N],
                 snd (__parse_enum_selection TournamentClass
                        (mk_world UTF_8 [u "10"; u "x"; u " 1"; u "8"; u "1"; u "X"]
                                  [] (Ok []) mail_ok []))))
    by (vm_compute; reflexivity).
  pose proof (parse_enum_selection_is_valid TournamentClass _ _ _ Hne H) as [H1 [H2 _]].
  exact (conj H1 H2).
Defined.

(** ** From a selection to the configuration (lines 101-126, 176-198) *)

Lemma enum_member_cases (enum : VolleyballEnumType) (idx : N) :
  match enum_member enum idx with
  | Ok m => (idx < N.of_nat (List.length enum))%N /\ value_at enum idx = Some (snd m)
  | Raise e => e = IndexError /\ (N.of_nat (List.length enum) <= idx)%N
  end.
Proof.
  unfold enum_member, value_at.
  destruct (nth_error enum (N.to_nat idx)) eqn:E; simpl.
  - split; [|reflexivity].
    assert (N.to_nat idx < List.length enum)%nat
      by (apply nth_error_Some; congruence). lia.
  - split; [reflexivity|]. apply nth_error_None in E. lia.
Qed.

Lemma map_numbers_loop_spec (enum : VolleyballEnumType) (l : list N) :
  forall acc,
    wf_dict acc ->
    match map_numbers_loop enum l acc with
    | Ok m =>
        Forall (fun i => (i < N.of_nat (List.length enum))%N) l
        /\ wf_dict m
        /\ (forall i, In i l ->
              exists s, value_at enum i = Some s
                        /\ dict_get (KInt (Z.of_N i)) m = Some (PStr s))
        /\ (forall k, (forall i, In i l -> k <> KInt (Z.of_N i)) ->
              dict_get k m = dict_get k acc)
    | Raise e =>
        e = IndexError
        /\ Exists (fun i => (N.of_nat (List.length enum) <= i)%N) l
    end.
Proof.
  induction l as [|idx l IH]; intros acc Hwf; simpl.
  - repeat split; [constructor | exact Hwf | intros i [] ].
  - pose proof (enum_member_cases enum idx) as Hm.
    destruct (enum_member enum idx) as [m|e]; simpl.
    + destruct Hm as [Hlt Hv].
      specialize (IH (dict_set (KInt (Z.of_N idx)) (PStr (snd m)) acc)
                     (dict_set_wf _ _ _ Hwf)).
      destruct (map_numbers_loop enum l _) as [r|e].
      * destruct IH as [Hall [Hwf' [Hin Hout]]].
        split; [now constructor|]. split; [exact Hwf'|]. split.
        -- intros i [<- | Hi]; [|now apply Hin].
           destruct (in_dec N.eq_dec idx l) as [Hi | Hi]; [now apply Hin|].
           exists (snd m). split; [exact Hv|].
           rewrite Hout; [apply dict_get_set_same|].
           intros i Hi' E. injection E as E. apply N2Z.inj in E. now subst.
        -- intros k Hk. rewrite Hout.
           ++ apply dict_get_set_other. apply pykey_eqb_neq. apply Hk. now left.
           ++ intros i Hi. apply Hk. now right.
      * destruct IH as [-> Hex]. split; [reflexivity | now apply Exists_cons_tl].
    + destruct Hm as [-> Hge]. split; [reflexivity | now apply Exists_cons_hd].
Qed.

(** X10.  [__map_numbers_to_entry_values] returns the dictionary that
    maps exactly the given numbers to the values of the members they
    denote, when every number is below [len(enum)]; when one of them is
    not, [list(enum)[idx]] raises IndexError. *)
Theorem map_numbers_to_entry_values_maps (enum : VolleyballEnumType)
    (entry_numbers : list N) :
  match __map_numbers_to_entry_values enum entry_numbers with
  | Ok v =>
      Forall (fun i => (i < N.of_nat (List.length enum))%N) entry_numbers
      /\ exists mapping,
           v = PDict false mapping /\ wf_dict mapping
           /\ forall k x,
                dict_get k mapping = Some x
                <-> exists i s, In i entry_numbers /\ k = KInt (Z.of_N i)
                                /\ value_at enum i = Some s /\ x = PStr s
  | Raise e =>
      e = IndexError
      /\ Exists (fun i => (N.of_nat (List.length enum) <= i)%N) entry_numbers
  end.
Proof.
  unfold __map_numbers_to_entry_values.
  assert (Hnil : wf_dict (@nil (pykey * pyval))) by constructor.
  pose proof (map_numbers_loop_spec enum entry_numbers [] Hnil) as H.
  destruct (map_numbers_loop enum entry_numbers []) as [m|e]; simpl; [|exact H].
  destruct H as [Hall [Hwf [Hin Hout]]]. split; [exact Hall|].
  exists m. split; [reflexivity|]. split; [exact Hwf|].
  intros k x. split.
  - intros Hk.
    assert (Hdec : (exists i, In i entry_numbers /\ k = KInt (Z.of_N i))
                   \/ forall i, In i entry_numbers -> k <> KInt (Z.of_N i)).
    { destruct k as [z|s]; [|right; discriminate].
      destruct (in_dec N.eq_dec (Z.to_N z) entry_numbers) as [Hi | Hi];
        destruct (Z.leb_spec 0 z) as [Hz | Hz].
      - left. exists (Z.to_N z). split; [exact Hi|]. now rewrite Z2N.id.
      - right. intros i _ E. injection E as E. lia.
      - right. intros i Hi' E. injection E as E. subst z.
        now rewrite N2Z.id in Hi.
      - right. intros i _ E. injection E as E. lia. }
    destruct Hdec as [[i [Hi ->]] | Hno].
    + destruct (Hin i Hi) as [s [Hs Hg]]. exists i, s.
      repeat split; try assumption. congruence.
    + rewrite (Hout k Hno) in Hk. discriminate.
  - intros [i [s [Hi [-> [Hs ->]]]]].
    destruct (Hin i Hi) as [s' [Hs' Hg]]. congruence.
Qed.

Lemma map_numbers_selection (enum : VolleyballEnumType) (numbers : list N) (v : pyval) :
  numbers <> [] ->
  __map_numbers_to_entry_values enum numbers = Ok v ->
  selection_of enum v
  /\ forall mapping i x,
       v = PDict false mapping -> dict_get (KInt (Z.of_N i)) mapping = Some x ->
       In i numbers.
Proof.
  intros Hne H.
  destruct (map_numbers_nonempty _ _ _ Hne H) as [m [-> Hm]].
  unfold __map_numbers_to_entry_values in H.
  assert (Hnil : wf_dict (@nil (pykey * pyval))) by constructor.
  pose proof (map_numbers_loop_spec enum numbers [] Hnil) as S.
  destruct (map_numbers_loop enum numbers []) as [m'|e]; [|discriminate].
  simpl in H. injection H as ->. destruct S as [_ [Hwf [Hin Hout]]].
  assert (Hkey : forall k x, dict_get k m = Some x ->
                   exists i, In i numbers /\ k = KInt (Z.of_N i)).
  { intros k x Hk.
    destruct k as [z|s];
      [|rewrite Hout in Hk; [discriminate | intros; discriminate]].
    destruct (in_dec N.eq_dec (Z.to_N z) numbers) as [Hi | Hi];
      destruct (Z.leb_spec 0 z) as [Hz | Hz].
    - exists (Z.to_N z). split; [exact Hi|]. now rewrite Z2N.id.
    - rewrite Hout in Hk; [discriminate|]. intros i _ E. injection E as E. lia.
    - rewrite Hout in Hk; [discriminate|]. intros i Hi' E. injection E as E.
      subst z. now rewrite N2Z.id in Hi.
    - rewrite Hout in Hk; [discriminate|]. intros i _ E. injection E as E. lia. }
  split.
  - exists m. repeat split; try assumption.
    intros k x Hk. destruct (Hkey k x Hk) as [i [Hi ->]].
    destruct (Hin i Hi) as [s [Hs Hg]]. exists i, s.
    repeat split; [exact Hs | congruence].
  - intros mapping i x E Hk. injection E as <-.
    destruct (Hkey _ _ Hk) as [j [Hj E]]. injection E as E.
    apply N2Z.inj in E. now subst.
Qed.

Lemma get_entries_by_numbers_members (enum : VolleyballEnumType) (numbers : list N) :
  forall entries,
    __get_entries_by_numbers enum numbers = Ok entries ->
    forall i, In i numbers -> exists m, enum_member enum i = Ok m /\ In m entries.
Proof.
  induction numbers as [|n numbers IH]; simpl; intros entries H i Hi; [destruct Hi|].
  inv_rbind H. inv_rbind H. injection H as <-.
  destruct Hi as [<- | Hi].
  - eexists. split; [eassumption | now left].
  - destruct (IH _ eq_refl i Hi) as [m [Hm Hin]]. exists m. split; [exact Hm | now right].
Qed.

Lemma custom_is_member_9 (i : N) :
  value_at TournamentClass i = Some (u "custom") -> i = 9%N.
Proof.
  unfold value_at. remember (N.to_nat i) as n eqn:En.
  do 10 (destruct n as [|n]; [intros H; cbv in H; try discriminate H; lia|]).
  intros H. cbv in H. destruct n; discriminate H.
Qed.

Lemma parse_email_details_shape (styles : pyval) (w : world) (config : pyval)
    (w' : world) :
  __parse_email_details (PDict true [(KStr (u "playingStyle"), styles)]) w
  = (Ok config, w') ->
  config = PDict true [(KStr (u "playingStyle"), styles)]
  \/ exists email,
       email_target email
       /\ config = PDict true [(KStr (u "playingStyle"), styles);
                               (KStr (u "email"), email)].
Proof.
  intros H. unfold __parse_email_details in H.
  apply bind_ok_inv in H as [[] [w1 [_ H]]].
  apply bind_ok_inv in H as [b [w2 [_ H]]].
  destruct b; simpl in H; [|injection H as <- _; now left].
  right.
  apply bind_ok_inv in H as [from [w3 [_ H]]].
  apply bind_ok_inv in H as [c1 [w4 [H1 H]]]. apply lift_ok_inv in H1 as [H1 _].
  vm_compute in H1. injection H1 as <-.
  apply bind_ok_inv in H as [c2 [w5 [H2 H]]]. apply lift_ok_inv in H2 as [H2 _].
  vm_compute in H2. injection H2 as <-.
  apply bind_ok_inv in H as [[] [w6 [_ H]]].
  apply bind_ok_inv in H as [pw [w7 [_ H]]].
  apply bind_ok_inv in H as [c3 [w8 [H3 H]]]. apply lift_ok_inv in H3 as [H3 _].
  vm_compute in H3. injection H3 as <-.
  apply bind_ok_inv in H as [host [w9 [_ H]]].
  apply bind_ok_inv in H as [c4 [w10 [H4 H]]]. apply lift_ok_inv in H4 as [H4 _].
  vm_compute in H4. injection H4 as <-.
  apply bind_ok_inv in H as [[] [w11 [_ H]]].
  apply bind_ok_inv in H as [other [w12 [_ H]]].
  destruct other.
  - apply bind_ok_inv in H as [to [w13 [_ H]]]. apply lift_ok_inv in H as [H _].
    vm_compute in H. injection H as <-.
    eexists. split; [exists from, to, pw, host; reflexivity | reflexivity].
  - injection H as <- _.
    eexists. split; [exists from, from, pw, host; reflexivity | reflexivity].
Qed.

(** X11.  The configuration [parse_user_config] returns holds a
    non-empty selection of playing styles and one of tournament classes,
    each a dictionary from the numbers of the chosen members to their
    values, the class "custom" not among them; it holds either no email
    details at all or all four of them (from, to, password, host), each
    a string; and nothing else. *)
Theorem parse_user_config_is_well_formed (w : world) (config : pyval) (w' : world) :
  parse_user_config w = (Ok config, w') -> entered_config config.
Proof.
  unfold parse_user_config. intros H.
  apply bind_ok_inv in H as [c1 [w1 [H1 H]]].
  apply bind_ok_inv in H as [c2 [w2 [H2 H]]].
  apply bind_ok_inv in H as [c3 [w3 [H3 H]]].
  injection H as <- _.
  unfold __parse_playing_style in H1.
  apply bind_ok_inv in H1 as [[] [wa [_ H1]]].
  apply bind_ok_inv in H1 as [[] [wb [_ H1]]].
  apply bind_ok_inv in H1 as [sel [wc [Hsel H1]]].
  apply bind_ok_inv in H1 as [styles [wd [Hmap H1]]].
  apply lift_ok_inv in Hmap as [Hmap _]. apply lift_ok_inv in H1 as [H1 _].
  apply parse_enum_selection_nonempty in Hsel; [|discriminate].
  destruct (map_numbers_selection _ _ _ Hsel Hmap) as [Hstyles _].
  simpl in H1. injection H1 as <-.
  unfold __parse_tournament_classes in H3.
  apply bind_ok_inv in H3 as [[] [we [_ H3]]].
  apply bind_ok_inv in H3 as [[] [wf [_ H3]]].
  apply bind_ok_inv in H3 as [numbers [wg [Hnum H3]]].
  apply bind_ok_inv in H3 as [entries [wh [Hent H3]]].
  apply lift_ok_inv in Hent as [Hent _].
  destruct (existsb _ entries) eqn:Ecustom; [discriminate|].
  apply bind_ok_inv in H3 as [classes [wi [Hcl H3]]].
  apply lift_ok_inv in Hcl as [Hcl _]. apply lift_ok_inv in H3 as [H3 _].
  apply parse_enum_selection_nonempty in Hnum; [|discriminate].
  destruct (map_numbers_selection _ _ _ Hnum Hcl) as [Hclasses Hfrom].
  assert (Hnc : without_custom classes).
  { destruct Hclasses as [m [-> [_ [Hwf Hm]]]]. intros vals Hv.
    injection Hv as <-. unfold str_in_values.
    destruct (existsb _ (dict_values m)) eqn:E; [exfalso | reflexivity].
    apply existsb_exists in E as [v [Hv E]].
    destruct v; try discriminate E. apply str_eqb_eq in E. subst s.
    unfold dict_values in Hv. apply in_map_iff in Hv as [[k x] [Hx Hkx]].
    simpl in Hx. subst x. apply (In_dict_get _ _ _ Hwf) in Hkx.
    destruct (Hm _ _ Hkx) as [i [s [-> [Hs Es]]]]. injection Es as <-.
    apply custom_is_member_9 in Hs. subst i.
    pose proof (Hfrom m 9%N _ eq_refl Hkx) as H9.
    destruct (get_entries_by_numbers_members _ _ _ Hent _ H9) as [mem [Hmem Hin]].
    cbv in Hmem. injection Hmem as <-.
    assert (existsb (fun m0 => str_eqb (fst m0) (u "CUSTOM")) entries = true);
      [|congruence].
    apply existsb_exists. eexists. split; [exact Hin | reflexivity]. }
  exists styles, classes. repeat split; try assumption.
  destruct (parse_email_details_shape _ _ _ _ H2) as [-> | [email [Hemail ->]]].
  - left. vm_compute in H3. now injection H3 as <-.
  - right. exists email. split; [exact Hemail|].
    vm_compute in H3. now injection H3 as <-.
Qed.

Lemma parse_user_config_is_well_formed_witness :
  entered_config
    (PDict true
       [(KStr (u "playingStyle"), PDict false [(KInt 2, PStr (u "Mixed"))]);
        (KStr (u "classes"), PDict false [(KInt 7, PStr (u "basic"))])]).
Proof.
  assert (H : fst (parse_user_config
                     (mk_world UTF_8 [u "2"; u "x"; u "n"; u "7"; u "x"] []
                               (Ok []) mail_ok []))
              = Ok (PDict true
                      [(KStr (u "playingStyle"), PDict false [(KInt 2, PStr (u "Mixed"))]);
                       (KStr (u "classes"), PDict false [(KInt 7, PStr (u "basic"))])]))
    by (vm_compute; reflexivity).
  refine (parse_user_config_is_well_formed _ _ _ _).
  rewrite <- H. apply surjective_pairing.
Defined.

(** ** The email address pattern (lines 22, 143) *)

Lemma dot_then_more_cons (c : N) (s : str) :
  dot_then_more (c :: s)
  = ((c =? 46)%N && match s with [] => false | _ => true end) || dot_then_more s.
Proof.
  destruct (N.eqb_spec c 46) as [-> | Hne]; [destruct s; reflexivity|].
  destruct c as [|p]; [reflexivity|].
  do 6 (try (destruct p as [p|p|]; try reflexivity)); now elim Hne.
Qed.

Lemma dot_then_more_split (d : str) :
  dot_then_more d = true <-> exists b c, d = b ++ 46%N :: c /\ c <> [].
Proof.
  induction d as [|x d IH].
  - split; [discriminate | intros [b [c [H _]]]; destruct b; discriminate].
  - rewrite dot_then_more_cons, orb_true_iff, andb_true_iff, IH. split.
    + intros [[Hx Hd] | [b [c [-> Hc]]]].
      * apply N.eqb_eq in Hx. subst. exists [], d. split; [reflexivity|].
        destruct d; [discriminate Hd | discriminate].
      * exists (x :: b), c. auto.
    + intros [b [c [H Hc]]]. destruct b as [|y b]; simpl in H; injection H as -> ->.
      * left. split; [reflexivity|]. destruct c; [congruence | reflexivity].
      * right. eauto.
Qed.

Lemma no_at_existsb (s : str) : existsb (N.eqb 64) s = false <-> ~ In 64%N s.
Proof.
  split.
  - intros H Hin. assert (existsb (N.eqb 64) s = true); [|congruence].
    apply existsb_exists. exists 64%N. split; [exact Hin | reflexivity].
  - intros H. destruct (existsb (N.eqb 64) s) eqn:E; [|reflexivity].
    apply existsb_exists in E as [x [Hin Hx]]. apply N.eqb_eq in Hx. now subst.
Qed.

Lemma email_fullmatch_from_split (s : str) :
  forall seen,
    email_fullmatch_from seen s = true <->
    exists a b c,
      s = a ++ 64%N :: b ++ 46%N :: c
      /\ (seen = true \/ a <> []) /\ b <> [] /\ c <> []
      /\ ~ In 64%N a /\ ~ In 64%N b /\ ~ In 64%N c.
Proof.
  induction s as [|x s IH]; intros seen.
  - split; [discriminate | intros [a [b [c [H _]]]]; destruct a; discriminate].
  - simpl. destruct (N.eqb_spec x 64) as [-> | Hne].
    + rewrite !andb_true_iff, negb_true_iff, no_at_existsb. split.
      * intros [[Hseen Hno] Hdot]. destruct s as [|y d]; [discriminate|].
        apply dot_then_more_split in Hdot as [b [c [-> Hc]]].
        exists [], (y :: b), c. repeat split; auto; try discriminate.
        -- intros Hin. apply Hno. simpl in *. rewrite in_app_iff. tauto.
        -- intros Hin. apply Hno. simpl. rewrite in_app_iff. simpl. tauto.
      * intros [a [b [c [H [Hseen [Hb [Hc [Ha [Hnb Hnc]]]]]]]]].
        destruct a as [|y a]; simpl in H; injection H as H.
        2:{ exfalso. apply Ha. now left. }
        subst s. destruct Hseen as [Hseen | Hseen]; [|congruence].
        repeat split; [exact Hseen | |].
        -- rewrite in_app_iff. simpl. intros [Hin | [Hin | Hin]];
             [tauto | discriminate | tauto].
        -- destruct b as [|y b]; [congruence|]. simpl.
           apply dot_then_more_split. eauto.
    + rewrite IH. split.
      * intros [a [b [c [-> [_ [Hb [Hc [Ha [Hnb Hnc]]]]]]]]].
        exists (x :: a), b, c. repeat split; auto; try (right; discriminate).
        intros [Hin | Hin]; [congruence | tauto].
      * intros [a [b [c [H [_ [Hb [Hc [Ha [Hnb Hnc]]]]]]]]].
        destruct a as [|y a]; simpl in H; injection H as H1 H2; [congruence|].
        subst. exists a, b, c. repeat split; auto.
        intros Hin. apply Ha. now right.
Qed.

(** X12.  The pattern of line 22 accepts exactly the addresses of the
    form a@b.c in which a, b and c are not empty and hold no further
    '@' (b and c may hold dots); for every other line the program warns
    "Invalid email address." and asks whether to go on with it. *)
Theorem email_fullmatch_is_the_pattern (s : str) :
  email_fullmatch s = true <->
  exists a b c,
    s = a ++ 64%N :: b ++ 46%N :: c
    /\ a <> [] /\ b <> [] /\ c <> []
    /\ ~ In 64%N a /\ ~ In 64%N b /\ ~ In 64%N c.
Proof.
  unfold email_fullmatch. rewrite email_fullmatch_from_split. split.
  - intros [a [b [c [H [[Hs | Ha] Hr]]]]]; [discriminate|]. exists a, b, c. tauto.
  - intros [a [b [c [H [Ha Hr]]]]]. exists a, b, c. tauto.
Qed.

(** ** The notifier (lines 276-298) *)

Lemma mail_run (c : mail_call) (w : world) :
  mail c w
  = match smtp_answer (w_smtp w) c with
    | None => (Ok tt, if on_wire c then set_trace (EvMail c :: w_trace w) w else w)
    | Some f =>
        (Raise (SMTPError f),
         if on_wire c then set_trace (EvMail c :: w_trace w) w else w)
    end.
Proof.
  unfold mail, bind, emit, ret, smtp.
  destruct (on_wire c); simpl; destruct (smtp_answer _ c); reflexivity.
Qed.

Lemma server_exit_run (e : exn) (w : world) :
  server_exit e w
  = (Raise match smtp_answer (w_smtp w) CallExit with
           | None => e
           | Some f => SMTPError f
           end,
     set_trace (EvMail CallExit :: w_trace w) w).
Proof.
  unfold server_exit, bind, raise. rewrite mail_run. simpl.
  destruct (smtp_answer (w_smtp w) CallExit); reflexivity.
Qed.

Ltac notifier_unfold :=
  unfold __send_email, send_email_body, with_server, bind, lift, try_except,
    print, emit, raise, ret;
  cbn [w_stdin w_trace set_stdin set_trace w_locale w_files w_web w_smtp fst snd].

Ltac notifier_step :=
  cbn [w_stdin w_trace set_stdin set_trace w_locale w_files w_web w_smtp fst snd
       on_wire];
  try rewrite mail_run; try rewrite server_exit_run;
  cbn [w_stdin w_trace set_stdin set_trace w_locale w_files w_web w_smtp fst snd
       on_wire].

(** X13.  With a configuration in which the sender, the recipient or
    the host cannot be read (the entry is missing, or ["email"] is not
    a dictionary), [__send_email] never contacts the mail server: no
    call reaches the network, it prints one line "An error occurred:
    ..." and returns, and nothing else changes. *)
Theorem send_email_without_target_stays_offline (user_config : pyval)
    (tournament_data : list TournamentType) (w : world) :
  lacks_email_target user_config ->
  exists e,
    __send_email user_config tournament_data w
    = (Ok tt, set_trace (EvPrint (error_occurred e)
                         :: EvSendEmail user_config tournament_data
                         :: w_trace w) w).
Proof.
  intros [k [Hk Hno]]. destruct w as [loc inp files web srv tr].
  notifier_unfold.
  destruct (__tournaments_to_str tournament_data) as [details|e];
    [|eexists; reflexivity].
  notifier_step.
  destruct (smtp_answer srv (CallMIMEText _)); [eexists; reflexivity|].
  notifier_step.
  destruct (email_setting user_config (u "from")) as [from|e] eqn:Ef;
    [|eexists; reflexivity].
  destruct (email_setting user_config (u "to")) as [to|e] eqn:Et;
    [|eexists; reflexivity].
  notifier_step.
  destruct (smtp_answer srv CallCreateDefaultContext); [eexists; reflexivity|].
  notifier_step.
  destruct (email_setting user_config (u "host")) as [host|e] eqn:Eh;
    [|eexists; reflexivity].
  exfalso. simpl in Hk.
  destruct Hk as [<- | [<- | [<- | []]]];
    [rewrite Ef in Hno | rewrite Et in Hno | rewrite Eh in Hno]; discriminate.
Qed.

Lemma send_email_without_target_stays_offline_witness :
  exists e,
    __send_email config_mixed_basic [tournament_1] (blank_world UTF_8)
    = (Ok tt, set_trace (EvPrint (error_occurred e)
                         :: EvSendEmail config_mixed_basic [tournament_1]
                         :: w_trace (blank_world UTF_8)) (blank_world UTF_8)).
Proof.
  apply send_email_without_target_stays_offline.
  exists (u "from"). split; [now left | reflexivity].
Defined.

Ltac prefix_of l :=
  match l with
  | EvSendEmail _ _ :: _ => constr:(@nil event)
  | ?a :: ?r => let p := prefix_of r in constr:(a :: p)
  end.

Ltac notifier_prefix :=
  cbn [w_stdin w_trace set_stdin set_trace w_locale w_files w_web w_smtp fst snd];
  match goal with
  | |- exists out, ?l = _ /\ _ => let p := prefix_of l in exists p
  end.

(** Closes a branch of the notifier: [n] calls of the dialogue were
    made, followed by the calls [closing]. *)
Ltac notifier_branch n host from to password text closing :=
  notifier_prefix; split; [reflexivity|];
  exists n, host, from, to, password, text, closing;
  split; [reflexivity|];
  split; [first [left; reflexivity | right; repeat split; (reflexivity || assumption || lia)]|];
  split; [cbn [firstn Nat.sub smtp_dialogue]; intros c Hc; simpl in Hc;
          repeat (destruct Hc as [<- | Hc]; [assumption|]); destruct Hc|];
  repeat split; intros; try lia; try assumption; try discriminate; eauto.

(** X14.  [__send_email] keeps to the order of lines 289-296 and to
    the configuration.  The calls that reach the network are the
    first [n] calls of the dialogue: the constructor with the
    configured host, [ehlo], [starttls], [ehlo], [login] with the
    configured sender and password, [ehlo], [sendmail] from the sender
    to the configured recipient with the text of [msg.as_string()],
    and [quit]; where the block of the [with] is left by an exception,
    the QUIT of [__exit__] follows.  Every call but the last was
    accepted, so that no login is attempted before STARTTLS was
    accepted and no message is submitted before the login was.  The
    message is the alert built from the given tournaments, with the
    subject of line 282 and the sender and recipient as headers. *)
Theorem send_email_follows_protocol (user_config : pyval)
    (tournament_data : list TournamentType) (w : world) :
  exists out,
    w_trace (snd (__send_email user_config tournament_data w))
    = out ++ EvSendEmail user_config tournament_data :: w_trace w
    /\ exists n host from to password text closing,
         wire_calls out
         = firstn n (smtp_dialogue host from to password
                       (mk_message text alert_subject from to)) ++ closing
         /\ (closing = [] \/ closing = [CallExit] /\ 1 <= n
                              /\ smtp_answer (w_smtp w) (CallSMTP host) = None)
         /\ (forall c,
               In c (firstn (n - 1)
                       (smtp_dialogue host from to password
                          (mk_message text alert_subject from to))) ->
               smtp_answer (w_smtp w) c = None)
         /\ (1 <= n ->
               email_setting user_config (u "host") = Ok host
               /\ email_setting user_config (u "from") = Ok from
               /\ email_setting user_config (u "to") = Ok to
               /\ (exists details,
                     __tournaments_to_str tournament_data = Ok details
                     /\ text = alert_text tournament_data details)
               /\ smtp_answer (w_smtp w) (CallMIMEText text) = None
               /\ smtp_answer (w_smtp w) CallCreateDefaultContext = None)
         /\ (5 <= n -> email_setting user_config (u "password") = Ok password)
         /\ (7 <= n ->
               smtp_answer (w_smtp w)
                 (CallAsString (mk_message text alert_subject from to)) = None).
Proof.
  destruct w as [loc inp files web srv tr]. notifier_unfold.
  destruct (__tournaments_to_str tournament_data) as [details|e] eqn:Ed.
  2:{ notifier_branch 0 PNone PNone PNone PNone (@nil N) (@nil mail_call). }
  notifier_step.
  destruct (smtp_answer srv (CallMIMEText _)) eqn:A0.
  { notifier_branch 0 PNone PNone PNone PNone (@nil N) (@nil mail_call). }
  notifier_step.
  destruct (email_setting user_config (u "from")) as [from|e] eqn:Ef.
  2:{ notifier_branch 0 PNone PNone PNone PNone (@nil N) (@nil mail_call). }
  destruct (email_setting user_config (u "to")) as [to|e] eqn:Et.
  2:{ notifier_branch 0 PNone PNone PNone PNone (@nil N) (@nil mail_call). }
  notifier_step.
  destruct (smtp_answer srv CallCreateDefaultContext) eqn:A1.
  { notifier_branch 0 PNone PNone PNone PNone (@nil N) (@nil mail_call). }
  notifier_step.
  destruct (email_setting user_config (u "host")) as [host|e] eqn:Eh.
  2:{ notifier_branch 0 PNone PNone PNone PNone (@nil N) (@nil mail_call). }
  notifier_step.
  destruct (smtp_answer srv (CallSMTP host)) eqn:A2.
  { notifier_branch 1 host from to PNone (alert_text tournament_data details)
      (@nil mail_call). }
  notifier_step.
  destruct (smtp_answer srv (CallEhlo 1)) eqn:A3; notifier_step.
  { notifier_branch 2 host from to PNone (alert_text tournament_data details)
      [CallExit]. }
  destruct (smtp_answer srv CallStarttls) eqn:A4; notifier_step.
  { notifier_branch 3 host from to PNone (alert_text tournament_data details)
      [CallExit]. }
  destruct (smtp_answer srv (CallEhlo 2)) eqn:A5; notifier_step.
  { notifier_branch 4 host from to PNone (alert_text tournament_data details)
      [CallExit]. }
  destruct (email_setting user_config (u "password")) as [password|e] eqn:Ep;
    notifier_step.
  2:{ notifier_branch 4 host from to PNone (alert_text tournament_data details)
        [CallExit]. }
  destruct (smtp_answer srv (CallLogin from password)) eqn:A6; notifier_step;
    rewrite ?AX.
  { notifier_branch 5 host from to password (alert_text tournament_data details)
      [CallExit]. }
  destruct (smtp_answer srv (CallEhlo 3)) eqn:A7; notifier_step.
  { notifier_branch 6 host from to password (alert_text tournament_data details)
      [CallExit]. }
  destruct (smtp_answer srv (CallAsString _)) eqn:A8; notifier_step.
  { notifier_branch 6 host from to password (alert_text tournament_data details)
      [CallExit]. }
  destruct (smtp_answer srv (CallSendmail from to _)) eqn:A9; notifier_step;
    rewrite ?AX.
  { notifier_branch 7 host from to password (alert_text tournament_data details)
      [CallExit]. }
  destruct (smtp_answer srv CallQuit) eqn:A10; notifier_step.
  { notifier_branch 8 host from to password (alert_text tournament_data details)
      [CallExit]. }
  notifier_branch 8 host from to password (alert_text tournament_data details)
    (@nil mail_call).
Qed.


(** X15.  With a configuration that holds the four email entries, and
    mail libraries and a server that accept every call, [__send_email]
    goes through the whole dialogue: it connects to the host, upgrades
    the connection, logs in as the sender, submits to the recipient the
    text of the message that holds the alert, and quits; it prints no
    error. *)
Theorem send_email_delivers (user_config : pyval)
    (tournament_data : list TournamentType) (w : world)
    (from to password host : pyval) (details : str) :
  email_setting user_config (u "from") = Ok from ->
  email_setting user_config (u "to") = Ok to ->
  email_setting user_config (u "password") = Ok password ->
  email_setting user_config (u "host") = Ok host ->
  __tournaments_to_str tournament_data = Ok details ->
  let msg := mk_message (alert_text tournament_data details) alert_subject from to in
  (forall c, In c (local_calls msg ++ smtp_dialogue host from to password msg) ->
             smtp_answer (w_smtp w) c = None) ->
  __send_email user_config tournament_data w
  = (Ok tt,
     set_trace (map EvMail (rev (smtp_dialogue host from to password msg))
                ++ EvSendEmail user_config tournament_data :: w_trace w) w).
Proof.
  intros Hf Ht Hp Hh Hd msg Hall. destruct w as [loc inp files web srv tr].
  cbn [w_smtp] in Hall. notifier_unfold. rewrite Hd.
  do 11 (notifier_step; rewrite ?Hf, ?Ht, ?Hp, ?Hh;
         try (rewrite Hall by (subst msg; simpl; tauto))).
  reflexivity.
Qed.

Lemma send_email_delivers_witness :
  __send_email config_with_email [tournament_1] (blank_world UTF_8)
  = (Ok tt,
     set_trace
       [EvMail CallQuit;
        EvMail (CallSendmail (PStr (u "me@example.org")) (PStr (u "you@example.org"))
                  (mk_message (alert_text [tournament_1] details_1) alert_subject
                     (PStr (u "me@example.org")) (PStr (u "you@example.org"))));
        EvMail (CallEhlo 3);
        EvMail (CallLogin (PStr (u "me@example.org")) (PStr (u "secret")));
        EvMail (CallEhlo 2);
        EvMail CallStarttls;
        EvMail (CallEhlo 1);
        EvMail (CallSMTP (PStr (u "smtp.example.org")));
        EvSendEmail config_with_email [tournament_1]]
       (blank_world UTF_8)).
Proof.
  apply (send_email_delivers config_with_email [tournament_1] (blank_world UTF_8)
           (PStr (u "me@example.org")) (PStr (u "you@example.org"))
           (PStr (u "secret")) (PStr (u "smtp.example.org")) details_1);
    reflexivity.
Defined.

(** ** Failures of a run and the stored snapshot (lines 301-357) *)

Lemma same_env_refl w : same_env w w.
Proof. repeat split. Qed.

Lemma same_env_trans w w1 w2 : same_env w w1 -> same_env w1 w2 -> same_env w w2.
Proof. unfold same_env. intros [A [B C]] [D [E F]]. repeat split; congruence. Qed.

Lemma keeps_ret {A} (a : A) : keeps_env (ret a).
Proof. intros w r w' H. injection H as <- <-. apply same_env_refl. Qed.

Lemma keeps_raise {A} (e : exn) : keeps_env (@raise A e).
Proof. intros w r w' H. injection H as <- <-. apply same_env_refl. Qed.

Lemma keeps_lift {A} (x : result A) : keeps_env (lift x).
Proof. intros w r w' H. injection H as <- <-. apply same_env_refl. Qed.

Lemma keeps_emit (e : event) : keeps_env (emit e).
Proof. intros w r w' H. injection H as <- <-. repeat split. Qed.

Lemma keeps_print (s : str) : keeps_env (print s).
Proof. apply keeps_emit. Qed.

Lemma keeps_bind {A B} (c : M A) (k : A -> M B) :
  keeps_env c -> (forall a, keeps_env (k a)) -> keeps_env (bind c k).
Proof.
  intros Hc Hk w r w' H. unfold bind in H.
  destruct (c w) as [[a|e] w1] eqn:E.
  - eapply same_env_trans; [exact (Hc _ _ _ E) | exact (Hk a _ _ _ H)].
  - injection H as <- <-. exact (Hc _ _ _ E).
Qed.

Lemma keeps_input (prompt : str) : keeps_env (input prompt).
Proof.
  intros w r w' H. unfold input in H.
  destruct (w_stdin w); injection H as <- <-; repeat split.
Qed.

Lemma keeps_isfile (name : str) : keeps_env (isfile name).
Proof. intros w r w' H. injection H as <- <-. apply same_env_refl. Qed.

Lemma keeps_run_console {A} (f : list str -> list event -> console A) :
  keeps_env (run_console f).
Proof.
  intros w r w' H. unfold run_console in H.
  destruct (f (w_stdin w) (w_trace w)) as [[r0 inp'] tr'].
  injection H as <- <-. repeat split.
Qed.

Lemma keeps_dump (data : pyval) (filename : str) :
  keeps_env (__dump_to_json data filename).
Proof.
  intros w r w' H. unfold __dump_to_json, bind, emit in H.
  destruct (json_dump data) as [r0 written].
  injection H as <- <-; repeat split.
Qed.

Lemma keeps_load (filename : str) : keeps_env (__load_from_json filename).
Proof.
  intros w r w' H. unfold __load_from_json, bind, emit in H. simpl in H.
  destruct (dict_get (KStr filename) (w_files w));
    injection H as <- <-; repeat split.
Qed.

Ltac keeps_env_steps :=
  repeat first
    [ apply keeps_ret | apply keeps_raise | apply keeps_lift | apply keeps_print
    | apply keeps_emit | apply keeps_input | apply keeps_isfile
    | apply keeps_run_console | apply keeps_dump | apply keeps_load
    | apply keeps_bind; [|intros ?]
    | match goal with
      | |- keeps_env (if ?b then _ else _) => destruct b
      end ].

Lemma keeps_parse_user_config : keeps_env parse_user_config.
Proof.
  unfold parse_user_config, __parse_playing_style, __parse_email_details,
    __parse_tournament_classes, __parse_enum_selection, __print_enum_selection,
    __yes_no_parser.
  keeps_env_steps.
Qed.

Lemma keeps_get_user_config : keeps_env get_user_config.
Proof.
  unfold get_user_config, __yes_no_parser.
  keeps_env_steps; apply keeps_parse_user_config.
Qed.

Lemma scrape_reads_page (config : pyval) (w : world) :
  scrape_relevant_tournaments config w
  = (let? tags := w_web w in scrape_tags config tags,
     set_trace (EvHttpGet :: EvScrape config :: w_trace w) w).
Proof.
  unfold scrape_relevant_tournaments, http_get, bind, emit, lift. simpl.
  destruct (w_web w); reflexivity.
Qed.

Lemma before_events_stop (w w' : world) :
  w_trace w = [] -> grows before_event w w' ->
  snapshot_of w' = snapshot_of w /\ stopped_before_snapshot w'.
Proof.
  intros Hnil [new [T [F K]]]. rewrite Hnil, app_nil_r in T. split.
  - apply K. intros f d Hin E. rewrite forallb_forall in F.
    destruct (before_event_facts _ (F _ Hin)) as [Hd _].
    injection E as <-. simpl in Hd. try rewrite str_eqb_refl in Hd.
    discriminate Hd.
  - unfold stopped_before_snapshot, events. rewrite T.
    repeat split; apply (existsb_none before_event); try exact F; intros x Hx;
      try (now destruct (before_event_facts _ Hx) as [? [? ?]]).
    destruct x; try reflexivity; discriminate Hx.
Qed.

(** X16.  When the page cannot be fetched, the run fails and the stored
    snapshot is left as it was: nothing is saved, no diff is computed
    and the notifier is not invoked.  If the run got as far as the
    fetch, it fails with the error of the fetch. *)
Theorem fetch_failure_keeps_snapshot (w : world) (e : exn) (r : result unit)
    (w' : world) :
  w_web w = Raise e ->
  run w = (r, w') ->
  (exists e', r = Raise e')
  /\ (In EvHttpGet (events w') -> r = Raise e)
  /\ snapshot_of w' = snapshot_of w
  /\ stopped_before_snapshot w'.
Proof.
  intros Hweb Hrun. unfold run in Hrun. set (w0 := set_trace [] w) in *.
  assert (Hnil : w_trace w0 = []) by reflexivity.
  change (snapshot_of w) with (snapshot_of w0).
  apply parse_intro_cases in Hrun
    as [[e1 [He ->]] | [cfg [w1 [Hcfg [[e2 [Hs ->]] | [s [w3 [Hs _]]]]]]]].
  - pose proof (emits_get_user_config _ _ _ He) as G.
    assert (G' : grows before_event w0 w').
    { destruct G as [new [T [F K]]]. exists new. repeat split; auto.
      rewrite forallb_forall in *. intros x Hx. unfold before_event.
      now rewrite (F x Hx). }
    destruct (before_events_stop _ _ Hnil G') as [Hsnap Hstop].
    repeat split; eauto; try apply Hstop.
    intros Hin. exfalso. destruct G as [new [T [F _]]].
    rewrite Hnil, app_nil_r in T. unfold events in Hin. apply in_rev in Hin.
    rewrite T in Hin. rewrite forallb_forall in F. specialize (F _ Hin).
    discriminate F.
  - destruct (before_events_stop _ _ Hnil (grows_before _ _ _ _ _ Hcfg Hs))
      as [Hsnap Hstop].
    repeat split; eauto; try apply Hstop.
    intros _. rewrite scrape_reads_page in Hs. simpl in Hs.
    destruct (keeps_get_user_config _ _ _ Hcfg) as [_ [Hw _]].
    rewrite Hw in Hs. simpl in Hs. rewrite Hweb in Hs. simpl in Hs.
    now injection Hs as <- _.
  - exfalso. rewrite scrape_reads_page in Hs. simpl in Hs.
    destruct (keeps_get_user_config _ _ _ Hcfg) as [_ [Hw _]].
    rewrite Hw in Hs. simpl in Hs. rewrite Hweb in Hs. discriminate Hs.
Qed.

Lemma fetch_failure_keeps_snapshot_witness :
  snapshot_of (snd (run world_offline)) = snapshot_of world_offline.
Proof.
  exact (proj1 (proj2 (proj2
           (fetch_failure_keeps_snapshot world_offline HTTPError
              (fst (run world_offline)) (snd (run world_offline))
              eq_refl (surjective_pairing _))))).
Defined.

Lemma load_reads_file (filename : str) (w : world) :
  __load_from_json filename w
  = (match dict_get (KStr filename) (w_files w) with
     | None => Raise FileNotFoundError
     | Some b => parse_file (w_locale w) b
     end,
     set_trace (EvLoad filename :: w_trace w) w).
Proof.
  unfold __load_from_json, bind, emit, parse_file. simpl.
  destruct (dict_get (KStr filename) (w_files w)); reflexivity.
Qed.

(** X17.  When the stored snapshot cannot be read (its bytes do not
    decode, or the text is not JSON), the run fails and the stored
    snapshot is left as it was: it is not overwritten by the new one,
    no diff is computed and the notifier is not invoked.  If the run
    got as far as loading the snapshot, it fails with the error of the
    load. *)
Theorem unreadable_snapshot_is_kept (w : world) (b : bytes) (e : exn)
    (r : result unit) (w' : world) :
  snapshot_of w = Some b ->
  parse_file (w_locale w) b = Raise e ->
  run w = (r, w') ->
  (exists e', r = Raise e')
  /\ (In (EvLoad TOURNAMENT_JSON_NAME) (events w') -> r = Raise e)
  /\ snapshot_of w' = Some b
  /\ stopped_before_snapshot w'.
Proof.
  intros Hfile Hbad Hrun. unfold run in Hrun. set (w0 := set_trace [] w) in *.
  assert (Hnil : w_trace w0 = []) by reflexivity.
  change (snapshot_of w) with (snapshot_of w0) in Hfile.
  assert (Hnoload : forall w1, grows before_event w0 w1 ->
                      ~ In (EvLoad TOURNAMENT_JSON_NAME) (events w1)).
  { intros w1 [new [T [F _]]] Hin. rewrite Hnil, app_nil_r in T.
    unfold events in Hin. apply in_rev in Hin. rewrite T in Hin.
    rewrite forallb_forall in F.
    destruct (before_event_facts _ (F _ Hin)) as [_ [Hl _]]. discriminate Hl. }
  apply parse_intro_cases in Hrun
    as [[e1 [He ->]] | [cfg [w1 [Hcfg [[e2 [Hs ->]] | [s [w3 [Hs H]]]]]]]].
  - assert (G : grows before_event w0 w').
    { destruct (emits_get_user_config _ _ _ He) as [new [T [F K]]].
      exists new. repeat split; auto.
      rewrite forallb_forall in *. intros x Hx. unfold before_event.
      now rewrite (F x Hx). }
    destruct (before_events_stop _ _ Hnil G) as [Hsnap Hstop].
    repeat split; eauto; try apply Hstop; [|congruence].
    intros Hin. now apply Hnoload in Hin.
  - pose proof (grows_before _ _ _ _ _ Hcfg Hs) as G.
    destruct (before_events_stop _ _ Hnil G) as [Hsnap Hstop].
    repeat split; eauto; try apply Hstop; [|congruence].
    intros Hin. now apply Hnoload in Hin.
  - pose proof (grows_before _ _ _ _ _ Hcfg Hs) as G.
    destruct (before_events_stop _ _ Hnil G) as [Hsnap [S1 [S2 S3]]].
    rewrite Hfile in Hsnap.
    rewrite dict_mem_get in H. fold (snapshot_of w3) in H. rewrite Hsnap in H.
    unfold later_run, bind in H. rewrite load_reads_file in H.
    fold (snapshot_of w3) in H. rewrite Hsnap in H.
    assert (Hloc : w_locale w3 = w_locale w).
    { rewrite scrape_reads_page in Hs. injection Hs as _ <-. simpl.
      now destruct (keeps_get_user_config _ _ _ Hcfg) as [-> _]. }
    rewrite Hloc, Hbad in H. injection H as <- <-.
    repeat split; eauto.
    + unfold events in *. simpl. rewrite existsb_app, S1. reflexivity.
    + unfold events in *. simpl. rewrite existsb_app, S2. reflexivity.
    + unfold events in *. simpl. rewrite existsb_app, S3. reflexivity.
Qed.

Lemma unreadable_snapshot_is_kept_witness :
  snapshot_of (snd (run world_corrupt)) = Some (u "{" ++ jq "a" ++ u ": ").
Proof.
  assert (H1 : snapshot_of world_corrupt = Some (u "{" ++ jq "a" ++ u ": "))
    by reflexivity.
  assert (H2 : parse_file (w_locale world_corrupt) (u "{" ++ jq "a" ++ u ": ")
               = Raise JSONDecodeError) by (vm_compute; reflexivity).
  exact (proj1 (proj2 (proj2
           (unreadable_snapshot_is_kept world_corrupt _ _
              (fst (run world_corrupt)) (snd (run world_corrupt))
              H1 H2 (surjective_pairing _))))).
Defined.

(** ** The chunks of a dump (lines 201-203) *)

Lemma pyval_nested_ind (P : pyval -> Prop) :
  (forall v, Json.scalar_text v <> None -> P v) ->
  (forall l, Forall P l -> P (PList l)) ->
  (forall d items, Forall (fun kv => P (snd kv)) items -> P (PDict d items)) ->
  forall v, P v.
Proof.
  intros Hs Hl Hd. fix F 1. intros [| b | z | r | s | l | d items].
  - apply Hs. discriminate.
  - apply Hs. destruct b; discriminate.
  - apply Hs. discriminate.
  - apply Hs. discriminate.
  - apply Hs. discriminate.
  - apply Hl. induction l as [|x l IH]; constructor; [apply F | exact IH].
  - apply Hd. induction items as [|[k x] items IH]; constructor; [apply F | exact IH].
Qed.

Lemma dumps_at_list (level : nat) (l : list pyval) :
  Json.dumps_at level (PList l)
  = let? parts := map_result (Json.dumps_at (S level)) l in
    Ok (Json.bracket 91 93 level parts).
Proof.
  cbn [Json.dumps_at]. f_equal.
  induction l as [|x l IH]; [reflexivity|]. cbn [map_result]. now rewrite IH.
Qed.

Lemma dumps_at_dict (level : nat) (d : bool) (items : list (pykey * pyval)) :
  Json.dumps_at level (PDict d items)
  = let? enc := map_result (fun kv => let? t := Json.dumps_at (S level) (snd kv) in
                                      Ok (fst kv, t)) items in
    let? sorted := Json.sort_items enc in
    Ok (Json.bracket 123 125 level (map Json.member sorted)).
Proof.
  cbn [Json.dumps_at]. f_equal.
  induction items as [|[k x] items IH]; [reflexivity|].
  cbn [map_result fst snd]. rewrite IH.
  destruct (Json.dumps_at (S level) x); [|reflexivity]. simpl.
  destruct (map_result _ items); reflexivity.
Qed.

Lemma scalar_dumps (level : nat) (v : pyval) (t : str) :
  Json.scalar_text v = Some t -> Json.dumps_at level v = Ok t.
Proof.
  destruct v as [| [|] | z | r | s | l | d items]; simpl; intros H;
    try discriminate H; now injection H as <-.
Qed.

Lemma scalar_iterencode (level : nat) (v : pyval) (t : str) :
  Json.scalar_text v = Some t -> Json.iterencode_at level v = ([t], None).
Proof.
  destruct v as [| [|] | z | r | s | l | d items]; simpl; intros H;
    try discriminate H; now injection H as <-.
Qed.

(** Sorting looks at the keys only. *)
Lemma insert_item_on_snd {A B} (f : A -> B) (x : pykey * A) (l : list (pykey * A)) :
  Json.insert_item (on_snd f x) (map (on_snd f) l)
  = match Json.insert_item x l with
    | Ok r => Ok (map (on_snd f) r)
    | Raise e => Raise e
    end.
Proof.
  induction l as [|y l IH]; [reflexivity|]. cbn [map Json.insert_item].
  change (fst (on_snd f x)) with (fst x). change (fst (on_snd f y)) with (fst y).
  destruct (Json.key_lt (fst x) (fst y)) as [[|]|]; simpl; [reflexivity| |reflexivity].
  rewrite IH. destruct (Json.insert_item x l); reflexivity.
Qed.

Lemma sort_items_on_snd {A B} (f : A -> B) (l : list (pykey * A)) :
  Json.sort_items (map (on_snd f) l)
  = match Json.sort_items l with
    | Ok r => Ok (map (on_snd f) r)
    | Raise e => Raise e
    end.
Proof.
  induction l as [|x l IH]; [reflexivity|]. cbn [map Json.sort_items].
  rewrite IH. destruct (Json.sort_items l) as [r|e]; [|reflexivity].
  simpl. apply insert_item_on_snd.
Qed.

Lemma insert_item_perm {A} (x : pykey * A) (l r : list (pykey * A)) :
  Json.insert_item x l = Ok r -> Permutation r (x :: l).
Proof.
  revert r. induction l as [|y l IH]; simpl; intros r H.
  - now injection H as <-.
  - destruct (Json.key_lt (fst x) (fst y)) as [[|]|]; simpl in H;
      [now injection H as <- | | discriminate H].
    destruct (Json.insert_item x l) as [r'|]; [|discriminate H].
    injection H as <-. rewrite (IH r' eq_refl). apply perm_swap.
Qed.

Lemma sort_items_perm {A} (l r : list (pykey * A)) :
  Json.sort_items l = Ok r -> Permutation r l.
Proof.
  revert r. induction l as [|x l IH]; simpl; intros r H.
  - now injection H as <-.
  - destruct (Json.sort_items l) as [r'|]; [|discriminate H]. simpl in H.
    rewrite (insert_item_perm _ _ _ H). constructor. now apply IH.
Qed.

Lemma insert_item_raise {A} (x : pykey * A) (l : list (pykey * A)) (e : exn) :
  Json.insert_item x l = Raise e -> e = TypeError.
Proof.
  induction l as [|y l IH]; simpl; [discriminate|].
  destruct (Json.key_lt (fst x) (fst y)) as [[|]|e'] eqn:E; simpl.
  - discriminate.
  - destruct (Json.insert_item x l); [discriminate|].
    intros H. injection H as <-. now apply IH.
  - intros H. injection H as <-.
    destruct (fst x), (fst y); simpl in E; congruence.
Qed.

Lemma sort_items_raise {A} (l : list (pykey * A)) (e : exn) :
  Json.sort_items l = Raise e -> e = TypeError.
Proof.
  induction l as [|x l IH]; simpl; [discriminate|].
  destruct (Json.sort_items l) as [r|e']; simpl.
  - apply insert_item_raise.
  - intros H. injection H as <-. now apply IH.
Qed.

(** *** The chunks make up the text of [dumps] *)

Lemma then_yield_clean (a b : list str * option exn) :
  snd a = None -> Json.then_yield a b = (fst a ++ fst b, snd b).
Proof. unfold Json.then_yield. now intros ->. Qed.

Lemma then_yield_stopped (a b : list str * option exn) :
  snd a <> None -> snd (Json.then_yield a b) <> None.
Proof. unfold Json.then_yield. destruct (snd a) eqn:E; [now rewrite E | congruence]. Qed.

Lemma join_app (a b : list str) : join (a ++ b) = join a ++ join b.
Proof. apply concat_app. Qed.

Section Chunks.
Variable enc : pyval -> (list str * option exn).
Hypothesis enc_scalar :
  forall v t, Json.scalar_text v = Some t -> enc v = ([t], None).

Lemma list_chunks_text (opening sep : str) (l : list pyval) :
  forall first,
    match map_result (fun x => yielded_text (enc x)) l with
    | Ok parts =>
        snd (Json.list_chunks enc opening sep first l) = None
        /\ join (fst (Json.list_chunks enc opening sep first l))
           = match parts with
             | [] => []
             | _ => (if first then opening else sep) ++ join_with sep parts
             end
    | Raise e => e = TypeError /\ snd (Json.list_chunks enc opening sep first l) <> None
    end.
Proof.
  induction l as [|x l IH]; intros first; [now split|].
  cbn [map_result Json.list_chunks]. specialize (IH false).
  set (buf := if first then opening else sep) in *.
  match goal with
  | |- context [Json.then_yield ?h (Json.list_chunks _ _ _ false l)] => set (hx := h)
  end.
  assert (Hx : match yielded_text (enc x) with
               | Ok t => snd hx = None /\ join (fst hx) = buf ++ t
               | Raise e => e = TypeError /\ snd hx <> None
               end).
  { unfold hx. destruct (Json.scalar_text x) as [t|] eqn:Es.
    - rewrite (enc_scalar x t Es). unfold yielded_text, join. simpl.
      rewrite !app_nil_r. now split.
    - unfold yielded_text. rewrite then_yield_clean by reflexivity. simpl.
      destruct (snd (enc x)); [split; [reflexivity | discriminate]|].
      split; [reflexivity|]. unfold join. reflexivity. }
  clearbody hx.
  destruct (yielded_text (enc x)) as [t|e]; cbn [rbind].
  - destruct Hx as [Hc Hj]. rewrite (then_yield_clean hx _ Hc). cbn [fst snd].
    destruct (map_result _ l) as [parts|e]; cbn [rbind].
    + destruct IH as [IHc IHj]. split; [exact IHc|]. rewrite join_app, Hj, IHj.
      destruct parts as [|p parts]; [now rewrite app_nil_r|].
      cbn [join_with]. now rewrite <- app_assoc.
    + destruct IH as [-> IHs]. split; [reflexivity | exact IHs].
  - destruct Hx as [-> Hs]. split; [reflexivity|]. now apply then_yield_stopped.
Qed.
End Chunks.

Lemma members_of_chunks (l : list (pykey * (list str * option exn))) :
  map_result member_of_chunks l
  = if forallb ended_well l
    then Ok (map (on_snd (fun y => join (fst y))) l)
    else Raise TypeError.
Proof.
  induction l as [|[k [cs e]] l IH]; [reflexivity|].
  cbn [map_result forallb map]. unfold member_of_chunks at 1, yielded_text, ended_well at 1.
  cbn [fst snd]. destruct e; [reflexivity|]. cbn [rbind andb]. rewrite IH.
  destruct (forallb ended_well l); reflexivity.
Qed.

Lemma ended_well_perm (l r : list (pykey * (list str * option exn))) :
  Permutation r l -> forallb ended_well r = forallb ended_well l.
Proof.
  intros Hp. destruct (forallb ended_well l) eqn:E.
  - apply forallb_forall. intros x Hx. rewrite forallb_forall in E.
    apply E. exact (Permutation_in _ Hp Hx).
  - destruct (forallb ended_well r) eqn:Er; [|reflexivity].
    rewrite <- E. symmetry. apply forallb_forall. intros x Hx.
    rewrite forallb_forall in Er. apply Er.
    exact (Permutation_in _ (Permutation_sym Hp) Hx).
Qed.

Lemma dict_chunks_text (sep : str) (l : list (pykey * (list str * option exn))) :
  forall first,
    if forallb ended_well l then
      snd (Json.dict_chunks sep first l) = None
      /\ join (fst (Json.dict_chunks sep first l))
         = match l with
           | [] => []
           | _ => (if first then [] else sep)
                  ++ join_with sep
                       (map Json.member (map (on_snd (fun y => join (fst y))) l))
           end
    else snd (Json.dict_chunks sep first l) <> None.
Proof.
  induction l as [|[k [cs e]] l IH]; intros first; [now split|].
  cbn [forallb Json.dict_chunks]. unfold ended_well at 1. cbn [fst snd].
  specialize (IH false). rewrite then_yield_clean by reflexivity. cbn [fst snd].
  destruct e as [e|]; cbn [andb].
  - unfold Json.then_yield. simpl. discriminate.
  - rewrite then_yield_clean by reflexivity. cbn [fst snd].
    destruct (forallb ended_well l); [|exact IH].
    destruct IH as [IHc IHj]. split; [exact IHc|].
    rewrite !join_app, IHj. clear IHj IHc.
    destruct first, l as [|y l]; unfold join, Json.member, on_snd;
      cbn [map join_with concat fst snd app];
      rewrite ?app_nil_r, <- ?app_assoc; reflexivity.
Qed.

Lemma map_result_ext {A B} (f g : A -> result B) (l : list A) :
  Forall (fun x => f x = g x) l -> map_result f l = map_result g l.
Proof.
  induction 1 as [|x l Hx _ IH]; [reflexivity|]. simpl. now rewrite Hx, IH.
Qed.

Lemma map_result_map {A B C} (f : A -> B) (g : B -> result C) (l : list A) :
  map_result g (map f l) = map_result (fun x => g (f x)) l.
Proof. induction l as [|x l IH]; [reflexivity|]. simpl. now rewrite IH. Qed.

Lemma map_result_length {A B} (f : A -> result B) (l : list A) (r : list B) :
  map_result f l = Ok r -> List.length r = List.length l.
Proof.
  revert r. induction l as [|x l IH]; simpl; intros r H.
  - now injection H as <-.
  - destruct (f x); [|discriminate H]. simpl in H.
    destruct (map_result f l); [|discriminate H]. injection H as <-.
    simpl. now rewrite (IH _ eq_refl).
Qed.

(** [dumps] gives the text the chunks make up, and fails where the
    generator fails. *)
Lemma dumps_at_iterencode (v : pyval) :
  forall level, Json.dumps_at level v = yielded_text (Json.iterencode_at level v).
Proof.
  induction v as [v Hs | l IH | d items IH] using pyval_nested_ind; intros level.
  - destruct (Json.scalar_text v) as [t|] eqn:E; [|congruence].
    rewrite (scalar_dumps level v t E), (scalar_iterencode level v t E).
    unfold yielded_text, join. simpl. now rewrite app_nil_r.
  - destruct l as [|x l]; [reflexivity|].
    rewrite dumps_at_list.
    rewrite (map_result_ext (Json.dumps_at (S level))
               (fun x => yielded_text (Json.iterencode_at (S level) x)))
      by (eapply Forall_impl; [|exact IH]; intros a Ha; apply Ha).
    change (Json.iterencode_at level (PList (x :: l)))
      with (Json.then_yield
              (Json.list_chunks (Json.iterencode_at (S level))
                 (91%N :: Json.newline_indent (S level))
                 (44%N :: Json.newline_indent (S level)) true (x :: l))
              ([Json.newline_indent level; [93%N]], None)).
    pose proof (list_chunks_text (Json.iterencode_at (S level))
                  (scalar_iterencode (S level))
                  (91%N :: Json.newline_indent (S level))
                  (44%N :: Json.newline_indent (S level)) (x :: l) true) as H.
    destruct (map_result _ (x :: l)) as [parts|e] eqn:E; cbn [rbind].
    + destruct H as [Hc Hj]. rewrite then_yield_clean by exact Hc.
      unfold yielded_text. cbn [fst snd]. f_equal. rewrite join_app, Hj.
      apply map_result_length in E. destruct parts as [|p parts]; [discriminate E|].
      unfold Json.bracket, join. cbn [concat app].
      rewrite ?app_nil_r, <- ?app_assoc. reflexivity.
    + destruct H as [-> Hs]. unfold yielded_text.
      destruct (snd (Json.then_yield _ _)) eqn:E'; [reflexivity|].
      exfalso. revert E'. now apply then_yield_stopped.
  - destruct items as [|kx items]; [reflexivity|].
    rewrite dumps_at_dict.
    set (ys := map (on_snd (Json.iterencode_at (S level))) (kx :: items)).
    change (Json.iterencode_at level (PDict d (kx :: items)))
      with (Json.then_yield ([[123%N]; Json.newline_indent (S level)], None)
              match Json.sort_items ys with
              | Raise e => ([], Some e)
              | Ok sorted =>
                  Json.then_yield
                    (Json.dict_chunks (44%N :: Json.newline_indent (S level)) true sorted)
                    ([Json.newline_indent level; [125%N]], None)
              end).
    rewrite then_yield_clean by reflexivity. cbn [fst snd].
    assert (Henc : map_result
                     (fun kv => let? t := Json.dumps_at (S level) (snd kv) in
                                Ok (fst kv, t)) (kx :: items)
                   = map_result member_of_chunks ys).
    { unfold ys. rewrite map_result_map. apply map_result_ext.
      eapply Forall_impl; [|exact IH]. intros a Ha. unfold member_of_chunks, on_snd.
      cbn [fst snd]. now rewrite Ha. }
    rewrite Henc, members_of_chunks.
    pose proof (sort_items_on_snd (fun y : (list str * option exn) => join (fst y)) ys) as Hsw.
    destruct (Json.sort_items ys) as [r|e] eqn:Er.
    + pose proof (sort_items_perm _ _ Er) as Hp.
      pose proof (dict_chunks_text (44%N :: Json.newline_indent (S level)) r true)
        as H.
      rewrite (ended_well_perm _ _ Hp) in H.
      destruct (forallb ended_well ys); cbn [rbind].
      * rewrite Hsw. cbn [rbind].
        destruct H as [Hc Hj]. rewrite then_yield_clean by exact Hc.
        unfold yielded_text. cbn [fst snd]. f_equal. rewrite !join_app, Hj.
        assert (Hr : r <> []).
        { intros ->. apply Permutation_nil in Hp. discriminate Hp. }
        destruct r as [|y r]; [congruence|].
        unfold Json.bracket, join. cbn [concat app].
      rewrite ?app_nil_r, <- ?app_assoc. reflexivity.
      * unfold yielded_text. cbn [fst snd].
        destruct (snd (Json.then_yield _ _)) eqn:E'; [reflexivity|].
        exfalso. revert E'. now apply then_yield_stopped.
    + assert (He : e = TypeError) by exact (sort_items_raise _ _ Er). subst e.
      destruct (forallb ended_well ys); cbn [rbind]; [rewrite Hsw|]; reflexivity.
Qed.

Lemma utf8_encode_app (a b : str) :
  utf8_encode (a ++ b)
  = let? x := utf8_encode a in let? y := utf8_encode b in Ok (x ++ y).
Proof.
  induction a as [|c a IH]; simpl.
  - destruct (utf8_encode b); reflexivity.
  - destruct (utf8_encode_char c) as [x|]; [|reflexivity]. cbn [rbind].
    rewrite IH. destruct (utf8_encode a) as [xs|]; [|reflexivity]. cbn [rbind].
    destruct (utf8_encode b) as [ys|]; [|reflexivity]. cbn [rbind].
    now rewrite app_assoc.
Qed.

Lemma utf8_encode_raise (s : str) (e : exn) :
  utf8_encode s = Raise e -> e = UnicodeEncodeError.
Proof.
  induction s as [|c s IH]; simpl; [discriminate|].
  destruct (utf8_encode_char c) as [x|e'] eqn:E; cbn [rbind].
  - destruct (utf8_encode s); cbn [rbind]; [discriminate|].
    intros H. injection H as <-. now apply IH.
  - intros H. injection H as <-. unfold utf8_encode_char in E.
    repeat match type of E with
           | (if ?c then _ else _) = _ => destruct c
           end; congruence.
Qed.

Lemma write_chunks_text (chunks : list str) :
  utf8_encode (join chunks)
  = match write_chunks chunks with
    | (written, None) => Ok written
    | (_, Some _) => Raise UnicodeEncodeError
    end.
Proof.
  induction chunks as [|c r IH]; [reflexivity|].
  unfold join in *. cbn [concat write_chunks]. rewrite utf8_encode_app.
  destruct (utf8_encode c) as [b|e] eqn:E; cbn [rbind].
  - rewrite IH. destruct (write_chunks r) as [bs [e|]]; reflexivity.
  - now rewrite (utf8_encode_raise _ _ E).
Qed.

(** The dump ends well exactly when the text of [dumps] can be made
    and encoded, and the file then holds its encoding. *)
Lemma json_dump_text (data : pyval) :
  match (let? text := Json.dumps data in utf8_encode text) with
  | Ok b => json_dump data = (Ok tt, b)
  | Raise _ => exists e, fst (json_dump data) = Raise e
  end.
Proof.
  unfold Json.dumps, json_dump, Json.iterencode. rewrite dumps_at_iterencode.
  unfold yielded_text. destruct (Json.iterencode_at 0 data) as [chunks [e|]]; cbn [fst snd rbind].
  - destruct (write_chunks chunks) as [written [e'|]]; eexists; reflexivity.
  - rewrite write_chunks_text.
    destruct (write_chunks chunks) as [written [e'|]]; [eexists|]; reflexivity.
Qed.

Lemma json_dump_ok (data : pyval) (text : str) (b : bytes) :
  Json.dumps data = Ok text -> utf8_encode text = Ok b ->
  json_dump data = (Ok tt, b).
Proof.
  intros Hd Hb. pose proof (json_dump_text data) as H. rewrite Hd in H.
  cbn [rbind] in H. now rewrite Hb in H.
Qed.

Lemma json_dump_inv (data : pyval) (b : bytes) :
  json_dump data = (Ok tt, b) ->
  (let? text := Json.dumps data in utf8_encode text) = Ok b.
Proof.
  intros H. pose proof (json_dump_text data) as Hd.
  destruct (let? text := Json.dumps data in utf8_encode text) as [b'|e].
  - rewrite Hd in H. now injection H as <-.
  - destruct Hd as [e0 He]. rewrite H in He. discriminate He.
Qed.

Lemma dump_snapshot_stores (s : snapshot) (w w' : world) :
  __dump_to_json (pyval_of_snapshot s) TOURNAMENT_JSON_NAME w = (Ok tt, w') ->
  snapshot_of w' = Some (snapshot_file s).
Proof.
  unfold __dump_to_json, bind, emit, snapshot_of, snapshot_file. simpl.
  pose proof (json_dump_text (pyval_of_snapshot s)) as Hd.
  destruct (let? text := Json.dumps (pyval_of_snapshot s) in utf8_encode text).
  - rewrite Hd. intros H. injection H as <-. simpl. apply dict_get_set_same.
  - destruct Hd as [e0 He]. destruct (json_dump _) as [r0 written].
    simpl in He. subst r0. intros H. discriminate H.
Qed.

Lemma report_keeps_snapshot (p : event -> bool) (w w' : world) :
  (forall e, p e = true -> is_snapshot_dump e = false) ->
  grows p w w' -> snapshot_of w' = snapshot_of w.
Proof.
  intros Hp [new [T [F K]]]. apply K. intros f d Hin E.
  rewrite forallb_forall in F. specialize (Hp _ (F _ Hin)).
  injection E as <-. simpl in Hp. try rewrite str_eqb_refl in Hp.
  discriminate Hp.
Qed.

(** X18.  A run that ends well has fetched the page, and leaves in the
    snapshot file exactly the snapshot scraped from that page with the
    configuration of the run, as [__dump_to_json] writes it: the next
    run starts from it. *)
Theorem successful_run_stores_scraped_snapshot (w w' : world) :
  run w = (Ok tt, w') ->
  exists config tags s,
    w_web w = Ok tags
    /\ In (EvScrape config) (events w')
    /\ scrape_tags config tags = Ok s
    /\ snapshot_of w' = Some (snapshot_file s).
Proof.
  intros Hrun. unfold run in Hrun. set (w0 := set_trace [] w) in *.
  apply parse_intro_cases in Hrun
    as [[e1 [_ He]] | [cfg [w1 [Hcfg [[e2 [_ He]] | [s [w3 [Hs H]]]]]]]];
    try discriminate He.
  rewrite scrape_reads_page in Hs. simpl in Hs.
  destruct (keeps_get_user_config _ _ _ Hcfg) as [_ [Hweb _]].
  rewrite Hweb in Hs. simpl in Hs.
  destruct (w_web w) as [tags|e] eqn:Ew; [|discriminate Hs]. simpl in Hs.
  injection Hs as Hs Hw3.
  exists cfg, tags, s. split; [reflexivity|].
  assert (Hev : forall q, grows q w3 w' -> In (EvScrape cfg) (events w')).
  { intros q [new [T _]]. unfold events. apply -> in_rev. rewrite T.
    apply in_or_app. right. rewrite <- Hw3. simpl. auto. }
  destruct (dict_mem _ _).
  - split; [exact (Hev _ (emits_later_run _ _ _ _ _ H))|]. split; [exact Hs|].
    unfold later_run in H.
    apply bind_ok_inv in H as [loaded [wa [_ H]]].
    apply bind_ok_inv in H as [[] [wb [Hdump H]]].
    apply bind_ok_inv in H as [keys [wc [Hkeys H]]].
    apply bind_ok_inv in H as [[] [wd [Hemit H]]].
    injection Hkeys as _ <-. injection Hemit as <-.
    rewrite (report_keeps_snapshot report_event _ _
               (fun e He => proj1 (report_event_facts e He))
               (emits_report _ _ _ _ _ _ H)).
    exact (dump_snapshot_stores _ _ _ Hdump).
  - split; [exact (Hev _ (emits_first_run _ _ _ _ H))|]. split; [exact Hs|].
    unfold first_run in H.
    apply bind_ok_inv in H as [[] [wa [_ H]]].
    apply bind_ok_inv in H as [show [wb [_ H]]].
    apply bind_ok_inv in H as [[] [wc [_ H]]].
    apply bind_ok_inv in H as [[] [wd [Hdump H]]].
    injection H as <-.
    exact (dump_snapshot_stores _ _ _ Hdump).
Qed.

Lemma successful_run_stores_scraped_snapshot_witness :
  exists config tags s,
    w_web world_one_new = Ok tags
    /\ In (EvScrape config) (events (snd (run world_one_new)))
    /\ scrape_tags config tags = Ok s
    /\ snapshot_of (snd (run world_one_new)) = Some (snapshot_file s).
Proof.
  assert (H : fst (run world_one_new) = Ok tt) by (vm_compute; reflexivity).
  apply successful_run_stores_scraped_snapshot.
  rewrite <- H. apply surjective_pairing.
Defined.

(** ** Saving a snapshot and reading it back (lines 201-208)

    The decoder of UTF-8 inverts the encoder. *)

Lemma utf8_decode_1 (b1 : N) (r : bytes) :
  (b1 < 128)%N -> utf8_decode (b1 :: r) = let? s := utf8_decode r in Ok (b1 :: s).
Proof. intros H. simpl. destruct (N.ltb_spec b1 128); [reflexivity | lia]. Qed.

Lemma utf8_decode_2 (b1 b2 : N) (r : bytes) :
  (194 <= b1 <= 223)%N -> (128 <= b2 <= 191)%N ->
  utf8_decode (b1 :: b2 :: r)
  = let? s := utf8_decode r in Ok (((b1 - 192) * 64 + (b2 - 128))%N :: s).
Proof.
  intros H1 H2. remember (b2 :: r) as t eqn:T. simpl. unfold in_range.
  destruct (N.ltb_spec b1 128); [lia|].
  destruct (N.leb_spec 194 b1); [|lia]. destruct (N.leb_spec b1 223); [|lia].
  subst t. cbv beta iota. unfold is_cont. simpl andb. cbv beta iota.
  destruct (N.leb_spec 128 b2); [|lia]. destruct (N.leb_spec b2 191); [|lia].
  reflexivity.
Qed.

Lemma utf8_decode_3 (b1 b2 b3 : N) (r : bytes) :
  (224 <= b1 <= 239)%N ->
  ((if (b1 =? 224)%N then 160 else 128) <= b2)%N ->
  (b2 <= (if (b1 =? 237)%N then 159 else 191))%N ->
  (128 <= b3 <= 191)%N ->
  utf8_decode (b1 :: b2 :: b3 :: r)
  = let? s := utf8_decode r in
    Ok (((b1 - 224) * 4096 + (b2 - 128) * 64 + (b3 - 128))%N :: s).
Proof.
  intros H1 H2 H3 H4. remember (b2 :: b3 :: r) as t eqn:T. simpl. unfold in_range.
  destruct (N.ltb_spec b1 128); [lia|].
  destruct (N.leb_spec 194 b1); [|lia]. destruct (N.leb_spec b1 223); [lia|].
  destruct (N.leb_spec 224 b1); [|lia]. destruct (N.leb_spec b1 239); [|lia].
  subst t. cbv beta iota. unfold is_cont. simpl andb. cbv beta iota.
  destruct (N.leb_spec (if (b1 =? 224)%N then 160 else 128) b2); [|lia].
  destruct (N.leb_spec b2 (if (b1 =? 237)%N then 159 else 191)); [|lia].
  destruct (N.leb_spec 128 b3); [|lia]. destruct (N.leb_spec b3 191); [|lia].
  reflexivity.
Qed.

Lemma utf8_decode_4 (b1 b2 b3 b4 : N) (r : bytes) :
  (240 <= b1 <= 244)%N ->
  ((if (b1 =? 240)%N then 144 else 128) <= b2)%N ->
  (b2 <= (if (b1 =? 244)%N then 143 else 191))%N ->
  (128 <= b3 <= 191)%N -> (128 <= b4 <= 191)%N ->
  utf8_decode (b1 :: b2 :: b3 :: b4 :: r)
  = let? s := utf8_decode r in
    Ok (((b1 - 240) * 262144 + (b2 - 128) * 4096 + (b3 - 128) * 64
         + (b4 - 128))%N :: s).
Proof.
  intros H1 H2 H3 H4 H5. remember (b2 :: b3 :: b4 :: r) as t eqn:T. simpl.
  unfold in_range.
  destruct (N.ltb_spec b1 128); [lia|].
  destruct (N.leb_spec 194 b1); [|lia]. destruct (N.leb_spec b1 223); [lia|].
  destruct (N.leb_spec 224 b1); [|lia]. destruct (N.leb_spec b1 239); [lia|].
  destruct (N.leb_spec 240 b1); [|lia]. destruct (N.leb_spec b1 244); [|lia].
  subst t. cbv beta iota. unfold is_cont. simpl andb. cbv beta iota.
  destruct (N.leb_spec (if (b1 =? 240)%N then 144 else 128) b2); [|lia].
  destruct (N.leb_spec b2 (if (b1 =? 244)%N then 143 else 191)); [|lia].
  destruct (N.leb_spec 128 b3); [|lia]. destruct (N.leb_spec b3 191); [|lia].
  destruct (N.leb_spec 128 b4); [|lia]. destruct (N.leb_spec b4 191); [|lia].
  reflexivity.
Qed.

Lemma Ok_inj {A} (a b : A) : Ok a = Ok b -> a = b.
Proof. congruence. Qed.

Lemma utf8_decode_encode_char (c : N) (b rest : bytes) :
  utf8_encode_char c = Ok b ->
  utf8_decode (b ++ rest) = let? s := utf8_decode rest in Ok (c :: s).
Proof.
  unfold utf8_encode_char, is_surrogate.
  pose proof (N.div_mod c 64 ltac:(lia)) as D1.
  pose proof (N.mod_lt c 64 ltac:(lia)) as M1.
  pose proof (N.div_mod (c / 64) 64 ltac:(lia)) as D2.
  pose proof (N.mod_lt (c / 64) 64 ltac:(lia)) as M2.
  pose proof (N.div_mod (c / 4096) 64 ltac:(lia)) as D3.
  pose proof (N.mod_lt (c / 4096) 64 ltac:(lia)) as M3.
  assert (E2 : (c / 4096 = c / 64 / 64)%N)
    by (rewrite N.Div0.div_div; reflexivity).
  assert (E3 : (c / 262144 = c / 4096 / 64)%N)
    by (rewrite N.Div0.div_div; reflexivity).
  rewrite <- E2 in D2. rewrite <- E3 in D3. clear E2 E3.
  set (q1 := (c / 64)%N) in *. set (r1 := (c mod 64)%N) in *.
  set (q2 := (c / 4096)%N) in *. set (r2 := (q1 mod 64)%N) in *.
  set (q3 := (c / 262144)%N) in *. set (r3 := (q2 mod 64)%N) in *.
  clearbody q1 r1 q2 r2 q3 r3.
  destruct (N.ltb_spec c 128).
  { intros H'. apply Ok_inj in H'; subst b. apply utf8_decode_1. exact H. }
  destruct (N.ltb_spec c 2048).
  { intros H'. apply Ok_inj in H'; subst b.
    change ([(192 + q1)%N; (128 + r1)%N] ++ rest)
      with ((192 + q1)%N :: (128 + r1)%N :: rest).
    rewrite utf8_decode_2 by lia.
    replace ((192 + q1 - 192) * 64 + (128 + r1 - 128))%N with c by lia.
    reflexivity. }
  destruct (N.ltb_spec c 65536).
  { destruct (N.leb_spec 55296 c); destruct (N.leb_spec c 57343);
      cbv [andb]; try discriminate; intros H'; apply Ok_inj in H'; subst b;
      change ([(224 + q2)%N; (128 + r2)%N; (128 + r1)%N] ++ rest)
        with ((224 + q2)%N :: (128 + r2)%N :: (128 + r1)%N :: rest);
      (rewrite utf8_decode_3;
       [| lia
        | destruct (N.eqb_spec (224 + q2) 224); lia
        | destruct (N.eqb_spec (224 + q2) 237); lia
        | lia]);
      replace ((224 + q2 - 224) * 4096 + (128 + r2 - 128) * 64
               + (128 + r1 - 128))%N with c by lia; reflexivity. }
  destruct (N.ltb_spec c 1114112); [|discriminate].
  intros H'. apply Ok_inj in H'; subst b.
  change ([(240 + q3)%N; (128 + r3)%N; (128 + r2)%N; (128 + r1)%N] ++ rest)
    with ((240 + q3)%N :: (128 + r3)%N :: (128 + r2)%N :: (128 + r1)%N :: rest).
  rewrite utf8_decode_4;
    [| lia
     | destruct (N.eqb_spec (240 + q3) 240); lia
     | destruct (N.eqb_spec (240 + q3) 244); lia
     | lia | lia].
  replace ((240 + q3 - 240) * 262144 + (128 + r3 - 128) * 4096
           + (128 + r2 - 128) * 64 + (128 + r1 - 128))%N with c by lia.
  reflexivity.
Qed.

Lemma utf8_decode_encode (s : str) (b : bytes) :
  utf8_encode s = Ok b -> utf8_decode b = Ok s.
Proof.
  revert b. induction s as [|c s IH]; simpl; intros b H.
  - now injection H as <-.
  - destruct (utf8_encode_char c) as [bc|] eqn:Ec; [|discriminate]. simpl in H.
    destruct (utf8_encode s) as [bs|]; [|discriminate]. simpl in H.
    injection H as <-. rewrite (utf8_decode_encode_char _ _ _ Ec).
    now rewrite (IH _ eq_refl).
Qed.

(** ** JSON strings *)

Lemma scanstring_plain (c : N) (rest : str) :
  (32 <= c)%N -> c <> 34%N -> c <> 92%N ->
  Json.scanstring (c :: rest) = Json.cons_char c (Json.scanstring rest).
Proof.
  intros H1 H2 H3. apply N.eqb_neq in H2, H3. apply N.ltb_ge in H1.
  cbv beta iota delta [Json.scanstring]. rewrite H2, H3, H1. reflexivity.
Qed.

Lemma below_32 (P : N -> Prop) :
  Forall P (map N.of_nat (seq 0 32)) -> forall c, (c < 32)%N -> P c.
Proof.
  intros H c Hc. rewrite Forall_forall in H. apply H.
  apply in_map_iff. exists (N.to_nat c). split; [apply N2Nat.id|].
  apply in_seq. lia.
Qed.

Lemma scanstring_escape (c : N) (rest : str) :
  Json.scanstring (Json.escape_char c ++ rest)
  = Json.cons_char c (Json.scanstring rest).
Proof.
  destruct (N.ltb_spec c 32) as [Hlt | Hge].
  - revert c Hlt. apply below_32.
    repeat (constructor; [reflexivity|]). constructor.
  - destruct (N.eqb_spec c 34) as [-> | H34]; [reflexivity|].
    destruct (N.eqb_spec c 92) as [-> | H92]; [reflexivity|].
    assert (E : Json.escape_char c = [c]).
    { unfold Json.escape_char.
      destruct (N.eqb_spec c 34); [contradiction|].
      destruct (N.eqb_spec c 92); [contradiction|].
      destruct (N.eqb_spec c 10); [lia|]. destruct (N.eqb_spec c 13); [lia|].
      destruct (N.eqb_spec c 9); [lia|]. destruct (N.eqb_spec c 8); [lia|].
      destruct (N.eqb_spec c 12); [lia|].
      destruct (N.ltb_spec c 32); [lia | reflexivity]. }
    rewrite E. now apply scanstring_plain.
Qed.

Lemma scanstring_quote (s rest : str) :
  Json.scanstring (flat_map Json.escape_char s ++ 34%N :: rest) = Ok (s, rest).
Proof.
  induction s as [|c s IH]; [reflexivity|].
  cbn [flat_map]. rewrite <- app_assoc, scanstring_escape, IH. reflexivity.
Qed.

(** ** JSON objects *)

Lemma scan_once_string (f : nat) (r : str) :
  Json.scan_once (S f) (34%N :: r)
  = let? p := Json.scanstring r in Ok (PStr (fst p), snd p).
Proof. reflexivity. Qed.

Lemma scan_once_object (f : nat) (r : str) :
  Json.scan_once (S f) (123%N :: r)
  = match Json.skip_ws r with
    | 125%N :: r' => Ok (PDict false [], r')
    | 34%N :: r' =>
        let? p := Json.object_members f [] r' in
        Ok (PDict false (Json.dict_of_pairs (fst p)), snd p)
    | _ => Raise JSONDecodeError
    end.
Proof. reflexivity. Qed.

Lemma object_members_S (f : nat) (acc : list (pykey * pyval)) (s : str) :
  Json.object_members (S f) acc s
  = let? ks := Json.scanstring s in
    match Json.skip_ws (snd ks) with
    | 58%N :: r =>
        let? vr := Json.scan_once f (Json.skip_ws r) in
        match Json.skip_ws (snd vr) with
        | 125%N :: r' => Ok (acc ++ [(KStr (fst ks), fst vr)], r')
        | 44%N :: r' =>
            match Json.skip_ws r' with
            | 34%N :: r'' =>
                Json.object_members f (acc ++ [(KStr (fst ks), fst vr)]) r''
            | _ => Raise JSONDecodeError
            end
        | _ => Raise JSONDecodeError
        end
    | _ => Raise JSONDecodeError
    end.
Proof. reflexivity. Qed.

Lemma skip_ws_stop (c : N) (r : str) :
  Json.is_ws c = false -> Json.skip_ws (c :: r) = c :: r.
Proof. intros H. simpl. now rewrite H. Qed.

Lemma skip_ws_indent (n : nat) (c : N) (r : str) :
  Json.is_ws c = false ->
  Json.skip_ws (Json.newline_indent n ++ c :: r) = c :: r.
Proof.
  intros H. unfold Json.newline_indent.
  change (Json.skip_ws ((10%N :: repeat 32%N (4 * n)) ++ c :: r))
    with (Json.skip_ws (repeat 32%N (4 * n) ++ c :: r)).
  induction (4 * n)%nat as [|k IH]; [now apply skip_ws_stop | exact IH].
Qed.

Lemma object_members_one (f : nat) (acc : list (pykey * pyval))
    (m : str * str * pyval) (after : str) :
  parses_as (snd (fst m)) (snd m) -> (List.length (snd (fst m)) <= f)%nat ->
  Json.object_members (S f) acc (member_tail m ++ after)
  = match Json.skip_ws after with
    | 125%N :: r' => Ok (acc ++ parsed [m], r')
    | 44%N :: r' =>
        match Json.skip_ws r' with
        | 34%N :: r'' => Json.object_members f (acc ++ parsed [m]) r''
        | _ => Raise JSONDecodeError
        end
    | _ => Raise JSONDecodeError
    end.
Proof.
  intros [Hws Hv] Hf. destruct m as [[k t] v]. unfold member_tail, parsed.
  cbn [fst snd map] in *.
  rewrite object_members_S.
  replace ((flat_map Json.escape_char k ++ [34%N; 58%N; 32%N] ++ t) ++ after)
    with (flat_map Json.escape_char k ++ 34%N :: (58%N :: 32%N :: t ++ after))
    by (rewrite <- !app_assoc; reflexivity).
  rewrite scanstring_quote. cbn [rbind fst snd].
  rewrite skip_ws_stop by reflexivity. cbv beta iota.
  change (Json.skip_ws (32%N :: t ++ after)) with (Json.skip_ws (t ++ after)).
  rewrite Hws, (Hv f after Hf). cbn [rbind fst snd]. reflexivity.
Qed.

Lemma member_tail_length (m : str * str * pyval) :
  (3 + List.length (snd (fst m)) <= List.length (member_tail m))%nat.
Proof. unfold member_tail. rewrite !length_app. simpl. lia. Qed.

Lemma object_members_parse (lvl lvl0 : nat) (ms : list (str * str * pyval)) :
  Forall (fun m => parses_as (snd (fst m)) (snd m)) ms -> ms <> [] ->
  forall fuel acc rest,
    (List.length (members_tail (44%N :: Json.newline_indent lvl) ms) <= fuel)%nat ->
    Json.object_members fuel acc
      (members_tail (44%N :: Json.newline_indent lvl) ms
       ++ Json.newline_indent lvl0 ++ 125%N :: rest)
    = Ok (acc ++ parsed ms, rest).
Proof.
  induction ms as [|m ms IH]; intros Hall Hne fuel acc rest Hfuel; [congruence|].
  inversion Hall as [|? ? Hm Hms]; subst.
  pose proof (member_tail_length m) as Hlen.
  destruct ms as [|m' ms'].
  - cbn [members_tail] in *.
    destruct fuel as [|f]; [lia|].
    rewrite object_members_one by (trivial; lia).
    rewrite skip_ws_indent by reflexivity. reflexivity.
  - change (members_tail (44%N :: Json.newline_indent lvl) (m :: m' :: ms'))
      with (member_tail m ++ (44%N :: Json.newline_indent lvl)
            ++ 34%N :: members_tail (44%N :: Json.newline_indent lvl) (m' :: ms'))
      in *.
    rewrite !length_app in Hfuel. cbn [List.length] in Hfuel.
    destruct fuel as [|f]; [lia|].
    rewrite <- !app_assoc.
    rewrite object_members_one by (trivial; lia).
    change ((44%N :: Json.newline_indent lvl)
            ++ (34%N :: members_tail (44%N :: Json.newline_indent lvl) (m' :: ms'))
            ++ Json.newline_indent lvl0 ++ 125%N :: rest)
      with (44%N :: (Json.newline_indent lvl
            ++ 34%N :: (members_tail (44%N :: Json.newline_indent lvl) (m' :: ms')
            ++ Json.newline_indent lvl0 ++ 125%N :: rest))).
    rewrite skip_ws_stop by reflexivity. cbv beta iota.
    rewrite skip_ws_indent by reflexivity. cbv beta iota.
    rewrite IH; [| exact Hms | discriminate | lia].
    unfold parsed. cbn [map]. rewrite <- app_assoc. reflexivity.
Qed.

Lemma join_members (sep : str) (ms : list (str * str * pyval)) :
  ms <> [] -> join_with sep (map member_text ms) = 34%N :: members_tail sep ms.
Proof.
  induction ms as [|m ms IH]; [congruence|]. intros _.
  destruct ms as [|m' ms']; [reflexivity|].
  change (join_with sep (map member_text (m :: m' :: ms')))
    with (member_text m ++ sep ++ join_with sep (map member_text (m' :: ms'))).
  rewrite IH by discriminate. reflexivity.
Qed.

Lemma object_parses (lvl : nat) (ms : list (str * str * pyval)) :
  Forall (fun m => parses_as (snd (fst m)) (snd m)) ms ->
  parses_as (Json.bracket 123 125 lvl (map member_text ms))
            (PDict false (Json.dict_of_pairs (parsed ms))).
Proof.
  intros Hall. destruct ms as [|m ms].
  - split; [reflexivity|]. intros [|f] rest Hf; [simpl in Hf; lia | reflexivity].
  - assert (Hne : m :: ms <> []) by discriminate.
    unfold Json.bracket.
    destruct (map member_text (m :: ms)) as [|p ps] eqn:E; [discriminate|].
    rewrite <- E. clear E p ps.
    rewrite (join_members _ _ Hne).
    split; [reflexivity|]. intros fuel rest Hf.
    rewrite !length_app in Hf. cbn [List.length] in Hf.
    destruct fuel as [|f]; [lia|].
    replace (([123%N] ++ Json.newline_indent (S lvl)
              ++ (34%N :: members_tail (44%N :: Json.newline_indent (S lvl)) (m :: ms))
              ++ Json.newline_indent lvl ++ [125%N]) ++ rest)
      with (123%N :: (Json.newline_indent (S lvl)
              ++ 34%N :: (members_tail (44%N :: Json.newline_indent (S lvl)) (m :: ms)
              ++ Json.newline_indent lvl ++ 125%N :: rest))).
    2:{ cbn [app]. rewrite <- !app_assoc. cbn [app]. rewrite <- !app_assoc.
        reflexivity. }
    rewrite scan_once_object, skip_ws_indent by reflexivity. cbv beta iota.
    rewrite (object_members_parse (S lvl) lvl) by (trivial; lia).
    reflexivity.
Qed.

Lemma string_parses (s : str) : parses_as (Json.quote s) (PStr s).
Proof.
  split; [reflexivity|]. intros fuel rest Hf.
  unfold Json.quote in *. destruct fuel as [|f]; [simpl in Hf; lia|].
  cbn [app]. rewrite scan_once_string, <- app_assoc. cbn [app].
  rewrite scanstring_quote. reflexivity.
Qed.

(** ** Sorting *)

Lemma insert_item_comparable {V} (x : pykey * V) (l : dict V) :
  comparable (x :: l) ->
  exists r, Json.insert_item x l = Ok r /\ Permutation r (x :: l).
Proof.
  induction l as [|y l IH]; intros Hc; simpl.
  - eauto.
  - destruct x as [kx vx], y as [ky vy].
    destruct (Hc kx vx ky vy) as [b Hb]; [now left | right; now left|].
    simpl. rewrite Hb. simpl. destruct b.
    + eauto.
    + destruct IH as [r [-> Hr]].
      { intros k v k' v' H1 H2. apply (Hc k v k' v').
        - destruct H1 as [H1 | H1]; [now left | right; now right].
        - destruct H2 as [H2 | H2]; [now left | right; now right]. }
      simpl. eexists. split; [reflexivity|].
      rewrite Hr. apply perm_swap.
Qed.

Lemma sort_items_comparable {V} (l : dict V) :
  comparable l -> exists r, Json.sort_items l = Ok r /\ Permutation r l.
Proof.
  induction l as [|[k v] l IH]; intros Hc; simpl; [eauto|].
  destruct IH as [r [-> Hr]].
  { intros k1 v1 k2 v2 H1 H2. apply (Hc k1 v1 k2 v2); now right. }
  simpl. destruct (insert_item_comparable (k, v) r) as [r' [Hr' Hp]].
  - intros k1 v1 k2 v2 H1 H2. apply (Hc k1 v1 k2 v2).
    + destruct H1 as [H1 | H1]; [now left | right; exact (Permutation_in _ Hr H1)].
    + destruct H2 as [H2 | H2]; [now left | right; exact (Permutation_in _ Hr H2)].
  - exists r'. split; [exact Hr'|]. rewrite Hp. now constructor.
Qed.

Lemma sorted_dict_comparable {V} (l : dict V) :
  comparable l ->
  Json.sort_items l = Ok (sorted_dict l) /\ Permutation (sorted_dict l) l.
Proof.
  intros Hl. unfold sorted_dict.
  destruct (sort_items_comparable l Hl) as [r [-> Hr]]. auto.
Qed.

Lemma str_keys_comparable {V} (d : dict V) : str_keys d -> comparable d.
Proof.
  intros H k v k' v' H1 H2.
  destruct (H k v H1) as [s ->]. destruct (H k' v' H2) as [s' ->].
  eexists. reflexivity.
Qed.

Lemma int_keys_comparable {V} (d : dict V) : int_keys d -> comparable d.
Proof.
  intros H k v k' v' H1 H2.
  destruct (H k v H1) as [s ->]. destruct (H k' v' H2) as [s' ->].
  eexists. reflexivity.
Qed.

Lemma sorted_dict_eq {V} (l : dict V) :
  str_keys l -> Json.sort_items l = Ok (sorted_dict l) /\ Permutation (sorted_dict l) l.
Proof. intros Hl. apply sorted_dict_comparable. now apply str_keys_comparable. Qed.

Lemma insert_item_map {A B} (f : A -> B) (x : pykey * A) (l r : dict A) :
  Json.insert_item x l = Ok r ->
  Json.insert_item (on_snd f x) (map (on_snd f) l) = Ok (map (on_snd f) r).
Proof.
  revert r. induction l as [|y l IH]; simpl; intros r H.
  - now injection H as <-.
  - destruct (Json.key_lt (fst x) (fst y)) as [[|]|]; simpl in *; try discriminate.
    + now injection H as <-.
    + destruct (Json.insert_item x l) as [r0|]; [|discriminate]. simpl in H.
      injection H as <-. now rewrite (IH _ eq_refl).
Qed.

Lemma sort_items_map {A B} (f : A -> B) (l r : dict A) :
  Json.sort_items l = Ok r ->
  Json.sort_items (map (on_snd f) l) = Ok (map (on_snd f) r).
Proof.
  revert r. induction l as [|x l IH]; simpl; intros r H.
  - now injection H as <-.
  - destruct (Json.sort_items l) as [r0|]; [|discriminate]. simpl in H.
    rewrite (IH _ eq_refl). simpl. now apply insert_item_map.
Qed.

Lemma str_keys_perm {V} (l l' : dict V) :
  Permutation l' l -> str_keys l -> str_keys l'.
Proof. intros Hp Hl k v Hin. apply (Hl k v). exact (Permutation_in _ Hp Hin). Qed.

Lemma wf_dict_perm {V} (l l' : dict V) :
  Permutation l' l -> wf_dict l -> wf_dict l'.
Proof.
  unfold wf_dict, dict_keys. intros Hp Hl.
  apply (Permutation_NoDup (l := map fst l)); [|exact Hl].
  apply Permutation_map. now apply Permutation_sym.
Qed.

(** ** [dict(pairs)] *)

Lemma dict_of_pairs_wf (l : dict pyval) :
  wf_dict l -> Json.dict_of_pairs l = l.
Proof.
  unfold Json.dict_of_pairs.
  assert (G : forall acc, wf_dict (acc ++ l) ->
                fold_left (fun d kv => dict_set (fst kv) (snd kv) d) l acc = acc ++ l).
  { induction l as [|[k v] l IH]; intros acc Hwf; simpl.
    - now rewrite app_nil_r.
    - rewrite dict_set_fresh.
      + rewrite IH; rewrite <- app_assoc; [reflexivity | exact Hwf].
      + destruct (dict_mem k acc) eqn:E; [|reflexivity]. exfalso.
        apply dict_mem_In in E. unfold wf_dict, dict_keys in Hwf.
        rewrite map_app in Hwf. simpl in Hwf.
        apply NoDup_remove_2 in Hwf. apply Hwf. apply in_or_app. now left. }
  intros Hwf. exact (G [] Hwf).
Qed.

(** ** The text of a dictionary *)

Lemma dumps_dict (lvl : nat) (dflt : bool) (items : list (pykey * pyval))
    (enc : list (pykey * str)) :
  Forall2 (fun kx kt => fst kt = fst kx
                        /\ Json.dumps_at (S lvl) (snd kx) = Ok (snd kt)) items enc ->
  Json.dumps_at lvl (PDict dflt items)
  = let? sorted := Json.sort_items enc in
    Ok (Json.bracket 123 125 lvl (map Json.member sorted)).
Proof.
  intros H. cbn [Json.dumps_at].
  match goal with
  | |- rbind (?go items) _ = _ => assert (G : go items = Ok enc)
  end.
  { induction H as [|[k x] [k' t] items enc [Hk Hx] _ IH]; [reflexivity|].
    simpl in Hk, Hx. subst k'. rewrite Hx. cbn [rbind]. rewrite IH. reflexivity. }
  rewrite G. reflexivity.
Qed.

Lemma dumps_dict_comparable {A} (lvl : nat) (dflt : bool) (d : dict A)
    (val : A -> pyval) (txt : A -> str) :
  comparable d ->
  (forall k a, In (k, a) d -> Json.dumps_at (S lvl) (val a) = Ok (txt a)) ->
  Json.dumps_at lvl (PDict dflt (map (on_snd val) d))
  = Ok (Json.bracket 123 125 lvl
          (map Json.member (map (on_snd txt) (sorted_dict d)))).
Proof.
  intros Hk Hd.
  rewrite (dumps_dict lvl dflt _ (map (on_snd txt) d)).
  - destruct (sorted_dict_comparable d Hk) as [Hs _].
    rewrite (sort_items_map txt _ _ Hs). reflexivity.
  - clear Hk. induction d as [|[k a] d IH]; simpl; constructor.
    + split; [reflexivity|]. simpl. apply (Hd k). now left.
    + apply IH. intros k' a' Hin. apply (Hd k'). now right.
Qed.

Lemma str_keys_distinct {V} (d : dict V) :
  str_keys d -> wf_dict d -> distinct_keys d.
Proof.
  unfold wf_dict, dict_keys, distinct_keys. intros Hk Hwf.
  induction d as [|[k v] d IH]; simpl; constructor.
  - inversion Hwf as [|? ? Hn _]; subst. intros Hin. apply Hn.
    apply in_map_iff in Hin as [[k' v'] [E Hin]]. apply in_map_iff.
    exists (k', v'). split; [|exact Hin].
    destruct (Hk k v (or_introl eq_refl)) as [s ->].
    destruct (Hk k' v' (or_intror Hin)) as [s' ->].
    unfold json_key in E. simpl in *. now subst.
  - inversion Hwf; subst. apply IH; [|assumption].
    intros k' v' Hin. apply (Hk k' v'). now right.
Qed.

Lemma member_json_key (k : pykey) (t : str) (v : pyval) :
  Json.member (k, t) = member_text (Json.key_str k, t, v).
Proof.
  unfold Json.member, member_text, member_tail, Json.quote. simpl.
  rewrite <- !app_assoc. reflexivity.
Qed.

Lemma dict_text_parses_keys {A} (lvl : nat) (d : dict A) (txt : A -> str)
    (val : A -> pyval) :
  distinct_keys d ->
  (forall k a, In (k, a) d -> parses_as (txt a) (val a)) ->
  parses_as (Json.bracket 123 125 lvl (map Json.member (map (on_snd txt) d)))
            (PDict false (keyed_by_str val d)).
Proof.
  intros Hd Hp.
  set (ms := map (fun kv : pykey * A =>
                    (Json.key_str (fst kv), txt (snd kv), val (snd kv))) d).
  assert (E1 : map Json.member (map (on_snd txt) d) = map member_text ms).
  { unfold ms. rewrite !map_map. apply map_ext. intros [k a].
    apply member_json_key. }
  assert (E2 : parsed ms = keyed_by_str val d).
  { unfold ms, parsed, keyed_by_str. rewrite map_map. reflexivity. }
  assert (Hwf' : wf_dict (keyed_by_str val d)).
  { unfold wf_dict, dict_keys, keyed_by_str, distinct_keys in *.
    rewrite map_map. cbn [fst].
    rewrite <- (map_map json_key KStr).
    clear - Hd. induction Hd as [|x l Hx _ IH]; simpl; constructor; [|exact IH].
    intros Hin. apply Hx. apply in_map_iff in Hin as [y [E Hy]].
    now injection E as <-. }
  rewrite E1, <- (dict_of_pairs_wf _ Hwf'), <- E2.
  apply object_parses. unfold ms. apply Forall_forall.
  intros m Hm. apply in_map_iff in Hm as [[k a] [<- Hin]]. simpl.
  exact (Hp k a Hin).
Qed.

Lemma keyed_by_str_str_keys {A B} (f : A -> B) (d : dict A) :
  str_keys d -> keyed_by_str f d = map (on_snd f) d.
Proof.
  intros Hk. unfold keyed_by_str. apply map_ext_in. intros [k a] Hin.
  destruct (Hk k a Hin) as [s ->]. reflexivity.
Qed.

Lemma dict_text_parses {A} (lvl : nat) (d : dict A) (txt : A -> str)
    (val : A -> pyval) :
  str_keys d -> wf_dict d ->
  (forall k a, In (k, a) d -> parses_as (txt a) (val a)) ->
  parses_as (Json.bracket 123 125 lvl (map Json.member (map (on_snd txt) d)))
            (PDict false (map (on_snd val) d)).
Proof.
  intros Hk Hwf Hp. rewrite <- (keyed_by_str_str_keys val d Hk).
  apply dict_text_parses_keys; [|exact Hp]. now apply str_keys_distinct.
Qed.

Lemma dumps_tournament (lvl : nat) (t : TournamentType) :
  str_keys t -> Json.dumps_at lvl (pyval_of_tournament t) = Ok (fields_text lvl t).
Proof.
  intros Hk.
  apply (dumps_dict_comparable lvl false t PStr Json.quote
           (str_keys_comparable _ Hk)).
  reflexivity.
Qed.

Lemma dumps_snapshot (lvl : nat) (s : snapshot) :
  well_keyed s -> Json.dumps_at lvl (pyval_of_snapshot s) = Ok (snapshot_text lvl s).
Proof.
  intros [Hk [_ Ht]].
  apply (dumps_dict_comparable lvl false s pyval_of_tournament
           (fields_text (S lvl)) (str_keys_comparable _ Hk)).
  intros k t Hin. apply dumps_tournament. now apply (Ht k t).
Qed.

Lemma fields_parse (lvl : nat) (t : TournamentType) :
  str_keys t -> wf_dict t ->
  parses_as (fields_text lvl t) (pyval_of_tournament (sorted_dict t)).
Proof.
  intros Hk Hwf. destruct (sorted_dict_eq t Hk) as [_ Hp].
  apply (dict_text_parses lvl (sorted_dict t) Json.quote PStr).
  - exact (str_keys_perm _ _ Hp Hk).
  - exact (wf_dict_perm _ _ Hp Hwf).
  - intros k a _. apply string_parses.
Qed.

Lemma snapshot_parse (lvl : nat) (s : snapshot) :
  well_keyed s ->
  parses_as (snapshot_text lvl s) (pyval_of_snapshot (sorted_snapshot s)).
Proof.
  intros [Hk [Hwf Ht]]. destruct (sorted_dict_eq s Hk) as [_ Hp].
  unfold sorted_snapshot, pyval_of_snapshot. rewrite map_map.
  apply (dict_text_parses lvl (sorted_dict s) (fields_text (S lvl))
           (fun t => pyval_of_tournament (sorted_dict t))).
  - exact (str_keys_perm _ _ Hp Hk).
  - exact (wf_dict_perm _ _ Hp Hwf).
  - intros k t Hin. apply (Permutation_in _ Hp) in Hin.
    destruct (Ht k t Hin). now apply fields_parse.
Qed.

Lemma loads_snapshot_text (s : snapshot) :
  well_keyed s ->
  Json.loads (snapshot_text 0 s) = Ok (pyval_of_snapshot (sorted_snapshot s)).
Proof.
  intros Hs. destruct (snapshot_parse 0 s Hs) as [Hws Hparse].
  specialize (Hws []). specialize (Hparse (S (List.length (snapshot_text 0 s))) []).
  rewrite app_nil_r in *.
  assert (Hhead : exists r, snapshot_text 0 s = 123%N :: r).
  { unfold snapshot_text, Json.bracket.
    destruct (map Json.member _); eexists; reflexivity. }
  destruct Hhead as [r Hr]. unfold Json.loads. rewrite Hr at 1.
  cbv beta iota. rewrite Hws, Hparse by lia. reflexivity.
Qed.

(** ** The characters of the text written

    [P] is a set of characters that holds the ASCII characters.  The
    text [json.dump] writes for strings of [P] is of [P]: the
    punctuation, the indentation and the escapes are ASCII, and every
    other character is written as it is ([ensure_ascii=False]). *)

Section Alphabet.
Variable P : N -> bool.
Hypothesis P_ascii : forall c, is_ascii c = true -> P c = true.

Lemma within_ascii (s : str) : ascii_text s -> forallb P s = true.
Proof.
  unfold ascii_text. induction s as [|c s IH]; [reflexivity|]. simpl.
  intros H. apply andb_true_iff in H as [Hc Hs].
  now rewrite (P_ascii c Hc), (IH Hs).
Qed.

Lemma within_app (a b : str) :
  forallb P (a ++ b) = true <-> forallb P a = true /\ forallb P b = true.
Proof. rewrite forallb_app, andb_true_iff. reflexivity. Qed.

Lemma within_escape (c : N) :
  P c = true -> forallb P (Json.escape_char c) = true.
Proof.
  intros Hc. destruct (N.ltb_spec c 32) as [Hlt | Hge].
  - apply within_ascii. clear Hc. revert c Hlt. apply below_32.
    repeat (constructor; [reflexivity|]). constructor.
  - unfold Json.escape_char.
    destruct (N.eqb_spec c 34); [now apply within_ascii|].
    destruct (N.eqb_spec c 92); [now apply within_ascii|].
    destruct (N.eqb_spec c 10); [now apply within_ascii|].
    destruct (N.eqb_spec c 13); [now apply within_ascii|].
    destruct (N.eqb_spec c 9); [now apply within_ascii|].
    destruct (N.eqb_spec c 8); [now apply within_ascii|].
    destruct (N.eqb_spec c 12); [now apply within_ascii|].
    destruct (N.ltb_spec c 32); [lia|].
    simpl. now rewrite Hc.
Qed.

Lemma within_quote (s : str) :
  forallb P s = true -> forallb P (Json.quote s) = true.
Proof.
  intros Hs. unfold Json.quote.
  apply within_app. split; [now apply within_ascii|].
  apply within_app. split; [|now apply within_ascii].
  induction s as [|c s IH]; [reflexivity|].
  simpl in Hs. apply andb_true_iff in Hs as [Hc Hs].
  cbn [flat_map]. apply within_app. split; [now apply within_escape | now apply IH].
Qed.

Lemma within_indent (n : nat) : forallb P (Json.newline_indent n) = true.
Proof.
  apply within_ascii. unfold Json.newline_indent, ascii_text.
  change (forallb is_ascii (10%N :: repeat 32%N (4 * n)))
    with (forallb is_ascii (repeat 32%N (4 * n))).
  induction (4 * n)%nat as [|k IH]; [reflexivity | exact IH].
Qed.

Lemma within_join (sep : str) (parts : list str) :
  forallb P sep = true -> Forall (fun p => forallb P p = true) parts ->
  forallb P (join_with sep parts) = true.
Proof.
  intros Hsep Hall. induction Hall as [|p parts Hp _ IH]; [reflexivity|].
  destruct parts as [|q parts]; [exact Hp|].
  change (join_with sep (p :: q :: parts))
    with (p ++ sep ++ join_with sep (q :: parts)).
  apply within_app. split; [exact Hp|]. apply within_app. now split.
Qed.

Lemma within_bracket (lvl : nat) (parts : list str) :
  Forall (fun p => forallb P p = true) parts ->
  forallb P (Json.bracket 123 125 lvl parts) = true.
Proof.
  intros Hall. unfold Json.bracket.
  destruct parts as [|p parts]; [now apply within_ascii|].
  apply within_app. split; [now apply within_ascii|].
  apply within_app. split; [apply within_indent|].
  apply within_app. split.
  - apply within_join; [|exact Hall].
    change (forallb P ([44%N] ++ Json.newline_indent (S lvl)) = true).
    apply within_app. split; [now apply within_ascii | apply within_indent].
  - apply within_app. split; [apply within_indent | now apply within_ascii].
Qed.

Lemma within_dict_text {A} (lvl : nat) (d : dict A) (txt : A -> str) :
  (forall k a, In (k, a) d ->
     forallb P (Json.key_str k) = true /\ forallb P (txt a) = true) ->
  forallb P (Json.bracket 123 125 lvl (map Json.member (map (on_snd txt) d)))
  = true.
Proof.
  intros H. apply within_bracket. apply Forall_forall. intros p Hp.
  apply in_map_iff in Hp as [[k t] [<- Hin]].
  apply in_map_iff in Hin as [[k' a] [E Hin]]. injection E as -> <-.
  destruct (H k a Hin) as [Hk Ha]. unfold Json.member. cbn [fst snd on_snd].
  apply within_app. split; [now apply within_quote|].
  apply within_app. split; [now apply within_ascii | exact Ha].
Qed.

Lemma within_snapshot_text (lvl : nat) (s : snapshot) :
  well_keyed s ->
  (forall k t, In (k, t) s ->
     forallb P (Json.key_str k) = true
     /\ forall k' v, In (k', v) t ->
          forallb P (Json.key_str k') = true /\ forallb P v = true) ->
  forallb P (snapshot_text lvl s) = true.
Proof.
  intros [Hk [_ Ht]] He. destruct (sorted_dict_eq s Hk) as [_ Hp].
  apply within_dict_text. intros k t Hin.
  apply (Permutation_in _ Hp) in Hin. destruct (He k t Hin) as [Hek Hev].
  split; [exact Hek|]. destruct (Ht k t Hin) as [Hkt _].
  destruct (sorted_dict_eq t Hkt) as [_ Hpt].
  apply within_dict_text. intros k' v Hin'.
  apply (Permutation_in _ Hpt) in Hin'. destruct (Hev k' v Hin') as [H1 H2].
  split; [exact H1 | now apply within_quote].
Qed.
End Alphabet.

(** ** The text can be encoded *)

Lemma ascii_is_scalar (c : N) : is_ascii c = true -> is_scalar c = true.
Proof.
  unfold is_ascii, is_scalar, is_surrogate. intros H. apply N.ltb_lt in H.
  destruct (N.ltb_spec c 1114112); [|lia].
  destruct (N.leb_spec 55296 c); [lia | reflexivity].
Qed.

Lemma encodable_app (a b : str) : encodable (a ++ b) <-> encodable a /\ encodable b.
Proof. apply within_app. Qed.

Lemma encodable_quote (s : str) : encodable s -> encodable (Json.quote s).
Proof. apply (within_quote is_scalar ascii_is_scalar). Qed.

Lemma encodable_dict_text {A} (lvl : nat) (d : dict A) (txt : A -> str) :
  (forall k a, In (k, a) d -> encodable (Json.key_str k) /\ encodable (txt a)) ->
  encodable (Json.bracket 123 125 lvl (map Json.member (map (on_snd txt) d))).
Proof. apply (within_dict_text is_scalar ascii_is_scalar). Qed.

Lemma encodable_snapshot_text (lvl : nat) (s : snapshot) :
  well_keyed s -> encodable_snapshot s -> encodable (snapshot_text lvl s).
Proof. apply (within_snapshot_text is_scalar ascii_is_scalar). Qed.

(** ** Equality of the loaded snapshot *)

Lemma py_eqb_dict (d1 d2 : bool) (x y : list (pykey * pyval)) :
  List.length x = List.length y ->
  (forall k v, In (k, v) x -> exists w, dict_get k y = Some w /\ py_eqb v w = true) ->
  py_eqb (PDict d1 x) (PDict d2 y) = true.
Proof.
  intros Hlen H. cbn [py_eqb]. rewrite Hlen, Nat.eqb_refl. cbn [andb].
  clear Hlen. induction x as [|[k v] x IH]; [reflexivity|].
  destruct (H k v (or_introl eq_refl)) as [w [-> Hw]]. rewrite Hw. cbn [andb].
  apply IH. intros k' v' Hin. apply (H k' v'). now right.
Qed.

Lemma py_eqb_sorted {A} (d : dict A) (val val' : A -> pyval) :
  str_keys d -> wf_dict d ->
  (forall k a, In (k, a) d -> py_eqb (val' a) (val a) = true) ->
  py_eqb (PDict false (map (on_snd val') (sorted_dict d)))
         (PDict false (map (on_snd val) d)) = true.
Proof.
  intros Hk Hwf Hv. destruct (sorted_dict_eq d Hk) as [_ Hp].
  apply py_eqb_dict.
  - rewrite !length_map. now apply Permutation_length.
  - intros k v Hin. apply in_map_iff in Hin as [[k' a] [E Hin]].
    injection E as -> <-. apply (Permutation_in _ Hp) in Hin.
    exists (val a). split; [|now apply (Hv k)].
    apply In_dict_get.
    + unfold wf_dict, dict_keys in *. rewrite map_map. exact Hwf.
    + apply in_map_iff. exists (k, a). split; [reflexivity | exact Hin].
Qed.

Lemma py_eqb_sorted_snapshot (s : snapshot) :
  well_keyed s ->
  py_eqb (pyval_of_snapshot (sorted_snapshot s)) (pyval_of_snapshot s) = true.
Proof.
  intros [Hk [Hwf Ht]]. unfold sorted_snapshot, pyval_of_snapshot. rewrite map_map.
  apply (py_eqb_sorted s pyval_of_tournament
           (fun t => pyval_of_tournament (sorted_dict t)) Hk Hwf).
  intros k t Hin. destruct (Ht k t Hin) as [Hkt Hwt].
  apply (py_eqb_sorted t PStr PStr Hkt Hwt).
  intros k' v _. apply str_eqb_refl.
Qed.

(** ** Saving and loading *)

Lemma save_then_load_text (locale : encoding) (s : snapshot) (text : str)
    (b : bytes) :
  Json.dumps (pyval_of_snapshot s) = Ok text ->
  utf8_encode text = Ok b -> decode locale b = Ok text ->
  save_then_load locale s = Json.loads text.
Proof.
  intros Hd Hb Hdec.
  unfold save_then_load, __dump_to_json, bind, emit. simpl.
  rewrite (json_dump_ok _ _ _ Hd Hb). simpl.
  rewrite Hdec. reflexivity.
Qed.

Lemma save_then_load_utf8 (s : snapshot) (text : str) :
  Json.dumps (pyval_of_snapshot s) = Ok text -> encodable text ->
  save_then_load UTF_8 s = Json.loads text.
Proof.
  intros Hd He. destruct (utf8_encode_ok text He) as [b Hb].
  apply (save_then_load_text UTF_8 s text b Hd Hb).
  exact (utf8_decode_encode _ _ Hb).
Qed.

(** X19.  On a platform whose preferred encoding is UTF-8, a snapshot
    whose ids and field names are strings, none of them twice, and
    whose text can be encoded, is read back by [__load_from_json] as
    [__dump_to_json] saved it: the same ids with the same fields, in
    sorted order, so that it is equal to the saved one as a
    dictionary. *)
Theorem snapshot_round_trips_under_utf8 (s : snapshot) :
  well_keyed s -> encodable_snapshot s ->
  save_then_load UTF_8 s = Ok (pyval_of_snapshot (sorted_snapshot s))
  /\ py_eqb (pyval_of_snapshot (sorted_snapshot s)) (pyval_of_snapshot s) = true.
Proof.
  intros Hs He. split; [|now apply py_eqb_sorted_snapshot].
  rewrite (save_then_load_utf8 s (snapshot_text 0 s)).
  - now apply loads_snapshot_text.
  - now apply dumps_snapshot.
  - now apply encodable_snapshot_text.
Qed.

Lemma snapshot_round_trips_under_utf8_witness :
  save_then_load UTF_8 snapshot_muenchen
  = Ok (pyval_of_snapshot (sorted_snapshot snapshot_muenchen)).
Proof.
  assert (Hk : well_keyed snapshot_muenchen).
  { split; [|split].
    - intros k v [E | []]. injection E as <- _. eexists. reflexivity.
    - repeat constructor. intros [].
    - intros k t [E | []]. injection E as _ <-. split.
      + intros k' v Hin. simpl in Hin.
        destruct Hin as [E | [E | [E | [E | [E | []]]]]]; injection E as <- _;
          eexists; reflexivity.
      + repeat constructor; simpl; intros H;
          repeat (destruct H as [H | H]; [discriminate H|]); exact H. }
  assert (He : encodable_snapshot snapshot_muenchen).
  { intros k t [E | []]. injection E as <- <-. split; [vm_compute; reflexivity|].
    intros k' v Hin. simpl in Hin.
    destruct Hin as [E | [E | [E | [E | [E | []]]]]]; injection E as <- <-;
      split; reflexivity. }
  exact (proj1 (snapshot_round_trips_under_utf8 snapshot_muenchen Hk He)).
Defined.

(** ** Scraped snapshots can be stored *)

Lemma utf8_encode_encodable (s : str) (b : bytes) :
  utf8_encode s = Ok b -> encodable s.
Proof.
  intros H. destruct (utf8_encode_cases s) as [[He _] | [_ He]]; [exact He|].
  rewrite H in He. discriminate He.
Qed.

Lemma lower_hex_encodable (s : str) : forallb is_lower_hex s = true -> encodable s.
Proof.
  unfold encodable. induction s as [|c s IH]; [reflexivity|]. simpl.
  intros H. apply andb_true_iff in H as [Hc Hs]. rewrite (IH Hs), andb_true_r.
  unfold is_lower_hex, in_range in Hc. unfold is_scalar, is_surrogate.
  apply orb_true_iff in Hc as [Hc | Hc]; apply andb_true_iff in Hc as [H1 H2];
    apply N.leb_le in H1, H2;
    destruct (N.ltb_spec c 1114112); try lia;
    destruct (N.leb_spec 55296 c); try lia; reflexivity.
Qed.

Lemma stored_pair_storable (k : pykey) (t : TournamentType) :
  stored_pair k t ->
  (exists uid, k = KStr uid) /\ encodable (Json.key_str k)
  /\ str_keys t /\ wf_dict t
  /\ forall k' v, In (k', v) t -> encodable (Json.key_str k') /\ encodable v.
Proof.
  intros [c [d [l [p [n [uid [Ht [Hu ->]]]]]]]].
  unfold __generate_uid_from_tournament in Hu.
  destruct (utf8_encode (join (dict_values t))) as [b|] eqn:Eb; [|discriminate].
  simpl in Hu. injection Hu as <-.
  apply utf8_encode_encodable in Eb. subst t. rewrite combined_string_eq in Eb.
  apply encodable_app in Eb as [Hc Eb]. apply encodable_app in Eb as [Hd Eb].
  apply encodable_app in Eb as [Hl Eb]. apply encodable_app in Eb as [Hp Hn].
  rewrite make_tournament_items.
  split; [eauto|]. split.
  { simpl. apply lower_hex_encodable. apply (proj2 (hexdigest_shape _)). }
  split.
  { intros k' v Hin. simpl in Hin.
    destruct Hin as [E | [E | [E | [E | [E | []]]]]]; injection E as <- _; eauto. }
  split.
  { unfold wf_dict, dict_keys. simpl.
    repeat constructor; simpl; intros H;
      repeat (destruct H as [H | H]; [discriminate H|]); exact H. }
  intros k' v Hin. simpl in Hin.
  destruct Hin as [E | [E | [E | [E | [E | []]]]]]; injection E as <- <-;
    (split; [reflexivity | assumption]).
Qed.

Lemma scraped_is_storable (config : pyval) (tags : list class_tag) (s : snapshot) :
  scrape_tags config tags = Ok s -> well_keyed s /\ encodable_snapshot s.
Proof.
  intros H.
  assert (Hwf : wf_dict s).
  { apply (scrape_tags_invariant wf_dict) with (config := config) (tags := tags);
      [| constructor | exact H].
    intros acc k t Hacc _. now apply dict_set_wf. }
  assert (Hall : forall k t, In (k, t) s -> stored_pair k t).
  { apply (scrape_tags_invariant
             (fun s => forall k t, In (k, t) s -> stored_pair k t))
      with (config := config) (tags := tags); [| intros k t [] | exact H].
    intros acc k t Hacc Hkt k0 t0 Hin.
    apply dict_set_In in Hin as [[-> ->] | Hin]; [exact Hkt | now apply Hacc]. }
  split.
  - split; [|split; [exact Hwf|]].
    + intros k t Hin. now destruct (stored_pair_storable k t (Hall k t Hin)).
    + intros k t Hin.
      destruct (stored_pair_storable k t (Hall k t Hin)) as [_ [_ [H1 [H2 _]]]].
      now split.
  - intros k t Hin.
    destruct (stored_pair_storable k t (Hall k t Hin)) as [_ [H1 [_ [_ H2]]]].
    now split.
Qed.

(** ** A later run on an unchanged page *)

Lemma snapshot_file_eq (s : snapshot) :
  well_keyed s -> encodable_snapshot s ->
  Json.dumps (pyval_of_snapshot s) = Ok (snapshot_text 0 s)
  /\ utf8_encode (snapshot_text 0 s) = Ok (snapshot_file s)
  /\ parse_file UTF_8 (snapshot_file s) = Ok (pyval_of_snapshot (sorted_snapshot s)).
Proof.
  intros Hs He.
  pose proof (dumps_snapshot 0 s Hs) as Hd.
  destruct (utf8_encode_ok _ (encodable_snapshot_text 0 s Hs He)) as [b Hb].
  assert (E : snapshot_file s = b).
  { unfold snapshot_file. unfold Json.dumps. rewrite Hd. simpl. now rewrite Hb. }
  rewrite E. split; [exact Hd|]. split; [exact Hb|].
  unfold parse_file. simpl. rewrite (utf8_decode_encode _ _ Hb). simpl.
  now apply loads_snapshot_text.
Qed.

Lemma sorted_snapshot_keys (s : snapshot) (k : pykey) :
  well_keyed s -> In k (dict_keys s) -> In k (dict_keys (sorted_snapshot s)).
Proof.
  intros [Hk _] Hin. destruct (sorted_dict_eq s Hk) as [_ Hp].
  unfold sorted_snapshot, dict_keys in *. rewrite map_map.
  apply in_map_iff in Hin as [[k' t] [<- Hin]].
  apply in_map_iff. exists (k', t). split; [reflexivity|].
  apply (Permutation_in _ (Permutation_sym Hp) Hin).
Qed.

Lemma dump_snapshot_ok (s : snapshot) (w : world) :
  well_keyed s -> encodable_snapshot s ->
  __dump_to_json (pyval_of_snapshot s) TOURNAMENT_JSON_NAME w
  = (Ok tt,
     set_files (dict_set (KStr TOURNAMENT_JSON_NAME) (snapshot_file s) (w_files w))
       (set_trace (EvDump TOURNAMENT_JSON_NAME (pyval_of_snapshot s) :: w_trace w) w)).
Proof.
  intros Hs He. destruct (snapshot_file_eq s Hs He) as [Hd [Hb _]].
  unfold __dump_to_json, bind, emit. cbv beta iota.
  rewrite (json_dump_ok _ _ _ Hd Hb). reflexivity.
Qed.

Lemma later_run_up_to_date (config : pyval) (s : snapshot) (w : world) :
  well_keyed s -> encodable_snapshot s ->
  w_locale w = UTF_8 ->
  snapshot_of w = Some (snapshot_file s) ->
  exists w',
    later_run config s w = (Ok tt, w')
    /\ w_trace w' = [EvPrint up_to_date; EvPrint (there_are 0); EvKeysDiff [];
                     EvDump TOURNAMENT_JSON_NAME (pyval_of_snapshot s);
                     EvLoad TOURNAMENT_JSON_NAME] ++ w_trace w
    /\ snapshot_of w' = Some (snapshot_file s).
Proof.
  intros Hs He Hloc Hfile.
  destruct (snapshot_file_eq s Hs He) as [_ [_ Hparse]].
  assert (Hkeys : py_keys (pyval_of_snapshot (sorted_snapshot s))
                  = Ok (dict_keys (sorted_snapshot s))).
  { unfold pyval_of_snapshot, py_keys, dict_keys. now rewrite map_map. }
  assert (Hdiff : keys_difference (dict_keys s) (dict_keys (sorted_snapshot s)) = []).
  { unfold keys_difference. apply filter_none. intros k Hin.
    apply negb_false_iff. apply existsb_pykey_In.
    now apply sorted_snapshot_keys. }
  unfold later_run, bind. rewrite load_reads_file.
  unfold snapshot_of in Hfile. rewrite Hfile, Hloc, Hparse.
  rewrite (dump_snapshot_ok s _ Hs He).
  unfold lift. rewrite Hkeys, Hdiff.
  eexists. split; [reflexivity|]. split; [reflexivity|].
  unfold snapshot_of. cbn [w_files set_files set_trace].
  apply dict_get_set_same.
Qed.

(** X20.  On a platform whose preferred encoding is UTF-8, when the
    stored snapshot is the one [__dump_to_json] wrote for what the
    scraper makes of the page now (with the configuration of this
    run), the run ends well: it loads the snapshot, saves it again,
    finds no new id, prints "There are 0 new tournaments!" and "You
    are up to date!", does not invoke the notifier, and leaves the
    file as it was. *)
Theorem unchanged_page_is_up_to_date (w : world) (config : pyval)
    (tags : list class_tag) (s : snapshot) (r : result unit) (w' : world) :
  w_locale w = UTF_8 ->
  w_web w = Ok tags ->
  snapshot_of w = Some (snapshot_file s) ->
  run w = (r, w') ->
  In (EvScrape config) (events w') ->
  scrape_tags config tags = Ok s ->
  r = Ok tt
  /\ (exists before,
        events w'
        = before ++ [EvLoad TOURNAMENT_JSON_NAME;
                     EvDump TOURNAMENT_JSON_NAME (pyval_of_snapshot s);
                     EvKeysDiff []; EvPrint (there_are 0); EvPrint up_to_date])
  /\ existsb is_send_email (events w') = false
  /\ snapshot_of w' = Some (snapshot_file s).
Proof.
  intros Hloc Hweb Hfile Hrun Hin Hscr.
  destruct (scraped_is_storable _ _ _ Hscr) as [Hs He].
  unfold run in Hrun. set (w0 := set_trace [] w) in *.
  assert (Hnil : w_trace w0 = []) by reflexivity.
  change (snapshot_of w) with (snapshot_of w0) in Hfile.
  unfold events in Hin. apply in_rev in Hin.
  assert (Hcs : forall e, config_event e = true -> is_scrape e = false)
    by (intros []; try discriminate; reflexivity).
  apply parse_intro_cases in Hrun
    as [[e1 [He1 ->]] | [cfg [w1 [Hcfg Hrest]]]].
  { exfalso. destruct (emits_get_user_config _ _ _ He1) as [new [T [F _]]].
    rewrite Hnil, app_nil_r in T. rewrite T in Hin.
    rewrite forallb_forall in F. specialize (Hcs _ (F _ Hin)). discriminate. }
  cbv zeta in Hrest.
  destruct (keeps_get_user_config _ _ _ Hcfg) as [Hl1 [Hw1 _]].
  assert (Hweb1 : w_web w1 = Ok tags) by (rewrite Hw1; exact Hweb).
  assert (Hloc1 : w_locale w1 = UTF_8) by (rewrite Hl1; exact Hloc).
  set (w3 := set_trace (EvHttpGet :: EvScrape cfg :: processing :: w_trace w1) w1)
    in *.
  assert (Hscrape : scrape_relevant_tournaments cfg
                      (set_trace (processing :: w_trace w1) w1)
                    = (scrape_tags cfg tags, w3)).
  { rewrite scrape_reads_page. cbn [w_web set_trace w_trace].
    rewrite Hweb1. reflexivity. }
  rewrite Hscrape in Hrest.
  assert (Hin1 : ~ In (EvScrape config) (w_trace w1)).
  { intros Hin1. destruct (emits_get_user_config _ _ _ Hcfg) as [new [T [F _]]].
    rewrite Hnil, app_nil_r in T. rewrite T in Hin1.
    rewrite forallb_forall in F. specialize (Hcs _ (F _ Hin1)). discriminate. }
  assert (Hcfg3 : In (EvScrape config) (w_trace w3) -> config = cfg).
  { unfold w3. simpl. intros [H | [H | [H | H]]]; try discriminate H.
    - now injection H.
    - contradiction. }
  assert (G3 : grows before_event w0 w3).
  { eapply grows_before; [exact Hcfg | exact Hscrape]. }
  destruct (before_events_stop _ _ Hnil G3) as [Hsnap3 [_ [_ Hno3]]].
  destruct Hrest as [[e2 [Hs2 ->]] | [s' [w3' [Hs2 Hrun]]]].
  { exfalso. injection Hs2 as Hs2 <-.
    rewrite <- (Hcfg3 Hin), Hscr in Hs2. discriminate Hs2. }
  injection Hs2 as Hs2 <-.
  rewrite dict_mem_get in Hrun. fold (snapshot_of w3) in Hrun.
  rewrite Hsnap3, Hfile in Hrun.
  destruct (emits_later_run _ _ _ _ _ Hrun) as [post [T [F _]]].
  assert (config = cfg).
  { rewrite T in Hin. apply in_app_or in Hin as [Hin | Hin]; [|now apply Hcfg3].
    exfalso. rewrite forallb_forall in F. specialize (F _ Hin). discriminate F. }
  subst cfg. assert (s' = s) by congruence. subst s'.
  destruct (later_run_up_to_date config s w3 Hs He) as [w'' [Hlate [Tr Hsnap]]];
    [exact Hloc1 | congruence |].
  rewrite Hlate in Hrun. injection Hrun as <- <-.
  split; [reflexivity|]. split; [|split; [|exact Hsnap]].
  - exists (rev (w_trace w3)). unfold events. rewrite Tr.
    rewrite rev_app_distr. reflexivity.
  - unfold events in *. rewrite Tr, rev_app_distr, existsb_app, Hno3.
    reflexivity.
Qed.

Lemma unchanged_page_is_up_to_date_witness :
  fst (run world_up_to_date) = Ok tt.
Proof.
  assert (H1 : nth_error (events (snd (run world_up_to_date))) 5
               = Some (EvScrape config_mixed_basic)) by (vm_compute; reflexivity).
  assert (H2 : scrape_tags config_mixed_basic page_1 = Ok snapshot_1)
    by (vm_compute; reflexivity).
  exact (proj1 (unchanged_page_is_up_to_date world_up_to_date config_mixed_basic
                  page_1 snapshot_1 (fst (run world_up_to_date))
                  (snd (run world_up_to_date))
                  eq_refl eq_refl eq_refl (surjective_pairing _)
                  (nth_error_In _ _ H1) H2)).
Defined.

(** ** The email address dialogue (lines 137-150) *)

Lemma yes_no_loop_answer (inp : list str) :
  forall tr b inp' tr',
    yes_no_loop inp tr = (Ok b, inp', tr') ->
    exists junk answer,
      inp = junk ++ answer :: inp' /\ Forall unrecognized junk
      /\ b = is_yes (strip (lower answer))
      /\ (is_yes (strip (lower answer)) = true
          \/ is_no (strip (lower answer)) = true).
Proof.
  induction inp as [|l rest IH]; intros tr b inp' tr' H; simpl in H;
    [discriminate|].
  destruct (is_yes (strip (lower l))) eqn:Ey.
  - injection H as <- <- _. exists [], l. rewrite Ey. auto.
  - destruct (is_no (strip (lower l))) eqn:En.
    + injection H as <- <- _. exists [], l. rewrite Ey, En. auto.
    + destruct (IH _ _ _ _ H) as [junk [ans [-> [Hj Hb]]]].
      exists (l :: junk), ans. split; [reflexivity|].
      split; [constructor; [now split | exact Hj] | exact Hb].
Qed.

Lemma yes_no_loop_confirms (junk : list str) (answer : str) (rest : list str) :
  Forall unrecognized junk -> is_yes (strip (lower answer)) = true ->
  forall tr, exists tr',
    yes_no_loop (junk ++ answer :: rest) tr = (Ok true, rest, tr' ++ tr).
Proof.
  intros Hj Hy. induction Hj as [|l junk [Hl1 Hl2] _ IH]; intros tr; simpl.
  - rewrite Hy. now exists [EvInput yes_no_prompt].
  - rewrite Hl1, Hl2.
    destruct (IH (EvPrint not_recognized :: EvInput yes_no_prompt :: tr))
      as [tr' ->].
    exists (tr' ++ [EvPrint not_recognized; EvInput yes_no_prompt]).
    now rewrite <- app_assoc.
Qed.

Lemma parse_email_address_accepts (n : nat) :
  forall inp tr a inp' tr',
    (List.length inp <= n)%nat ->
    parse_email_address inp tr = (Ok a, inp', tr') ->
    address_accepted inp a inp'.
Proof.
  induction n as [|n IH]; intros inp tr a inp' tr' Hlen H.
  - destruct inp; [discriminate H | simpl in Hlen; lia].
  - destruct inp as [|x rest]; [discriminate H|].
    rewrite parse_email_address_unfold in H. cbv zeta in H.
    destruct (email_fullmatch x) eqn:Ex.
    + injection H as <- <- _. exists [], rest. auto.
    + destruct (yes_no_loop rest _) as [[[b|e] r'] t'] eqn:Ey; [|discriminate H].
      destruct (yes_no_loop_answer _ _ _ _ _ Ey) as [junk [ans [-> [Hj [Hb Hans]]]]].
      destruct b.
      * injection H as <- <- _. exists [], (junk ++ ans :: r').
        split; [reflexivity|]. right. split; [exact Ex|].
        exists junk, ans. auto.
      * apply IH in H.
        -- destruct H as [before [after [-> Hcase]]].
           exists (x :: junk ++ ans :: before), after. split; [|exact Hcase].
           simpl. rewrite <- app_assoc. reflexivity.
        -- simpl in Hlen. rewrite length_app in Hlen. simpl in Hlen. lia.
Qed.

(** X21.  The address dialogue of [__parse_email_details]: an address
    that matches the pattern is accepted at once, without a warning; one
    that does not is accepted when the user answers yes to "Invalid
    email address. Do you still want to continue with this email?"; and
    whenever the dialogue returns an address, that address is a line
    the user typed which either matches the pattern or was confirmed in
    this way. *)
Theorem entered_address_matches_or_is_confirmed (w : world) (a : str) :
  (forall rest,
     w_stdin w = a :: rest -> email_fullmatch a = true ->
     run_console parse_email_address w
     = (Ok a, set_stdin rest (set_trace (EvInput email_prompt :: w_trace w) w)))
  /\ (forall junk answer rest,
        w_stdin w = a :: junk ++ answer :: rest -> email_fullmatch a = false ->
        Forall unrecognized junk -> is_yes (strip (lower answer)) = true ->
        exists tr',
          run_console parse_email_address w
          = (Ok a, set_stdin rest
                     (set_trace (tr' ++ EvPrint invalid_email
                                 :: EvInput email_prompt :: w_trace w) w)))
  /\ (forall w',
        run_console parse_email_address w = (Ok a, w') ->
        address_accepted (w_stdin w) a (w_stdin w')).
Proof.
  split; [|split].
  - intros rest Hin Hm. unfold run_console. rewrite Hin.
    rewrite parse_email_address_unfold. cbv zeta. now rewrite Hm.
  - intros junk answer rest Hin Hm Hj Hy. unfold run_console. rewrite Hin.
    rewrite parse_email_address_unfold. cbv zeta. rewrite Hm.
    destruct (yes_no_loop_confirms junk answer rest Hj Hy
                (EvPrint invalid_email :: EvInput email_prompt :: w_trace w))
      as [tr' ->].
    now exists tr'.
  - unfold run_console. intros w' H.
    destruct (parse_email_address (w_stdin w) (w_trace w)) as [[r inp'] tr'] eqn:E.
    injection H as -> <-. simpl.
    exact (parse_email_address_accepts _ _ _ _ _ _ (Nat.le_refl _) E).
Qed.

Lemma entered_address_matches_or_is_confirmed_witness :
  exists tr',
    run_console parse_email_address
      (mk_world UTF_8 [u "me"; u "what?"; u "Y"; u "secret"] [] (Ok []) mail_ok [])
    = (Ok (u "me"),
       set_stdin [u "secret"]
         (set_trace (tr' ++ [EvPrint invalid_email; EvInput email_prompt])
            (mk_world UTF_8 [u "me"; u "what?"; u "Y"; u "secret"] [] (Ok [])
                      mail_ok []))).
Proof.
  assert (Hj : Forall unrecognized [u "what?"]) by (repeat constructor).
  exact (proj1 (proj2 (entered_address_matches_or_is_confirmed
                         (mk_world UTF_8 [u "me"; u "what?"; u "Y"; u "secret"] []
                                   (Ok []) mail_ok []) (u "me")))
           [u "what?"] (u "Y") [u "secret"] eq_refl eq_refl Hj eq_refl).
Defined.

(** ** The email details (lines 129-173) *)

(** X22.  When the user asks for notifications and enters a sender
    address that matches the pattern, a password and a host, the
    recipient is the sender unless another address is asked for: after
    a no to "Do you want to receive your tournament alert at another
    email address than your sender address?" the configuration holds
    the sender as recipient, after a yes the address entered next. *)
Theorem recipient_defaults_to_sender (styles : pyval) (w : world)
    (yes from password host answer : str) (rest : list str) :
  is_yes (strip (lower yes)) = true ->
  email_fullmatch from = true ->
  w_stdin w = yes :: from :: password :: host :: answer :: rest ->
  (is_yes (strip (lower answer)) = false -> is_no (strip (lower answer)) = true ->
   exists w',
     __parse_email_details (PDict true [(KStr (u "playingStyle"), styles)]) w
     = (Ok (with_email styles from from password host), w')
     /\ w_stdin w' = rest)
  /\ (forall to rest',
        is_yes (strip (lower answer)) = true ->
        rest = to :: rest' -> email_fullmatch to = true ->
        exists w',
          __parse_email_details (PDict true [(KStr (u "playingStyle"), styles)]) w
          = (Ok (with_email styles from to password host), w')
          /\ w_stdin w' = rest').
Proof.
  intros Hy Hm Hin. destruct w as [loc inp files web smtp tr].
  simpl in Hin. subst inp.
  unfold __parse_email_details, __yes_no_parser, run_console, input, print, emit,
    lift, ret, bind.
  cbn [w_stdin w_trace set_stdin set_trace w_locale w_files w_web w_smtp].
  cbn [yes_no_loop]. rewrite Hy. cbn [negb].
  cbn [w_stdin w_trace set_stdin set_trace w_locale w_files w_web w_smtp].
  rewrite parse_email_address_unfold. cbv zeta. rewrite Hm.
  cbn [w_stdin w_trace set_stdin set_trace w_locale w_files w_web w_smtp].
  change (py_setitem2 (PDict true [(KStr (u "playingStyle"), styles)]) (u "email")
            (u "from") (PStr from))
    with (Ok (PDict true [(KStr (u "playingStyle"), styles);
                          (KStr (u "email"), PDict false [(KStr (u "from"), PStr from)])])).
  cbv beta iota.
  match goal with
  | |- context [py_setitem2 ?c (u "email") (u "to") (PStr from)] =>
      change (py_setitem2 c (u "email") (u "to") (PStr from))
        with (Ok (PDict true [(KStr (u "playingStyle"), styles);
                              (KStr (u "email"),
                               PDict false [(KStr (u "from"), PStr from);
                                            (KStr (u "to"), PStr from)])]))
  end.
  cbv beta iota.
  cbn [w_stdin w_trace set_stdin set_trace w_locale w_files w_web w_smtp].
  match goal with
  | |- context [py_setitem2 ?c (u "email") (u "password") (PStr password)] =>
      change (py_setitem2 c (u "email") (u "password") (PStr password))
        with (Ok (PDict true [(KStr (u "playingStyle"), styles);
                              (KStr (u "email"),
                               PDict false [(KStr (u "from"), PStr from);
                                            (KStr (u "to"), PStr from);
                                            (KStr (u "password"), PStr password)])]))
  end.
  cbv beta iota.
  cbn [w_stdin w_trace set_stdin set_trace w_locale w_files w_web w_smtp].
  match goal with
  | |- context [py_setitem2 ?c (u "email") (u "host") (PStr host)] =>
      change (py_setitem2 c (u "email") (u "host") (PStr host))
        with (Ok (with_email styles from from password host))
  end.
  cbv beta iota.
  cbn [w_stdin w_trace set_stdin set_trace w_locale w_files w_web w_smtp].
  cbn [yes_no_loop].
  split.
  - intros Hny Hn. rewrite Hny, Hn. eexists. split; reflexivity.
  - intros to rest' Hay -> Hto. rewrite Hay.
    cbn [w_stdin w_trace set_stdin set_trace w_locale w_files w_web w_smtp].
    rewrite parse_email_address_unfold. cbv zeta. rewrite Hto.
    change (py_setitem2 (with_email styles from from password host) (u "email")
              (u "to") (PStr to))
      with (Ok (with_email styles from to password host)).
    eexists. split; reflexivity.
Qed.

Lemma recipient_defaults_to_sender_witness :
  exists w',
    __parse_email_details (PDict true [(KStr (u "playingStyle"), PDict false [])])
      (mk_world UTF_8
         [u "y"; u "me@example.org"; u "secret"; u "smtp.example.org"; u "n"; u "7"]
         [] (Ok []) mail_ok [])
    = (Ok (with_email (PDict false []) (u "me@example.org") (u "me@example.org")
             (u "secret") (u "smtp.example.org")), w')
    /\ w_stdin w' = [u "7"].
Proof.
  exact (proj1 (recipient_defaults_to_sender (PDict false [])
                  (mk_world UTF_8
                     [u "y"; u "me@example.org"; u "secret"; u "smtp.example.org";
                      u "n"; u "7"] [] (Ok []) mail_ok [])
                  (u "y") (u "me@example.org") (u "secret") (u "smtp.example.org")
                  (u "n") [u "7"] eq_refl eq_refl eq_refl) eq_refl eq_refl).
Defined.

(** ** Saving a configuration and reading it back (lines 201-208, 304-316)

    The numbers of a menu are written as decimal numerals, which
    differ for different numbers. *)

Lemma digits_fuel_value (fuel : nat) :
  forall n acc,
    (n < 2 ^ N.of_nat fuel)%N ->
    exists ds, digits_fuel fuel n acc = ds ++ acc /\ int_of_digits ds = n.
Proof.
  unfold int_of_digits.
  induction fuel as [|f IH]; intros n acc Hn.
  - exists []. change (n < 1)%N in Hn. split; [reflexivity | simpl; lia].
  - cbn [digits_fuel]. cbv zeta.
    assert (Hq : (n / 10 < 2 ^ N.of_nat f)%N).
    { rewrite Nat2N.inj_succ, N.pow_succ_r' in Hn.
      apply N.Div0.div_lt_upper_bound. lia. }
    pose proof (N.div_mod n 10 ltac:(lia)) as Hd.
    pose proof (N.mod_lt n 10 ltac:(lia)) as Hm.
    set (q := (n / 10)%N) in *. set (d := (n mod 10)%N) in *. clearbody q d.
    destruct (N.ltb_spec n 10) as [Hlt | Hge].
    + exists [(48 + d)%N]. split; [reflexivity|]. cbn [fold_left].
      clear Hq Hn IH. nia.
    + destruct (IH q ((48 + d)%N :: acc) Hq) as [ds [-> Hv]].
      exists (ds ++ [(48 + d)%N]). split.
      * rewrite <- app_assoc. reflexivity.
      * rewrite fold_left_app, Hv. cbn [fold_left]. clear - Hd. lia.
Qed.


Lemma int_of_str_of_N (n : N) : int_of_digits (str_of_N n) = n.
Proof.
  unfold str_of_N.
  destruct (digits_fuel_value (S (N.to_nat (N.log2 n))) n []) as [ds [E Hv]].
  - rewrite Nat2N.inj_succ, N2Nat.id.
    destruct n as [|p]; [reflexivity|].
    apply N.log2_spec. reflexivity.
  - rewrite E, app_nil_r. exact Hv.
Qed.


Lemma key_str_int_inj (i j : N) :
  Json.key_str (KInt (Z.of_N i)) = Json.key_str (KInt (Z.of_N j)) -> i = j.
Proof.
  unfold Json.key_str, str_of_Z.
  destruct (Z.ltb_spec (Z.of_N i) 0); [lia|].
  destruct (Z.ltb_spec (Z.of_N j) 0); [lia|].
  rewrite !N2Z.id. intros E.
  rewrite <- (int_of_str_of_N i), <- (int_of_str_of_N j). now rewrite E.
Qed.


Lemma digits_fuel_encodable (fuel : nat) :
  forall n acc, encodable acc -> encodable (digits_fuel fuel n acc).
Proof.
  induction fuel as [|f IH]; intros n acc Hacc; [exact Hacc|].
  cbn [digits_fuel]. cbv zeta.
  assert (Hc : encodable ((48 + n mod 10)%N :: acc)).
  { unfold encodable in *. cbn [forallb]. rewrite Hacc, andb_true_r.
    pose proof (N.mod_lt n 10 ltac:(lia)) as Hm.
    set (d := (n mod 10)%N) in *. clearbody d.
    unfold is_scalar, is_surrogate.
    destruct (N.ltb_spec (48 + d) 1114112); [|lia].
    destruct (N.leb_spec 55296 (48 + d)); [lia | reflexivity]. }
  destruct (n <? 10)%N; [exact Hc | now apply IH].
Qed.


Lemma key_str_int_encodable (i : N) : encodable (Json.key_str (KInt (Z.of_N i))).
Proof.
  unfold Json.key_str, str_of_Z.
  destruct (Z.ltb_spec (Z.of_N i) 0); [lia|].
  unfold str_of_N. now apply digits_fuel_encodable.
Qed.


(** Dictionaries of strings, and configurations. *)

Lemma map_on_snd_id {A} (d : dict A) : map (on_snd (fun a => a)) d = d.
Proof. induction d as [|[k a] d IH]; simpl; [reflexivity | now rewrite IH]. Qed.


Lemma distinct_keys_perm {V} (l l' : dict V) :
  Permutation l' l -> distinct_keys l -> distinct_keys l'.
Proof.
  unfold distinct_keys. intros Hp Hl.
  apply (Permutation_NoDup (l := map json_key l)); [|exact Hl].
  apply Permutation_map. now apply Permutation_sym.
Qed.


Lemma dumps_flat (lvl : nat) (dflt : bool) (m : dict pyval) :
  storable_flat m -> Json.dumps_at lvl (PDict dflt m) = Ok (flat_text lvl m).
Proof.
  intros [Hc [Hs _]]. rewrite <- (map_on_snd_id m) at 1.
  apply (dumps_dict_comparable lvl dflt m (fun a => a) str_text Hc).
  intros k a Hin. destruct (Hs k a Hin) as [s ->]. reflexivity.
Qed.


Lemma flat_parses (lvl : nat) (m : dict pyval) :
  storable_flat m -> parses_as (flat_text lvl m) (flat_loaded m).
Proof.
  intros [Hc [Hs Hd]]. destruct (sorted_dict_comparable m Hc) as [_ Hp].
  apply (dict_text_parses_keys lvl (sorted_dict m) str_text (fun v => v)).
  - exact (distinct_keys_perm _ _ Hp Hd).
  - intros k a Hin. apply (Permutation_in _ Hp) in Hin.
    destruct (Hs k a Hin) as [s ->]. apply string_parses.
Qed.


Lemma dumps_config (dflt : bool) (items : dict pyval) :
  storable_config items ->
  Json.dumps (PDict dflt items) = Ok (config_text items).
Proof.
  intros [Hk [_ Hv]]. unfold Json.dumps. rewrite <- (map_on_snd_id items) at 1.
  apply (dumps_dict_comparable 0 dflt items (fun a => a) (inner_text 1)
           (str_keys_comparable _ Hk)).
  intros k v Hin. destruct (Hv k v Hin) as [d [m [-> Hm]]].
  now apply dumps_flat.
Qed.


Lemma loads_config_text (items : dict pyval) :
  storable_config items ->
  Json.loads (config_text items) = Ok (loaded_config items).
Proof.
  intros [Hk [Hwf Hv]].
  destruct (sorted_dict_comparable items (str_keys_comparable _ Hk)) as [_ Hp].
  assert (Hparse : parses_as (config_text items) (loaded_config items)).
  { unfold loaded_config.
    rewrite <- (keyed_by_str_str_keys inner_loaded (sorted_dict items)
                  (str_keys_perm _ _ Hp Hk)).
    apply (dict_text_parses_keys 0 (sorted_dict items) (inner_text 1) inner_loaded).
    - apply str_keys_distinct; [exact (str_keys_perm _ _ Hp Hk)|].
      exact (wf_dict_perm _ _ Hp Hwf).
    - intros k v Hin. apply (Permutation_in _ Hp) in Hin.
      destruct (Hv k v Hin) as [d [m [-> Hm]]]. now apply flat_parses. }
  destruct Hparse as [Hws Hparse].
  specialize (Hws []). specialize (Hparse (S (List.length (config_text items))) []).
  rewrite app_nil_r in *.
  assert (Hhead : exists r, config_text items = 123%N :: r).
  { unfold config_text, Json.bracket.
    destruct (map Json.member _); eexists; reflexivity. }
  destruct Hhead as [r Hr]. unfold Json.loads. rewrite Hr at 1.
  cbv beta iota. rewrite Hws, Hparse by lia. reflexivity.
Qed.


Lemma encodable_flat_text (lvl : nat) (m : dict pyval) :
  storable_flat m -> encodable_flat m -> encodable (flat_text lvl m).
Proof.
  intros [Hc [Hs _]] He. destruct (sorted_dict_comparable m Hc) as [_ Hp].
  apply encodable_dict_text. intros k v Hin.
  apply (Permutation_in _ Hp) in Hin. destruct (Hs k v Hin) as [s ->].
  destruct (He k s Hin) as [H1 H2]. split; [exact H1 | now apply encodable_quote].
Qed.


Lemma encodable_config_text (items : dict pyval) :
  storable_config items ->
  (forall k v, In (k, v) items ->
     encodable (Json.key_str k)
     /\ forall d m, v = PDict d m -> encodable_flat m) ->
  encodable (config_text items).
Proof.
  intros [Hk [_ Hv]] He.
  destruct (sorted_dict_comparable items (str_keys_comparable _ Hk)) as [_ Hp].
  apply encodable_dict_text. intros k v Hin.
  apply (Permutation_in _ Hp) in Hin. destruct (He k v Hin) as [H1 H2].
  split; [exact H1|]. destruct (Hv k v Hin) as [d [m [-> Hm]]].
  apply encodable_flat_text; [exact Hm | now apply (H2 d m)].
Qed.


Lemma dump_then_load_utf8 (data : pyval) (filename text : str) :
  Json.dumps data = Ok text -> encodable text ->
  dump_then_load UTF_8 data filename = Json.loads text.
Proof.
  intros Hd He. destruct (utf8_encode_ok text He) as [b Hb].
  pose proof (utf8_decode_encode _ _ Hb) as Hdec.
  unfold dump_then_load, __dump_to_json, bind, emit.
  cbn [blank_world w_files w_trace set_trace].
  rewrite (json_dump_ok _ _ _ Hd Hb). rewrite load_reads_file.
  cbn [fst w_files set_files set_trace w_locale blank_world dict_set dict_get].
  rewrite pykey_eqb_refl. unfold parse_file, decode. rewrite Hdec. reflexivity.
Qed.


(** What the scraper and the notifier ask of a configuration. *)

Lemma dict_get_map_on_snd {A B} (f : A -> B) (d : dict A) (k : pykey) :
  dict_get k (map (on_snd f) d) = option_map f (dict_get k d).
Proof.
  induction d as [|[k' a] d IH]; simpl; [reflexivity|].
  destruct (pykey_eqb k k'); [reflexivity | exact IH].
Qed.


Lemma dict_get_perm {V} (d d' : dict V) (k : pykey) :
  Permutation d' d -> wf_dict d -> dict_get k d' = dict_get k d.
Proof.
  intros Hp Hwf. pose proof (wf_dict_perm _ _ Hp Hwf) as Hwf'.
  destruct (dict_get k d) as [v|] eqn:E.
  - apply In_dict_get; [exact Hwf'|].
    apply (Permutation_in _ (Permutation_sym Hp)). now apply dict_get_In.
  - apply dict_get_None. apply dict_get_None in E. intros Hin. apply E.
    unfold dict_keys in *. apply in_map_iff in Hin as [x [<- Hx]].
    apply in_map. exact (Permutation_in _ Hp Hx).
Qed.


Lemma str_in_values_perm (name : str) (l l' : list pyval) :
  Permutation l l' -> str_in_values name l = str_in_values name l'.
Proof.
  unfold str_in_values. intros Hp.
  induction Hp as [| x l l' _ IH | x y l | l l' l'' _ IH1 _ IH2]; simpl.
  - reflexivity.
  - now rewrite IH.
  - now rewrite !orb_assoc, (orb_comm _ (match x with PStr s' => _ | _ => _ end)).
  - now rewrite IH1.
Qed.


Lemma loaded_config_get (items : dict pyval) (k : pykey) :
  storable_config items ->
  dict_get k (map (on_snd inner_loaded) (sorted_dict items))
  = option_map inner_loaded (dict_get k items).
Proof.
  intros [Hk [Hwf _]].
  destruct (sorted_dict_comparable items (str_keys_comparable _ Hk)) as [_ Hp].
  rewrite dict_get_map_on_snd. now rewrite (dict_get_perm _ _ k Hp Hwf).
Qed.


Lemma selected_loaded (dflt : bool) (items : dict pyval) (key name : str) :
  storable_config items ->
  dict_mem (KStr key) items = true ->
  selected (loaded_config items) key name = selected (PDict dflt items) key name.
Proof.
  intros Hs Hmem. unfold selected, loaded_config, py_getitem.
  rewrite (loaded_config_get _ _ Hs).
  rewrite dict_mem_get in Hmem.
  destruct (dict_get (KStr key) items) as [v|] eqn:E; [|discriminate]. simpl.
  destruct Hs as [_ [_ Hv]].
  destruct (Hv _ _ (dict_get_In _ _ _ E)) as [d [m [-> [Hc _]]]]. simpl.
  destruct (sorted_dict_comparable m Hc) as [_ Hp].
  f_equal. apply str_in_values_perm.
  unfold dict_values, keyed_by_str. rewrite map_map. cbn [snd].
  now apply Permutation_map.
Qed.


Lemma relevant_class_tags_same (c1 c2 : pyval) :
  (forall name, selected c1 (u "classes") name = selected c2 (u "classes") name) ->
  forall tags acc, relevant_class_tags c1 tags acc = relevant_class_tags c2 tags acc.
Proof.
  intros H tags. induction tags as [|t tags IH]; intros acc; simpl; [reflexivity|].
  destruct (tag_h3 t); [|reflexivity]. rewrite H.
  destruct (selected c2 (u "classes") s); simpl; [apply IH | reflexivity].
Qed.


Lemma scrape_classes_same (c1 c2 : pyval) :
  (forall name,
     selected c1 (u "playingStyle") name = selected c2 (u "playingStyle") name) ->
  forall relevant acc, scrape_classes c1 relevant acc = scrape_classes c2 relevant acc.
Proof.
  intros H.
  assert (Hrow : forall cn row acc, scrape_row c1 cn row acc = scrape_row c2 cn row acc).
  { intros cn row acc. unfold scrape_row.
    destruct (cell row 3); [|reflexivity]. simpl. now rewrite H. }
  assert (Hrows : forall cn rows acc,
             scrape_rows c1 cn rows acc = scrape_rows c2 cn rows acc).
  { intros cn rows. induction rows as [|r rows IH]; intros acc; simpl; [reflexivity|].
    rewrite Hrow. destruct (scrape_row c2 cn r acc); simpl; [apply IH | reflexivity]. }
  intros relevant. induction relevant as [|[k tag] relevant IH]; intros acc; simpl;
    [reflexivity|].
  destruct (tag_tbody tag); [|reflexivity]. rewrite Hrows.
  destruct (scrape_rows c2 _ l acc); simpl; [apply IH | reflexivity].
Qed.


Lemma scrape_tags_same (c1 c2 : pyval) (tags : list class_tag) :
  (forall name, selected c1 (u "classes") name = selected c2 (u "classes") name) ->
  (forall name,
     selected c1 (u "playingStyle") name = selected c2 (u "playingStyle") name) ->
  scrape_tags c1 tags = scrape_tags c2 tags.
Proof.
  intros H1 H2. unfold scrape_tags. rewrite (relevant_class_tags_same c1 c2 H1).
  destruct (relevant_class_tags c2 tags []); simpl; [|reflexivity].
  now apply scrape_classes_same.
Qed.


(** Entered configurations can be stored. *)

Lemma value_at_In (enum : VolleyballEnumType) (i : N) (s : str) :
  value_at enum i = Some s -> In s (map snd enum).
Proof.
  unfold value_at. destruct (nth_error enum (N.to_nat i)) as [m|] eqn:E;
    [|discriminate].
  intros H. injection H as <-. apply in_map. exact (nth_error_In _ _ E).
Qed.


Lemma selection_storable (enum : VolleyballEnumType) (v : pyval) :
  Forall encodable (map snd enum) ->
  selection_of enum v ->
  exists m, v = PDict false m /\ storable_flat m /\ encodable_flat m.
Proof.
  intros Henum [m [-> [_ [Hwf Hm]]]]. exists m. split; [reflexivity|].
  assert (Hk : forall k x, In (k, x) m ->
                 exists i s, k = KInt (Z.of_N i) /\ value_at enum i = Some s
                             /\ x = PStr s).
  { intros k x Hin. apply Hm. now apply In_dict_get. }
  split; [split; [|split]|].
  - apply int_keys_comparable. intros k x Hin.
    destruct (Hk k x Hin) as [i [s [-> _]]]. eauto.
  - intros k x Hin. destruct (Hk k x Hin) as [i [s [_ [_ ->]]]]. eauto.
  - unfold distinct_keys. unfold wf_dict, dict_keys in Hwf.
    clear Hm. induction m as [|[k x] m IH]; simpl; constructor.
    + inversion Hwf as [|? ? Hn _]; subst. intros Hin. apply Hn.
      apply in_map_iff in Hin as [[k' x'] [E Hin]]. apply in_map_iff.
      exists (k', x'). split; [|exact Hin].
      destruct (Hk k x (or_introl eq_refl)) as [i [s [-> _]]].
      destruct (Hk k' x' (or_intror Hin)) as [i' [s' [-> _]]].
      unfold json_key in E. simpl in E |- *. f_equal. f_equal.
      symmetry. now apply key_str_int_inj.
    + inversion Hwf; subst. apply IH; [assumption|].
      intros k' x' Hin. apply (Hk k' x'). now right.
  - intros k s Hin. destruct (Hk k _ Hin) as [i [s' [-> [Hv E]]]].
    injection E as ->. split; [apply key_str_int_encodable|].
    rewrite Forall_forall in Henum. apply Henum. exact (value_at_In _ _ _ Hv).
Qed.


Lemma menu_values_encodable :
  Forall encodable (map snd PlayingStyle)
  /\ Forall encodable (map snd TournamentClass).
Proof. split; repeat constructor. Qed.


Lemma email_storable (from to password host : str) :
  storable_flat [(KStr (u "from"), PStr from); (KStr (u "to"), PStr to);
                 (KStr (u "password"), PStr password);
                 (KStr (u "host"), PStr host)].
Proof.
  split; [|split].
  - apply str_keys_comparable. intros k v Hin. simpl in Hin.
    destruct Hin as [E | [E | [E | [E | []]]]]; injection E as <- _; eauto.
  - intros k v Hin. simpl in Hin.
    destruct Hin as [E | [E | [E | [E | []]]]]; injection E as _ <-; eauto.
  - unfold distinct_keys. simpl.
    repeat constructor; simpl; intros H;
      repeat (destruct H as [H | H]; [discriminate H|]); exact H.
Qed.


Lemma entered_config_storable (c : pyval) :
  entered_config c -> encodable_email c ->
  exists items,
    c = PDict true items /\ storable_config items
    /\ dict_mem (KStr (u "classes")) items = true
    /\ dict_mem (KStr (u "playingStyle")) items = true
    /\ encodable (config_text items).
Proof.
  intros [styles [classes [Hs [Hc [_ Hshape]]]]] He.
  destruct menu_values_encodable as [E1 E2].
  destruct (selection_storable _ _ E1 Hs) as [ms [-> [Hms Ems]]].
  destruct (selection_storable _ _ E2 Hc) as [mc [-> [Hmc Emc]]].
  destruct Hshape as [-> | [email [[from [to [pw [host ->]]]] ->]]].
  - eexists. split; [reflexivity|].
    assert (St : storable_config
                   [(KStr (u "playingStyle"), PDict false ms);
                    (KStr (u "classes"), PDict false mc)]).
    { split; [|split].
      - intros k v [E | [E | []]]; injection E as <- _; eauto.
      - repeat constructor; simpl; intros H;
          repeat (destruct H as [H | H]; [discriminate H|]); exact H.
      - intros k v [E | [E | []]]; injection E as _ <-; eauto. }
    split; [exact St|]. split; [reflexivity|]. split; [reflexivity|].
    apply encodable_config_text; [exact St|].
    intros k v [E | [E | []]]; injection E as <- <-;
      (split; [reflexivity|]); intros d m E; injection E as _ <-; assumption.
  - eexists. split; [reflexivity|].
    assert (St : storable_config
                   [(KStr (u "playingStyle"), PDict false ms);
                    (KStr (u "email"),
                     PDict false [(KStr (u "from"), PStr from);
                                  (KStr (u "to"), PStr to);
                                  (KStr (u "password"), PStr pw);
                                  (KStr (u "host"), PStr host)]);
                    (KStr (u "classes"), PDict false mc)]).
    { split; [|split].
      - intros k v [E | [E | [E | []]]]; injection E as <- _; eauto.
      - repeat constructor; simpl; intros H;
          repeat (destruct H as [H | H]; [discriminate H|]); exact H.
      - intros k v [E | [E | [E | []]]]; injection E as _ <-; eauto.
        do 2 eexists. split; [reflexivity | apply email_storable]. }
    split; [exact St|]. split; [reflexivity|]. split; [reflexivity|].
    apply encodable_config_text; [exact St|].
    intros k v [E | [E | [E | []]]]; injection E as <- <-;
      (split; [reflexivity|]); intros d m E; injection E as _ <-; try assumption.
    intros k s Hin. simpl in Hin.
    destruct Hin as [E | [E | [E | [E | []]]]]; injection E as <- <-;
      (split; [reflexivity|]).
    + apply (He (u "from")). reflexivity.
    + apply (He (u "to")). reflexivity.
    + apply (He (u "password")). reflexivity.
    + apply (He (u "host")). reflexivity.
Qed.


Lemma email_field_loaded (items : dict pyval) (k s : str) :
  storable_config items ->
  email_field (PDict true items) k = Ok s ->
  email_field (loaded_config items) k = Ok s.
Proof.
  intros Hs. unfold email_field, loaded_config, py_getitem.
  rewrite (loaded_config_get _ _ Hs).
  destruct (dict_get (KStr (u "email")) items) as [v|] eqn:E; simpl.
  - destruct Hs as [_ [_ Hv]].
    destruct (Hv _ _ (dict_get_In _ _ _ E)) as [d [m [-> [Hc [_ Hd]]]]]. simpl.
    destruct (sorted_dict_comparable m Hc) as [_ Hp].
    destruct (dict_get (KStr k) m) as [x|] eqn:Ex; [|destruct d; discriminate].
    simpl. intros Hx.
    assert (Hin : In (KStr k, x) (keyed_by_str (fun v => v) (sorted_dict m))).
    { unfold keyed_by_str. apply in_map_iff. exists (KStr k, x).
      split; [reflexivity|].
      apply (Permutation_in _ (Permutation_sym Hp)). now apply dict_get_In. }
    assert (Hwf : wf_dict (keyed_by_str (fun v : pyval => v) (sorted_dict m))).
    { unfold wf_dict, dict_keys, keyed_by_str. rewrite map_map. cbn [fst].
      rewrite <- (map_map json_key KStr).
      pose proof (distinct_keys_perm _ _ Hp Hd) as Hd'. unfold distinct_keys in Hd'.
      clear - Hd'. induction Hd' as [|y l Hy _ IH]; simpl; constructor; [|exact IH].
      intros Hin. apply Hy. apply in_map_iff in Hin as [z [E Hz]].
      now injection E as <-. }
    rewrite (In_dict_get _ _ _ Hwf Hin). exact Hx.
  - discriminate.
Qed.


Lemma py_eqb_dict_differs (d1 d2 : bool) (x y : list (pykey * pyval))
    (k : pykey) (v : pyval) :
  In (k, v) x ->
  match dict_get k y with
  | Some w => py_eqb v w = false
  | None => True
  end ->
  py_eqb (PDict d1 x) (PDict d2 y) = false.
Proof.
  intros Hin Hk. cbn [py_eqb].
  destruct (Nat.eqb (List.length x) (List.length y)); [|reflexivity].
  cbn [andb]. induction x as [|[k0 v0] x IH]; [destruct Hin|].
  destruct Hin as [E | Hin].
  - injection E as -> ->. destruct (dict_get k y) as [w|]; [|reflexivity].
    now rewrite Hk.
  - destruct (dict_get k0 y) as [w|]; [|reflexivity].
    destruct (py_eqb v0 w); [cbn [andb]; now apply IH | reflexivity].
Qed.


Lemma loaded_config_differs (dflt d : bool) (items : dict pyval) (key : str)
    (m : dict pyval) :
  storable_config items ->
  In (KStr key, PDict d m) items -> m <> [] -> int_keys m ->
  py_eqb (loaded_config items) (PDict dflt items) = false.
Proof.
  intros Hs Hin Hne Hint. pose proof Hs as [Hk [Hwf Hv]].
  destruct (sorted_dict_comparable items (str_keys_comparable _ Hk)) as [_ Hp].
  apply (py_eqb_dict_differs false dflt _ _ (KStr key) (flat_loaded m)).
  - apply in_map_iff. exists (KStr key, PDict d m). split; [reflexivity|].
    exact (Permutation_in _ (Permutation_sym Hp) Hin).
  - rewrite (In_dict_get _ _ _ Hwf Hin).
    destruct (sorted_dict_comparable m (int_keys_comparable _ Hint)) as [_ Hpm].
    destruct (sorted_dict m) as [|[k1 v1] r] eqn:Er.
    { apply Permutation_nil in Hpm. congruence. }
    unfold flat_loaded. rewrite Er.
    apply (py_eqb_dict_differs false d _ _ (KStr (Json.key_str k1)) v1);
      [now left|].
    destruct (dict_get (KStr (Json.key_str k1)) m) as [w|] eqn:Ew; [|exact I].
    apply dict_get_In in Ew. destruct (Hint _ _ Ew) as [i Hi]. discriminate Hi.
Qed.


Lemma singleton_selection (enum : VolleyballEnumType) (i : N) (s : str) :
  value_at enum i = Some s ->
  selection_of enum (PDict false [(KInt (Z.of_N i), PStr s)]).
Proof.
  intros Hv. eexists. split; [reflexivity|]. split; [discriminate|].
  split; [repeat constructor; intros []|].
  intros k x Hk. simpl in Hk.
  destruct (pykey_eqb k (KInt (Z.of_N i))) eqn:E; [|discriminate].
  apply pykey_eqb_eq in E. injection Hk as <-. eauto.
Qed.


Lemma config_entered_ok :
  entered_config config_entered /\ encodable_email config_entered.
Proof.
  split.
  - exists (PDict false [(KInt 2, PStr (u "Mixed"))]),
           (PDict false [(KInt 7, PStr (u "basic"))]).
    split; [exact (singleton_selection PlayingStyle 2 (u "Mixed") eq_refl)|].
    split; [exact (singleton_selection TournamentClass 7 (u "basic") eq_refl)|].
    split; [|left; reflexivity].
    intros vals H. injection H as <-. reflexivity.
  - intros k s H. discriminate H.
Qed.

(** X23.  The configuration [parse_user_config] builds, once saved by
    [__dump_to_json] and read by [__load_from_json] on a platform whose
    preferred encoding is UTF-8, is not the configuration that was
    saved (the numbers of the menus, keys of the selections, come back
    as strings), but it selects the same: the scraper makes the same
    snapshot of every page with it, and the notifier reads the same
    email details from it. *)
Theorem stored_config_selects_the_same (c : pyval) :
  entered_config c -> encodable_email c ->
  exists c',
    dump_then_load UTF_8 c USER_CONFIG_JSON_NAME = Ok c'
    /\ (forall tags, scrape_tags c' tags = scrape_tags c tags)
    /\ (forall k s, email_field c k = Ok s -> email_field c' k = Ok s)
    /\ py_eqb c' c = false.
Proof.
  intros Hc He.
  destruct (entered_config_storable c Hc He) as [items [-> [Hs [H1 [H2 Henc]]]]].
  exists (loaded_config items). split; [|split; [|split]].
  - rewrite (dump_then_load_utf8 _ _ (config_text items)).
    + now apply loads_config_text.
    + now apply dumps_config.
    + exact Henc.
  - intros tags. apply scrape_tags_same; intros name; now apply selected_loaded.
  - intros k s. now apply email_field_loaded.
  - destruct Hc as [styles [classes [[ms [-> [Hne [Hwf Hm]]]] [_ [_ Hshape]]]]].
    apply (loaded_config_differs true false items (u "playingStyle") ms Hs).
    + destruct Hshape as [E | [email [_ E]]]; injection E as ->; now left.
    + exact Hne.
    + intros k x Hin. destruct (Hm k x (In_dict_get _ _ _ Hwf Hin)) as [i [s [-> _]]].
      eauto.
Qed.


Lemma stored_config_selects_the_same_witness :
  exists c',
    dump_then_load UTF_8 config_entered USER_CONFIG_JSON_NAME = Ok c'
    /\ py_eqb c' config_entered = false.
Proof.
  destruct (stored_config_selects_the_same config_entered
              (proj1 config_entered_ok) (proj2 config_entered_ok))
    as [c' [H1 [_ [_ H4]]]].
  exists c'. split; assumption.
Defined.

Lemma dump_ok_stores (data : pyval) (filename : str) (w w' : world) :
  __dump_to_json data filename w = (Ok tt, w') ->
  dict_get (KStr filename) (w_files w') = Some (json_file data)
  /\ w_stdin w' = w_stdin w.
Proof.
  unfold __dump_to_json, bind, emit, json_file. cbv beta iota.
  cbn [w_files set_trace].
  destruct (json_dump data) as [r written] eqn:Ed. intros H.
  injection H as -> <-. rewrite (json_dump_inv _ _ Ed).
  cbn [w_files set_files]. split; [|reflexivity].
  apply dict_get_set_same.
Qed.


Lemma parse_file_config (c : pyval) :
  entered_config c -> encodable_email c ->
  exists c',
    parse_file UTF_8 (json_file c) = Ok c'
    /\ (forall tags, scrape_tags c' tags = scrape_tags c tags)
    /\ (forall k s, email_field c k = Ok s -> email_field c' k = Ok s).
Proof.
  intros Hc He.
  destruct (entered_config_storable c Hc He) as [items [-> [Hs [H1 [H2 Henc]]]]].
  exists (loaded_config items). split; [|split].
  - destruct (utf8_encode_ok _ Henc) as [b Hb].
    unfold json_file, parse_file, decode. rewrite (dumps_config true items Hs).
    cbn [rbind]. rewrite Hb, (utf8_decode_encode _ _ Hb). cbn [rbind].
    now apply loads_config_text.
  - intros tags. apply scrape_tags_same; intros name; now apply selected_loaded.
  - intros k s. now apply email_field_loaded.
Qed.


(** X24.  A run that finds the configuration file of an earlier run
    (on a platform whose preferred encoding is UTF-8) and whose user
    answers no to "Do you want create/update your user config?" asks
    nothing more: it reads the file, leaves it as it is, and goes on
    with a configuration that selects the same tournaments and holds
    the same email details as the one that was entered. *)
Theorem stored_config_is_used_again (c : pyval) (w : world) (answer : str)
    (rest : list str) :
  entered_config c -> encodable_email c ->
  w_locale w = UTF_8 ->
  config_of w = Some (json_file c) ->
  w_stdin w = answer :: rest ->
  is_yes (strip (lower answer)) = false -> is_no (strip (lower answer)) = true ->
  exists c' w',
    get_user_config w = (Ok c', w')
    /\ (forall tags, scrape_tags c' tags = scrape_tags c tags)
    /\ (forall k s, email_field c k = Ok s -> email_field c' k = Ok s)
    /\ w_stdin w' = rest /\ w_files w' = w_files w.
Proof.
  intros Hc He Hloc Hfile Hin Hy Hn.
  destruct (parse_file_config c Hc He) as [c' [Hparse [Hscr Hem]]].
  exists c'. destruct w as [loc inp files web smtp tr].
  cbn [w_locale w_stdin] in Hloc, Hin. subst loc inp.
  unfold config_of in Hfile. cbn [w_files] in Hfile.
  unfold get_user_config, __yes_no_parser, run_console, print, emit, isfile, bind.
  cbn [w_stdin w_trace set_stdin set_trace w_locale w_files w_web w_smtp].
  cbn [yes_no_loop]. rewrite Hy, Hn.
  cbn [w_stdin w_trace set_stdin set_trace w_locale w_files w_web w_smtp].
  rewrite dict_mem_get, Hfile. cbn [orb negb].
  rewrite load_reads_file.
  cbn [w_stdin w_trace set_stdin set_trace w_locale w_files w_web w_smtp].
  rewrite Hfile, Hparse.
  eexists. split; [reflexivity|]. auto.
Qed.


Lemma stored_config_is_used_again_witness :
  exists c' w',
    get_user_config
      (mk_world UTF_8 [u "n"; u "n"]
         [(KStr USER_CONFIG_JSON_NAME, json_file config_entered)]
         (Ok page_12) mail_ok [])
    = (Ok c', w')
    /\ w_stdin w' = [u "n"].
Proof.
  destruct (stored_config_is_used_again config_entered
              (mk_world UTF_8 [u "n"; u "n"]
                 [(KStr USER_CONFIG_JSON_NAME, json_file config_entered)]
                 (Ok page_12) mail_ok [])
              (u "n") [u "n"]
              (proj1 config_entered_ok) (proj2 config_entered_ok)
              eq_refl eq_refl eq_refl eq_refl eq_refl)
    as [c' [w' [H1 [_ [_ [H2 _]]]]]].
  exists c', w'. split; assumption.
Defined.

(** X25.  The configuration a run works with is either entered in
    this run, and then it has been written to the configuration file,
    or read from the configuration file, after a no to "Do you want
    create/update your user config?", and then the file is left as it
    was. *)
Theorem config_is_entered_and_stored_or_loaded (w : world) (c : pyval) (w' : world) :
  get_user_config w = (Ok c, w') ->
  ((exists wa wb, parse_user_config wa = (Ok c, wb))
   /\ config_of w' = Some (json_file c))
  \/ (exists b, config_of w = Some b
                /\ parse_file (w_locale w) b = Ok c
                /\ config_of w' = Some b
                /\ exists junk answer,
                     w_stdin w = junk ++ answer :: w_stdin w'
                     /\ Forall unrecognized junk
                     /\ is_no (strip (lower answer)) = true).
Proof.
  unfold get_user_config. intros H.
  apply bind_ok_inv in H as [[] [w1 [H1 H]]]. injection H1 as <-.
  apply bind_ok_inv in H as [[] [w2 [H2 H]]]. injection H2 as <-.
  apply bind_ok_inv in H as [upd [w3 [H3 H]]].
  apply bind_ok_inv in H as [ex [w4 [H4 H]]]. injection H4 as <- <-.
  destruct (upd || negb _) eqn:Eb.
  - left.
    apply bind_ok_inv in H as [[] [w5 [_ H]]].
    apply bind_ok_inv in H as [cfg [w6 [Hp H]]].
    apply bind_ok_inv in H as [[] [w7 [Hd H]]].
    injection H as <- <-. split; [eauto|].
    exact (proj1 (dump_ok_stores _ _ _ _ Hd)).
  - right. apply orb_false_iff in Eb as [-> Eb]. apply negb_false_iff in Eb.
    unfold __yes_no_parser, run_console in H3.
    cbn [w_stdin w_trace set_trace] in H3.
    destruct (yes_no_loop (w_stdin w) _) as [[r inp'] tr'] eqn:Ey.
    injection H3 as -> <-.
    destruct (yes_no_loop_answer _ _ _ _ _ Ey) as [junk [ans [Hin [Hj [Hb Hans]]]]].
    rewrite load_reads_file in H.
    cbn [w_files set_stdin set_trace w_locale] in H, Eb.
    rewrite dict_mem_get in Eb. unfold config_of.
    destruct (dict_get (KStr USER_CONFIG_JSON_NAME) (w_files w)) as [b|] eqn:Ef;
      [|discriminate Eb].
    injection H as H <-. exists b. cbn [w_files w_stdin set_stdin set_trace].
    repeat split; try assumption.
    exists junk, ans. repeat split; try assumption.
    destruct Hans as [Hans | Hans]; [congruence | exact Hans].
Qed.


Lemma config_is_entered_and_stored_or_loaded_witness :
  config_of (snd (get_user_config world_interactive))
  = Some (json_file config_entered)
  \/ exists b, config_of world_interactive = Some b.
Proof.
  assert (H : fst (get_user_config world_interactive) = Ok config_entered)
    by (vm_compute; reflexivity).
  destruct (config_is_entered_and_stored_or_loaded world_interactive config_entered
              (snd (get_user_config world_interactive))
              (eq_trans (surjective_pairing _) (f_equal (fun r => (r, _)) H)))
    as [[_ H1] | [b [H1 _]]].
  - left. exact H1.
  - right. exists b. exact H1.
Defined.

(** ** Snapshots of ASCII text on every platform *)

Lemma utf8_encode_ascii (s : str) : ascii_text s -> utf8_encode s = Ok s.
Proof.
  unfold ascii_text. induction s as [|c s IH]; [reflexivity|].
  cbn [forallb utf8_encode]. intros H. apply andb_true_iff in H as [Hc Hs].
  unfold is_ascii in Hc. unfold utf8_encode_char. rewrite Hc.
  cbn [rbind]. rewrite (IH Hs). reflexivity.
Qed.

Lemma cp1252_decode_ascii (b : bytes) : ascii_text b -> cp1252_decode b = Ok b.
Proof.
  unfold ascii_text. induction b as [|x b IH]; [reflexivity|].
  cbn [forallb cp1252_decode]. intros H. apply andb_true_iff in H as [Hx Hb].
  unfold is_ascii in Hx. apply N.ltb_lt in Hx.
  unfold cp1252_decode_char, in_range.
  destruct (N.leb_spec 128 x); [lia|]. cbn [andb].
  destruct (N.ltb_spec x 256); [|lia].
  cbn [rbind]. rewrite (IH Hb). reflexivity.
Qed.

(** X26.  Whatever the preferred encoding of the platform, UTF-8 or
    Windows-1252, a snapshot whose ids and field names are strings,
    none of them twice, and whose text is ASCII, is read back by
    [__load_from_json] as [__dump_to_json] saved it: the file is
    written as UTF-8 and read in the platform's encoding, and the two
    agree on ASCII text. *)
Theorem ascii_snapshot_round_trips_everywhere (locale : encoding) (s : snapshot) :
  well_keyed s -> ascii_snapshot s ->
  save_then_load locale s = Ok (pyval_of_snapshot (sorted_snapshot s))
  /\ py_eqb (pyval_of_snapshot (sorted_snapshot s)) (pyval_of_snapshot s) = true.
Proof.
  intros Hs Ha. split; [|now apply py_eqb_sorted_snapshot].
  assert (Htext : ascii_text (snapshot_text 0 s)).
  { apply (within_snapshot_text is_ascii (fun c H => H) 0 s Hs). exact Ha. }
  rewrite (save_then_load_text locale s (snapshot_text 0 s) (snapshot_text 0 s)).
  - now apply loads_snapshot_text.
  - now apply dumps_snapshot.
  - now apply utf8_encode_ascii.
  - destruct locale; simpl.
    + apply utf8_decode_encode. now apply utf8_encode_ascii.
    + now apply cp1252_decode_ascii.
Qed.

Lemma ascii_snapshot_round_trips_everywhere_witness :
  save_then_load CP1252 snapshot_12
  = Ok (pyval_of_snapshot (sorted_snapshot snapshot_12)).
Proof.
  assert (Hf : forall t, In t [tournament_1; tournament_2] ->
            str_keys t /\ NoDup (map fst t)).
  { intros t [<- | [<- | []]]; (split;
      [ intros k' v Hin; simpl in Hin;
        destruct Hin as [E | [E | [E | [E | [E | []]]]]]; injection E as <- _;
          eexists; reflexivity
      | repeat constructor; simpl; intros H;
          repeat (destruct H as [H | H]; [discriminate H|]); exact H ]). }
  assert (Hk : well_keyed snapshot_12).
  { split; [|split].
    - intros k v [E | [E | []]]; injection E as <- _; eexists; reflexivity.
    - repeat constructor; [|intros []].
      intros [H | []]. apply (f_equal (fun k => match k with
        | KStr a => str_eqb a (uid_of tournament_1) | KInt _ => false end)) in H.
      vm_compute in H. discriminate H.
    - intros k t [E | [E | []]]; injection E as _ <-; apply Hf; simpl; auto. }
  assert (He : ascii_snapshot snapshot_12).
  { intros k t [E | [E | []]]; injection E as <- <-;
      (split; [vm_compute; reflexivity|]);
      intros k' v Hin; simpl in Hin;
      destruct Hin as [E | [E | [E | [E | [E | []]]]]]; injection E as <- <-;
        split; reflexivity. }
  exact (proj1 (ascii_snapshot_round_trips_everywhere CP1252 snapshot_12 Hk He)).
Defined.

(** ** Blocks with the same heading (lines 240-245) *)

Lemma dict_set_differ {V} (k : pykey) (v1 v2 : V) (d : dict V) :
  differ_at k (dict_set k v1 d) (dict_set k v2 d).
Proof.
  induction d as [|[k' v'] d IH]; simpl.
  - constructor.
  - destruct (pykey_eqb k k') eqn:E.
    + apply pykey_eqb_eq in E. subst k'. constructor.
    + constructor; [exact E | exact IH].
Qed.

Lemma dict_set_differ_same {V} (k : pykey) (v : V) (d1 d2 : dict V) :
  differ_at k d1 d2 -> dict_set k v d1 = dict_set k v d2.
Proof.
  induction 1 as [v1 v2 d | [k' v'] d1 d2 E _ IH]; simpl.
  - now rewrite pykey_eqb_refl.
  - simpl in E. rewrite E, IH. reflexivity.
Qed.

Lemma dict_set_differ_other {V} (k k' : pykey) (v : V) (d1 d2 : dict V) :
  pykey_eqb k' k = false -> differ_at k d1 d2 ->
  differ_at k (dict_set k' v d1) (dict_set k' v d2).
Proof.
  intros Hne. induction 1 as [v1 v2 d | [kx vx] d1 d2 E H IH]; simpl.
  - rewrite Hne. constructor.
  - destruct (pykey_eqb k' kx).
    + constructor; [exact E | exact H].
    + constructor; [exact E | exact IH].
Qed.

Lemma relevant_class_tags_app config (pre rest : list class_tag) :
  forall acc,
    relevant_class_tags config (pre ++ rest) acc
    = let? a := relevant_class_tags config pre acc in
      relevant_class_tags config rest a.
Proof.
  induction pre as [|t pre IH]; intros acc; simpl; [reflexivity|].
  destruct (tag_h3 t) as [h|]; [|reflexivity].
  destruct (selected config (u "classes") h) as [keep|]; [|reflexivity].
  simpl. apply IH.
Qed.

Lemma relevant_class_tags_differ config (h : str) (all : list class_tag) :
  selected config (u "classes") h = Ok true ->
  forall d1 d2,
    differ_at (KStr h) d1 d2 ->
    (exists t, In t all /\ tag_h3 t = Some h) ->
    relevant_class_tags config all d1 = relevant_class_tags config all d2.
Proof.
  intros Hsel. induction all as [|t all IH]; intros d1 d2 Hd [t0 [Hin Ht0]].
  - destruct Hin.
  - simpl. destruct (tag_h3 t) as [h'|] eqn:Hh; [|reflexivity].
    destruct (selected config (u "classes") h') as [keep|] eqn:Hk; [|reflexivity].
    simpl. destruct (str_eqb h' h) eqn:E.
    + apply str_eqb_eq in E. subst h'.
      assert (keep = true) by congruence. subst keep.
      now rewrite (dict_set_differ_same _ t _ _ Hd).
    + assert (Hrest : exists t, In t all /\ tag_h3 t = Some h).
      { exists t0. split; [|exact Ht0]. destruct Hin as [<- | Hin]; [|exact Hin].
        rewrite Ht0 in Hh. injection Hh as <-.
        rewrite str_eqb_refl in E. discriminate E. }
      destruct keep; [|now apply IH].
      apply IH; [|exact Hrest]. now apply dict_set_differ_other.
Qed.

(** X27.  Where two blocks of the page have the same heading, the
    earlier one has no part in the result: [relevant_class_tags_by_name]
    is keyed by the heading (line 245), so the later block replaces the
    earlier one, and the scrape gives the same, a snapshot or an error,
    whatever the rows of the earlier block are. *)
Theorem repeated_heading_shadows_earlier_block (config : pyval)
    (pre mid post : list class_tag) (t1 t1' t2 : class_tag) :
  tag_h3 t1 = tag_h3 t2 -> tag_h3 t1' = tag_h3 t2 ->
  scrape_tags config (pre ++ t1 :: mid ++ t2 :: post)
  = scrape_tags config (pre ++ t1' :: mid ++ t2 :: post).
Proof.
  intros H1 H1'. unfold scrape_tags. f_equal.
  rewrite !relevant_class_tags_app.
  destruct (relevant_class_tags config pre []) as [a|]; [|reflexivity].
  simpl. rewrite H1, H1'. destruct (tag_h3 t2) as [h|] eqn:Hh; [|reflexivity].
  destruct (selected config (u "classes") h) as [[|]|] eqn:Hsel;
    [|reflexivity|reflexivity].
  simpl. apply (relevant_class_tags_differ config h _ Hsel).
  - apply dict_set_differ.
  - exists t2. split; [|exact Hh]. apply in_or_app. right. now left.
Qed.

Lemma repeated_heading_shadows_earlier_block_witness :
  scrape_tags config_mixed_basic
    [mk_tag (Some (u "basic")) (Some [row_1]); mk_tag (Some (u "basic")) (Some [row_2])]
  = scrape_tags config_mixed_basic
      [mk_tag (Some (u "basic")) None; mk_tag (Some (u "basic")) (Some [row_2])].
Proof.
  exact (repeated_heading_shadows_earlier_block config_mixed_basic [] [] []
           (mk_tag (Some (u "basic")) (Some [row_1]))
           (mk_tag (Some (u "basic")) None)
           (mk_tag (Some (u "basic")) (Some [row_2])) eq_refl eq_refl).
Defined.

(** ** The file a dump writes (lines 201-203) *)






